(** * TypeI18n: schema unification and diagnostics ([src/gen.ts])

    A shallow embedding of [toTypeNode], [merge] and [gen], of the handler
    of the command line that calls them ([run], [generate], [generateLazy],
    the cache of the watch mode, [handleInitial]) and of the earlier
    revision of the generator.  The JavaScript
    containers the code relies on ([Set], [Map], plain objects) are modelled
    with their iteration order, because the order in which diagnostics are
    numbered in the thrown error follows it.

    The modules [./utils], [./helper], [./factory], [./types] and [./locales]
    are imported by [gen.ts] but are not part of the sources at hand.  What
    the engine only passes through (message wording, the placeholder syntax,
    the printer) is taken as a parameter, bundled in [Collaborators]; the
    messages among them are the state of the catalogue [i18n], which [gen]
    reads and does not get as an argument.  The few helpers whose behaviour
    matters are modelled from the specification and marked as such. *)

From Stdlib Require Import List String Ascii Bool Arith NArith ZArith Lia.
From Stdlib Require Import DecimalString DecimalNat DecimalZ Permutation.
Import ListNotations.
Local Open Scope string_scope.
Local Open Scope list_scope.

(** ** JavaScript containers *)

(** [Set<string>]: no duplicates, iteration in insertion order. *)
Module JsSet.
Definition t := list string.
Definition empty : t := [].
Definition has (x : string) (s : t) : bool := existsb (String.eqb x) s.
Definition add (x : string) (s : t) : t := if has x s then s else s ++ [x].
Definition size (s : t) : nat := List.length s.
(** [new Set(iterable)] *)
Definition of_list (l : list string) : t := fold_left (fun s x => add x s) l empty.
End JsSet.

(** [Map<string, V>]: [set] on a present key keeps its position. *)
Module JsMap.
Section WithValue.
Context {V : Type}.
Definition t := list (string * V).
Definition empty : t := [].
Fixpoint get (k : string) (m : t) : option V :=
  match m with
  | [] => None
  | (k', v) :: m' => if String.eqb k k' then Some v else get k m'
  end.
Fixpoint replace (k : string) (v : V) (m : t) : t :=
  match m with
  | [] => []
  | (k', v') :: m' =>
      if String.eqb k k' then (k', v) :: m' else (k', v') :: replace k v m'
  end.
Definition set (k : string) (v : V) (m : t) : t :=
  match get k m with
  | Some _ => replace k v m
  | None => m ++ [(k, v)]
  end.
Definition size (m : t) : nat := List.length m.
(** [m.delete(k)] *)
Definition delete (k : string) (m : t) : t :=
  filter (fun entry => negb (String.eqb k (fst entry))) m.
End WithValue.
Arguments t : clear implicits.
End JsMap.

(** A plain object used as a dictionary.  The list is the object's own
    properties in the order [Object.entries] yields them: array-index keys
    first, ascending, then the other keys in insertion order.  Besides its
    own properties a plain object has the members it inherits from
    [Object.prototype]: the [in] operator and a property read see them
    ([lookup]), an enumeration does not.  An assignment to [__proto__] runs
    the setter of [Object.prototype] and adds no own property ([assign]); the
    prototype it installs is not modelled: the statements that depend on
    what the dictionary of a locale inherits are made for locales without an
    entry under [__proto__] ([proto_free]). *)
Module JsObject.
(** [Object.getOwnPropertyNames(Object.prototype)] *)
Definition prototype_names : list string :=
  ["constructor"; "__defineGetter__"; "__defineSetter__"; "hasOwnProperty";
   "__lookupGetter__"; "__lookupSetter__"; "isPrototypeOf"; "propertyIsEnumerable";
   "toString"; "valueOf"; "__proto__"; "toLocaleString"].

(** [k in {}]: the key names a member every plain object inherits. *)
Definition inherited (k : string) : bool := existsb (String.eqb k) prototype_names.

Definition digit (c : ascii) : option N :=
  let n := N_of_ascii c in
  if ((48 <=? n) && (n <=? 57))%N then Some (n - 48)%N else None.

Fixpoint digits (s : string) (acc : N) : option N :=
  match s with
  | EmptyString => Some acc
  | String c s' =>
      match digit c with
      | Some d => digits s' (10 * acc + d)%N
      | None => None
      end
  end.

(** An array index: a canonical numeric string (one that printing its
    value gives back) below [2^32 - 1]. *)
Definition array_index (s : string) : option N :=
  match digits s 0 with
  | Some n =>
      if String.eqb (NilZero.string_of_uint (N.to_uint n)) s && (n <? 4294967295)%N
      then Some n else None
  | None => None
  end.

(** The order of two different own keys in an enumeration. *)
Definition key_before (k1 k2 : string) : bool :=
  match array_index k1, array_index k2 with
  | Some a, Some b => (a <? b)%N
  | Some _, None => true
  | None, Some _ => false
  | None, None => negb (String.eqb k1 k2)
  end.

Fixpoint ordered_keys (ks : list string) : bool :=
  match ks with
  | [] => true
  | k :: ks' => forallb (key_before k) ks' && ordered_keys ks'
  end.

Section WithValue.
Context {V : Type}.
Definition t := list (string * V).
Definition empty : t := [].
Definition entries (o : t) : list (string * V) := o.
Definition keys (o : t) : list string := map fst o.
Definition get (k : string) (o : t) : option V := JsMap.get k o.
(** [o] has the own property [k] *)
Definition has (k : string) (o : t) : bool :=
  match get k o with Some _ => true | None => false end.

(** What [k in o] and [o[k]] find: an own property, a member inherited from
    [Object.prototype] (a function, or the prototype itself for [__proto__]:
    none of them has a [kind]), or nothing. *)
Inductive Lookup : Type :=
| Own (v : V)
| Inherited
| Absent.

Definition lookup (k : string) (o : t) : Lookup :=
  match get k o with
  | Some v => Own v
  | None => if inherited k then Inherited else Absent
  end.

(** [k in o] *)
Definition member (k : string) (o : t) : bool :=
  match lookup k o with Absent => false | _ => true end.

Fixpoint insert_index (n : N) (k : string) (v : V) (o : t) : t :=
  match o with
  | [] => [(k, v)]
  | (k', v') :: o' =>
      match array_index k' with
      | Some n' =>
          if (n' <? n)%N then (k', v') :: insert_index n k v o'
          else (k, v) :: o
      | None => (k, v) :: o
      end
  end.

(** The list is an enumeration an object can have: array-index keys first,
    ascending, and no key twice. *)
Definition ordered (o : t) : bool := ordered_keys (keys o).

(** [o[k] = v] where [k] is an own property of [o] or is not [__proto__]:
    the own property is replaced, or added at its place in the enumeration. *)
Definition set (k : string) (v : V) (o : t) : t :=
  if has k o then JsMap.replace k v o
  else match array_index k with
       | Some n => insert_index n k v o
       | None => o ++ [(k, v)]
       end.

(** [o[k] = v] for any key and an object [v]: under [__proto__], where that
    is not an own property of [o], the setter of [Object.prototype] takes
    the value and the own properties stay as they are. *)
Definition assign (k : string) (v : V) (o : t) : t :=
  if String.eqb k "__proto__" && negb (has k o) then o else set k v o.
End WithValue.
Arguments t : clear implicits.
Arguments Lookup : clear implicits.
Arguments Own {V}.
Arguments Inherited {V}.
Arguments Absent {V}.
End JsObject.

(** [Array.prototype.join] *)
Definition join (sep : string) (l : list string) : string := String.concat sep l.

(** Decimal rendering of an array position or a list number. *)
Definition decimal (n : nat) : string := NilZero.string_of_uint (Nat.to_uint n).

Definition newline : string := String "010"%char EmptyString.

(** [array.map((x, idx) => f(x, idx))], with the index starting at [i]. *)
Fixpoint mapi_from {A B : Type} (f : A -> nat -> B) (i : nat) (l : list A) : list B :=
  match l with
  | [] => []
  | x :: l' => f x i :: mapi_from f (S i) l'
  end.

Definition mapi {A B : Type} (f : A -> nat -> B) (l : list A) : list B :=
  mapi_from f 0 l.

(** ** Data model ([./types], [./factory]) *)

Inductive TypeDescriptorKind : Type := KString | KCall | KRecord.

Definition kind_eqb (a b : TypeDescriptorKind) : bool :=
  match a, b with
  | KString, KString | KCall, KCall | KRecord, KRecord => true
  | _, _ => false
  end.

Inductive ArgDescriptor : Type :=
| Literal (text : string)
| Param (name : string).

Unset Elimination Schemes.

(** A record carries the optional [missing] mark of the accumulator that
    [createMissingRecordTypeDescriptor] starts the fold with. *)
Inductive TypeDescriptor : Type :=
| StringTypeDescriptor (value : string)
| CallTypeDescriptor (body : list ArgDescriptor)
| RecordTypeDescriptor (value : JsObject.t TypeDescriptor) (missing : bool).

Set Elimination Schemes.

(** Induction over a descriptor and, below a record, over its entries. *)
Definition TypeDescriptor_tree_ind (P : TypeDescriptor -> Prop)
    (HString : forall value, P (StringTypeDescriptor value))
    (HCall : forall body, P (CallTypeDescriptor body))
    (HRecord : forall value missing,
        Forall (fun entry => P (snd entry)) value ->
        P (RecordTypeDescriptor value missing)) :
    forall d, P d :=
  fix go (d : TypeDescriptor) : P d :=
    match d with
    | StringTypeDescriptor value => HString value
    | CallTypeDescriptor body => HCall body
    | RecordTypeDescriptor value missing =>
        HRecord value missing
          ((fix all (l : list (string * TypeDescriptor))
              : Forall (fun entry => P (snd entry)) l :=
              match l with
              | [] => Forall_nil _
              | entry :: l' => Forall_cons entry (go (snd entry)) (all l')
              end) value)
    end.

Definition kind (d : TypeDescriptor) : TypeDescriptorKind :=
  match d with
  | StringTypeDescriptor _ => KString
  | CallTypeDescriptor _ => KCall
  | RecordTypeDescriptor _ _ => KRecord
  end.

(** [d.value] of a record descriptor. *)
Definition record_value (d : TypeDescriptor) : JsObject.t TypeDescriptor :=
  match d with
  | RecordTypeDescriptor value _ => value
  | _ => JsObject.empty
  end.

(** Modelled from the spec: the factory functions of [./factory], which is
    not among the sources.  A locale-derived record is never provisional; the
    accumulator starts empty and provisional. *)
Definition createStringTypeDescriptor (value : string) : TypeDescriptor :=
  StringTypeDescriptor value.
Definition createCallTypeDescriptor (args : list ArgDescriptor) : TypeDescriptor :=
  CallTypeDescriptor args.
Definition createRecordTypeDescriptor (value : JsObject.t TypeDescriptor) : TypeDescriptor :=
  RecordTypeDescriptor value false.
Definition createMissingRecordTypeDescriptor : TypeDescriptor :=
  RecordTypeDescriptor JsObject.empty true.

(** Modelled from the spec: the type guards of [./utils], which is not among
    the sources; each tests the descriptor's tag. *)
Definition isStringType (d : TypeDescriptor) : bool := kind_eqb (kind d) KString.
Definition isCallType (d : TypeDescriptor) : bool := kind_eqb (kind d) KCall.
Definition isRecordType (d : TypeDescriptor) : bool := kind_eqb (kind d) KRecord.
Definition isParamArgType (a : ArgDescriptor) : bool :=
  match a with Param _ => true | Literal _ => false end.
Definition isMissingRecordTypeDescriptor (d : TypeDescriptor) : bool :=
  match d with
  | RecordTypeDescriptor _ missing => missing
  | _ => false
  end.

(** [delete target.missing] *)
Definition delete_missing (d : TypeDescriptor) : TypeDescriptor :=
  match d with
  | RecordTypeDescriptor value _ => RecordTypeDescriptor value false
  | _ => d
  end.

(** [x => x.name] on an argument already filtered by [isParamArgType]. *)
Definition arg_name (a : ArgDescriptor) : string :=
  match a with Param name => name | Literal text => text end.

Fixpoint list_eqb {A : Type} (eqb : A -> A -> bool) (a b : list A) : bool :=
  match a, b with
  | [], [] => true
  | x :: a', y :: b' => eqb x y && list_eqb eqb a' b'
  | _, _ => false
  end.

(** Modelled from the spec: [arrayEq] of [./utils], which is not among the
    sources: the two sequences are compared for equality, position by
    position, under the key function. *)
Definition arrayEq {A : Type} (a b : list A) (key : A -> string) : bool :=
  list_eqb String.eqb (map key a) (map key b).

(** Modelled from the spec: [diffArray] of [./utils], which is not among the
    sources: the complement of the second set against the first. *)
Definition diffArray (a b : JsSet.t) : list string :=
  filter (fun x => negb (JsSet.has x b)) a.

(** Modelled from the spec: [first] of [./utils], which is not among the
    sources; [None] stands for [undefined] on an empty array. *)
Definition first {A : Type} (l : list A) : option A := hd_error l.

(** A ledger entry of [context.missing]. *)
Module Miss.
Record t : Type := { exist : JsSet.t; missing : JsSet.t }.
End Miss.

Record Context : Type := {
  errors : JsSet.t;
  paths : list string;
  missing : JsMap.t Miss.t
}.

Module NamedValue.
Record t (T : Type) : Type := { name : string; value : T }.
Arguments name {T}.
Arguments value {T}.
Arguments Build_t {T}.
End NamedValue.

Definition named {T : Type} (name : string) (value : T) : NamedValue.t T :=
  {| NamedValue.name := name; NamedValue.value := value |}.

Inductive Target : Type := resource | type | provider.

Definition target_eqb (a b : Target) : bool :=
  match a, b with
  | resource, resource | type, type | provider, provider => true
  | _, _ => false
  end.

Unset Elimination Schemes.

(** What a parsed YAML document can hold.  [typeof] answers ['object'] for a
    mapping, a sequence and [null] alike. *)
Inductive YamlValue (number : Type) : Type :=
| YNumber (n : number)
| YString (s : string)
| YBoolean (b : bool)
| YNull
| YArray (items : list (YamlValue number))
| YObject (entries : list (string * YamlValue number)).
Arguments YNumber {number}.
Arguments YString {number}.
Arguments YBoolean {number}.
Arguments YNull {number}.
Arguments YArray {number}.
Arguments YObject {number}.

Set Elimination Schemes.

(** Induction over a value and, below a sequence or a mapping, over its
    members. *)
Definition YamlValue_tree_ind {number : Type} (P : YamlValue number -> Prop)
    (HNumber : forall n, P (YNumber n))
    (HString : forall s, P (YString s))
    (HBoolean : forall b, P (YBoolean b))
    (HNull : P YNull)
    (HArray : forall items, Forall P items -> P (YArray items))
    (HObject : forall entries,
        Forall (fun entry => P (snd entry)) entries -> P (YObject entries)) :
    forall v, P v :=
  fix go (v : YamlValue number) : P v :=
    match v with
    | YNumber n => HNumber n
    | YString s => HString s
    | YBoolean b => HBoolean b
    | YNull => HNull
    | YArray items =>
        HArray items
          ((fix all (l : list (YamlValue number)) : Forall P l :=
              match l with
              | [] => Forall_nil _
              | x :: l' => Forall_cons x (go x) (all l')
              end) items)
    | YObject entries =>
        HObject entries
          ((fix all (l : list (string * YamlValue number))
              : Forall (fun entry => P (snd entry)) l :=
              match l with
              | [] => Forall_nil _
              | entry :: l' => Forall_cons entry (go (snd entry)) (all l')
              end) entries)
    end.

(** A value of a raw dictionary that holds only strings, numbers and nested
    dictionaries of the same sort. *)
Fixpoint plain_value {number : Type} (v : YamlValue number) : bool :=
  match v with
  | YNumber _ | YString _ => true
  | YObject entries =>
      (fix all (l : list (string * YamlValue number)) : bool :=
         match l with
         | [] => true
         | entry :: l' => plain_value (snd entry) && all l'
         end) entries
  | YBoolean _ | YNull | YArray _ => false
  end.

Definition plain_dictionary {number : Type} (v : YamlValue number) : bool :=
  match v with
  | YObject _ => plain_value v
  | _ => false
  end.

Inductive JsType : Type := TyNumber | TyString | TyObject | TyBoolean.

Definition typeof {number : Type} (v : YamlValue number) : JsType :=
  match v with
  | YNumber _ => TyNumber
  | YString _ => TyString
  | YBoolean _ => TyBoolean
  | YNull | YArray _ | YObject _ => TyObject
  end.

(** Exceptions: the [TypeError] of a built-in, or [new Error(message)]. *)
Inductive Exn : Type := TypeError | Error (message : string).

Inductive Completion (A : Type) : Type :=
| Normal (a : A)
| Throw (e : Exn).
Arguments Normal {A}.
Arguments Throw {A}.

(** What [gen] returns: the code, or the code with the per-locale files. *)
Inductive Output : Type :=
| Code (code : string)
| LazyCode (code : string) (others : list (string * string)).

(** The parts of the program the engine calls but does not define. *)
Record Collaborators (number : Type) : Type := {
  (** [Number.prototype.toString] *)
  toString : number -> string;
  (** [matchCallBody] of [./helper]: [None] when there is no placeholder *)
  matchCallBody : string -> option (list ArgDescriptor);
  (** [getCurrentPath] of [./utils], applied to [context.paths] *)
  getCurrentPath : list string -> string;
  (** the messages of [i18n.t.errors]: the catalogue [i18n] is imported
      (gen.ts line 35), not passed to [gen], and [i18n.setLanguage] replaces
      its language (line 38 of the command line) *)
  unexpected_value : string -> YamlValue number -> string;
  type_of_path_is_unexpected :
    string -> TypeDescriptorKind -> TypeDescriptorKind -> string;
  (** the same message when [actually] is [undefined] (the kind of an
      inherited member), given [path] and [should] *)
  type_of_path_actually_undefined : string -> TypeDescriptorKind -> string;
  (** the same message when [should] is [undefined], given [path] and
      [actually] *)
  type_of_path_should_undefined : string -> TypeDescriptorKind -> string;
  args_is_different : string -> string -> string -> string;
  key_missing_in_path : string -> string -> string;
  (** [print([languageType, resourceType, ...exportDefault])] *)
  print_module :
    list string -> TypeDescriptor -> Target ->
    list (NamedValue.t TypeDescriptor) -> bool -> option string -> string;
  (** [print([ts.createExportAssignment(.., genRecordLiteral(value))])] *)
  print_locale : TypeDescriptor -> string
}.
Arguments toString {number}.
Arguments matchCallBody {number}.
Arguments getCurrentPath {number}.
Arguments unexpected_value {number}.
Arguments type_of_path_is_unexpected {number}.
Arguments type_of_path_actually_undefined {number}.
Arguments type_of_path_should_undefined {number}.
Arguments args_is_different {number}.
Arguments key_missing_in_path {number}.
Arguments print_module {number}.
Arguments print_locale {number}.

(** ** The engine ([src/gen.ts]) *)

Section Engine.
Context {number : Type} (env : Collaborators number).

(** Modelled from the spec: [inPathContext] of [./utils], which is not among
    the sources: the callback runs with the path extended by one segment on
    the same error set and ledger, and the path is restored afterwards. *)
Definition inPathContext {T : Type} (context : Context) (path : string)
    (cb : Context -> T * Context) : T * Context :=
  let '(result, ctx) :=
    cb {| errors := errors context;
          paths := paths context ++ [path];
          missing := missing context |} in
  (result, {| errors := errors ctx;
              paths := paths context;
              missing := missing ctx |}).

(** [`${getCurrentPath(context)}.${key}`] *)
Definition path_of (context : Context) (key : string) : string :=
  getCurrentPath env (paths context) ++ "." ++ key.

(** [context.errors.add(msg)] *)
Definition add_error (msg : string) (context : Context) : Context :=
  {| errors := JsSet.add msg (errors context);
     paths := paths context;
     missing := missing context |}.

(** [Object.entries(s)] of a string: one entry per character. *)
Fixpoint string_entries (i : nat) (s : string) : list (string * YamlValue number) :=
  match s with
  | EmptyString => []
  | String c s' => (decimal i, YString (String c EmptyString)) :: string_entries (S i) s'
  end.

(** [value = value.toString()] falling through to the string case. *)
Definition scalar_text (value : YamlValue number) : string :=
  match value with
  | YNumber n => toString env n
  | YString s => s
  | _ => EmptyString
  end.

(** The callback of [Object.entries(node).forEach] in [toTypeNode]
    (gen.ts lines 39-60); [recur] is [ctx => toTypeNode(value, ctx)]. *)
Definition toTypeNode_entry (key : string) (value : YamlValue number)
    (recur : Context -> Completion TypeDescriptor * Context)
    (record : JsObject.t TypeDescriptor) (context : Context)
    : Completion (JsObject.t TypeDescriptor) * Context :=
  match typeof value with
  | TyNumber | TyString =>
      let value := scalar_text value in
      match matchCallBody env value with
      | None =>
          (Normal (JsObject.assign key (createStringTypeDescriptor value) record), context)
      | Some args =>
          (Normal (JsObject.assign key (createCallTypeDescriptor args) record), context)
      end
  | TyObject =>
      match inPathContext context key recur with
      | (Normal node, context) => (Normal (JsObject.assign key node record), context)
      | (Throw e, context) => (Throw e, context)
      end
  | TyBoolean =>
      (Normal record, add_error (unexpected_value env key value) context)
  end.

(** gen.ts lines 37-63.  [Object.entries] throws a [TypeError] on [null]. *)
Fixpoint toTypeNode (node : YamlValue number) (context : Context) {struct node}
    : Completion TypeDescriptor * Context :=
  let finish (r : Completion (JsObject.t TypeDescriptor) * Context) :=
    match r with
    | (Normal record, context) => (Normal (createRecordTypeDescriptor record), context)
    | (Throw e, context) => (Throw e, context)
    end in
  match node with
  | YNull => (Throw TypeError, context)
  | YNumber _ | YBoolean _ => (Normal (createRecordTypeDescriptor JsObject.empty), context)
  | YString s =>
      finish
        (fold_left
           (fun st entry =>
              match st with
              | (Normal record, context) =>
                  toTypeNode_entry (fst entry) (snd entry)
                    (fun ctx => (Throw TypeError, ctx)) record context
              | (Throw e, context) => (Throw e, context)
              end)
           (string_entries 0 s) (Normal JsObject.empty, context))
  | YArray items =>
      finish
        ((fix forEach (i : nat) (items : list (YamlValue number))
              (record : JsObject.t TypeDescriptor) (context : Context) :=
            match items with
            | [] => (Normal record, context)
            | value :: rest =>
                match toTypeNode_entry (decimal i) value (toTypeNode value) record context with
                | (Normal record, context) => forEach (S i) rest record context
                | (Throw e, context) => (Throw e, context)
                end
            end) 0 items JsObject.empty context)
  | YObject entries =>
      finish
        ((fix forEach (entries : list (string * YamlValue number))
              (record : JsObject.t TypeDescriptor) (context : Context) :=
            match entries with
            | [] => (Normal record, context)
            | (key, value) :: rest =>
                match toTypeNode_entry key value (toTypeNode value) record context with
                | (Normal record, context) => forEach rest record context
                | (Throw e, context) => (Throw e, context)
                end
            end) entries JsObject.empty context)
  end.

(** The loop of [toTypeNode] over the entries of a mapping;
    [toTypeNode_object] shows that it is the loop [toTypeNode] runs. *)
Fixpoint toTypeNode_loop (entries : list (string * YamlValue number))
    (record : JsObject.t TypeDescriptor) (context : Context)
    : Completion (JsObject.t TypeDescriptor) * Context :=
  match entries with
  | [] => (Normal record, context)
  | (key, value) :: rest =>
      match toTypeNode_entry key value (toTypeNode value) record context with
      | (Normal record, context) => toTypeNode_loop rest record context
      | (Throw e, context) => (Throw e, context)
      end
  end.

(** The loop of [toTypeNode] over the items of a sequence, from index [i];
    [toTypeNode_array] shows that it is the loop [toTypeNode] runs. *)
Fixpoint toTypeNode_items (i : nat) (items : list (YamlValue number))
    (record : JsObject.t TypeDescriptor) (context : Context)
    : Completion (JsObject.t TypeDescriptor) * Context :=
  match items with
  | [] => (Normal record, context)
  | value :: rest =>
      match toTypeNode_entry (decimal i) value (toTypeNode value) record context with
      | (Normal record, context) => toTypeNode_items (S i) rest record context
      | (Throw e, context) => (Throw e, context)
      end
  end.

(** [context.missing] after noting that locale [name] lacks the key at
    [path] (gen.ts lines 73-78). *)
Definition note_missing (path name : string) (context : Context) : Context :=
  {| errors := errors context;
     paths := paths context;
     missing :=
       match JsMap.get path (missing context) with
       | None =>
           JsMap.set path
             {| Miss.exist := JsSet.empty; Miss.missing := JsSet.add name JsSet.empty |}
             (missing context)
       | Some miss =>
           JsMap.set path
             {| Miss.exist := Miss.exist miss;
                Miss.missing := JsSet.add name (Miss.missing miss) |}
             (missing context)
       end |}.

(** [context.missing] after noting that locale [name] has the key at [path]
    (gen.ts lines 98-103). *)
Definition note_exists (path name : string) (context : Context) : Context :=
  {| errors := errors context;
     paths := paths context;
     missing :=
       match JsMap.get path (missing context) with
       | None =>
           JsMap.set path
             {| Miss.exist := JsSet.add name JsSet.empty; Miss.missing := JsSet.empty |}
             (missing context)
       | Some miss =>
           JsMap.set path
             {| Miss.exist := JsSet.add name (Miss.exist miss);
                Miss.missing := Miss.missing miss |}
             (missing context)
       end |}.

(** The callback of the first loop of [merge], over the entries of
    [target.value] (gen.ts lines 71-91).  A key that [source.value] only
    inherits passes the [in] test; what is read under it has no [kind], so
    the comparison of the kinds fails with [actually: undefined]. *)
Definition merge_check (source_value : JsObject.t TypeDescriptor) (name : string)
    (context : Context) (entry : string * TypeDescriptor) : Context :=
  let '(key, value) := entry in
  match JsObject.lookup key source_value with
  | JsObject.Absent => note_missing (path_of context key) name context
  | JsObject.Own source_key =>
      if negb (kind_eqb (kind source_key) (kind value)) then
        add_error
          (type_of_path_is_unexpected env (path_of context key) (kind source_key) (kind value))
          context
      else context
  | JsObject.Inherited =>
      add_error (type_of_path_actually_undefined env (path_of context key) (kind value))
        context
  end.

(** [x.map(x => x.name).join(',')] of the parameters of a call body. *)
Definition param_names (body : list ArgDescriptor) : list string :=
  map arg_name (filter isParamArgType body).

(** The callback of the second loop of [merge], over the entries of
    [source.value] (gen.ts lines 93-136).  [recur] is
    [(targetValue, ctx) => merge(targetValue, value, name, ctx)]; a nested
    record it changes is changed in place, hence written back.  A key that
    [target.value] only inherits passes the [in] test of line 94: it is not
    adopted, and what is read under it is no descriptor, so the last branch
    records a diagnostic with [should: undefined].  An adopted
    descriptor is shared with the tree of its locale; a record of a locale
    is never provisional, and [merge] leaves such a record as it is
    ([merge_into_superset], [merge_into_subset]), so the sharing is not
    observable. *)
Definition merge_visit (name key : string) (value : TypeDescriptor)
    (recur : TypeDescriptor -> Context -> TypeDescriptor * Context)
    (target : TypeDescriptor) (context : Context) : TypeDescriptor * Context :=
  match JsObject.lookup key (record_value target) with
  | JsObject.Absent =>
      if isMissingRecordTypeDescriptor target then
        (RecordTypeDescriptor (JsObject.set key value (record_value target)) true, context)
      else (target, note_exists (path_of context key) name context)
  | JsObject.Inherited =>
      (target,
       add_error (type_of_path_should_undefined env (path_of context key) (kind value))
         context)
  | JsObject.Own targetValue =>
      if isStringType targetValue && isStringType value then (target, context)
      else if isCallType targetValue && isCallType value then
        match targetValue, value with
        | CallTypeDescriptor targetBody, CallTypeDescriptor sourceBody =>
            let targetArgs := filter isParamArgType targetBody in
            let sourceArgs := filter isParamArgType sourceBody in
            if negb (arrayEq targetArgs sourceArgs arg_name) then
              (target,
               add_error
                 (args_is_different env (path_of context key)
                    (join "," (map arg_name targetArgs))
                    (join "," (map arg_name sourceArgs)))
                 context)
            else (target, context)
        | _, _ => (target, context)
        end
      else if isRecordType targetValue && isRecordType value then
        let '(merged, context) := inPathContext context key (recur targetValue) in
        (RecordTypeDescriptor (JsObject.set key merged (record_value target))
           (isMissingRecordTypeDescriptor target), context)
      else
        (target,
         add_error
           (type_of_path_is_unexpected env (path_of context key) (kind value) (kind targetValue))
           context)
  end.

(** gen.ts lines 65-143. *)
Fixpoint merge (target source : TypeDescriptor) (name : string) (context : Context)
    {struct source} : TypeDescriptor * Context :=
  match source with
  | RecordTypeDescriptor source_value _ =>
      let context :=
        fold_left (merge_check source_value name)
          (JsObject.entries (record_value target)) context in
      let '(target, context) :=
        (fix forEach (entries : list (string * TypeDescriptor))
             (target : TypeDescriptor) (context : Context) :=
           match entries with
           | [] => (target, context)
           | (key, value) :: rest =>
               let '(target, context) :=
                 merge_visit name key value
                   (fun targetValue ctx => merge targetValue value name ctx)
                   target context in
               forEach rest target context
           end) (JsObject.entries source_value) target context in
      (delete_missing target, context)
  | _ => (target, context)
  end.

(** The second loop of [merge] as a fold; [merge_unfold] shows that it is
    the loop [merge] runs. *)
Definition merge_loop (name : string) (entries : list (string * TypeDescriptor))
    (target : TypeDescriptor) (context : Context) : TypeDescriptor * Context :=
  fold_left
    (fun st entry =>
       merge_visit name (fst entry) (snd entry)
         (fun targetValue ctx => merge targetValue (snd entry) name ctx)
         (fst st) (snd st))
    entries (target, context).

(** [files.map(({name, value}) => ({name, value: toTypeNode(value, context)}))]
    (gen.ts lines 202-205); the first exception ends the map. *)
Fixpoint build (files : list (NamedValue.t (YamlValue number))) (context : Context)
    : Completion (list (NamedValue.t TypeDescriptor)) * Context :=
  match files with
  | [] => (Normal [], context)
  | file :: rest =>
      match toTypeNode (NamedValue.value file) context with
      | (Throw e, context) => (Throw e, context)
      | (Normal node, context) =>
          match build rest context with
          | (Throw e, context) => (Throw e, context)
          | (Normal nodes, context) =>
              (Normal ({| NamedValue.name := NamedValue.name file;
                          NamedValue.value := node |} :: nodes), context)
          end
      end
  end.

(** [typeNodes.reduce((prev, {name, value}) => merge(prev, value, name, context), init)]
    (gen.ts lines 207-210). *)
Definition fold (typeNodes : list (NamedValue.t TypeDescriptor))
    (init : TypeDescriptor) (context : Context) : TypeDescriptor * Context :=
  fold_left
    (fun st node => merge (fst st) (NamedValue.value node) (NamedValue.name node) (snd st))
    typeNodes (init, context).

(** The locales reported for one ledger entry (gen.ts line 214). *)
Definition offending (names : JsSet.t) (entry : Miss.t) : list string :=
  if Nat.eqb (JsSet.size (Miss.exist entry)) 0 then Miss.missing entry
  else diffArray names (Miss.exist entry).

(** The diagnostic of one ledger entry (gen.ts lines 214-220). *)
Definition missing_message (names : JsSet.t) (item : string * Miss.t) : string :=
  key_missing_in_path env (fst item) (join "," (offending names (snd item))).

(** gen.ts lines 212-222. *)
Definition report_missing (names : JsSet.t) (context : Context) : Context :=
  fold_left (fun ctx item => add_error (missing_message names item) ctx)
    (missing context) context.

(** The message of the composite error (gen.ts lines 225-230). *)
Definition composite (errs : JsSet.t) : string :=
  newline ++ "Errors:" ++ newline
  ++ join newline (mapi (fun msg idx => ("  " ++ decimal (idx + 1) ++ ". " ++ msg)%string) errs)
  ++ newline.

(** [defaultLanguage || first(langs)] *)
Definition default_lang (defaultLanguage : option string) (langs : list string)
    : option string :=
  match defaultLanguage with
  | Some (String c s) => Some (String c s)
  | _ => first langs
  end.

Definition name_is (defaultLang : option string) (x : string) : bool :=
  match defaultLang with
  | Some d => String.eqb x d
  | None => false
  end.

(** gen.ts lines 233-268, over the printer of the export backend. *)
Definition emit (files : list (NamedValue.t (YamlValue number)))
    (typeNodes : list (NamedValue.t TypeDescriptor)) (merged : TypeDescriptor)
    (target : Target) (lazy : bool) (defaultLanguage : option string) : Output :=
  let langs := map NamedValue.name files in
  let defaultLang := default_lang defaultLanguage langs in
  let others :=
    if lazy && negb (target_eqb target type) then
      map (fun x => (NamedValue.name x, print_locale env (NamedValue.value x)))
        (filter (fun x => negb (name_is defaultLang (NamedValue.name x))) typeNodes)
    else [] in
  let code := print_module env langs merged target typeNodes lazy defaultLang in
  if lazy then LazyCode code others else Code code.

(** The unification pass of [gen] on built trees (gen.ts lines 207-222):
    the accumulator and the context before the error set is tested. *)
Definition unify (names : JsSet.t) (typeNodes : list (NamedValue.t TypeDescriptor))
    (context : Context) : TypeDescriptor * Context :=
  let '(merged, context) := fold typeNodes createMissingRecordTypeDescriptor context in
  (merged, report_missing names context).

Definition fresh_context : Context :=
  {| errors := JsSet.empty; paths := []; missing := JsMap.empty |}.

(** gen.ts lines 193-269.  An absent [target] is [Target.resource]. *)
Definition gen (files : list (NamedValue.t (YamlValue number)))
    (target : option Target) (lazy : bool) (defaultLanguage : option string)
    : Completion Output :=
  let target := match target with Some t => t | None => resource end in
  let context := fresh_context in
  let names := JsSet.of_list (map NamedValue.name files) in
  match build files context with
  | (Throw e, _) => Throw e
  | (Normal typeNodes, context) =>
      let '(merged, context) := unify names typeNodes context in
      if negb (Nat.eqb (JsSet.size (errors context)) 0) then
        Throw (Error (composite (errors context)))
      else Normal (emit files typeNodes merged target lazy defaultLanguage)
  end.

(** The accumulator [gen] holds when it tests the error set ([merged],
    gen.ts line 207), if the build got that far. *)
Definition canonical (files : list (NamedValue.t (YamlValue number)))
    : option TypeDescriptor :=
  match build files fresh_context with
  | (Throw _, _) => None
  | (Normal typeNodes, context) =>
      Some (fst (unify (JsSet.of_list (map NamedValue.name files)) typeNodes context))
  end.

(** The error set [gen] tests (gen.ts line 224), if the build got that far. *)
Definition diagnostics (files : list (NamedValue.t (YamlValue number)))
    : option JsSet.t :=
  match build files fresh_context with
  | (Throw _, _) => None
  | (Normal typeNodes, context) =>
      Some (errors (snd (unify (JsSet.of_list (map NamedValue.name files))
                           typeNodes context)))
  end.
End Engine.

(** ** A concrete set of collaborators

    Used to run the engine on concrete inputs.  Numbers are integers, paths
    are dotted, and the messages follow the wording of the earlier revision
    of [gen] kept in [src/gen.ts] (lines 304-397). *)
Module Sample.
Local Open Scope string_scope.

Definition kind_name (k : TypeDescriptorKind) : string :=
  match k with KString => "string" | KCall => "call" | KRecord => "record" end.

Definition show_number (z : Z) : string := NilZero.string_of_int (Z.to_int z).

Definition show_value (v : YamlValue Z) : string :=
  match v with
  | YNumber n => show_number n
  | YString s => s
  | YBoolean true => "true"
  | YBoolean false => "false"
  | YNull => "null"
  | YArray _ => "[array]"
  | YObject _ => "[object Object]"
  end.

Definition literal (text : string) : list ArgDescriptor :=
  match text with EmptyString => [] | _ => [Literal text] end.

Definition snoc (s : string) (c : ascii) : string := s ++ String c EmptyString.

(** The scanner behind [matchCallBody]: [text] is the literal read so far,
    [hole] the identifier of the placeholder being read, if any. *)
Fixpoint scan (s text : string) (hole : option string) (args : list ArgDescriptor)
    : list ArgDescriptor :=
  match s with
  | EmptyString =>
      match hole with
      | None => (args ++ literal text)%list
      | Some h => (args ++ literal (text ++ "{" ++ h))%list
      end
  | String c s' =>
      match hole with
      | None =>
          if Ascii.eqb c "{" then scan s' text (Some EmptyString) args
          else scan s' (snoc text c) None args
      | Some h =>
          if Ascii.eqb c "}" then
            match h with
            | EmptyString => scan s' (text ++ "{}") None args
            | _ => scan s' EmptyString None (args ++ literal text ++ [Param h])%list
            end
          else if Ascii.eqb c "{" then scan s' (text ++ "{" ++ h) (Some EmptyString) args
          else scan s' text (Some (snoc h c)) args
      end
  end.

(** Modelled from the spec: [matchCallBody] of [./helper], which is not
    among the sources: a placeholder is an identifier enclosed in braces;
    the result mixes the literal fragments and the parameters in order, and
    is absent when the text holds no placeholder. *)
Definition match_braces (value : string) : option (list ArgDescriptor) :=
  let args := scan value EmptyString None [] in
  if existsb isParamArgType args then Some args else None.

Definition show_arg (a : ArgDescriptor) : string :=
  match a with
  | Literal text => text
  | Param name => "${" ++ name ++ "}"
  end.

(** A one-line rendering of a descriptor, standing for the printer. *)
Fixpoint show_type (d : TypeDescriptor) : string :=
  match d with
  | StringTypeDescriptor _ => "string"
  | CallTypeDescriptor body =>
      "(" ++ join "," (param_names body) ++ ") => string"
  | RecordTypeDescriptor value _ =>
      "{" ++
      (fix fields (l : list (string * TypeDescriptor)) : string :=
         match l with
         | [] => EmptyString
         | (k, v) :: l' => k ++ ":" ++ show_type v ++ ";" ++ fields l'
         end) value
      ++ "}"
  end.

Definition collaborators : Collaborators Z :=
  {| toString := show_number;
     matchCallBody := match_braces;
     getCurrentPath := join ".";
     unexpected_value := fun key value =>
       "unexpected value: [" ++ key ++ ", " ++ show_value value ++ "]";
     type_of_path_is_unexpected := fun path actually should =>
       path ++ " is not correctly type, expected: " ++ kind_name should
       ++ ", actually: " ++ kind_name actually;
     type_of_path_actually_undefined := fun path should =>
       path ++ " is not correctly type, expected: " ++ kind_name should
       ++ ", actually: undefined";
     type_of_path_should_undefined := fun path actually =>
       path ++ " is not correctly type, expected: undefined, actually: "
       ++ kind_name actually;
     args_is_different := fun path one two =>
       path ++ " has different type: [" ++ one ++ ", " ++ two ++ "]";
     key_missing_in_path := fun path missing =>
       path ++ " is missing in " ++ missing;
     print_module := fun langs merged _ _ _ _ =>
       "type Language = " ++ join "|" langs ++ "; type RootType = " ++ show_type merged;
     print_locale := fun value => "export default " ++ show_type value |}.

(** The same collaborators after the catalogue is set to another language:
    [./locales] is not among the sources, the wording stands for any second
    language. *)
Definition translated : Collaborators Z :=
  {| toString := show_number;
     matchCallBody := match_braces;
     getCurrentPath := join ".";
     unexpected_value := fun key value =>
       "valeur inattendue : [" ++ key ++ ", " ++ show_value value ++ "]";
     type_of_path_is_unexpected := fun path actually should =>
       path ++ " : type attendu " ++ kind_name should ++ ", obtenu " ++ kind_name actually;
     type_of_path_actually_undefined := fun path should =>
       path ++ " : type attendu " ++ kind_name should ++ ", obtenu undefined";
     type_of_path_should_undefined := fun path actually =>
       path ++ " : type attendu undefined, obtenu " ++ kind_name actually;
     args_is_different := fun path one two =>
       path ++ " : types incompatibles [" ++ one ++ ", " ++ two ++ "]";
     key_missing_in_path := fun path missing =>
       path ++ " manque dans " ++ missing;
     print_module := print_module collaborators;
     print_locale := print_locale collaborators |}.

Definition locale (name : string) (entries : list (string * YamlValue Z))
    : NamedValue.t (YamlValue Z) :=
  {| NamedValue.name := name; NamedValue.value := YObject entries |}.

Definition gen := gen collaborators.
End Sample.


(** ** Vocabulary of the statements *)

(** A context reached from another by recording diagnostics: the path is the
    same, no diagnostic and no ledger entry is lost, and the containers stay
    duplicate-free. *)
Record extends (c c' : Context) : Prop := {
  extends_paths : paths c' = paths c;
  extends_errors : forall msg, In msg (errors c) -> In msg (errors c');
  extends_errors_NoDup : NoDup (errors c) -> NoDup (errors c');
  extends_missing : forall path entry,
    JsMap.get path (missing c) = Some entry ->
    exists entry',
      JsMap.get path (missing c') = Some entry' /\
      (forall name, In name (Miss.exist entry) -> In name (Miss.exist entry')) /\
      (forall name, In name (Miss.missing entry) -> In name (Miss.missing entry'));
  extends_missing_NoDup : NoDup (map fst (missing c)) -> NoDup (map fst (missing c'))
}.

(** The keys of a list are pairwise different. *)
Fixpoint distinct (l : list string) : bool :=
  match l with
  | [] => true
  | x :: l' => negb (existsb (String.eqb x) l') && distinct l'
  end.

(** No own key of the object is the name of a member of [Object.prototype]:
    for these keys [key in {}] is false. *)
Definition plain_keys {V : Type} (o : JsObject.t V) : bool :=
  forallb (fun k => negb (JsObject.inherited k)) (JsObject.keys o).

(** No key of the tree, at any depth, is the name of a member of
    [Object.prototype]. *)
Fixpoint plain_tree (d : TypeDescriptor) : bool :=
  match d with
  | RecordTypeDescriptor value _ =>
      (fix all (l : list (string * TypeDescriptor)) : bool :=
         match l with
         | [] => true
         | entry :: l' =>
             negb (JsObject.inherited (fst entry)) && plain_tree (snd entry) && all l'
         end) value
  | _ => true
  end.

(** The shape of a tree a locale is built into: no record is provisional and
    the keys of every record are distinct. *)
Fixpoint locale_tree (d : TypeDescriptor) : bool :=
  match d with
  | RecordTypeDescriptor value missing =>
      negb missing && distinct (JsObject.keys value) &&
      (fix all (l : list (string * TypeDescriptor)) : bool :=
         match l with
         | [] => true
         | entry :: l' => locale_tree (snd entry) && all l'
         end) value
  | _ => true
  end.

(** Every key of [small] is a key of [big] with a descriptor of the same
    kind, and so on inside the nested dictionaries. *)
Fixpoint sub_shape (small big : TypeDescriptor) : bool :=
  match small with
  | RecordTypeDescriptor value _ =>
      (fix all (l : list (string * TypeDescriptor)) : bool :=
         match l with
         | [] => true
         | entry :: l' =>
             match JsObject.get (fst entry) (record_value big) with
             | Some other => kind_eqb (kind (snd entry)) (kind other) && sub_shape (snd entry) other
             | None => false
             end && all l'
         end) value
  | _ => true
  end.

(** [Absent env at small big path]: [path] is the ledger path of a key that
    [big] has and [small] lacks, either in the dictionary at position [at]
    or in a nested dictionary that both have. *)
Inductive Absent {number : Type} (env : Collaborators number)
    : list string -> TypeDescriptor -> TypeDescriptor -> string -> Prop :=
| Absent_here at_ small big key :
    JsObject.get key (record_value big) <> None ->
    JsObject.get key (record_value small) = None ->
    Absent env at_ small big (getCurrentPath env at_ ++ "." ++ key)
| Absent_below at_ small big key small' big' path :
    JsObject.get key (record_value small) = Some small' ->
    JsObject.get key (record_value big) = Some big' ->
    Absent env (at_ ++ [key]) small' big' path ->
    Absent env at_ small big path.

(** The ledger has an entry for the path. *)
Definition recorded (c : Context) (path : string) : Prop :=
  JsMap.get path (missing c) <> None.

(** Every entry of the ledger is the given one. *)
Definition entries_are (entry : Miss.t) (c : Context) : Prop :=
  forall path e, JsMap.get path (missing c) = Some e -> e = entry.

(** What the builder keeps true of the record it fills: distinct keys and
    well-shaped values. *)
Definition record_ok (record : JsObject.t TypeDescriptor) : Prop :=
  NoDup (JsObject.keys record) /\
  forall k v, In (k, v) record -> locale_tree v = true.

(** ** Vocabulary of the further statements *)

(** A [null] where the builder descends: the value itself, or a member of a
    sequence or of a mapping, at any depth. *)
Fixpoint has_null {number : Type} (v : YamlValue number) : bool :=
  match v with
  | YNull => true
  | YArray items =>
      (fix any (l : list (YamlValue number)) : bool :=
         match l with
         | [] => false
         | x :: l' => has_null x || any l'
         end) items
  | YObject entries =>
      (fix any (l : list (string * YamlValue number)) : bool :=
         match l with
         | [] => false
         | entry :: l' => has_null (snd entry) || any l'
         end) entries
  | YNumber _ | YString _ | YBoolean _ => false
  end.

(** No mapping of the value, at any depth, has an entry under [__proto__].
    Such an entry gives the record that is built another prototype, whose
    members the [in] tests of [merge] would find; the model of objects has
    [Object.prototype] as the prototype of every object. *)
Fixpoint proto_free {number : Type} (v : YamlValue number) : bool :=
  match v with
  | YArray items =>
      (fix all (l : list (YamlValue number)) : bool :=
         match l with
         | [] => true
         | x :: l' => proto_free x && all l'
         end) items
  | YObject entries =>
      (fix all (l : list (string * YamlValue number)) : bool :=
         match l with
         | [] => true
         | entry :: l' =>
             negb (String.eqb (fst entry) "__proto__") && proto_free (snd entry) && all l'
         end) entries
  | YNull | YNumber _ | YString _ | YBoolean _ => true
  end.

(** Two trees agree: the same keys, the same kind under every key, the same
    parameter names in order for two calls, and so on inside the nested
    dictionaries. *)
Fixpoint same_shape (target source : TypeDescriptor) {struct source} : bool :=
  match source with
  | StringTypeDescriptor _ => isStringType target
  | CallTypeDescriptor sourceBody =>
      match target with
      | CallTypeDescriptor targetBody =>
          list_eqb String.eqb
            (map arg_name (filter isParamArgType targetBody))
            (map arg_name (filter isParamArgType sourceBody))
      | _ => false
      end
  | RecordTypeDescriptor value _ =>
      isRecordType target
      && forallb (fun entry => JsObject.has (fst entry) value) (record_value target)
      && (fix all (l : list (string * TypeDescriptor)) : bool :=
            match l with
            | [] => true
            | entry :: l' =>
                match JsObject.get (fst entry) (record_value target) with
                | Some other => same_shape other (snd entry)
                | None => false
                end && all l'
            end) value
  end.

(** Nothing is recorded: no diagnostic and no ledger entry. *)
Definition clean (c : Context) : Prop := errors c = [] /\ missing c = [].

(** A boolean that the builder meets: the value [b] under [key] in a mapping,
    or at index [key] of a sequence, at any depth of the value. *)
Inductive Rejected {number : Type} : string -> bool -> YamlValue number -> Prop :=
| Rejected_entry entries key b :
    In (key, YBoolean b) entries -> Rejected key b (YObject entries)
| Rejected_item items i b :
    nth_error items i = Some (YBoolean b) -> Rejected (decimal i) b (YArray items)
| Rejected_below_entry entries k inner key b :
    In (k, inner) entries -> Rejected key b inner -> Rejected key b (YObject entries)
| Rejected_below_item items inner key b :
    In inner items -> Rejected key b inner -> Rejected key b (YArray items).

(** Building [v] reports every boolean it meets. *)
Definition rejects {number : Type} (env : Collaborators number) (v : YamlValue number)
    : Prop :=
  forall c t c', toTypeNode env v c = (Normal t, c') ->
  forall key b, Rejected key b v -> In (unexpected_value env key (YBoolean b)) (errors c').

(** The ledger entry of a path after locale [name] is noted as lacking the
    key (gen.ts lines 73-78), and as having it (lines 98-103). *)
Definition bump_missing (name : string) (old : option Miss.t) : Miss.t :=
  match old with
  | None => {| Miss.exist := JsSet.empty; Miss.missing := JsSet.add name JsSet.empty |}
  | Some miss =>
      {| Miss.exist := Miss.exist miss; Miss.missing := JsSet.add name (Miss.missing miss) |}
  end.

Definition bump_exist (name : string) (old : option Miss.t) : Miss.t :=
  match old with
  | None => {| Miss.exist := JsSet.add name JsSet.empty; Miss.missing := JsSet.empty |}
  | Some miss =>
      {| Miss.exist := JsSet.add name (Miss.exist miss); Miss.missing := Miss.missing miss |}
  end.

(** The names of the locales whose tree lacks, and has, a top-level key, in
    the order of the list. *)
Definition lacking (key : string) (nodes : list (NamedValue.t TypeDescriptor))
    : list string :=
  map NamedValue.name
    (filter (fun node => negb (JsObject.has key (record_value (NamedValue.value node))))
       nodes).

Definition holding (key : string) (nodes : list (NamedValue.t TypeDescriptor))
    : list string :=
  map NamedValue.name
    (filter (fun node => JsObject.has key (record_value (NamedValue.value node))) nodes).

(** Wherever [target] and [source] both have a dictionary under a top-level
    key, the two dictionaries agree. *)
Definition nested_agree (target source : TypeDescriptor) : bool :=
  forallb
    (fun entry =>
       match JsObject.get (fst entry) (record_value target) with
       | Some other =>
           negb (isRecordType other && isRecordType (snd entry))
           || same_shape other (snd entry)
       | None => true
       end)
    (record_value source).

(** ** The command line (the second source file)

    The handler of the generating command: [run], [generate] and
    [generateLazy], the cache of the watch mode and its two event handlers.
    The console and the file system are a state [World] the host writes to;
    the libraries the handler calls are the fields of [Host].  A call that
    can throw returns a completion. *)
Module Cli.

Record Host (number World : Type) : Type := {
  (** [console.log(text)] *)
  log : string -> World -> World;
  (** [fs.writeFileSync(path, content, 'utf8')] *)
  writeFileSync : string -> string -> World -> Completion unit * World;
  (** [highlight(code)] of cardinal *)
  highlight : string -> Completion string;
  (** [prettier.format(code, prettierConfig)] *)
  format : string -> Completion string;
  (** [path.resolve(output)] *)
  resolve : string -> string;
  (** [path.join(a, b)] *)
  join_path : string -> string -> string;
  (** [e.message] *)
  message_of : Exn -> string;
  (** [String(e)], the message of [new Error(e)] *)
  describe : Exn -> string;
  (** [path.basename(file, path.extname(file))] *)
  stem : string -> string;
  (** ['' === content.trim()] *)
  is_blank : string -> bool;
  (** [yaml.safeLoad(content)] *)
  safeLoad : string -> Completion (YamlValue number);
  (** [console.warn(text)] *)
  warn : string -> World -> World;
  (** [fs.existsSync(path)] *)
  existsSync : string -> World -> bool;
  (** [fs.mkdirSync(path, { recursive: true })] *)
  mkdirSync : string -> World -> Completion unit * World;
  (** [path.isAbsolute(path)] *)
  isAbsolute : string -> bool;
  (** [path.resolve(a, b)] *)
  resolve_in : string -> string -> string;
  (** [process.cwd()] *)
  cwd : string
}.
Arguments log {number World}.
Arguments writeFileSync {number World}.
Arguments highlight {number World}.
Arguments format {number World}.
Arguments resolve {number World}.
Arguments join_path {number World}.
Arguments message_of {number World}.
Arguments describe {number World}.
Arguments stem {number World}.
Arguments is_blank {number World}.
Arguments safeLoad {number World}.
Arguments warn {number World}.
Arguments existsSync {number World}.
Arguments mkdirSync {number World}.
Arguments isAbsolute {number World}.
Arguments resolve_in {number World}.
Arguments cwd {number World}.

(** The options of the command read from [argv] (lines 28-34). *)
Record Options : Type := {
  output : option string;
  color : bool;
  target : option Target;
  lazy : bool;
  defaultLanguage : option string
}.

(** [!output] *)
Definition no_output (o : Options) : bool :=
  match output o with
  | Some (String _ _) => false
  | _ => true
  end.

Definition output_path (o : Options) : string :=
  match output o with Some p => p | None => EmptyString end.

(** [`${'<'.padEnd(40, '=')} ${file} ${'>'.padStart(40, '=')}\n`] *)
Definition banner (file : string) : string :=
  ("<" ++ String.concat "" (repeat "=" 39) ++ " " ++ file ++ " "
   ++ String.concat "" (repeat "=" 39) ++ ">" ++ newline)%string.

(** The module of an output, and its side modules. *)
Definition module_of (out : Output) : string :=
  match out with Code code => code | LazyCode code _ => code end.

Definition others_of (out : Output) : list (string * string) :=
  match out with Code _ => [] | LazyCode _ others => others end.

(** lines 137-143 *)
Definition createCache {number : Type} (files : list (NamedValue.t (YamlValue number)))
    : JsMap.t (YamlValue number) :=
  fold_left
    (fun cache file => JsMap.set (NamedValue.name file) (NamedValue.value file) cache)
    files JsMap.empty.

(** lines 145-151 *)
Definition exportCache {number : Type} (cache : JsMap.t (YamlValue number))
    : list (NamedValue.t (YamlValue number)) :=
  map (fun entry => named (fst entry) (snd entry)) cache.

(** What the watcher reports: a file changed, with what reading it gave,
    or a file was removed. *)
Inductive Event : Type :=
| Change (file : string) (content : Completion string)
| Unlink (file : string).

Section Handler.
Context {number World : Type} (env : Collaborators number) (host : Host number World)
  (options : Options).

(** [console.log(color ? highlight(code) : code + '\n')] *)
Definition show (code : string) (w : World) : Completion unit * World :=
  match (if color options then highlight host code else Normal (code ++ newline)%string) with
  | Normal text => (Normal tt, log host text w)
  | Throw e => (Throw e, w)
  end.

(** [fs.writeFileSync(path.join(filepath, file), prettier.format(code, ...), 'utf8')] *)
Definition write (filepath file code : string) (w : World) : Completion unit * World :=
  match format host code with
  | Normal formatted => writeFileSync host (join_path host filepath file) formatted w
  | Throw e => (Throw e, w)
  end.

(** lines 82-94 *)
Definition generate (files : list (NamedValue.t (YamlValue number))) (w : World)
    : Completion unit * World :=
  match gen env files (target options) false None with
  | Throw e => (Throw e, w)
  | Normal out =>
      let result := module_of out in
      if no_output options then show result w
      else
        let filepath := resolve host (output_path options) in
        match write filepath "index.ts" result w with
        | (Normal _, w) => (Normal tt, log host ("Done at " ++ filepath)%string w)
        | (Throw e, w) => (Throw e, w)
        end
  end.

(** [others.forEach] of lines 105-110 *)
Fixpoint show_others (others : list (string * string)) (w : World)
    : Completion unit * World :=
  match others with
  | [] => (Normal tt, w)
  | (file, code) :: rest =>
      match show code (log host (banner (file ++ ".ts")) w) with
      | (Normal _, w) => show_others rest w
      | (Throw e, w) => (Throw e, w)
      end
  end.

(** [others.forEach] of lines 117-119 *)
Fixpoint write_others (filepath : string) (others : list (string * string)) (w : World)
    : Completion unit * World :=
  match others with
  | [] => (Normal tt, w)
  | (file, code) :: rest =>
      match write filepath (file ++ ".ts") code w with
      | (Normal _, w) => write_others filepath rest w
      | (Throw e, w) => (Throw e, w)
      end
  end.

(** lines 96-122 *)
Definition generateLazy (files : list (NamedValue.t (YamlValue number))) (w : World)
    : Completion unit * World :=
  match gen env files (target options) true (defaultLanguage options) with
  | Throw e => (Throw e, w)
  | Normal out =>
      let index := module_of out in
      let others := others_of out in
      if no_output options then
        match show index (log host (banner "index.ts") w) with
        | (Normal _, w) => show_others others w
        | (Throw e, w) => (Throw e, w)
        end
      else
        let filepath := resolve host (output_path options) in
        match write filepath "index.ts" index w with
        | (Normal _, w) =>
            match write_others filepath others w with
            | (Normal _, w) => (Normal tt, log host ("Done at " ++ filepath)%string w)
            | (Throw e, w) => (Throw e, w)
            end
        | (Throw e, w) => (Throw e, w)
        end
  end.

(** lines 68-80 *)
Definition run (files : list (NamedValue.t (YamlValue number))) (isThrow : bool) (w : World)
    : Completion unit * World :=
  match (if lazy options then generateLazy files w else generate files w) with
  | (Normal _, w) => (Normal tt, w)
  | (Throw e, w) =>
      if isThrow then (Throw (Error (describe host e)), w)
      else (Normal tt, log host (message_of host e) w)
  end.

(** The cache after an event (lines 48-54 and 60); reading the file or
    parsing it can throw, and then the cache is as it was. *)
Definition update (cache : JsMap.t (YamlValue number)) (event : Event)
    : Completion (JsMap.t (YamlValue number)) :=
  match event with
  | Change file (Normal content) =>
      if negb (is_blank host content) then
        match safeLoad host content with
        | Normal value => Normal (JsMap.set (stem host file) value cache)
        | Throw e => Throw e
        end
      else Normal (JsMap.delete (stem host file) cache)
  | Change file (Throw e) => Throw e
  | Unlink file => Normal (JsMap.delete (stem host file) cache)
  end.

Definition announce (event : Event) : string :=
  match event with
  | Change file _ => (file ++ " changed, processing...")%string
  | Unlink file => (file ++ " removed, processing...")%string
  end.

(** The two event handlers of the watch mode (lines 46-63). *)
Definition on_event (cache : JsMap.t (YamlValue number)) (event : Event) (w : World)
    : Completion unit * JsMap.t (YamlValue number) * World :=
  let w := log host (announce event) w in
  match update cache event with
  | Throw e => (Throw e, cache, w)
  | Normal cache =>
      match run (exportCache cache) false w with
      | (Normal _, w) =>
          (Normal tt, cache, log host ("Waiting for file change" ++ newline)%string w)
      | (Throw e, w) => (Throw e, cache, w)
      end
  end.

(** The watch mode on the events it receives (lines 45-63), up to the first
    handler that throws: nothing catches what a handler throws. *)
Fixpoint watching (cache : JsMap.t (YamlValue number)) (events : list Event) (w : World)
    : Completion unit * JsMap.t (YamlValue number) * World :=
  match events with
  | [] => (Normal tt, cache, w)
  | event :: rest =>
      match on_event cache event w with
      | (Normal _, cache, w) => watching cache rest w
      | (Throw e, cache, w) => (Throw e, cache, w)
      end
  end.

(** [handler1] once the files are read (lines 41-66), with the events the
    watcher then delivers. *)
Definition handle (watch : bool) (files : list (NamedValue.t (YamlValue number)))
    (events : list Event) (w : World) : Completion unit * World :=
  if watch then
    let '(_, w) := run files false w in
    let cache := createCache files in
    let '(r, _, w) :=
      watching cache events (log host ("Waiting for file change" ++ newline)%string w) in
    (r, w)
  else run files true w.
End Handler.

Section Initial.
Context {number World : Type} (host : Host number World).

(** [locales.forEach] of [handleInitial] (lines 161-169); [out] is the
    list of the lines to print. *)
Fixpoint initial_loop (dirPath : string) (locales : list string) (out : list string)
    (w : World) : Completion (list string) * World :=
  match locales with
  | [] => (Normal out, w)
  | file :: rest =>
      let filePath := resolve_in host dirPath (file ++ ".yaml")%string in
      if existsSync host filePath w then
        initial_loop dirPath rest out
          (warn host ("Skipped, " ++ filePath ++ " was alread exists")%string w)
      else
        match writeFileSync host (resolve_in host dirPath (file ++ ".yaml")%string)
                EmptyString w with
        | (Normal _, w) =>
            initial_loop dirPath rest (out ++ ["  |- " ++ file ++ ".yaml"]%string) w
        | (Throw e, w) => (Throw e, w)
        end
  end.

(** [dirPath] of [handleInitial] (lines 156-158). *)
Definition initial_dir (dir : string) : string :=
  if isAbsolute host dir then dir else resolve_in host (cwd host) dir.

(** lines 153-172 *)
Definition handleInitial (dir : string) (locales : list string) (w : World)
    : Completion unit * World :=
  let dirPath := initial_dir dir in
  match mkdirSync host dirPath w with
  | (Throw e, w) => (Throw e, w)
  | (Normal _, w) =>
      match initial_loop dirPath locales ["|- " ++ dir]%string w with
      | (Normal out, w) => (Normal tt, log host (newline ++ " " ++ join newline out)%string w)
      | (Throw e, w) => (Throw e, w)
      end
  end.
End Initial.
End Cli.

(** The loop of [createCache] from any cache. *)
Definition fill {number : Type} (cache : JsMap.t (YamlValue number))
    (files : list (NamedValue.t (YamlValue number))) : JsMap.t (YamlValue number) :=
  fold_left
    (fun cache file => JsMap.set (NamedValue.name file) (NamedValue.value file) cache)
    files cache.

(** A host to run the handler on: the world is the list of what was
    printed and written, the formatter and the highlighter leave the code as
    it is, and the parser reads the lines [key: value] of a flat file. *)
Module Terminal.
Local Open Scope string_scope.

Inductive Effect : Type :=
| Printed (text : string)
| Written (path content : string).

Definition World : Type := list Effect.

Definition written (w : World) : list string :=
  flat_map (fun effect => match effect with Written path _ => [path] | Printed _ => [] end) w.

(** The text before the first occurrence of [c], and the text after it. *)
Fixpoint cut (c : ascii) (s : string) : option (string * string) :=
  match s with
  | EmptyString => None
  | String x rest =>
      if Ascii.eqb x c then Some (EmptyString, rest)
      else match cut c rest with
           | Some (before, after) => Some (String x before, after)
           | None => None
           end
  end.

Fixpoint lines_of (fuel : nat) (s : string) : list string :=
  match fuel with
  | O => [s]
  | S fuel' =>
      match cut "010"%char s with
      | Some (line, rest) => line :: lines_of fuel' rest
      | None => [s]
      end
  end.

Definition entry_of (line : string) : option (string * YamlValue Z) :=
  match cut ":"%char line with
  | Some (key, String " "%char value) => Some (key, YString value)
  | _ => None
  end.

Fixpoint entries_of (lines : list string) : option (list (string * YamlValue Z)) :=
  match lines with
  | [] => Some []
  | EmptyString :: rest => entries_of rest
  | line :: rest =>
      match entry_of line, entries_of rest with
      | Some entry, Some entries => Some (entry :: entries)
      | _, _ => None
      end
  end.

Definition parse (content : string) : Completion (YamlValue Z) :=
  match entries_of (lines_of (String.length content) content) with
  | Some entries => Normal (YObject entries)
  | None => Throw (Error "bad indentation of a mapping entry")
  end.

Definition blank (s : string) : bool :=
  forallb (fun c => Ascii.eqb c " "%char || Ascii.eqb c "010"%char || Ascii.eqb c "009"%char)
    (list_ascii_of_string s).

Definition host : Cli.Host Z World :=
  {| Cli.log := fun text w => (w ++ [Printed text])%list;
     Cli.writeFileSync := fun path content w => (Normal tt, (w ++ [Written path content])%list);
     Cli.highlight := fun code => Normal code;
     Cli.format := fun code => Normal code;
     Cli.resolve := fun p => "/work/" ++ p;
     Cli.join_path := fun a b => a ++ "/" ++ b;
     Cli.message_of := fun e =>
       match e with
       | Error message => message
       | TypeError => "Cannot convert undefined or null to object"
       end;
     Cli.describe := fun e =>
       match e with
       | Error message => "Error: " ++ message
       | TypeError => "TypeError: Cannot convert undefined or null to object"
       end;
     Cli.stem := fun file =>
       match cut "."%char file with Some (name, _) => name | None => file end;
     Cli.is_blank := blank;
     Cli.safeLoad := parse;
     Cli.warn := fun text w => (w ++ [Printed text])%list;
     Cli.existsSync := fun path w => existsb (String.eqb path) (written w);
     Cli.mkdirSync := fun path w => (Normal tt, w);
     Cli.isAbsolute := fun path =>
       match path with String "/"%char _ => true | _ => false end;
     Cli.resolve_in := fun a b => a ++ "/" ++ b;
     Cli.cwd := "/work" |}.

Definition options : Cli.Options :=
  {| Cli.output := Some "out"; Cli.color := false; Cli.target := Some provider;
     Cli.lazy := true; Cli.defaultLanguage := None |}.
End Terminal.

(** The names of the side modules of a lazy run (gen.ts lines 247-250). *)
Definition side_names (target : option Target) (defaultLanguage : option string)
    (names : list string) : list string :=
  if target_eqb (match target with Some t => t | None => resource end) type then []
  else filter (fun name => negb (name_is (default_lang defaultLanguage names) name)) names.

(** [w'] is [w] after some lines were printed and nothing else. *)
Definition printed_only {number World : Type} (host : Cli.Host number World)
    (w w' : World) : Prop :=
  exists lines, w' = fold_left (fun w line => Cli.log host line w) lines w.

(** A host that records its writes and tells what exists accordingly:
    [written] lists the paths written so far in order; printing, warning
    and making a directory write no file and remove none; a write that
    succeeds makes its path exist and removes no other, and a write that
    throws has written nothing. *)
Record Recording {number World : Type} (host : Cli.Host number World)
    (written : World -> list string) : Prop := {
  written_log : forall line w, written (Cli.log host line w) = written w;
  written_warn : forall line w, written (Cli.warn host line w) = written w;
  written_mkdir : forall path w, written (snd (Cli.mkdirSync host path w)) = written w;
  written_write : forall path content w w',
      Cli.writeFileSync host path content w = (Normal tt, w') ->
      written w' = written w ++ [path];
  written_failed : forall path content w e w',
      Cli.writeFileSync host path content w = (Throw e, w') ->
      written w' = written w;
  exists_log : forall line path w,
      Cli.existsSync host path (Cli.log host line w) = Cli.existsSync host path w;
  exists_warn : forall line path w,
      Cli.existsSync host path (Cli.warn host line w) = Cli.existsSync host path w;
  exists_mkdir : forall dir path w,
      Cli.existsSync host path w = true ->
      Cli.existsSync host path (snd (Cli.mkdirSync host dir w)) = true;
  exists_write : forall path content w w' other,
      Cli.writeFileSync host path content w = (Normal tt, w') ->
      Cli.existsSync host other w' = true <->
      other = path \/ Cli.existsSync host other w = true
}.

(** The tree a value is built into, whatever the context. *)
Definition tree_of {number : Type} (env : Collaborators number) (v : YamlValue number)
    : Completion TypeDescriptor :=
  fst (toTypeNode env v fresh_context).

(** Every locale is built, and the trees of any two locales agree. *)
Definition agree {number : Type} (env : Collaborators number)
    (files : list (NamedValue.t (YamlValue number))) : Prop :=
  forall f g, In f files -> In g files ->
    exists t s,
      tree_of env (NamedValue.value f) = Normal t /\
      tree_of env (NamedValue.value g) = Normal s /\
      same_shape t s = true.

(** No top-level key of the tree of a locale is the name of a member of
    [Object.prototype]. *)
Definition plain_top {number : Type} (env : Collaborators number)
    (files : list (NamedValue.t (YamlValue number))) : Prop :=
  forall f t, In f files -> tree_of env (NamedValue.value f) = Normal t ->
    plain_keys (record_value t) = true.

(** No locale holds a boolean. *)
Definition no_boolean {number : Type} (files : list (NamedValue.t (YamlValue number)))
    : Prop :=
  forall f key b, In f files -> ~ Rejected key b (NamedValue.value f).

(** Every diagnostic of the builder is the diagnostic of a boolean. *)
Definition traced {number : Type} (env : Collaborators number) (v : YamlValue number)
    : Prop :=
  forall c t c', toTypeNode env v c = (Normal t, c') ->
  forall msg, In msg (errors c') ->
    In msg (errors c) \/
    exists key b, Rejected key b v /\ msg = unexpected_value env key (YBoolean b).

(** ** The message catalogue

    Two invocations of [gen] get the same arguments and may find the
    catalogue in two states. *)

(** Two sets of collaborators that differ in the catalogue at most: the
    helpers and the printers are the same. *)
Record same_engine {number : Type} (a b : Collaborators number) : Prop := {
  same_toString : forall n, toString a n = toString b n;
  same_matchCallBody : forall text, matchCallBody a text = matchCallBody b text;
  same_getCurrentPath : forall path, getCurrentPath a path = getCurrentPath b path;
  same_print_module : forall langs merged target typeNodes lazy defaultLang,
    print_module a langs merged target typeNodes lazy defaultLang =
    print_module b langs merged target typeNodes lazy defaultLang;
  same_print_locale : forall value, print_locale a value = print_locale b value
}.

(** The catalogue is in the same state: every message is the same. *)
Record same_messages {number : Type} (a b : Collaborators number) : Prop := {
  same_unexpected_value : forall key value,
    unexpected_value a key value = unexpected_value b key value;
  same_type_of_path_is_unexpected : forall path actually should,
    type_of_path_is_unexpected a path actually should =
    type_of_path_is_unexpected b path actually should;
  same_type_of_path_actually_undefined : forall path should,
    type_of_path_actually_undefined a path should =
    type_of_path_actually_undefined b path should;
  same_type_of_path_should_undefined : forall path actually,
    type_of_path_should_undefined a path actually =
    type_of_path_should_undefined b path actually;
  same_args_is_different : forall path one two,
    args_is_different a path one two = args_is_different b path one two;
  same_key_missing_in_path : forall path missing,
    key_missing_in_path a path missing = key_missing_in_path b path missing
}.

(** Two error sets are both empty, or neither is. *)
Definition both_or_neither (errs1 errs2 : JsSet.t) : Prop := errs1 = [] <-> errs2 = [].

(** The contexts of two invocations at the same point: the same path, the
    same ledger, and error sets related by [E]. *)
Definition alike (E : JsSet.t -> JsSet.t -> Prop) (c1 c2 : Context) : Prop :=
  paths c1 = paths c2 /\ missing c1 = missing c2 /\ E (errors c1) (errors c2).

(** Under the two catalogues the same tree of a value is built, and the
    contexts stay alike. *)
Definition in_tune {number : Type} (env1 env2 : Collaborators number)
    (E : JsSet.t -> JsSet.t -> Prop) (v : YamlValue number) : Prop :=
  forall c1 c2, alike E c1 c2 ->
    fst (toTypeNode env1 v c1) = fst (toTypeNode env2 v c2) /\
    alike E (snd (toTypeNode env1 v c1)) (snd (toTypeNode env2 v c2)).

(** ** The earlier revision (gen.ts lines 270-465)

    The same generator before the ledger and the locale names: the errors
    are an array of messages written in place, [merge] takes no name, and
    [gen] joins the messages with newlines.  The files are taken as parsed;
    reading and parsing them is outside. *)
Module Old.

Record Context : Type := {
  errors : list string;
  paths : list string
}.

Section Engine.
Context {number : Type} (env : Collaborators number).
(** The text of a kind in a message, and the printer of the module
    ([prettier.format(print([typeAlias, ...exportDefault]), ...)]). *)
Context (kind_text : TypeDescriptorKind -> string)
  (print_code : TypeDescriptor -> option Target -> list (NamedValue.t TypeDescriptor)
                -> string -> Completion string).

(** Modelled from the spec: [inPathContext] of [./utils], on the context
    of this revision. *)
Definition inPathContext {T : Type} (context : Context) (path : string)
    (cb : Context -> T * Context) : T * Context :=
  let '(result, ctx) :=
    cb {| errors := errors context; paths := paths context ++ [path] |} in
  (result, {| errors := errors ctx; paths := paths context |}).

(** [context.errors.push(msg)] *)
Definition push (msg : string) (context : Context) : Context :=
  {| errors := errors context ++ [msg]; paths := paths context |}.

(** [`${value}`] of a boolean *)
Definition text_of (value : YamlValue number) : string :=
  match value with
  | YBoolean true => "true"
  | YBoolean false => "false"
  | _ => EmptyString
  end.

(** [`${body}`] of an array of argument descriptors *)
Definition objects (body : list ArgDescriptor) : string :=
  join "," (map (fun _ => "[object Object]") body).

(** The callback of [Object.entries(node).forEach] (lines 307-327). *)
Definition toTypeNode_entry (key : string) (value : YamlValue number)
    (recur : Context -> Completion TypeDescriptor * Context)
    (record : JsObject.t TypeDescriptor) (context : Context)
    : Completion (JsObject.t TypeDescriptor) * Context :=
  match typeof value with
  | TyNumber | TyString =>
      let value := scalar_text env value in
      match matchCallBody env value with
      | None =>
          (Normal (JsObject.assign key (createStringTypeDescriptor value) record), context)
      | Some args =>
          (Normal (JsObject.assign key (createCallTypeDescriptor args) record), context)
      end
  | TyObject =>
      match inPathContext context key recur with
      | (Normal node, context) => (Normal (JsObject.assign key node record), context)
      | (Throw e, context) => (Throw e, context)
      end
  | TyBoolean =>
      (Normal record,
       push ("unexpected value: [" ++ key ++ ", " ++ text_of value ++ "]") context)
  end.

(** lines 304-331 *)
Fixpoint toTypeNode (node : YamlValue number) (context : Context) {struct node}
    : Completion TypeDescriptor * Context :=
  let finish (r : Completion (JsObject.t TypeDescriptor) * Context) :=
    match r with
    | (Normal record, context) => (Normal (createRecordTypeDescriptor record), context)
    | (Throw e, context) => (Throw e, context)
    end in
  match node with
  | YNull => (Throw TypeError, context)
  | YNumber _ | YBoolean _ => (Normal (createRecordTypeDescriptor JsObject.empty), context)
  | YString s =>
      finish
        (fold_left
           (fun st entry =>
              match st with
              | (Normal record, context) =>
                  toTypeNode_entry (fst entry) (snd entry)
                    (fun ctx => (Throw TypeError, ctx)) record context
              | (Throw e, context) => (Throw e, context)
              end)
           (string_entries 0 s) (Normal JsObject.empty, context))
  | YArray items =>
      finish
        ((fix forEach (i : nat) (items : list (YamlValue number))
              (record : JsObject.t TypeDescriptor) (context : Context) :=
            match items with
            | [] => (Normal record, context)
            | value :: rest =>
                match toTypeNode_entry (decimal i) value (toTypeNode value) record context with
                | (Normal record, context) => forEach (S i) rest record context
                | (Throw e, context) => (Throw e, context)
                end
            end) 0 items JsObject.empty context)
  | YObject entries =>
      finish
        ((fix forEach (entries : list (string * YamlValue number))
              (record : JsObject.t TypeDescriptor) (context : Context) :=
            match entries with
            | [] => (Normal record, context)
            | (key, value) :: rest =>
                match toTypeNode_entry key value (toTypeNode value) record context with
                | (Normal record, context) => forEach rest record context
                | (Throw e, context) => (Throw e, context)
                end
            end) entries JsObject.empty context)
  end.

Fixpoint toTypeNode_loop (entries : list (string * YamlValue number))
    (record : JsObject.t TypeDescriptor) (context : Context)
    : Completion (JsObject.t TypeDescriptor) * Context :=
  match entries with
  | [] => (Normal record, context)
  | (key, value) :: rest =>
      match toTypeNode_entry key value (toTypeNode value) record context with
      | (Normal record, context) => toTypeNode_loop rest record context
      | (Throw e, context) => (Throw e, context)
      end
  end.

Fixpoint toTypeNode_items (i : nat) (items : list (YamlValue number))
    (record : JsObject.t TypeDescriptor) (context : Context)
    : Completion (JsObject.t TypeDescriptor) * Context :=
  match items with
  | [] => (Normal record, context)
  | value :: rest =>
      match toTypeNode_entry (decimal i) value (toTypeNode value) record context with
      | (Normal record, context) => toTypeNode_items (S i) rest record context
      | (Throw e, context) => (Throw e, context)
      end
  end.

(** [`${key} is missing in ${getCurrentPath(context)}`] *)
Definition missing_in (key : string) (context : Context) : string :=
  (key ++ " is missing in " ++ getCurrentPath env (paths context))%string.

(** [`${getCurrentPath(context)}.${key} is not correctly type, expected:
    ${expected}, actually: ${actually}`] *)
Definition not_correctly (key : string) (expected actually : string)
    (context : Context) : string :=
  (getCurrentPath env (paths context) ++ "." ++ key ++ " is not correctly type, expected: "
   ++ expected ++ ", actually: " ++ actually)%string.

(** The callback of the first loop of [merge] (lines 338-351). *)
Definition merge_check (source_value : JsObject.t TypeDescriptor)
    (context : Context) (entry : string * TypeDescriptor) : Context :=
  let '(key, value) := entry in
  match JsObject.lookup key source_value with
  | JsObject.Absent => push (missing_in key context) context
  | JsObject.Own source_key =>
      if negb (kind_eqb (kind source_key) (kind value)) then
        push (not_correctly key (kind_text (kind value)) (kind_text (kind source_key)) context)
          context
      else context
  | JsObject.Inherited =>
      push (not_correctly key (kind_text (kind value)) "undefined" context) context
  end.

(** The callback of the second loop of [merge] (lines 353-390); [recur]
    is [(targetValue, ctx) => merge(targetValue, value, ctx)], which changes
    the nested record in place. *)
Definition merge_visit (key : string) (value : TypeDescriptor)
    (recur : TypeDescriptor -> Context -> TypeDescriptor * Context)
    (target : TypeDescriptor) (context : Context) : TypeDescriptor * Context :=
  match JsObject.lookup key (record_value target) with
  | JsObject.Absent =>
      if isMissingRecordTypeDescriptor target then
        (RecordTypeDescriptor (JsObject.set key value (record_value target)) true, context)
      else (target, push (missing_in key context) context)
  | JsObject.Inherited =>
      (target, push (not_correctly key "undefined" (kind_text (kind value)) context) context)
  | JsObject.Own targetValue =>
      if isStringType targetValue && isStringType value then (target, context)
      else if isCallType targetValue && isCallType value then
        match targetValue, value with
        | CallTypeDescriptor targetBody, CallTypeDescriptor sourceBody =>
            if negb (arrayEq (filter isParamArgType targetBody)
                       (filter isParamArgType sourceBody) arg_name) then
              (target,
               push (getCurrentPath env (paths context) ++ "." ++ key
                     ++ " has different type: [" ++ objects targetBody ++ ", "
                     ++ objects sourceBody ++ "]")%string context)
            else (target, context)
        | _, _ => (target, context)
        end
      else if isRecordType targetValue && isRecordType value then
        let '(merged, context) := inPathContext context key (recur targetValue) in
        (RecordTypeDescriptor (JsObject.set key merged (record_value target))
           (isMissingRecordTypeDescriptor target), context)
      else
        (target,
         push (not_correctly key (kind_text (kind targetValue)) (kind_text (kind value))
                 context) context)
  end.

(** lines 333-397 *)
Fixpoint merge (target source : TypeDescriptor) (context : Context) {struct source}
    : TypeDescriptor * Context :=
  match source with
  | RecordTypeDescriptor source_value _ =>
      let context :=
        fold_left (merge_check source_value) (JsObject.entries (record_value target))
          context in
      let '(target, context) :=
        (fix forEach (entries : list (string * TypeDescriptor))
             (target : TypeDescriptor) (context : Context) :=
           match entries with
           | [] => (target, context)
           | (key, value) :: rest =>
               let '(target, context) :=
                 merge_visit key value (fun targetValue ctx => merge targetValue value ctx)
                   target context in
               forEach rest target context
           end) (JsObject.entries source_value) target context in
      (delete_missing target, context)
  | _ => (target, context)
  end.

Definition merge_loop (entries : list (string * TypeDescriptor))
    (target : TypeDescriptor) (context : Context) : TypeDescriptor * Context :=
  fold_left
    (fun st entry =>
       merge_visit (fst entry) (snd entry)
         (fun targetValue ctx => merge targetValue (snd entry) ctx) (fst st) (snd st))
    entries (target, context).

(** [.map(([f, x]) => [f, toTypeNode(x, context)])] (lines 439-441) *)
Fixpoint build (files : list (NamedValue.t (YamlValue number))) (context : Context)
    : Completion (list (NamedValue.t TypeDescriptor)) * Context :=
  match files with
  | [] => (Normal [], context)
  | file :: rest =>
      match toTypeNode (NamedValue.value file) context with
      | (Throw e, context) => (Throw e, context)
      | (Normal node, context) =>
          match build rest context with
          | (Throw e, context) => (Throw e, context)
          | (Normal nodes, context) =>
              (Normal ({| NamedValue.name := NamedValue.name file;
                          NamedValue.value := node |} :: nodes), context)
          end
      end
  end.

(** [typeNodes.reduce((prev, [_, next]) => merge(prev, next, context), init)]
    (lines 444-447) *)
Definition fold (typeNodes : list (NamedValue.t TypeDescriptor))
    (init : TypeDescriptor) (context : Context) : TypeDescriptor * Context :=
  fold_left (fun st node => merge (fst st) (NamedValue.value node) (snd st))
    typeNodes (init, context).

Definition fresh_context : Context := {| errors := []; paths := [] |}.

(** [gen] up to the printing (lines 427-457): the schema, the trees and
    the name of the first file, or what is thrown.  [first(files)[0]] throws
    a [TypeError] when there is no file. *)
Definition check (files : list (NamedValue.t (YamlValue number)))
    : Completion (TypeDescriptor * list (NamedValue.t TypeDescriptor) * string) :=
  match build files fresh_context with
  | (Throw e, _) => Throw e
  | (Normal typeNodes, context) =>
      let '(merged, context) := fold typeNodes createMissingRecordTypeDescriptor context in
      if negb (Nat.eqb (List.length (errors context)) 0) then
        Throw (Error (join newline (errors context)))
      else
        match first files with
        | None => Throw TypeError
        | Some file => Normal (merged, typeNodes, NamedValue.name file)
        end
  end.

(** lines 426-465, on the parsed files *)
Definition gen (files : list (NamedValue.t (YamlValue number))) (target : option Target)
    : Completion string :=
  match check files with
  | Throw e => Throw e
  | Normal (merged, typeNodes, defaultLang) => print_code merged target typeNodes defaultLang
  end.
End Engine.
End Old.

(** The two revisions have recorded something, or both nothing. *)
Definition related (old : Old.Context) (c : Context) : Prop :=
  Old.errors old = [] <-> clean c.

(** The two revisions build the same tree of a value and record in step. *)
Definition in_step {number : Type} (env : Collaborators number) (v : YamlValue number)
    : Prop :=
  forall old c, related old c ->
    fst (Old.toTypeNode env v old) = fst (toTypeNode env v c) /\
    related (snd (Old.toTypeNode env v old)) (snd (toTypeNode env v c)).

(** * Properties *)

(** ** Sets *)

Lemma JsSet_has_In (x : string) (s : JsSet.t) : JsSet.has x s = true <-> In x s.
Proof.
  unfold JsSet.has. rewrite existsb_exists. split.
  - intros [y [Hy He]]. apply String.eqb_eq in He. now subst.
  - intros H. exists x. split; [assumption | apply String.eqb_refl].
Qed.

Lemma JsSet_has_false (x : string) (s : JsSet.t) : JsSet.has x s = false <-> ~ In x s.
Proof.
  rewrite <- JsSet_has_In. destruct (JsSet.has x s); split; congruence.
Qed.

Lemma JsSet_add_In (x y : string) (s : JsSet.t) :
  In y (JsSet.add x s) <-> y = x \/ In y s.
Proof.
  unfold JsSet.add. destruct (JsSet.has x s) eqn:E.
  - apply JsSet_has_In in E. split; [auto | intros [-> | H]; assumption].
  - rewrite in_app_iff. simpl. split; intros H.
    + destruct H as [H | [H | []]]; auto.
    + destruct H as [H | H]; auto.
Qed.

Lemma JsSet_add_NoDup (x : string) (s : JsSet.t) : NoDup s -> NoDup (JsSet.add x s).
Proof.
  intros H. unfold JsSet.add. destruct (JsSet.has x s) eqn:E; [assumption |].
  apply JsSet_has_false in E.
  apply NoDup_app; [assumption | repeat constructor; simpl; tauto |].
  intros a Ha [<- | []]. contradiction.
Qed.

Lemma JsSet_add_not_empty (x : string) (s : JsSet.t) : JsSet.add x s <> [].
Proof.
  unfold JsSet.add. destruct (JsSet.has x s) eqn:E.
  - apply JsSet_has_In in E. destruct s; [contradiction | discriminate].
  - destruct s; discriminate.
Qed.

Lemma JsSet_add_idem (x : string) (s : JsSet.t) : In x s -> JsSet.add x s = s.
Proof.
  intros H. unfold JsSet.add. apply JsSet_has_In in H. now rewrite H.
Qed.

Lemma JsSet_of_list_In (l : list string) (x : string) : In x (JsSet.of_list l) <-> In x l.
Proof.
  unfold JsSet.of_list.
  assert (G : forall acc, In x (fold_left (fun s y => JsSet.add y s) l acc) <-> In x acc \/ In x l).
  { induction l as [| a l IH]; intros acc; simpl.
    - tauto.
    - rewrite IH, JsSet_add_In. intuition congruence. }
  rewrite G. simpl. tauto.
Qed.

(** ** Maps *)

Section MapFacts.
Context {V : Type}.
Implicit Types (m : JsMap.t V) (k : string) (v : V).

Lemma JsMap_get_In k v m : JsMap.get k m = Some v -> In (k, v) m.
Proof.
  induction m as [| [k' v'] m IH]; simpl; [discriminate |].
  destruct (String.eqb_spec k k') as [-> | Hne].
  - intros [= ->]. now left.
  - intros H. right. auto.
Qed.

Lemma JsMap_get_None k m : JsMap.get k m = None <-> ~ In k (map fst m).
Proof.
  induction m as [| [k' v'] m IH]; simpl; [tauto |].
  destruct (String.eqb_spec k k') as [-> | Hne].
  - split; [discriminate | intros H; exfalso; apply H; now left].
  - rewrite IH. split; intros H; [intros [E | E]; [congruence | contradiction] | tauto].
Qed.

Lemma JsMap_get_Some_key k v m : JsMap.get k m = Some v -> In k (map fst m).
Proof.
  intros H. apply JsMap_get_In in H. apply (in_map fst) in H. exact H.
Qed.

Lemma JsMap_In_get k v m : NoDup (map fst m) -> In (k, v) m -> JsMap.get k m = Some v.
Proof.
  induction m as [| [k' v'] m IH]; simpl; [contradiction |].
  intros Hnd Hin. inversion Hnd as [| ? ? Hk' Hnd']; subst.
  destruct Hin as [[= -> ->] | Hin].
  - now rewrite String.eqb_refl.
  - destruct (String.eqb_spec k k') as [-> | Hne]; [| auto].
    exfalso. apply Hk'. apply (in_map fst) in Hin. exact Hin.
Qed.

Lemma JsMap_keys_replace k v m : map fst (JsMap.replace k v m) = map fst m.
Proof.
  induction m as [| [k' v'] m IH]; simpl; [reflexivity |].
  destruct (String.eqb k k'); simpl; congruence.
Qed.

Lemma JsMap_get_replace k k' v m :
  JsMap.get k' (JsMap.replace k v m) =
    if String.eqb k' k then
      match JsMap.get k m with Some _ => Some v | None => None end
    else JsMap.get k' m.
Proof.
  induction m as [| [k0 v0] m IH]; simpl.
  - now destruct (String.eqb k' k).
  - destruct (String.eqb_spec k k0) as [-> | Hne]; simpl.
    + destruct (String.eqb_spec k' k0); reflexivity.
    + rewrite IH. destruct (String.eqb_spec k' k) as [-> | Hne'].
      * destruct (String.eqb_spec k k0); [contradiction | reflexivity].
      * reflexivity.
Qed.

Lemma JsMap_get_app k m1 m2 :
  JsMap.get k (m1 ++ m2) =
    match JsMap.get k m1 with Some v => Some v | None => JsMap.get k m2 end.
Proof.
  induction m1 as [| [k' v'] m1 IH]; simpl; [reflexivity |].
  destruct (String.eqb k k'); [reflexivity | exact IH].
Qed.

Lemma JsMap_get_set k k' v m :
  JsMap.get k' (JsMap.set k v m) = if String.eqb k' k then Some v else JsMap.get k' m.
Proof.
  unfold JsMap.set. destruct (JsMap.get k m) eqn:E.
  - rewrite JsMap_get_replace, E. reflexivity.
  - rewrite JsMap_get_app. simpl.
    destruct (String.eqb_spec k' k) as [-> | Hne].
    + now rewrite E.
    + now destruct (JsMap.get k' m).
Qed.

Lemma JsMap_keys_set k v m k' :
  In k' (map fst (JsMap.set k v m)) <-> k' = k \/ In k' (map fst m).
Proof.
  unfold JsMap.set. destruct (JsMap.get k m) eqn:E.
  - rewrite JsMap_keys_replace. apply JsMap_get_Some_key in E.
    split; [auto | intros [-> | H]; assumption].
  - rewrite map_app, in_app_iff. simpl. intuition.
Qed.

Lemma JsMap_set_not_empty k v m : JsMap.set k v m <> [].
Proof.
  unfold JsMap.set. destruct (JsMap.get k m) eqn:E.
  - destruct m as [| [k' v'] m]; simpl in *; [discriminate |].
    destruct (String.eqb k k'); discriminate.
  - destruct m; discriminate.
Qed.

Lemma JsMap_set_NoDup k v m : NoDup (map fst m) -> NoDup (map fst (JsMap.set k v m)).
Proof.
  intros H. unfold JsMap.set. destruct (JsMap.get k m) eqn:E.
  - now rewrite JsMap_keys_replace.
  - rewrite map_app. simpl. apply JsMap_get_None in E.
    apply NoDup_app; [assumption | repeat constructor; simpl; tauto |].
    intros a Ha [<- | []]. contradiction.
Qed.
End MapFacts.

(** ** Objects *)

Section ObjectFacts.
Context {V : Type}.
Implicit Types (o : JsObject.t V) (k : string) (v : V).

Lemma JsObject_has_get k o : JsObject.has k o = true <-> JsObject.get k o <> None.
Proof.
  unfold JsObject.has. destruct (JsObject.get k o); split; congruence.
Qed.

Lemma JsObject_get_insert_other n k v o k' :
  k' <> k -> JsObject.get k' (JsObject.insert_index n k v o) = JsObject.get k' o.
Proof.
  intros Hne. unfold JsObject.get.
  induction o as [| [k0 v0] o IH]; simpl.
  - destruct (String.eqb_spec k' k); [contradiction | reflexivity].
  - destruct (JsObject.array_index k0) as [n0 |].
    + destruct (n0 <? n)%N; simpl.
      * now rewrite IH.
      * destruct (String.eqb_spec k' k); [contradiction | reflexivity].
    + simpl. destruct (String.eqb_spec k' k); [contradiction | reflexivity].
Qed.

Lemma JsObject_get_insert_same n k v o :
  JsObject.get k o = None -> JsObject.get k (JsObject.insert_index n k v o) = Some v.
Proof.
  unfold JsObject.get.
  induction o as [| [k0 v0] o IH]; simpl.
  - now rewrite String.eqb_refl.
  - destruct (String.eqb_spec k k0) as [-> | Hne]; [discriminate |]. intros H.
    destruct (JsObject.array_index k0) as [n0 |].
    + destruct (n0 <? n)%N; simpl.
      * destruct (String.eqb_spec k k0); [contradiction | auto].
      * now rewrite String.eqb_refl.
    + simpl. now rewrite String.eqb_refl.
Qed.

(** Reading a property after an assignment. *)
Lemma JsObject_get_set k v o k' :
  JsObject.get k' (JsObject.set k v o) =
    if String.eqb k' k then Some v else JsObject.get k' o.
Proof.
  unfold JsObject.set, JsObject.has.
  destruct (JsObject.get k o) eqn:E.
  - unfold JsObject.get in *. rewrite JsMap_get_replace, E. reflexivity.
  - destruct (String.eqb_spec k' k) as [-> | Hne].
    + destruct (JsObject.array_index k).
      * now apply JsObject_get_insert_same.
      * unfold JsObject.get in *. rewrite JsMap_get_app, E. simpl.
        now rewrite String.eqb_refl.
    + destruct (JsObject.array_index k).
      * now apply JsObject_get_insert_other.
      * unfold JsObject.get in *. rewrite JsMap_get_app. simpl.
        destruct (String.eqb_spec k' k); [contradiction |].
        now destruct (JsMap.get k' o).
Qed.

Lemma JsObject_lookup_own k v o :
  JsObject.get k o = Some v -> JsObject.lookup k o = JsObject.Own v.
Proof. unfold JsObject.lookup. now intros ->. Qed.

Lemma JsObject_lookup_absent k o :
  JsObject.get k o = None -> JsObject.inherited k = false ->
  JsObject.lookup k o = JsObject.Absent.
Proof. unfold JsObject.lookup. now intros -> ->. Qed.

Lemma JsObject_lookup_inherited k o :
  JsObject.get k o = None -> JsObject.inherited k = true ->
  JsObject.lookup k o = JsObject.Inherited.
Proof. unfold JsObject.lookup. now intros -> ->. Qed.

(** [k in o] fails exactly for a name that is neither an own property of
    [o] nor a member of [Object.prototype]. *)
Lemma JsObject_member_false k o :
  JsObject.member k o = false <->
  JsObject.get k o = None /\ JsObject.inherited k = false.
Proof.
  unfold JsObject.member, JsObject.lookup.
  destruct (JsObject.get k o); [split; [discriminate | intros [? _]; discriminate] |].
  destruct (JsObject.inherited k); split; try discriminate; auto.
  intros [_ ?]; discriminate.
Qed.

Lemma JsObject_get_set_same k v o : JsObject.get k (JsObject.set k v o) = Some v.
Proof. rewrite JsObject_get_set. now rewrite String.eqb_refl. Qed.

Lemma JsObject_get_set_other k v o k' :
  k' <> k -> JsObject.get k' (JsObject.set k v o) = JsObject.get k' o.
Proof.
  intros H. rewrite JsObject_get_set.
  destruct (String.eqb_spec k' k); [contradiction | reflexivity].
Qed.

Lemma JsObject_get_In k v o : JsObject.get k o = Some v -> In (k, v) (JsObject.entries o).
Proof. apply JsMap_get_In. Qed.

Lemma JsObject_In_get k v o :
  NoDup (JsObject.keys o) -> In (k, v) (JsObject.entries o) -> JsObject.get k o = Some v.
Proof. apply JsMap_In_get. Qed.

Lemma JsObject_get_keys k o : JsObject.get k o <> None <-> In k (JsObject.keys o).
Proof.
  unfold JsObject.get, JsObject.keys. split.
  - intros H. destruct (JsMap.get k o) eqn:E; [| contradiction].
    now apply JsMap_get_Some_key in E.
  - intros H E. apply JsMap_get_None in E. contradiction.
Qed.

Lemma JsObject_keys_insert n k v o :
  Permutation (k :: JsObject.keys o) (JsObject.keys (JsObject.insert_index n k v o)).
Proof.
  unfold JsObject.keys. induction o as [| [k0 v0] o IH]; simpl.
  - apply Permutation_refl.
  - destruct (JsObject.array_index k0) as [n0 |]; [| apply Permutation_refl].
    destruct (n0 <? n)%N; [| apply Permutation_refl]. simpl.
    eapply Permutation_trans; [apply perm_swap |]. now apply perm_skip.
Qed.

(** An assignment keeps the keys of an object distinct. *)
Lemma JsObject_set_NoDup k v o :
  NoDup (JsObject.keys o) -> NoDup (JsObject.keys (JsObject.set k v o)).
Proof.
  intros H. unfold JsObject.set, JsObject.has.
  destruct (JsObject.get k o) eqn:E.
  - unfold JsObject.keys. now rewrite JsMap_keys_replace.
  - assert (Hk : ~ In k (JsObject.keys o)).
    { intros Hin. apply JsObject_get_keys in Hin. contradiction. }
    destruct (JsObject.array_index k).
    + eapply Permutation_NoDup; [apply JsObject_keys_insert |]. now constructor.
    + unfold JsObject.keys. rewrite map_app. simpl.
      eapply Permutation_NoDup; [apply Permutation_cons_append |]. now constructor.
Qed.
(** *** Enumeration order *)

Lemma array_index_inj k k' n :
  JsObject.array_index k = Some n -> JsObject.array_index k' = Some n -> k = k'.
Proof.
  unfold JsObject.array_index. intros H H'.
  destruct (JsObject.digits k 0) as [a |]; [| discriminate].
  destruct (JsObject.digits k' 0) as [b |]; [| discriminate].
  destruct (String.eqb_spec (NilZero.string_of_uint (N.to_uint a)) k) as [Ea |];
    [| discriminate].
  destruct (String.eqb_spec (NilZero.string_of_uint (N.to_uint b)) k') as [Eb |];
    [| discriminate].
  simpl in H, H'.
  destruct (a <? 4294967295)%N; [| discriminate].
  destruct (b <? 4294967295)%N; [| discriminate].
  congruence.
Qed.

Lemma key_before_irrefl k : JsObject.key_before k k = false.
Proof.
  unfold JsObject.key_before. destruct (JsObject.array_index k).
  - apply N.ltb_irrefl.
  - now rewrite String.eqb_refl.
Qed.

Lemma ordered_keys_NoDup ks : JsObject.ordered_keys ks = true -> NoDup ks.
Proof.
  induction ks as [| k ks IH]; simpl; intros H; constructor.
  - apply andb_true_iff in H as [H _]. intros Hin.
    rewrite forallb_forall in H. specialize (H k Hin).
    rewrite key_before_irrefl in H. discriminate.
  - apply andb_true_iff in H as [_ H]. auto.
Qed.

Lemma ordered_keys_prefix l1 k l2 :
  JsObject.ordered_keys (l1 ++ k :: l2) = true ->
  forallb (fun k' => JsObject.key_before k' k) l1 = true.
Proof.
  induction l1 as [| a l1 IH]; simpl; [reflexivity |]. intros H.
  apply andb_true_iff in H as [Ha H]. rewrite (IH H), andb_true_r.
  rewrite forallb_forall in Ha. apply Ha. apply in_or_app. right. now left.
Qed.

Lemma forallb_keys_insert (f : string -> bool) n k v o :
  forallb f (JsObject.keys (JsObject.insert_index n k v o)) =
  f k && forallb f (JsObject.keys o).
Proof.
  unfold JsObject.keys. induction o as [| [k0 v0] o IH]; simpl; [reflexivity |].
  destruct (JsObject.array_index k0) as [n0 |]; [| reflexivity].
  destruct (n0 <? n)%N; [| reflexivity]. simpl. rewrite IH.
  now destruct (f k0), (f k).
Qed.

Lemma ordered_insert n k v o :
  JsObject.ordered o = true -> JsObject.get k o = None ->
  JsObject.array_index k = Some n ->
  JsObject.ordered (JsObject.insert_index n k v o) = true.
Proof.
  unfold JsObject.ordered. intros Ho Hget Hk.
  induction o as [| [k0 v0] o IH]; [reflexivity |].
  unfold JsObject.get in Hget. simpl in Hget.
  destruct (String.eqb_spec k k0) as [-> | Hne]; [discriminate |].
  simpl in Ho. apply andb_true_iff in Ho as [Hall Ho].
  assert (Hhead : forall k'', In k'' (JsObject.keys o) ->
            JsObject.key_before k0 k'' = true)
    by (now apply forallb_forall).
  simpl. destruct (JsObject.array_index k0) as [n0 |] eqn:E0.
  - destruct (n0 <? n)%N eqn:El.
    + simpl. fold (JsObject.keys (JsObject.insert_index n k v o)).
      rewrite forallb_keys_insert.
      fold (JsObject.keys o). rewrite Hall, andb_true_r.
      rewrite (IH Ho Hget), andb_true_r.
      unfold JsObject.key_before. now rewrite E0, Hk.
    + simpl. fold (JsObject.keys o). rewrite Hall, Ho. simpl. rewrite !andb_true_r.
      assert (Hlt : (n <? n0)%N = true).
      { apply N.ltb_lt. apply N.ltb_ge in El.
        destruct (N.eq_dec n n0) as [-> | Hn]; [| lia].
        exfalso. apply Hne. now apply (array_index_inj k k0 n0). }
      apply andb_true_iff. split.
      * unfold JsObject.key_before. now rewrite Hk, E0.
      * apply forallb_forall. intros k'' Hin. specialize (Hhead k'' Hin).
        unfold JsObject.key_before in *. rewrite Hk. rewrite E0 in Hhead.
        destruct (JsObject.array_index k'') as [n'' |]; [| reflexivity].
        apply N.ltb_lt. apply N.ltb_lt in Hhead, Hlt. lia.
  - simpl. fold (JsObject.keys o). rewrite Hall, Ho. simpl. rewrite !andb_true_r.
    apply andb_true_iff. split.
    + unfold JsObject.key_before. now rewrite Hk, E0.
    + apply forallb_forall. intros k'' Hin. specialize (Hhead k'' Hin).
      unfold JsObject.key_before in *. rewrite Hk. rewrite E0 in Hhead.
      destruct (JsObject.array_index k''); [discriminate | reflexivity].
Qed.

Lemma ordered_append k v o :
  JsObject.ordered o = true -> JsObject.get k o = None ->
  JsObject.array_index k = None ->
  JsObject.ordered (o ++ [(k, v)]) = true.
Proof.
  unfold JsObject.ordered, JsObject.keys. intros Ho Hget Hk.
  induction o as [| [k0 v0] o IH]; [reflexivity |].
  unfold JsObject.get in Hget. simpl in Hget.
  destruct (String.eqb_spec k k0) as [-> | Hne]; [discriminate |].
  simpl in Ho |- *. apply andb_true_iff in Ho as [Hall Ho].
  rewrite (IH Ho Hget), andb_true_r.
  rewrite map_app, forallb_app, Hall. simpl. rewrite andb_true_r.
  unfold JsObject.key_before. rewrite Hk.
  destruct (JsObject.array_index k0); [reflexivity |].
  apply negb_true_iff. apply String.eqb_neq. congruence.
Qed.

(** An assignment keeps the enumeration order. *)
Lemma JsObject_set_ordered k v o :
  JsObject.ordered o = true -> JsObject.ordered (JsObject.set k v o) = true.
Proof.
  intros Ho. unfold JsObject.set, JsObject.has.
  destruct (JsObject.get k o) eqn:E.
  - unfold JsObject.ordered, JsObject.keys in *. now rewrite JsMap_keys_replace.
  - destruct (JsObject.array_index k) eqn:Ek.
    + now apply ordered_insert.
    + now apply ordered_append.
Qed.

Lemma JsObject_assign_NoDup k v o :
  NoDup (JsObject.keys o) -> NoDup (JsObject.keys (JsObject.assign k v o)).
Proof.
  intros H. unfold JsObject.assign.
  destruct (String.eqb k "__proto__" && negb (JsObject.has k o));
    [exact H | now apply JsObject_set_NoDup].
Qed.

Lemma JsObject_assign_ordered k v o :
  JsObject.ordered o = true -> JsObject.ordered (JsObject.assign k v o) = true.
Proof.
  intros H. unfold JsObject.assign.
  destruct (String.eqb k "__proto__" && negb (JsObject.has k o));
    [exact H | now apply JsObject_set_ordered].
Qed.

Lemma JsObject_get_assign_other k v o k' :
  k' <> k -> JsObject.get k' (JsObject.assign k v o) = JsObject.get k' o.
Proof.
  intros H. unfold JsObject.assign.
  destruct (String.eqb k "__proto__" && negb (JsObject.has k o));
    [reflexivity | now apply JsObject_get_set_other].
Qed.

(** Under any key but [__proto__] the assignment sets the own property. *)
Lemma JsObject_assign_set k v o : k <> "__proto__"%string -> JsObject.assign k v o = JsObject.set k v o.
Proof.
  intros H. unfold JsObject.assign.
  destruct (String.eqb_spec k "__proto__"); [contradiction | reflexivity].
Qed.

(** An object built by assignments from the empty one has no own property
    [__proto__]. *)
Lemma JsObject_assign_no_proto k v o :
  JsObject.get "__proto__" o = None ->
  JsObject.get "__proto__" (JsObject.assign k v o) = None.
Proof.
  intros H. unfold JsObject.assign.
  destruct (String.eqb_spec k "__proto__") as [-> | Hne]; simpl.
  - unfold JsObject.has. now rewrite H.
  - rewrite JsObject_get_set_other; [exact H | congruence].
Qed.

Lemma plain_keys_In k o :
  plain_keys o = true -> In k (JsObject.keys o) -> JsObject.inherited k = false.
Proof.
  unfold plain_keys. rewrite forallb_forall. intros H Hin.
  apply negb_true_iff. now apply H.
Qed.

Lemma plain_keys_cons k v o :
  plain_keys ((k, v) :: o) = true -> JsObject.inherited k = false /\ plain_keys o = true.
Proof.
  unfold plain_keys. simpl. intros H. apply andb_true_iff in H as [H1 H2].
  now apply negb_true_iff in H1.
Qed.

Lemma plain_keys_set k v o :
  plain_keys o = true -> JsObject.inherited k = false ->
  plain_keys (JsObject.set k v o) = true.
Proof.
  unfold plain_keys. rewrite !forallb_forall. intros H Hk x Hx.
  destruct (String.eqb_spec x k) as [-> | Hne]; [now rewrite Hk |].
  apply H. apply JsObject_get_keys. apply JsObject_get_keys in Hx.
  now rewrite JsObject_get_set_other in Hx.
Qed.

Lemma insert_index_last n k v o :
  forallb (fun k' => JsObject.key_before k' k) (JsObject.keys o) = true ->
  JsObject.array_index k = Some n ->
  JsObject.insert_index n k v o = o ++ [(k, v)].
Proof.
  unfold JsObject.keys. intros Hall Hk.
  induction o as [| [k0 v0] o IH]; [reflexivity |].
  simpl in Hall |- *. apply andb_true_iff in Hall as [H0 Hall].
  unfold JsObject.key_before in H0. rewrite Hk in H0.
  destruct (JsObject.array_index k0) as [n0 |]; [| discriminate].
  rewrite H0. now rewrite IH.
Qed.

(** Assigning a key that comes after every key of the object appends it. *)
Lemma JsObject_set_last k v o rest :
  JsObject.ordered (o ++ (k, v) :: rest) = true ->
  JsObject.set k v o = o ++ [(k, v)].
Proof.
  unfold JsObject.ordered, JsObject.keys. rewrite map_app. simpl. intros Ho.
  pose proof (ordered_keys_prefix _ _ _ Ho) as Hbefore.
  assert (Hk : JsObject.get k o = None).
  { apply JsMap_get_None. intros Hin.
    rewrite forallb_forall in Hbefore. specialize (Hbefore k Hin).
    rewrite key_before_irrefl in Hbefore. discriminate. }
  unfold JsObject.set, JsObject.has. rewrite Hk.
  destruct (JsObject.array_index k) eqn:Ek; [| reflexivity].
  now apply insert_index_last.
Qed.
End ObjectFacts.

Example array_index_examples :
  map JsObject.array_index ["0"; "7"; "10"; "4294967294"; "4294967295"; "01"; ""; "x1"; "1e3"]
  = [Some 0%N; Some 7%N; Some 10%N; Some 4294967294%N; None; None; None; None; None].
Proof. vm_compute. reflexivity. Qed.

(** ** Contexts only grow *)

Lemma extends_refl (c : Context) : extends c c.
Proof. constructor; auto. intros path entry H. exists entry. auto. Qed.

Lemma extends_trans (a b c : Context) : extends a b -> extends b c -> extends a c.
Proof.
  intros [P1 E1 N1 M1 K1] [P2 E2 N2 M2 K2]. constructor; auto.
  - congruence.
  - intros path entry H.
    destruct (M1 path entry H) as [e1 [H1 [X1 Y1]]].
    destruct (M2 path e1 H1) as [e2 [H2 [X2 Y2]]].
    exists e2. auto.
Qed.

Section EngineFacts.
Context {number : Type} (env : Collaborators number).

Lemma add_error_extends msg c : extends c (add_error msg c).
Proof.
  constructor; simpl; auto.
  - intros m H. apply JsSet_add_In. now right.
  - apply JsSet_add_NoDup.
  - intros path entry H. exists entry. auto.
Qed.

Lemma add_error_In msg c : In msg (errors (add_error msg c)).
Proof. simpl. apply JsSet_add_In. now left. Qed.

Lemma note_missing_extends path name c : extends c (note_missing path name c).
Proof.
  constructor; simpl; auto.
  - intros p entry H. destruct (JsMap.get path (missing c)) as [miss |] eqn:E;
      rewrite JsMap_get_set; destruct (String.eqb_spec p path) as [-> | Hne];
      try solve [exists entry; auto].
    + rewrite E in H. injection H as <-. eexists. split; [reflexivity |]. simpl.
      split; [auto | intros n Hn; apply JsSet_add_In; now right].
    + congruence.
  - intros H. destruct (JsMap.get path (missing c)); now apply JsMap_set_NoDup.
Qed.

Lemma note_exists_extends path name c : extends c (note_exists path name c).
Proof.
  constructor; simpl; auto.
  - intros p entry H. destruct (JsMap.get path (missing c)) as [miss |] eqn:E;
      rewrite JsMap_get_set; destruct (String.eqb_spec p path) as [-> | Hne];
      try solve [exists entry; auto].
    + rewrite E in H. injection H as <-. eexists. split; [reflexivity |]. simpl.
      split; [intros n Hn; apply JsSet_add_In; now right | auto].
    + congruence.
  - intros H. destruct (JsMap.get path (missing c)); now apply JsMap_set_NoDup.
Qed.

Lemma note_missing_get path name c :
  exists entry,
    JsMap.get path (missing (note_missing path name c)) = Some entry /\
    In name (Miss.missing entry).
Proof.
  unfold note_missing. simpl.
  destruct (JsMap.get path (missing c)); rewrite JsMap_get_set, String.eqb_refl;
    eexists; (split; [reflexivity |]); cbn [Miss.missing Miss.exist];
    apply JsSet_add_In; now left.
Qed.

Lemma note_exists_get path name c :
  exists entry,
    JsMap.get path (missing (note_exists path name c)) = Some entry /\
    In name (Miss.exist entry).
Proof.
  unfold note_exists. simpl.
  destruct (JsMap.get path (missing c)); rewrite JsMap_get_set, String.eqb_refl;
    eexists; (split; [reflexivity |]); cbn [Miss.missing Miss.exist];
    apply JsSet_add_In; now left.
Qed.

Lemma inPathContext_extends {T : Type} c key (cb : Context -> T * Context) :
  (forall ctx, extends ctx (snd (cb ctx))) ->
  extends c (snd (inPathContext c key cb)).
Proof.
  intros H. unfold inPathContext.
  match goal with |- context [cb ?x] => specialize (H x); destruct (cb x) as [r c'] end.
  destruct H as [P E N M K]. simpl in *. constructor; simpl; auto.
Qed.

Lemma merge_check_extends source_value name c entry :
  extends c (merge_check env source_value name c entry).
Proof.
  destruct entry as [key value]. simpl. unfold JsObject.lookup.
  destruct (JsObject.get key source_value) as [sk |].
  - destruct (negb (kind_eqb (kind sk) (kind value)));
      [apply add_error_extends | apply extends_refl].
  - destruct (JsObject.inherited key);
      [apply add_error_extends | apply note_missing_extends].
Qed.

Lemma merge_checks_extends source_value name entries c :
  extends c (fold_left (merge_check env source_value name) entries c).
Proof.
  revert c. induction entries as [| e entries IH]; intros c; simpl.
  - apply extends_refl.
  - eapply extends_trans; [apply merge_check_extends | apply IH].
Qed.

Lemma merge_visit_extends name key value recur target c :
  (forall tv ctx, extends ctx (snd (recur tv ctx))) ->
  extends c (snd (merge_visit env name key value recur target c)).
Proof.
  intros H. unfold merge_visit, JsObject.lookup.
  destruct (JsObject.get key (record_value target)) as [tv |].
  - destruct (isStringType tv && isStringType value); [apply extends_refl |].
    destruct (isCallType tv && isCallType value).
    + destruct tv, value; simpl; try apply extends_refl.
      match goal with |- context [negb ?b] => destruct (negb b) end; simpl;
        [apply add_error_extends | apply extends_refl].
    + destruct (isRecordType tv && isRecordType value).
      * pose proof (inPathContext_extends c key (recur tv) (H tv)) as G.
        destruct (inPathContext c key (recur tv)). exact G.
      * apply add_error_extends.
  - destruct (JsObject.inherited key); [apply add_error_extends |].
    destruct (isMissingRecordTypeDescriptor target); simpl;
      [apply extends_refl | apply note_exists_extends].
Qed.

(** The loop inside [merge] is [merge_loop]. *)
Lemma merge_unfold target source_value flag name c :
  merge env target (RecordTypeDescriptor source_value flag) name c =
    let c1 := fold_left (merge_check env source_value name)
                (JsObject.entries (record_value target)) c in
    let '(t, c2) := merge_loop env name (JsObject.entries source_value) target c1 in
    (delete_missing t, c2).
Proof.
  simpl. unfold merge_loop, JsObject.entries.
  generalize (fold_left (merge_check env source_value name) (record_value target) c).
  generalize target.
  induction source_value as [| [key value] rest IH]; intros t c1; simpl.
  - reflexivity.
  - destruct (merge_visit env name key value
                (fun targetValue ctx => merge env targetValue value name ctx) t c1)
      as [t' c'] eqn:E.
    apply IH.
Qed.

Lemma merge_loop_nil name target c : merge_loop env name [] target c = (target, c).
Proof. reflexivity. Qed.

Lemma merge_loop_cons name key value rest target c :
  merge_loop env name ((key, value) :: rest) target c =
    let '(t, c') :=
      merge_visit env name key value
        (fun targetValue ctx => merge env targetValue value name ctx) target c in
    merge_loop env name rest t c'.
Proof.
  unfold merge_loop. simpl.
  destruct (merge_visit env name key value
              (fun targetValue ctx => merge env targetValue value name ctx) target c).
  reflexivity.
Qed.

Lemma merge_extends source : forall target name c,
  extends c (snd (merge env target source name c)).
Proof.
  induction source as [v | b | source_value flag IH] using TypeDescriptor_tree_ind;
    intros target name c;
    try apply extends_refl.
  rewrite merge_unfold. cbv zeta.
  set (c1 := fold_left (merge_check env source_value name)
               (JsObject.entries (record_value target)) c).
  apply extends_trans with c1; [apply merge_checks_extends |].
  clearbody c1. clear c. rename c1 into c.
  assert (G : extends c (snd (merge_loop env name (JsObject.entries source_value) target c))).
  { unfold JsObject.entries. revert target c.
    induction IH as [| [key value] rest Hv _ IHrest]; intros target c.
    - apply extends_refl.
    - rewrite merge_loop_cons.
      pose proof (merge_visit_extends name key value
                    (fun tv ctx => merge env tv value name ctx) target c
                    (fun tv ctx => Hv tv name ctx)) as G.
      destruct (merge_visit env name key value _ target c) as [t c'].
      eapply extends_trans; [exact G | apply IHrest]. }
  destruct (merge_loop env name (JsObject.entries source_value) target c). exact G.
Qed.

Lemma fold_extends typeNodes : forall init c, extends c (snd (fold env typeNodes init c)).
Proof.
  unfold fold. induction typeNodes as [| node rest IH]; intros init c; simpl.
  - apply extends_refl.
  - pose proof (merge_extends (NamedValue.value node) init (NamedValue.name node) c) as G.
    destruct (merge env init (NamedValue.value node) (NamedValue.name node) c) as [t c'].
    eapply extends_trans; [exact G | apply IH].
Qed.
End EngineFacts.

(** ** What a visit changes in the accumulator *)

Lemma list_eqb_string_eq (a b : list string) : list_eqb String.eqb a b = true <-> a = b.
Proof.
  revert b. induction a as [| x a IH]; intros [| y b]; simpl; split;
    try congruence; try reflexivity.
  - intros H. apply andb_true_iff in H as [H1 H2].
    apply String.eqb_eq in H1. apply IH in H2. congruence.
  - intros [= -> ->]. rewrite String.eqb_refl. simpl. now apply IH.
Qed.

Lemma arrayEq_param_names (tb sb : list ArgDescriptor) :
  arrayEq (filter isParamArgType tb) (filter isParamArgType sb) arg_name = true <->
  param_names tb = param_names sb.
Proof. unfold arrayEq, param_names. apply list_eqb_string_eq. Qed.

Lemma kind_eqb_eq (a b : TypeDescriptorKind) : kind_eqb a b = true <-> a = b.
Proof. destruct a, b; simpl; split; congruence. Qed.

Lemma record_value_delete_missing (t : TypeDescriptor) :
  record_value (delete_missing t) = record_value t.
Proof. now destruct t. Qed.

Lemma isMissing_delete_missing (t : TypeDescriptor) :
  isMissingRecordTypeDescriptor (delete_missing t) = false.
Proof. now destruct t. Qed.

Lemma JsMap_get_split {V : Type} (k : string) (v : V) (m : JsMap.t V) :
  JsMap.get k m = Some v ->
  exists pre post, m = pre ++ (k, v) :: post /\ ~ In k (map fst pre).
Proof.
  induction m as [| [k' v'] m IH]; simpl; [discriminate |].
  destruct (String.eqb_spec k k') as [-> | Hne].
  - intros [= ->]. exists [], m. split; [reflexivity | simpl; tauto].
  - intros H. destruct (IH H) as [pre [post [-> Hpre]]].
    exists ((k', v') :: pre), post. split; [reflexivity |].
    simpl. intros [E | E]; [congruence | contradiction].
Qed.

Section VisitFacts.
Context {number : Type} (env : Collaborators number).

Lemma path_of_paths c c' key : paths c' = paths c -> path_of env c' key = path_of env c key.
Proof. unfold path_of. now intros ->. Qed.

Lemma merge_visit_get_other name key value recur target c k :
  k <> key ->
  JsObject.get k (record_value (fst (merge_visit env name key value recur target c))) =
  JsObject.get k (record_value target).
Proof.
  intros Hne. unfold merge_visit, JsObject.lookup.
  destruct (JsObject.get key (record_value target)) as [tv |].
  - destruct (isStringType tv && isStringType value); [reflexivity |].
    destruct (isCallType tv && isCallType value).
    + destruct tv, value; try reflexivity.
      match goal with |- context [negb ?b] => destruct (negb b) end; reflexivity.
    + destruct (isRecordType tv && isRecordType value); [| reflexivity].
      destruct (inPathContext c key (recur tv)) as [merged c']. simpl.
      now apply JsObject_get_set_other.
  - destruct (JsObject.inherited key); [reflexivity |].
    destruct (isMissingRecordTypeDescriptor target); [| reflexivity].
    simpl. now apply JsObject_get_set_other.
Qed.

Lemma merge_visit_flag name key value recur target c :
  isMissingRecordTypeDescriptor (fst (merge_visit env name key value recur target c)) =
  isMissingRecordTypeDescriptor target.
Proof.
  unfold merge_visit, JsObject.lookup.
  destruct (JsObject.get key (record_value target)) as [tv |].
  - destruct (isStringType tv && isStringType value); [reflexivity |].
    destruct (isCallType tv && isCallType value).
    + destruct tv, value; try reflexivity.
      match goal with |- context [negb ?b] => destruct (negb b) end; reflexivity.
    + destruct (isRecordType tv && isRecordType value); [| reflexivity].
      destruct (inPathContext c key (recur tv)) as [merged c']. reflexivity.
  - destruct (JsObject.inherited key); [reflexivity |].
    destruct (isMissingRecordTypeDescriptor target) eqn:E; [reflexivity | exact E].
Qed.

(** A key whose two descriptors are not both records is left as it is. *)
Lemma merge_visit_leaf name key value recur target c tv :
  JsObject.get key (record_value target) = Some tv ->
  kind tv <> KRecord \/ kind value <> KRecord ->
  fst (merge_visit env name key value recur target c) = target.
Proof.
  intros Hget Hk. unfold merge_visit, JsObject.lookup. rewrite Hget.
  destruct (isStringType tv && isStringType value); [reflexivity |].
  destruct (isCallType tv && isCallType value).
  - destruct tv, value; try reflexivity.
    match goal with |- context [negb ?b] => destruct (negb b) end; reflexivity.
  - destruct (isRecordType tv && isRecordType value) eqn:E; [| reflexivity].
    apply andb_true_iff in E as [E1 E2]. unfold isRecordType in *.
    apply kind_eqb_eq in E1, E2. tauto.
Qed.

Lemma merge_loop_app name a b target c :
  merge_loop env name (a ++ b) target c =
    merge_loop env name b (fst (merge_loop env name a target c))
      (snd (merge_loop env name a target c)).
Proof.
  unfold merge_loop. rewrite fold_left_app.
  now destruct (fold_left _ a (target, c)).
Qed.

Lemma merge_loop_extends name entries : forall target c,
  extends c (snd (merge_loop env name entries target c)).
Proof.
  induction entries as [| [key value] rest IH]; intros target c.
  - apply extends_refl.
  - rewrite merge_loop_cons.
    pose proof (merge_visit_extends env name key value
                  (fun tv ctx => merge env tv value name ctx) target c
                  (fun tv ctx => merge_extends env value tv name ctx)) as G.
    destruct (merge_visit env name key value _ target c) as [t c'].
    eapply extends_trans; [exact G | apply IH].
Qed.

Lemma merge_loop_get_other name entries k : forall target c,
  ~ In k (map fst entries) ->
  JsObject.get k (record_value (fst (merge_loop env name entries target c))) =
  JsObject.get k (record_value target).
Proof.
  induction entries as [| [key value] rest IH]; intros target c Hk.
  - reflexivity.
  - rewrite merge_loop_cons.
    pose proof (merge_visit_get_other name key value
                  (fun tv ctx => merge env tv value name ctx) target c k) as G.
    destruct (merge_visit env name key value _ target c) as [t c'].
    simpl in Hk, G. rewrite IH by tauto. apply G. intros ->. tauto.
Qed.

Lemma merge_loop_flag name entries : forall target c,
  isMissingRecordTypeDescriptor (fst (merge_loop env name entries target c)) =
  isMissingRecordTypeDescriptor target.
Proof.
  induction entries as [| [key value] rest IH]; intros target c.
  - reflexivity.
  - rewrite merge_loop_cons.
    pose proof (merge_visit_flag name key value
                  (fun tv ctx => merge env tv value name ctx) target c) as G.
    destruct (merge_visit env name key value _ target c) as [t c'].
    simpl in G. now rewrite IH.
Qed.

Lemma merge_loop_leaf name entries key tv : forall target c,
  JsObject.get key (record_value target) = Some tv ->
  kind tv <> KRecord ->
  JsObject.get key (record_value (fst (merge_loop env name entries target c))) = Some tv.
Proof.
  induction entries as [| [k value] rest IH]; intros target c Hget Hk.
  - exact Hget.
  - rewrite merge_loop_cons.
    destruct (String.eqb_spec k key) as [-> | Hne].
    + pose proof (merge_visit_leaf name key value
                    (fun tv ctx => merge env tv value name ctx) target c tv Hget
                    (or_introl Hk)) as G.
      destruct (merge_visit env name key value _ target c) as [t c'].
      simpl in G. subst t. now apply IH.
    + pose proof (merge_visit_get_other name k value
                    (fun tv ctx => merge env tv value name ctx) target c key) as G.
      destruct (merge_visit env name k value _ target c) as [t c'].
      simpl in G. apply IH; [| exact Hk]. rewrite G; [exact Hget | congruence].
Qed.

Lemma merge_leaf target source name c key tv :
  JsObject.get key (record_value target) = Some tv ->
  kind tv <> KRecord ->
  JsObject.get key (record_value (fst (merge env target source name c))) = Some tv.
Proof.
  intros Hget Hk. destruct source as [v | b | source_value flag]; try exact Hget.
  rewrite merge_unfold. cbv zeta.
  pose proof (merge_loop_leaf name (JsObject.entries source_value) key tv target
                (fold_left (merge_check env source_value name)
                   (JsObject.entries (record_value target)) c) Hget Hk) as G.
  destruct (merge_loop env name (JsObject.entries source_value) target _) as [t c'].
  simpl in *. now rewrite record_value_delete_missing.
Qed.

(** The accumulator is never provisional after a merge. *)
Lemma merge_flag target source_value flag name c :
  isMissingRecordTypeDescriptor
    (fst (merge env target (RecordTypeDescriptor source_value flag) name c)) = false.
Proof.
  rewrite merge_unfold. cbv zeta.
  destruct (merge_loop env name (JsObject.entries source_value) target _) as [t c'].
  apply isMissing_delete_missing.
Qed.

(** The diagnostic of the visit of an entry is still there when the loop,
    and the merge, are over. *)
Lemma merge_loop_records name entries key value msg : forall target c tv,
  JsMap.get key entries = Some value ->
  JsObject.get key (record_value target) = Some tv ->
  (forall t ctx,
      JsObject.get key (record_value t) = Some tv -> paths ctx = paths c ->
      In msg (errors (snd (merge_visit env name key value
                             (fun targetValue x => merge env targetValue value name x)
                             t ctx)))) ->
  In msg (errors (snd (merge_loop env name entries target c))).
Proof.
  intros target c tv Hget Htv Hvisit.
  destruct (JsMap_get_split key value entries Hget) as [pre [post [-> Hpre]]].
  rewrite merge_loop_app.
  pose proof (merge_loop_get_other name pre key target c Hpre) as G1.
  pose proof (merge_loop_extends name pre target c) as G2.
  destruct (merge_loop env name pre target c) as [t1 c1]. simpl in *.
  rewrite merge_loop_cons.
  specialize (Hvisit t1 c1 (eq_trans G1 Htv) (extends_paths _ _ G2)).
  destruct (merge_visit env name key value _ t1 c1) as [t2 c2]. simpl in Hvisit.
  apply (extends_errors _ _ (merge_loop_extends name post t2 c2)). exact Hvisit.
Qed.
End VisitFacts.

(** ** The numbered list of the composite error *)

Lemma mapi_from_length {A B : Type} (f : A -> nat -> B) (l : list A) :
  forall i, List.length (mapi_from f i l) = List.length l.
Proof. induction l as [| x l IH]; intros i; simpl; [reflexivity | now rewrite IH]. Qed.

Lemma mapi_from_nth {A B : Type} (f : A -> nat -> B) (l : list A) :
  forall i n x, nth_error l n = Some x -> nth_error (mapi_from f i l) n = Some (f x (i + n)).
Proof.
  induction l as [| y l IH]; intros i n x H.
  - destruct n; discriminate.
  - destruct n as [| n]; simpl in *.
    + injection H as ->. now rewrite Nat.add_0_r.
    + rewrite (IH (S i) n x H). f_equal. f_equal. lia.
Qed.

(** ** Tree building and unexpected values *)

(** A boolean entry is the case the builder does reject: the diagnostic is
    recorded and the record is left without the key. *)
Lemma toTypeNode_entry_boolean {number : Type} (env : Collaborators number)
    key b recur record c :
  toTypeNode_entry env key (YBoolean b) recur record c =
    (Normal record, add_error (unexpected_value env key (YBoolean b)) c).
Proof. reflexivity. Qed.

(** C5 (code defect).  The claim says every value that is neither a string,
    a number nor a nested dictionary is recorded as an unexpected-value
    diagnostic, left out of the tree, and never raises.  At [{flag: null}]
    the builder raises a [TypeError] instead, and so does [gen]; at
    [{flag: [true]}] the array is taken for a nested dictionary: [flag] is
    part of the tree (as a record with the key ["0"] left out) and no
    diagnostic is recorded for it. *)
Theorem C5_null_raises_and_array_is_kept {number : Type} (env : Collaborators number) :
  (forall c, fst (toTypeNode env (YObject [("flag", YNull)]) c) = Throw TypeError) /\
  (forall name target lazy defaultLanguage,
      gen env [{| NamedValue.name := name;
                  NamedValue.value := YObject [("flag", YNull)] |}]
        target lazy defaultLanguage = Throw TypeError) /\
  (forall c,
      fst (toTypeNode env (YObject [("flag", YArray [YBoolean true])]) c) =
        Normal (RecordTypeDescriptor
                  [("flag", RecordTypeDescriptor [] false)] false) /\
      forall msg,
        In msg (errors (snd (toTypeNode env (YObject [("flag", YArray [YBoolean true])]) c))) ->
        In msg (errors c) \/ msg = unexpected_value env "0" (YBoolean true)).
Proof.
  split; [| split].
  - intros c. reflexivity.
  - intros. reflexivity.
  - intros c. split; [reflexivity |].
    simpl. intros msg H. apply JsSet_add_In in H. tauto.
Qed.

(** ** The fatal outcome *)

(** C6.  Once every locale is built and folded, [gen] throws exactly when
    the error set is not empty; what it throws is one error whose message
    lists every diagnostic, the i-th on a line of its own numbered i; and
    when it throws there is no output (the result is the exception). *)
Theorem C6_gen_throws_iff_errors {number : Type} (env : Collaborators number)
    files target lazy defaultLanguage typeNodes c0 :
  build env files fresh_context = (Normal typeNodes, c0) ->
  let names := JsSet.of_list (map NamedValue.name files) in
  let merged := fst (unify env names typeNodes c0) in
  let errs := errors (snd (unify env names typeNodes c0)) in
  (errs <> [] <-> exists e, gen env files target lazy defaultLanguage = Throw e) /\
  (errs <> [] ->
   gen env files target lazy defaultLanguage = Throw (Error (composite errs))) /\
  (errs = [] ->
   gen env files target lazy defaultLanguage =
     Normal (emit env files typeNodes merged
               (match target with Some t => t | None => resource end)
               lazy defaultLanguage)) /\
  exists lines,
    composite errs = (newline ++ "Errors:" ++ newline ++ join newline lines ++ newline)%string /\
    List.length lines = List.length errs /\
    forall i msg, nth_error errs i = Some msg ->
      nth_error lines i = Some ("  " ++ decimal (i + 1) ++ ". " ++ msg)%string.
Proof.
  intros Hbuild names merged errs.
  assert (Hgen : gen env files target lazy defaultLanguage =
                 if negb (Nat.eqb (JsSet.size errs) 0)
                 then Throw (Error (composite errs))
                 else Normal (emit env files typeNodes merged
                                (match target with Some t => t | None => resource end)
                                lazy defaultLanguage)).
  { unfold gen. rewrite Hbuild. subst names merged errs.
    destruct (unify env (JsSet.of_list (map NamedValue.name files)) typeNodes c0).
    reflexivity. }
  clearbody errs merged. clear Hbuild.
  repeat split.
  - intros Hne. exists (Error (composite errs)). rewrite Hgen.
    destruct errs; [contradiction | reflexivity].
  - intros [e He] Hnil. rewrite Hgen, Hnil in He. discriminate.
  - intros Hne. rewrite Hgen. destruct errs; [contradiction | reflexivity].
  - intros Hnil. rewrite Hgen, Hnil. reflexivity.
  - exists (mapi (fun msg idx => ("  " ++ decimal (idx + 1) ++ ". " ++ msg)%string) errs).
    split; [reflexivity | split].
    + apply mapi_from_length.
    + intros i msg H. unfold mapi.
      now rewrite (mapi_from_nth _ errs 0 i msg H).
Qed.

Lemma C6_witness :
  exists e,
    Sample.gen [Sample.locale "en" [("hi", YString "hi {name}")];
                Sample.locale "fr" [("hi", YString "salut {nom}"); ("bye", YNumber 3%Z)]]
      None false None = Throw e.
Proof.
  set (files := [Sample.locale "en" [("hi", YString "hi {name}")];
                 Sample.locale "fr" [("hi", YString "salut {nom}"); ("bye", YNumber 3%Z)]]).
  set (built := build Sample.collaborators files fresh_context).
  refine (proj1 (proj1 (C6_gen_throws_iff_errors Sample.collaborators files None false None
                   (match fst built with Normal nodes => nodes | Throw _ => [] end)
                   (snd built) _)) _).
  - vm_compute. reflexivity.
  - vm_compute. discriminate.
Defined.

(** ** From the ledger to the final diagnostics *)

Lemma diffArray_In (a b : JsSet.t) (x : string) :
  In x (diffArray a b) <-> In x a /\ ~ In x b.
Proof.
  unfold diffArray. rewrite filter_In. rewrite negb_true_iff, JsSet_has_false. tauto.
Qed.

Lemma report_errors_In {number : Type} (env : Collaborators number)
    (names : JsSet.t) (items : list (string * Miss.t)) :
  forall c msg,
    In msg (errors (fold_left (fun ctx item => add_error (missing_message env names item) ctx)
                      items c)) <->
    In msg (errors c) \/ exists item, In item items /\ msg = missing_message env names item.
Proof.
  induction items as [| item items IH]; intros c msg; simpl.
  - split; [auto | intros [H | [item [[] _]]]; exact H].
  - rewrite IH. simpl. rewrite JsSet_add_In. split.
    + intros [[-> | H] | [it [Hin ->]]].
      * right. exists item. auto.
      * now left.
      * right. exists it. auto.
    + intros [H | [it [[<- | Hin] ->]]].
      * left. now right.
      * left. now left.
      * right. exists it. auto.
Qed.

Lemma report_missing_extends {number : Type} (env : Collaborators number) names c :
  extends c (report_missing env names c).
Proof.
  unfold report_missing. generalize (missing c) as items. intros items. revert c.
  induction items as [| item items IH]; intros c; simpl.
  - apply extends_refl.
  - eapply extends_trans; [apply add_error_extends | apply IH].
Qed.

(** C7.  Converting the ledger adds one diagnostic per recorded path and
    nothing else; the locales a diagnostic lists are the input locale names
    that are not in the entry's exists set when that set is not empty, and
    exactly the entry's missing set when it is empty. *)
Theorem C7_ledger_to_diagnostics {number : Type} (env : Collaborators number)
    (files : list (NamedValue.t (YamlValue number))) (c : Context) :
  let names := JsSet.of_list (map NamedValue.name files) in
  (forall msg,
      In msg (errors (report_missing env names c)) <->
      In msg (errors c) \/
      exists path entry,
        In (path, entry) (missing c) /\
        msg = key_missing_in_path env path (join "," (offending names entry))) /\
  (forall entry name,
      Miss.exist entry <> [] ->
      (In name (offending names entry) <->
       In name (map NamedValue.name files) /\ ~ In name (Miss.exist entry))) /\
  (forall entry, Miss.exist entry = [] -> offending names entry = Miss.missing entry).
Proof.
  intros names. split; [| split].
  - intros msg. unfold report_missing. rewrite report_errors_In. split.
    + intros [H | [[path entry] [Hin ->]]]; [now left |].
      right. exists path, entry. split; [exact Hin | reflexivity].
    + intros [H | [path [entry [Hin ->]]]]; [now left |].
      right. exists (path, entry). split; [exact Hin | reflexivity].
  - intros entry name Hne. unfold offending, JsSet.size.
    destruct (Miss.exist entry) as [| e es] eqn:E; [contradiction |]. simpl.
    rewrite diffArray_In. subst names. rewrite JsSet_of_list_In. reflexivity.
  - intros entry Hnil. unfold offending. now rewrite Hnil.
Qed.

Lemma C7_witness :
  In "fr" (offending
             (JsSet.of_list (map NamedValue.name
                               [Sample.locale "en" [("a", YString "x")];
                                Sample.locale "fr" []]))
             {| Miss.exist := ["en"]; Miss.missing := [] |}).
Proof.
  apply (proj1 (proj2 (C7_ledger_to_diagnostics Sample.collaborators
                         [Sample.locale "en" [("a", YString "x")]; Sample.locale "fr" []]
                         fresh_context))).
  - simpl. discriminate.
  - split.
    + simpl. right. left. reflexivity.
    + simpl. intros [H | []]. discriminate.
Defined.

(** ** Parameter signatures *)

(** C8.  For a key that is a call on both sides, the visit compares the
    names of the parameters of the two bodies in order, literals left out:
    equal sequences record nothing, and any difference records the
    diagnostic of that path with both comma-joined sequences; either way the
    accumulator is left as it is, also when the whole merge is over. *)
Theorem C8_call_signatures {number : Type} (env : Collaborators number)
    target source_value flag name c key targetBody sourceBody :
  JsObject.get key (record_value target) = Some (CallTypeDescriptor targetBody) ->
  JsObject.get key source_value = Some (CallTypeDescriptor sourceBody) ->
  let msg :=
    args_is_different env (path_of env c key)
      (join "," (param_names targetBody)) (join "," (param_names sourceBody)) in
  let result := merge env target (RecordTypeDescriptor source_value flag) name c in
  (forall recur t ctx,
      JsObject.get key (record_value t) = Some (CallTypeDescriptor targetBody) ->
      paths ctx = paths c ->
      merge_visit env name key (CallTypeDescriptor sourceBody) recur t ctx =
        (t, if list_eq_dec string_dec (param_names targetBody) (param_names sourceBody)
            then ctx else add_error msg ctx)) /\
  JsObject.get key (record_value (fst result)) = Some (CallTypeDescriptor targetBody) /\
  (param_names targetBody <> param_names sourceBody -> In msg (errors (snd result))).
Proof.
  intros Htarget Hsource msg result.
  assert (Hvisit : forall recur t ctx,
      JsObject.get key (record_value t) = Some (CallTypeDescriptor targetBody) ->
      paths ctx = paths c ->
      merge_visit env name key (CallTypeDescriptor sourceBody) recur t ctx =
        (t, if list_eq_dec string_dec (param_names targetBody) (param_names sourceBody)
            then ctx else add_error msg ctx)).
  { intros recur t ctx Ht Hp. unfold merge_visit, JsObject.lookup. rewrite Ht. simpl.
    destruct (arrayEq (filter isParamArgType targetBody)
                (filter isParamArgType sourceBody) arg_name) eqn:E; simpl.
    - apply arrayEq_param_names in E.
      destruct (list_eq_dec string_dec _ _); [reflexivity | contradiction].
    - destruct (list_eq_dec string_dec _ _) as [Heq | Hne].
      + apply arrayEq_param_names in Heq. congruence.
      + subst msg. rewrite (path_of_paths env c ctx key Hp). reflexivity. }
  split; [exact Hvisit | split].
  - apply merge_leaf; [exact Htarget | discriminate].
  - intros Hne. subst result. rewrite merge_unfold. cbv zeta.
    set (c1 := fold_left (merge_check env source_value name)
                 (JsObject.entries (record_value target)) c).
    pose proof (merge_loop_records env name (JsObject.entries source_value) key
                  (CallTypeDescriptor sourceBody) msg target c1
                  (CallTypeDescriptor targetBody) Hsource Htarget) as G.
    destruct (merge_loop env name (JsObject.entries source_value) target c1) as [t c'].
    simpl in *. apply G. intros t0 ctx Ht Hp.
    rewrite Hvisit; [| exact Ht |].
    + simpl. destruct (list_eq_dec string_dec _ _); [contradiction | apply add_error_In].
    + rewrite Hp. apply (extends_paths _ _ (merge_checks_extends env source_value name _ c)).
Qed.

Lemma C8_witness :
  In ".hi has different type: [name, user]"
    (errors (snd (merge Sample.collaborators
                    (RecordTypeDescriptor
                       [("hi", CallTypeDescriptor [Literal "hi "; Param "name"])] false)
                    (RecordTypeDescriptor
                       [("hi", CallTypeDescriptor [Literal "hi "; Param "user"])] false)
                    "fr" fresh_context))).
Proof.
  refine (proj2 (proj2 (C8_call_signatures Sample.collaborators
                          (RecordTypeDescriptor
                             [("hi", CallTypeDescriptor [Literal "hi "; Param "name"])] false)
                          [("hi", CallTypeDescriptor [Literal "hi "; Param "user"])]
                          false "fr" fresh_context "hi"
                          [Literal "hi "; Param "name"] [Literal "hi "; Param "user"]
                          _ _)) _).
  - reflexivity.
  - reflexivity.
  - simpl. discriminate.
Defined.

(** ** Kind mismatches are reported once *)

Lemma merge_checks_records {number : Type} (env : Collaborators number)
    source_value name key tv v entries : forall c,
  In (key, tv) entries ->
  JsObject.get key source_value = Some v ->
  kind v <> kind tv ->
  In (type_of_path_is_unexpected env (path_of env c key) (kind v) (kind tv))
    (errors (fold_left (merge_check env source_value name) entries c)).
Proof.
  induction entries as [| e entries IH]; intros c Hin Hv Hk; [contradiction |].
  simpl. destruct Hin as [-> | Hin].
  - apply (extends_errors _ _ (merge_checks_extends env source_value name entries _)).
    simpl. unfold JsObject.lookup. rewrite Hv.
    destruct (kind_eqb (kind v) (kind tv)) eqn:E.
    + apply kind_eqb_eq in E. contradiction.
    + simpl. apply add_error_In.
  - rewrite <- (path_of_paths env c (merge_check env source_value name c e) key
                  (extends_paths _ _ (merge_check_extends env source_value name c e))).
    now apply IH.
Qed.



(** ** Seeding the accumulator *)

Section Seeding.
Context {number : Type} (env : Collaborators number).

(** The visit of a key the accumulator does not have (gen.ts lines 94-106). *)
Lemma merge_visit_absent name key value recur target c :
  JsObject.get key (record_value target) = None ->
  JsObject.inherited key = false ->
  merge_visit env name key value recur target c =
    if isMissingRecordTypeDescriptor target
    then (RecordTypeDescriptor (JsObject.set key value (record_value target)) true, c)
    else (target, note_exists (path_of env c key) name c).
Proof. intros H Hi. unfold merge_visit, JsObject.lookup. now rewrite H, Hi. Qed.

Lemma merge_loop_absent name entries key value target c :
  JsMap.get key entries = Some value ->
  NoDup (map fst entries) ->
  JsObject.get key (record_value target) = None ->
  JsObject.inherited key = false ->
  let result := merge_loop env name entries target c in
  (isMissingRecordTypeDescriptor target = true ->
   JsObject.get key (record_value (fst result)) = Some value) /\
  (isMissingRecordTypeDescriptor target = false ->
   JsObject.get key (record_value (fst result)) = None /\
   exists entry,
     JsMap.get (path_of env c key) (missing (snd result)) = Some entry /\
     In name (Miss.exist entry)).
Proof.
  intros Hget Hnd Habsent Hplain.
  destruct (JsMap_get_split key value entries Hget) as [pre [post [-> Hpre]]].
  assert (Hpost : ~ In key (map fst post)).
  { rewrite map_app in Hnd. apply NoDup_remove_2 in Hnd.
    intros H. apply Hnd. apply in_or_app. now right. }
  cbv zeta. rewrite merge_loop_app.
  pose proof (merge_loop_get_other env name pre key target c Hpre) as G1.
  pose proof (merge_loop_flag env name pre target c) as G2.
  pose proof (merge_loop_extends env name pre target c) as G3.
  destruct (merge_loop env name pre target c) as [t1 c1]. simpl in G1, G2, G3 |- *.
  rewrite merge_loop_cons. rewrite merge_visit_absent by congruence. rewrite G2.
  destruct (isMissingRecordTypeDescriptor target).
  - split; [intros _ | discriminate].
    rewrite merge_loop_get_other by exact Hpost. simpl.
    apply JsObject_get_set_same.
  - split; [discriminate | intros _]. split.
    + rewrite merge_loop_get_other by exact Hpost. congruence.
    + destruct (note_exists_get (path_of env c1 key) name c1) as [e [He Hin]].
      destruct (extends_missing _ _ (merge_loop_extends env name post t1
                                       (note_exists (path_of env c1 key) name c1))
                  _ _ He) as [e' [He' [Hex _]]].
      rewrite (path_of_paths env c c1 key (extends_paths _ _ G3)) in *.
      exists e'. auto.
Qed.

Lemma merge_checks_empty source_value name c :
  fold_left (merge_check env source_value name) [] c = c.
Proof. reflexivity. Qed.

Lemma fold_snoc nodes node init c :
  fold env (nodes ++ [node]) init c =
    merge env (fst (fold env nodes init c)) (NamedValue.value node) (NamedValue.name node)
      (snd (fold env nodes init c)).
Proof. unfold fold. rewrite fold_left_app. reflexivity. Qed.

(** After one locale or more the accumulator is not provisional. *)
Lemma fold_flag nodes init c :
  nodes <> [] ->
  Forall (fun node => kind (NamedValue.value node) = KRecord) nodes ->
  isMissingRecordTypeDescriptor (fst (fold env nodes init c)) = false.
Proof.
  intros Hne Hrec. destruct (exists_last Hne) as [front [node ->]].
  rewrite fold_snoc. apply Forall_app in Hrec as [_ Hrec].
  inversion Hrec as [| ? ? Hk _]; subst.
  destruct (NamedValue.value node) as [v | b | source_value flag]; try discriminate.
  apply merge_flag.
Qed.
End Seeding.

(** C3 (as amended).  A key of the locale being folded that is not in the
    accumulator, in the sense of the test [key in target.value] of gen.ts
    line 94 (neither an own key of the accumulator nor a member of
    [Object.prototype]), is adopted if and only if the accumulator is
    provisional, and the accumulator is provisional exactly while the first
    locale of the input is folded; for any later locale the key is not
    adopted and the ledger notes the locale in the exists set of that path. *)
Theorem C3_adoption_iff_first_locale {number : Type} (env : Collaborators number)
    (folded : list (NamedValue.t TypeDescriptor)) (node : NamedValue.t TypeDescriptor)
    (c : Context) (key : string) (value : TypeDescriptor) :
  Forall (fun n => kind (NamedValue.value n) = KRecord) folded ->
  let acc := fst (fold env folded createMissingRecordTypeDescriptor c) in
  let c1 := snd (fold env folded createMissingRecordTypeDescriptor c) in
  let result := merge env acc (NamedValue.value node) (NamedValue.name node) c1 in
  JsObject.get key (record_value (NamedValue.value node)) = Some value ->
  JsObject.member key (record_value acc) = false ->
  NoDup (JsObject.keys (record_value (NamedValue.value node))) ->
  (isMissingRecordTypeDescriptor acc = true <-> folded = []) /\
  (JsObject.get key (record_value (fst result)) = Some value <->
   isMissingRecordTypeDescriptor acc = true) /\
  (isMissingRecordTypeDescriptor acc = false ->
   JsObject.get key (record_value (fst result)) = None /\
   exists entry,
     JsMap.get (path_of env c1 key) (missing (snd result)) = Some entry /\
     In (NamedValue.name node) (Miss.exist entry)).
Proof.
  intros Hrec acc c1 result Hvalue Hmember Hnd.
  apply JsObject_member_false in Hmember as [Habsent Hplain].
  assert (Hflag : isMissingRecordTypeDescriptor acc = true <-> folded = []).
  { split.
    - intros H. destruct folded as [| n folded]; [reflexivity |].
      subst acc. rewrite fold_flag in H; [discriminate | discriminate | exact Hrec].
    - intros ->. reflexivity. }
  destruct (NamedValue.value node) as [v | b | source_value flag] eqn:Enode;
    try discriminate.
  simpl in Hvalue, Hnd.
  assert (Hloop :
    (isMissingRecordTypeDescriptor acc = true ->
     JsObject.get key (record_value (fst result)) = Some value) /\
    (isMissingRecordTypeDescriptor acc = false ->
     JsObject.get key (record_value (fst result)) = None /\
     exists entry,
       JsMap.get (path_of env c1 key) (missing (snd result)) = Some entry /\
       In (NamedValue.name node) (Miss.exist entry))).
  { subst result. rewrite merge_unfold. cbv zeta.
    set (c2 := fold_left (merge_check env source_value (NamedValue.name node))
                 (JsObject.entries (record_value acc)) c1).
    assert (Hp : paths c2 = paths c1)
      by apply (extends_paths _ _ (merge_checks_extends env source_value _ _ c1)).
    pose proof (merge_loop_absent env (NamedValue.name node) (JsObject.entries source_value)
                  key value acc c2 Hvalue Hnd Habsent Hplain) as G.
    cbv zeta in G.
    destruct (merge_loop env (NamedValue.name node) (JsObject.entries source_value) acc c2)
      as [t c3].
    simpl in G |- *. rewrite record_value_delete_missing.
    rewrite (path_of_paths env c1 c2 key Hp) in G. exact G. }
  destruct Hloop as [Hyes Hno].
  split; [exact Hflag | split; [split | exact Hno]].
  - intros H. destruct (isMissingRecordTypeDescriptor acc); [reflexivity |].
    destruct (Hno eq_refl) as [Hnone _]. congruence.
  - exact Hyes.
Qed.

Lemma C3_witness :
  JsObject.get "y"
    (record_value
       (fst (merge Sample.collaborators
               (fst (fold Sample.collaborators [] createMissingRecordTypeDescriptor
                       fresh_context))
               (RecordTypeDescriptor [("y", StringTypeDescriptor "2")] false) "B"
               (snd (fold Sample.collaborators [] createMissingRecordTypeDescriptor
                       fresh_context)))))
  = Some (StringTypeDescriptor "2").
Proof.
  refine (proj2 (proj1 (proj2 (C3_adoption_iff_first_locale Sample.collaborators []
                                 {| NamedValue.name := "B";
                                    NamedValue.value :=
                                      RecordTypeDescriptor
                                        [("y", StringTypeDescriptor "2")] false |}
                                 fresh_context "y" (StringTypeDescriptor "2") _ _ _ _))) _).
  - constructor.
  - reflexivity.
  - reflexivity.
  - simpl. repeat constructor. simpl. tauto.
  - reflexivity.
Defined.

(** C3 as stated fails: after a first locale without keys the accumulator has
    accepted no key and yet is not provisional, so the key of the second
    locale does not seed the schema; it is reported as missing in the first. *)
Lemma C3_counterexample :
  JsObject.keys
    (record_value
       (fst (fold Sample.collaborators
               [{| NamedValue.name := "A"; NamedValue.value := RecordTypeDescriptor [] false |}]
               createMissingRecordTypeDescriptor fresh_context))) = [] /\
  isMissingRecordTypeDescriptor
    (fst (fold Sample.collaborators
            [{| NamedValue.name := "A"; NamedValue.value := RecordTypeDescriptor [] false |}]
            createMissingRecordTypeDescriptor fresh_context)) = false /\
  JsObject.get "y"
    (record_value
       (fst (fold Sample.collaborators
               [{| NamedValue.name := "A"; NamedValue.value := RecordTypeDescriptor [] false |};
                {| NamedValue.name := "B";
                   NamedValue.value :=
                     RecordTypeDescriptor [("y", StringTypeDescriptor "2")] false |}]
               createMissingRecordTypeDescriptor fresh_context))) = None /\
  Sample.gen [Sample.locale "A" []; Sample.locale "B" [("y", YString "2")]] None false None
  = Throw (Error (newline ++ "Errors:" ++ newline ++ "  1. .y is missing in A" ++ newline)).
Proof. vm_compute. repeat split. Qed.

(** ** A single locale *)

Section SingleLocale.
Context {number : Type} (env : Collaborators number).

Lemma plain_value_object (entries : list (string * YamlValue number)) :
  plain_value (YObject entries) = forallb (fun entry => plain_value (snd entry)) entries.
Proof.
  simpl. induction entries as [| e entries IH]; simpl; [reflexivity | now rewrite IH].
Qed.

(** The loop inside [toTypeNode] is [toTypeNode_loop]. *)
Lemma toTypeNode_object entries c :
  toTypeNode env (YObject entries) c =
    match toTypeNode_loop env entries JsObject.empty c with
    | (Normal record, c') => (Normal (createRecordTypeDescriptor record), c')
    | (Throw e, c') => (Throw e, c')
    end.
Proof.
  simpl. generalize (@JsObject.empty TypeDescriptor) as record. revert c.
  induction entries as [| [key value] rest IH]; intros c record; simpl.
  - reflexivity.
  - destruct (toTypeNode_entry env key value (toTypeNode env value) record c)
      as [[r | e] c']; [apply IH | reflexivity].
Qed.

Lemma context_eta (c : Context) :
  {| errors := errors c; paths := paths c; missing := missing c |} = c.
Proof. now destruct c. Qed.

(** Building a plain dictionary records nothing and yields a record whose
    keys are distinct and in enumeration order. *)
Lemma toTypeNode_plain (v : YamlValue number) :
  plain_dictionary v = true ->
  forall c, exists value,
    toTypeNode env v c = (Normal (RecordTypeDescriptor value false), c) /\
    NoDup (JsObject.keys value) /\
    JsObject.ordered value = true.
Proof.
  induction v as [n | s | b | | items _ | entries IH] using YamlValue_tree_ind;
    try discriminate.
  unfold plain_dictionary. rewrite plain_value_object. intros Hplain c.
  rewrite toTypeNode_object.
  assert (G : forall record,
              NoDup (JsObject.keys record) -> JsObject.ordered record = true ->
              exists value,
                toTypeNode_loop env entries record c = (Normal value, c) /\
                NoDup (JsObject.keys value) /\ JsObject.ordered value = true).
  { induction entries as [| [key value] rest IHrest]; intros record Hnd Hord; simpl.
    - exists record. auto.
    - simpl in Hplain. apply andb_true_iff in Hplain as [Hv Hrest].
      inversion IH as [| ? ? IHv IHr]; subst. simpl in IHv.
      assert (Hentry : exists record',
                 toTypeNode_entry env key value (toTypeNode env value) record c =
                   (Normal record', c) /\
                 NoDup (JsObject.keys record') /\ JsObject.ordered record' = true).
      { unfold toTypeNode_entry.
        destruct value as [n | s | b | | items | inner]; try discriminate;
          cbn [typeof scalar_text].
        - destruct (matchCallBody env (toString env n));
            eexists; (split; [reflexivity |]);
            (split; [now apply JsObject_assign_NoDup | now apply JsObject_assign_ordered]).
        - destruct (matchCallBody env s);
            eexists; (split; [reflexivity |]);
            (split; [now apply JsObject_assign_NoDup | now apply JsObject_assign_ordered]).
        - unfold inPathContext.
          destruct (IHv Hv {| errors := errors c; paths := paths c ++ [key];
                              missing := missing c |}) as [tree [-> _]].
          cbn [errors paths missing]. rewrite context_eta.
          eexists. split; [reflexivity |].
          split; [now apply JsObject_assign_NoDup | now apply JsObject_assign_ordered]. }
      destruct Hentry as [record' [-> [Hnd' Hord']]].
      apply IHrest; assumption. }
  destruct (G JsObject.empty) as [value [-> [Hnd Hord]]]; [constructor | reflexivity |].
  exists value. auto.
Qed.

Lemma merge_loop_adopts_all name entries : forall target c,
  isMissingRecordTypeDescriptor target = true ->
  NoDup (map fst entries) ->
  NoDup (JsObject.keys (record_value target)) ->
  (forall k, In k (map fst entries) -> JsObject.get k (record_value target) = None) ->
  (forall k, In k (map fst entries) -> JsObject.inherited k = false) ->
  exists value,
    merge_loop env name entries target c = (RecordTypeDescriptor value true, c) /\
    NoDup (JsObject.keys value) /\
    forall k, JsObject.get k value =
              match JsMap.get k entries with
              | Some v => Some v
              | None => JsObject.get k (record_value target)
              end.
Proof.
  induction entries as [| [key value] rest IH];
    intros target c Hflag Hnd Hkeys Habsent Hplain.
  - destruct target as [v | b | tv flag]; try discriminate.
    simpl in Hflag. subst flag. exists tv. repeat split. exact Hkeys.
  - rewrite merge_loop_cons.
    rewrite merge_visit_absent by (first [apply Habsent | apply Hplain]; now left).
    rewrite Hflag.
    inversion Hnd as [| ? ? Hkey Hnd']; subst.
    destruct (IH (RecordTypeDescriptor (JsObject.set key value (record_value target)) true) c
                eq_refl Hnd') as [merged [-> [Hnd'' Hget]]].
    + simpl. now apply JsObject_set_NoDup.
    + intros k Hk. simpl. rewrite JsObject_get_set_other.
      * apply Habsent. now right.
      * intros ->. contradiction.
    + intros k Hk. apply Hplain. now right.
    + exists merged. split; [reflexivity | split; [exact Hnd'' |]].
      intros k. rewrite Hget. simpl.
      rewrite JsObject_get_set.
      destruct (String.eqb_spec k key) as [-> | Hne]; [| reflexivity].
      destruct (JsMap.get key rest) eqn:E; [| reflexivity].
      apply JsMap_get_Some_key in E. contradiction.
Qed.

(** Folding a first locale whose keys are distinct: everything is adopted
    and nothing is recorded. *)
Lemma merge_first value flag name c :
  NoDup (JsObject.keys value) ->
  plain_keys value = true ->
  exists merged,
    merge env createMissingRecordTypeDescriptor (RecordTypeDescriptor value flag) name c =
      (RecordTypeDescriptor merged false, c) /\
    NoDup (JsObject.keys merged) /\
    forall k, JsObject.get k merged = JsObject.get k value.
Proof.
  intros Hnd Hplain. rewrite merge_unfold. cbv zeta. simpl fold_left.
  destruct (merge_loop_adopts_all name (JsObject.entries value)
              createMissingRecordTypeDescriptor c eq_refl Hnd) as [merged [-> [Hnd' Hget]]].
  - constructor.
  - reflexivity.
  - intros k Hk. now apply plain_keys_In with (o := value).
  - exists merged. split; [reflexivity | split; [exact Hnd' |]]. intros k. rewrite Hget.
    unfold JsObject.get, JsObject.entries. now destruct (JsMap.get k value).
Qed.
(** An object rebuilt from its own enumeration is the same object: the
    provisional accumulator adopts the entries of the first locale one by
    one and ends as that locale's own dictionary. *)
Lemma merge_loop_adopts_ordered name entries : forall value c,
  JsObject.ordered (value ++ entries) = true ->
  plain_keys entries = true ->
  merge_loop env name entries (RecordTypeDescriptor value true) c =
    (RecordTypeDescriptor (value ++ entries) true, c).
Proof.
  induction entries as [| [key v] rest IH]; intros value c Hord Hplain.
  - rewrite merge_loop_nil, app_nil_r. reflexivity.
  - rewrite merge_loop_cons.
    apply plain_keys_cons in Hplain as [Hkey Hplain].
    assert (Habsent : JsObject.get key value = None).
    { apply JsMap_get_None. intros Hin.
      unfold JsObject.ordered, JsObject.keys in Hord. rewrite map_app in Hord.
      apply ordered_keys_NoDup, NoDup_remove_2 in Hord.
      apply Hord. apply in_or_app. now left. }
    rewrite merge_visit_absent by assumption.
    cbn [isMissingRecordTypeDescriptor record_value].
    rewrite (JsObject_set_last key v value rest Hord).
    rewrite IH; [rewrite <- app_assoc; reflexivity | rewrite <- app_assoc; exact Hord
                | exact Hplain].
Qed.

Lemma merge_first_ordered value flag name c :
  JsObject.ordered value = true ->
  plain_keys value = true ->
  merge env createMissingRecordTypeDescriptor (RecordTypeDescriptor value flag) name c =
    (RecordTypeDescriptor value false, c).
Proof.
  intros Hord Hplain. rewrite merge_unfold. cbv zeta. simpl fold_left.
  unfold createMissingRecordTypeDescriptor, JsObject.empty.
  rewrite (merge_loop_adopts_ordered name (JsObject.entries value) [] _ Hord Hplain).
  reflexivity.
Qed.
(** A visit adds no key that [Object.prototype] has: such a key is never
    adopted (gen.ts line 94). *)
Lemma merge_visit_plain name key value recur target c :
  plain_keys (record_value target) = true ->
  plain_keys (record_value (fst (merge_visit env name key value recur target c))) = true.
Proof.
  intros Hplain. unfold merge_visit, JsObject.lookup.
  destruct (JsObject.get key (record_value target)) as [tv |] eqn:Eg.
  - assert (Hkey : JsObject.inherited key = false).
    { apply (plain_keys_In key (record_value target) Hplain).
      apply JsObject_get_keys. congruence. }
    destruct (isStringType tv && isStringType value); [exact Hplain |].
    destruct (isCallType tv && isCallType value).
    + destruct tv, value; try exact Hplain.
      match goal with |- context [negb ?b] => destruct (negb b) end; exact Hplain.
    + destruct (isRecordType tv && isRecordType value); [| exact Hplain].
      destruct (inPathContext c key (recur tv)) as [merged c']. simpl.
      now apply plain_keys_set.
  - destruct (JsObject.inherited key) eqn:Ei; [exact Hplain |].
    destruct (isMissingRecordTypeDescriptor target); [| exact Hplain].
    simpl. now apply plain_keys_set.
Qed.

Lemma merge_loop_plain name entries : forall target c,
  plain_keys (record_value target) = true ->
  plain_keys (record_value (fst (merge_loop env name entries target c))) = true.
Proof.
  induction entries as [| [key value] rest IH]; intros target c Hplain.
  - now rewrite merge_loop_nil.
  - rewrite merge_loop_cons.
    pose proof (merge_visit_plain name key value
                  (fun targetValue ctx => merge env targetValue value name ctx)
                  target c Hplain) as Hvisit.
    destruct (merge_visit env name key value _ target c) as [t c'].
    now apply IH.
Qed.

(** The visit of a key that [Object.prototype] has and the accumulator has
    not as its own records a diagnostic (gen.ts lines 94 and 126-135). *)
Lemma merge_loop_inherited name entries : forall target c,
  plain_keys (record_value target) = true ->
  plain_keys entries = false ->
  errors (snd (merge_loop env name entries target c)) <> [].
Proof.
  induction entries as [| [key value] rest IH]; intros target c Hplain Hkeys;
    [discriminate |].
  rewrite merge_loop_cons.
  destruct (JsObject.inherited key) eqn:Ei.
  - assert (Hget : JsObject.get key (record_value target) = None).
    { destruct (JsObject.get key (record_value target)) eqn:Eg; [| reflexivity].
      rewrite (plain_keys_In key (record_value target) Hplain) in Ei; [discriminate |].
      apply JsObject_get_keys. congruence. }
    unfold merge_visit. rewrite (JsObject_lookup_inherited _ _ Hget Ei).
    match goal with
    | |- errors (snd (merge_loop env name rest target (add_error ?msg c))) <> [] =>
        pose proof (extends_errors _ _
                      (merge_loop_extends env name rest target (add_error msg c))
                      msg (add_error_In msg c)) as Hin
    end.
    intros E. rewrite E in Hin. contradiction.
  - pose proof (merge_visit_plain name key value
                  (fun targetValue ctx => merge env targetValue value name ctx)
                  target c Hplain) as Hvisit.
    destruct (merge_visit env name key value _ target c) as [t c'].
    apply IH; [exact Hvisit |].
    unfold plain_keys in Hkeys |- *. simpl in Hkeys. now rewrite Ei in Hkeys.
Qed.

(** Folding a first locale that has, at the top, a key that
    [Object.prototype] has: the key is not adopted and a diagnostic is
    recorded. *)
Lemma merge_first_inherited value flag name c :
  plain_keys value = false ->
  errors (snd (merge env createMissingRecordTypeDescriptor
                 (RecordTypeDescriptor value flag) name c)) <> [] /\
  plain_keys (record_value (fst (merge env createMissingRecordTypeDescriptor
                                   (RecordTypeDescriptor value flag) name c))) = true.
Proof.
  intros Hkeys. rewrite merge_unfold. cbv zeta. simpl fold_left.
  pose proof (merge_loop_inherited name (JsObject.entries value)
                createMissingRecordTypeDescriptor c eq_refl Hkeys) as Herr.
  pose proof (merge_loop_plain name (JsObject.entries value)
                createMissingRecordTypeDescriptor c eq_refl) as Hplain.
  destruct (merge_loop env name (JsObject.entries value)
              createMissingRecordTypeDescriptor c) as [t c'].
  cbn [fst snd] in *. rewrite record_value_delete_missing. auto.
Qed.
End SingleLocale.

(** C4.  For a single locale whose raw dictionary holds only strings,
    numbers and nested dictionaries, the build records nothing and yields
    the tree of the locale.  Where no top-level key of the tree is the name
    of a member of [Object.prototype], the unification records nothing (the
    context is the fresh one: no diagnostic, empty ledger), the canonical
    schema is the locale's own tree (the same keys in the same order, with
    the same kinds and parameter sequences at every path), and [gen] returns
    the output.  Where a top-level key is such a name ([constructor],
    [toString], ...), the test [key in target.value] of gen.ts line 94 holds
    of the empty accumulator: the key is not adopted, a diagnostic is
    recorded, the canonical schema is not the tree of the locale, and [gen]
    throws the composite error. *)
Theorem C4_single_locale {number : Type} (env : Collaborators number)
    (name : string) (dictionary : YamlValue number)
    (target : option Target) (lazy : bool) (defaultLanguage : option string) :
  plain_dictionary dictionary = true ->
  let files := [{| NamedValue.name := name; NamedValue.value := dictionary |}] in
  exists tree,
    toTypeNode env dictionary fresh_context = (Normal tree, fresh_context) /\
    kind tree = KRecord /\
    isMissingRecordTypeDescriptor tree = false /\
    (plain_keys (record_value tree) = true ->
     unify env (JsSet.of_list [name])
       [{| NamedValue.name := name; NamedValue.value := tree |}] fresh_context
     = (tree, fresh_context) /\
     canonical env files = Some tree /\
     diagnostics env files = Some [] /\
     gen env files target lazy defaultLanguage =
       Normal (emit env files [{| NamedValue.name := name; NamedValue.value := tree |}] tree
                 (match target with Some t => t | None => resource end)
                 lazy defaultLanguage)) /\
    (plain_keys (record_value tree) = false ->
     canonical env files <> Some tree /\
     exists errs,
       errs <> [] /\
       diagnostics env files = Some errs /\
       gen env files target lazy defaultLanguage = Throw (Error (composite errs))).
Proof.
  intros Hplain files.
  destruct (toTypeNode_plain env dictionary Hplain fresh_context)
    as [value [Hbuild [Hnd Hord]]].
  exists (RecordTypeDescriptor value false).
  split; [exact Hbuild | split; [reflexivity | split; [reflexivity |]]].
  cbn [record_value]. split; intros Hkeys.
  - pose proof (merge_first_ordered env value false name fresh_context Hord Hkeys) as Hmerge.
    assert (Hunify : unify env (JsSet.of_list [name])
                       [{| NamedValue.name := name;
                           NamedValue.value := RecordTypeDescriptor value false |}]
                       fresh_context
                     = (RecordTypeDescriptor value false, fresh_context)).
    { unfold unify, fold. cbn [fold_left fst snd NamedValue.value NamedValue.name].
      rewrite Hmerge. reflexivity. }
    split; [exact Hunify |].
    unfold canonical, diagnostics, gen, files.
    cbn [build map NamedValue.name NamedValue.value]. rewrite Hbuild, Hunify.
    repeat split.
  - destruct (merge_first_inherited env value false name fresh_context Hkeys)
      as [Herr Hacc].
    unfold canonical, diagnostics, gen, files.
    cbn [build map NamedValue.name NamedValue.value]. rewrite Hbuild.
    unfold unify, fold. cbn [fold_left fst snd NamedValue.value NamedValue.name].
    destruct (merge env createMissingRecordTypeDescriptor
                (RecordTypeDescriptor value false) name fresh_context) as [acc c1].
    cbn [fst snd] in *.
    assert (Hrep : errors (report_missing env (JsSet.of_list [name]) c1) <> []).
    { destruct (errors c1) as [| msg rest] eqn:E; [contradiction |].
      pose proof (extends_errors _ _ (report_missing_extends env (JsSet.of_list [name]) c1)
                    msg) as Hin.
      rewrite E in Hin. specialize (Hin (or_introl eq_refl)).
      intros E'. rewrite E' in Hin. contradiction. }
    split.
    + intros [= ->]. cbn [record_value] in Hacc. congruence.
    + exists (errors (report_missing env (JsSet.of_list [name]) c1)).
      split; [exact Hrep | split; [reflexivity |]].
      destruct (errors (report_missing env (JsSet.of_list [name]) c1)); [contradiction |].
      reflexivity.
Qed.

Lemma C4_witness :
  exists out,
    Sample.gen [Sample.locale "en"
                  [("title", YString "Hello");
                   ("count", YNumber 3%Z);
                   ("menu", YObject [("open", YString "Open {file}")])]]
      None false None = Normal out.
Proof.
  destruct (C4_single_locale Sample.collaborators "en"
              (YObject [("title", YString "Hello");
                        ("count", YNumber 3%Z);
                        ("menu", YObject [("open", YString "Open {file}")])])
              None false None eq_refl)
    as [tree [Hbuild [_ [_ [H _]]]]].
  injection Hbuild as <-.
  destruct (H eq_refl) as [_ [_ [_ Hgen]]].
  eexists. exact Hgen.
Defined.

(** The failing input of C4: a locale whose only key is [constructor]. *)
Lemma C4_failing_input :
  Sample.gen [Sample.locale "en" [("constructor", YString "x")]] None false None
  = Throw (Error (newline ++ "Errors:" ++ newline
                  ++ "  1. .constructor is not correctly type, expected: undefined, actually: string"
                  ++ newline)) /\
  canonical Sample.collaborators [Sample.locale "en" [("constructor", YString "x")]]
  = Some (RecordTypeDescriptor [] false).
Proof. vm_compute. split; reflexivity. Qed.

(** ** Two locales, one with more keys *)

Lemma distinct_NoDup (l : list string) : distinct l = true -> NoDup l.
Proof.
  induction l as [| x l IH]; simpl; intros H; constructor.
  - apply andb_true_iff in H as [H _]. apply negb_true_iff in H.
    intros Hin. apply JsSet_has_In in Hin. unfold JsSet.has in Hin. congruence.
  - apply andb_true_iff in H as [_ H]. auto.
Qed.

Lemma locale_tree_record value flag :
  locale_tree (RecordTypeDescriptor value flag) = true ->
  flag = false /\ NoDup (JsObject.keys value) /\
  forall k v, In (k, v) value -> locale_tree v = true.
Proof.
  simpl. intros H. apply andb_true_iff in H as [H Hall].
  apply andb_true_iff in H as [Hflag Hkeys].
  split; [now destruct flag | split; [now apply distinct_NoDup |]].
  clear Hkeys. induction value as [| e value IH]; intros k v Hin; [contradiction |].
  apply andb_true_iff in Hall as [He Hall].
  destruct Hin as [-> | Hin]; [exact He | eauto].
Qed.

Lemma sub_shape_record value flag big :
  sub_shape (RecordTypeDescriptor value flag) big = true ->
  forall k v, In (k, v) value ->
    exists other,
      JsObject.get k (record_value big) = Some other /\
      kind v = kind other /\ sub_shape v other = true.
Proof.
  simpl. induction value as [| e value IH]; intros H k v Hin; [contradiction |].
  apply andb_true_iff in H as [He H].
  destruct Hin as [-> | Hin]; [| eauto].
  simpl in He. destruct (JsObject.get k (record_value big)) as [other |]; [| discriminate].
  apply andb_true_iff in He as [Hk Hs]. apply kind_eqb_eq in Hk.
  exists other. auto.
Qed.

Lemma plain_tree_record value flag :
  plain_tree (RecordTypeDescriptor value flag) = true ->
  forall k v, In (k, v) value -> JsObject.inherited k = false /\ plain_tree v = true.
Proof.
  simpl. induction value as [| e value IH]; intros H k v Hin; [contradiction |].
  apply andb_true_iff in H as [He H]. apply andb_true_iff in He as [Hk Hv].
  destruct Hin as [-> | Hin]; [| eauto].
  split; [now apply negb_true_iff in Hk | exact Hv].
Qed.

Lemma plain_tree_record_intro value flag :
  (forall k v, In (k, v) value -> JsObject.inherited k = false /\ plain_tree v = true) ->
  plain_tree (RecordTypeDescriptor value flag) = true.
Proof.
  simpl. induction value as [| [k v] value IH]; intros H; [reflexivity |].
  destruct (H k v (or_introl eq_refl)) as [Hk Hv]. cbn [fst snd].
  rewrite Hk, Hv. cbn [negb andb]. apply IH. intros k' v' Hin. apply H. now right.
Qed.

Lemma plain_tree_same_lookups value merged flag flag' :
  NoDup (JsObject.keys merged) ->
  (forall k, JsObject.get k merged = JsObject.get k value) ->
  plain_tree (RecordTypeDescriptor value flag) = true ->
  plain_tree (RecordTypeDescriptor merged flag') = true.
Proof.
  intros Hnd Hget Hplain. apply plain_tree_record_intro. intros k v Hin.
  apply (JsObject_In_get k v merged Hnd) in Hin. rewrite Hget in Hin.
  apply (plain_tree_record _ _ Hplain k v). now apply JsObject_get_In.
Qed.

(** The keys of a tree are keys of every tree that has its shape or more. *)
Lemma sub_shape_plain_keys small big :
  kind small = KRecord -> kind big = KRecord ->
  sub_shape small big = true -> plain_tree big = true ->
  plain_keys (record_value small) = true.
Proof.
  intros Hks Hkb Hsub Hplain.
  destruct small as [x | x | sv sflag]; try discriminate.
  destruct big as [x | x | bv bflag]; try discriminate.
  cbn [record_value]. unfold plain_keys, JsObject.keys.
  apply forallb_forall. intros k Hk.
  apply in_map_iff in Hk as [[k' v] [<- Hin]]. cbn [fst].
  destruct (sub_shape_record _ _ _ Hsub k' v Hin) as [other [Hg _]].
  cbn [record_value] in Hg. apply negb_true_iff.
  exact (proj1 (plain_tree_record _ _ Hplain k' other (JsObject_get_In _ _ _ Hg))).
Qed.

Lemma plain_tree_keys value flag :
  plain_tree (RecordTypeDescriptor value flag) = true -> plain_keys value = true.
Proof.
  intros H. unfold plain_keys, JsObject.keys. apply forallb_forall. intros k Hk.
  apply in_map_iff in Hk as [[k' v] [<- Hin]].
  apply negb_true_iff. exact (proj1 (plain_tree_record _ _ H k' v Hin)).
Qed.

Lemma JsMap_replace_same {V : Type} (k : string) (v : V) (m : JsMap.t V) :
  JsMap.get k m = Some v -> JsMap.replace k v m = m.
Proof.
  induction m as [| [k' v'] m IH]; simpl; [reflexivity |].
  destruct (String.eqb_spec k k') as [-> | Hne].
  - now intros [= ->].
  - intros H. now rewrite IH.
Qed.

Lemma JsObject_set_same {V : Type} (k : string) (v : V) (o : JsObject.t V) :
  JsObject.get k o = Some v -> JsObject.set k v o = o.
Proof.
  intros H. unfold JsObject.set, JsObject.has. rewrite H.
  now apply JsMap_replace_same.
Qed.

Lemma Absent_leaf {number : Type} (env : Collaborators number) at_ small big path :
  kind big <> KRecord -> ~ Absent env at_ small big path.
Proof.
  intros Hk H. destruct H as [at_ small big key Hb _ | at_ small big key s b path Hs Hb _];
    destruct big; simpl in *; try congruence; now apply Hk.
Qed.

Lemma recorded_add_error msg c path : recorded (add_error msg c) path <-> recorded c path.
Proof. reflexivity. Qed.

Lemma recorded_note_missing path name c q :
  recorded (note_missing path name c) q <-> q = path \/ recorded c q.
Proof.
  unfold recorded, note_missing. simpl.
  destruct (JsMap.get path (missing c)) eqn:E; rewrite JsMap_get_set;
    destruct (String.eqb_spec q path) as [-> | Hne]; split; intros H;
    try congruence; try tauto; try (now left); try (now right).
Qed.

Lemma recorded_note_exists path name c q :
  recorded (note_exists path name c) q <-> q = path \/ recorded c q.
Proof.
  unfold recorded, note_exists. simpl.
  destruct (JsMap.get path (missing c)) eqn:E; rewrite JsMap_get_set;
    destruct (String.eqb_spec q path) as [-> | Hne]; split; intros H;
    try congruence; try tauto; try (now left); try (now right).
Qed.

Lemma entries_are_note_missing path name c :
  entries_are {| Miss.exist := []; Miss.missing := [name] |} c ->
  entries_are {| Miss.exist := []; Miss.missing := [name] |} (note_missing path name c).
Proof.
  intros H q e. unfold note_missing. simpl.
  destruct (JsMap.get path (missing c)) as [miss |] eqn:E; rewrite JsMap_get_set;
    destruct (String.eqb_spec q path) as [-> | Hne]; try apply H.
  - intros [= <-]. rewrite (H _ _ E). simpl. unfold JsSet.add, JsSet.has. simpl.
    now rewrite String.eqb_refl.
  - intros [= <-]. reflexivity.
Qed.

Lemma entries_are_note_exists path name c :
  entries_are {| Miss.exist := [name]; Miss.missing := [] |} c ->
  entries_are {| Miss.exist := [name]; Miss.missing := [] |} (note_exists path name c).
Proof.
  intros H q e. unfold note_exists. simpl.
  destruct (JsMap.get path (missing c)) as [miss |] eqn:E; rewrite JsMap_get_set;
    destruct (String.eqb_spec q path) as [-> | Hne]; try apply H.
  - intros [= <-]. rewrite (H _ _ E). simpl. unfold JsSet.add, JsSet.has. simpl.
    now rewrite String.eqb_refl.
  - intros [= <-]. reflexivity.
Qed.

Section Superset.
Context {number : Type} (env : Collaborators number).

(** The visit of a key that both sides have with the same kind: the
    accumulator is left as it is and the ledger grows by what the nested
    merge records, [D] standing for the paths a nested merge adds. *)
Lemma merge_visit_same_kind name key value target c tk entry0
    (D : list string -> string -> Prop) :
  JsObject.get key (record_value target) = Some tk ->
  kind value = kind tk ->
  (kind value <> KRecord -> forall at_ p, ~ D at_ p) ->
  (kind value = KRecord -> forall ctx, entries_are entry0 ctx ->
     fst (merge env tk value name ctx) = tk /\
     entries_are entry0 (snd (merge env tk value name ctx)) /\
     forall p, recorded (snd (merge env tk value name ctx)) p <->
               recorded ctx p \/ D (paths ctx) p) ->
  entries_are entry0 c ->
  fst (merge_visit env name key value (fun t x => merge env t value name x) target c)
  = target /\
  entries_are entry0
    (snd (merge_visit env name key value (fun t x => merge env t value name x) target c)) /\
  forall p,
    recorded
      (snd (merge_visit env name key value (fun t x => merge env t value name x) target c)) p
    <-> recorded c p \/ D (paths c ++ [key]) p.
Proof.
  intros Hget Hkind Hleaf Hrec Hentries.
  unfold merge_visit, JsObject.lookup. rewrite Hget.
  destruct tk as [tv | tb | tvalue tflag], value as [sv | sb | svalue sflag];
    try discriminate; cbn [isStringType isCallType isRecordType kind kind_eqb andb].
  - repeat split; auto.
    + intros [H | H]; [exact H | exfalso; eapply Hleaf; [discriminate | exact H]].
  - destruct (negb (arrayEq (filter isParamArgType tb) (filter isParamArgType sb) arg_name));
      cbn [fst snd]; repeat split; auto; try (intros H; now left);
      intros [H | H]; try exact H; exfalso; (eapply Hleaf; [discriminate | exact H]).
  - unfold inPathContext.
    set (ctx := {| errors := errors c; paths := paths c ++ [key]; missing := missing c |}).
    destruct (Hrec eq_refl ctx Hentries) as [Hfst [Hent Hdom]].
    destruct (merge env (RecordTypeDescriptor tvalue tflag)
                (RecordTypeDescriptor svalue sflag) name ctx) as [merged c'].
    cbn [fst snd] in *. subst merged. repeat split.
    + destruct target as [x | x | value flag]; try discriminate.
      cbn [record_value isMissingRecordTypeDescriptor] in *.
      now rewrite (JsObject_set_same key _ value Hget).
    + exact Hent.
    + intros H. apply Hdom in H. exact H.
    + intros H. apply Hdom. exact H.
Qed.

(** Folding the smaller locale into an accumulator that has all its keys:
    the first loop notes every key the locale lacks, the second one descends
    into the dictionaries both have. *)
Lemma merge_into_superset source : forall target name c,
  kind source = KRecord -> kind target = KRecord ->
  locale_tree source = true -> locale_tree target = true ->
  plain_tree target = true ->
  sub_shape source target = true ->
  entries_are {| Miss.exist := []; Miss.missing := [name] |} c ->
  fst (merge env target source name c) = target /\
  entries_are {| Miss.exist := []; Miss.missing := [name] |}
    (snd (merge env target source name c)) /\
  forall p, recorded (snd (merge env target source name c)) p <->
            recorded c p \/ Absent env (paths c) source target p.
Proof.
  induction source as [x | x | sv sflag IH] using TypeDescriptor_tree_ind;
    intros target name c Hks Hkt Hls Hlt Hpt Hsub Hent; try discriminate.
  destruct target as [x | x | tv tflag]; try discriminate.
  destruct (locale_tree_record _ _ Hls) as [_ [Hnds Htrees]].
  destruct (locale_tree_record _ _ Hlt) as [-> [Hndt Htreet]].
  pose proof (plain_tree_record _ _ Hpt) as Hplaint.
  pose proof (sub_shape_record _ _ _ Hsub) as Hshape. cbn [record_value] in Hshape.
  set (E0 := {| Miss.exist := []; Miss.missing := [name] |}) in *.
  set (T := RecordTypeDescriptor tv false) in *.
  rewrite merge_unfold. cbv zeta. change (record_value T) with tv.
  (* first loop *)
  assert (P1 : forall es c0, incl es tv -> entries_are E0 c0 ->
             entries_are E0 (fold_left (merge_check env sv name) es c0) /\
             forall p, recorded (fold_left (merge_check env sv name) es c0) p <->
                       recorded c0 p \/
                       exists k bv, In (k, bv) es /\ JsObject.get k sv = None /\
                                    p = path_of env c0 k).
  { induction es as [| [k bv] es IHes]; intros c0 Hincl Hent0.
    - split; [exact Hent0 |]. intros p. split; [now left |].
      intros [H | [k [bv [[] _]]]]. exact H.
    - cbn [fold_left].
      assert (Hin : In (k, bv) tv) by (apply Hincl; now left).
      assert (Hincl' : incl es tv) by (intros x Hx; apply Hincl; now right).
      set (c' := merge_check env sv name c0 (k, bv)).
      assert (Hp : paths c' = paths c0)
        by apply (extends_paths _ _ (merge_check_extends env sv name c0 (k, bv))).
      assert (Hstep : entries_are E0 c' /\
                forall p, recorded c' p <->
                          recorded c0 p \/ (JsObject.get k sv = None /\ p = path_of env c0 k)).
      { subst c'. unfold merge_check, JsObject.lookup.
        destruct (JsObject.get k sv) as [v |] eqn:Ev.
        - destruct (Hshape k v (JsObject_get_In _ _ _ Ev)) as [other [Hother [Hk _]]].
          rewrite (JsObject_In_get k bv tv Hndt Hin) in Hother. injection Hother as <-.
          rewrite (proj2 (kind_eqb_eq _ _) Hk). cbn [negb].
          split; [exact Hent0 |]. intros p. split; [now left |].
          intros [H | [H _]]; [exact H | discriminate].
        - rewrite (proj1 (Hplaint k bv Hin)).
          split; [now apply entries_are_note_missing |].
          intros p. rewrite recorded_note_missing. split.
          + intros [-> | H]; [right; auto | now left].
          + intros [H | [_ ->]]; [now right | now left]. }
      destruct Hstep as [Hent' Hdom'].
      destruct (IHes c' Hincl' Hent') as [Hent'' Hdom''].
      split; [exact Hent'' |]. intros p. rewrite Hdom'', Hdom'. split.
      + intros [[H | [Hn ->]] | [k' [bv' [Hin' [Hn ->]]]]].
        * now left.
        * right. exists k, bv. split; [now left | auto].
        * right. exists k', bv'. split; [now right |]. split; [exact Hn |].
          now apply path_of_paths.
      + intros [H | [k' [bv' [[[= <- <-] | Hin'] [Hn ->]]]]].
        * left. now left.
        * left. right. auto.
        * right. exists k', bv'. split; [exact Hin' |]. split; [exact Hn |].
          symmetry. now apply path_of_paths. }
  (* second loop *)
  assert (P2 : forall es c0, incl es sv -> entries_are E0 c0 ->
             fst (merge_loop env name es T c0) = T /\
             entries_are E0 (snd (merge_loop env name es T c0)) /\
             forall p, recorded (snd (merge_loop env name es T c0)) p <->
                       recorded c0 p \/
                       exists k v bv, In (k, v) es /\ JsObject.get k tv = Some bv /\
                                      Absent env (paths c0 ++ [k]) v bv p).
  { induction es as [| [k v] es IHes]; intros c0 Hincl Hent0.
    - rewrite merge_loop_nil. repeat split; auto.
      intros [H | [k [v [bv [[] _]]]]]. exact H.
    - rewrite merge_loop_cons.
      assert (Hin : In (k, v) sv) by (apply Hincl; now left).
      assert (Hincl' : incl es sv) by (intros x Hx; apply Hincl; now right).
      destruct (Hshape k v Hin) as [bv [Hbv [Hk Hsubv]]].
      assert (Hvisit := merge_visit_same_kind name k v T c0 bv E0
                          (fun at_ p => Absent env at_ v bv p) Hbv Hk).
      assert (Hext := merge_visit_extends env name k v
                        (fun t x => merge env t v name x) T c0
                        (fun t x => merge_extends env v t name x)).
      destruct Hvisit as [Hfst [Hent' Hdom']].
      + intros Hleaf at_ p. apply Absent_leaf. congruence.
      + intros Hrec ctx Hctx.
        rewrite Forall_forall in IH.
        apply (IH (k, v) Hin bv name ctx); auto.
        * congruence.
        * apply (Htrees k v Hin).
        * apply (Htreet k bv). now apply JsObject_get_In.
        * apply (Hplaint k bv). now apply JsObject_get_In.
      + exact Hent0.
      + destruct (merge_visit env name k v _ T c0) as [t c'].
        cbn [fst snd] in *. subst t.
        destruct (IHes c' Hincl' Hent') as [Hfst'' [Hent'' Hdom'']].
        repeat split; auto.
        * intros H. apply Hdom'' in H. destruct H as [H | [k' [v' [bv' [Hin' [Hg Ha]]]]]].
          -- apply Hdom' in H. destruct H as [H | H]; [now left |].
             right. exists k, v, bv. split; [now left | auto].
          -- right. exists k', v', bv'. split; [now right |]. split; [exact Hg |].
             now rewrite <- (extends_paths _ _ Hext).
        * intros H. apply Hdom''.
          destruct H as [H | [k' [v' [bv' [[[= <- <-] | Hin'] [Hg Ha]]]]]].
          -- left. apply Hdom'. now left.
          -- left. apply Hdom'. right. congruence.
          -- right. exists k', v', bv'. split; [exact Hin' |]. split; [exact Hg |].
             now rewrite (extends_paths _ _ Hext). }
  set (c1 := fold_left (merge_check env sv name) (JsObject.entries tv) c).
  destruct (P1 (JsObject.entries tv) c (incl_refl _) Hent) as [Hent1 Hdom1]. fold c1 in Hent1, Hdom1.
  assert (Hp1 : paths c1 = paths c)
    by apply (extends_paths _ _ (merge_checks_extends env sv name _ c)).
  destruct (P2 (JsObject.entries sv) c1 (incl_refl _) Hent1) as [Hfst2 [Hent2 Hdom2]].
  destruct (merge_loop env name (JsObject.entries sv) T c1) as [t c2].
  cbn [fst snd] in *. subst t. repeat split; auto.
  - intros H. apply Hdom2 in H. destruct H as [H | [k [v [bv [Hin [Hg Ha]]]]]].
    + apply Hdom1 in H. destruct H as [H | [k [bv [Hin [Hn ->]]]]]; [now left |].
      right. apply Absent_here; [| exact Hn].
      cbn [record_value]. apply JsObject_get_keys. apply (in_map fst) in Hin. exact Hin.
    + right. rewrite Hp1 in Ha.
      eapply Absent_below; [| exact Hg | exact Ha].
      cbn [record_value]. now apply JsObject_In_get.
  - intros H. apply Hdom2. destruct H as [H | H].
    + left. apply Hdom1. now left.
    + inversion H as [at_ small big key Hb Hs | at_ small big key s' b' path Hs Hb Ha]; subst.
      * left. apply Hdom1. right. cbn [record_value] in Hb, Hs.
        destruct (JsObject.get key tv) as [bv |] eqn:Eb; [| contradiction].
        exists key, bv. split; [now apply JsObject_get_In | auto].
      * right. cbn [record_value] in Hb, Hs. exists key, s', b'.
        split; [now apply JsObject_get_In |]. split; [exact Hb |]. now rewrite Hp1.
Qed.
(** Folding the larger locale into an accumulator seeded by the smaller one:
    the first loop finds nothing, the second one notes every key the
    accumulator lacks and descends into the dictionaries both have. *)
Lemma merge_into_subset source : forall target name c,
  kind source = KRecord -> kind target = KRecord ->
  locale_tree source = true -> locale_tree target = true ->
  plain_tree source = true ->
  sub_shape target source = true ->
  entries_are {| Miss.exist := [name]; Miss.missing := [] |} c ->
  fst (merge env target source name c) = target /\
  entries_are {| Miss.exist := [name]; Miss.missing := [] |}
    (snd (merge env target source name c)) /\
  forall p, recorded (snd (merge env target source name c)) p <->
            recorded c p \/ Absent env (paths c) target source p.
Proof.
  induction source as [x | x | sv sflag IH] using TypeDescriptor_tree_ind;
    intros target name c Hks Hkt Hls Hlt Hps Hsub Hent; try discriminate.
  destruct target as [x | x | tv tflag]; try discriminate.
  destruct (locale_tree_record _ _ Hls) as [_ [Hnds Htrees]].
  destruct (locale_tree_record _ _ Hlt) as [-> [Hndt Htreet]].
  pose proof (plain_tree_record _ _ Hps) as Hplains.
  pose proof (sub_shape_record _ _ _ Hsub) as Hshape. cbn [record_value] in Hshape.
  set (E0 := {| Miss.exist := [name]; Miss.missing := [] |}) in *.
  set (T := RecordTypeDescriptor tv false) in *.
  rewrite merge_unfold. cbv zeta. change (record_value T) with tv.
  (* first loop *)
  assert (P1 : forall es c0, incl es tv -> fold_left (merge_check env sv name) es c0 = c0).
  { induction es as [| [k v] es IHes]; intros c0 Hincl; [reflexivity |].
    cbn [fold_left].
    assert (Hin : In (k, v) tv) by (apply Hincl; now left).
    destruct (Hshape k v Hin) as [other [Hother [Hk _]]].
    unfold merge_check at 2; unfold JsObject.lookup. rewrite Hother.
    rewrite (proj2 (kind_eqb_eq _ _) (eq_sym Hk)). cbn [negb].
    apply IHes. intros x Hx. apply Hincl. now right. }
  rewrite (P1 (JsObject.entries tv) c (incl_refl _)).
  (* second loop *)
  assert (P2 : forall es c0, incl es sv -> entries_are E0 c0 ->
             fst (merge_loop env name es T c0) = T /\
             entries_are E0 (snd (merge_loop env name es T c0)) /\
             forall p, recorded (snd (merge_loop env name es T c0)) p <->
                       recorded c0 p \/
                       exists k bv, In (k, bv) es /\
                         ((JsObject.get k tv = None /\ p = path_of env c0 k) \/
                          exists v, JsObject.get k tv = Some v /\
                                    Absent env (paths c0 ++ [k]) v bv p)).
  { induction es as [| [k bv] es IHes]; intros c0 Hincl Hent0.
    - rewrite merge_loop_nil. repeat split; auto.
      intros [H | [k [bv [[] _]]]]. exact H.
    - rewrite merge_loop_cons.
      assert (Hin : In (k, bv) sv) by (apply Hincl; now left).
      assert (Hincl' : incl es sv) by (intros x Hx; apply Hincl; now right).
      assert (Hext := merge_visit_extends env name k bv
                        (fun t x => merge env t bv name x) T c0
                        (fun t x => merge_extends env bv t name x)).
      assert (Hvisit :
        fst (merge_visit env name k bv (fun t x => merge env t bv name x) T c0) = T /\
        entries_are E0
          (snd (merge_visit env name k bv (fun t x => merge env t bv name x) T c0)) /\
        forall p,
          recorded
            (snd (merge_visit env name k bv (fun t x => merge env t bv name x) T c0)) p
          <-> recorded c0 p \/
              ((JsObject.get k tv = None /\ p = path_of env c0 k) \/
               exists v, JsObject.get k tv = Some v /\
                         Absent env (paths c0 ++ [k]) v bv p)).
      { destruct (JsObject.get k tv) as [v |] eqn:Ev.
        - destruct (Hshape k v (JsObject_get_In _ _ _ Ev)) as [other [Hother [Hk Hsubv]]].
          rewrite (JsObject_In_get k bv sv Hnds Hin) in Hother. injection Hother as <-.
          destruct (merge_visit_same_kind name k bv T c0 v E0
                      (fun at_ p => Absent env at_ v bv p) Ev (eq_sym Hk))
            as [Hfst [Hent' Hdom']].
          + intros Hleaf at_ p. now apply Absent_leaf.
          + intros Hrec ctx Hctx.
            rewrite Forall_forall in IH.
            apply (IH (k, bv) Hin v name ctx); auto.
            * congruence.
            * apply (Htrees k bv Hin).
            * apply (Htreet k v). now apply JsObject_get_In.
            * apply (Hplains k bv Hin).
          + exact Hent0.
          + repeat split; auto.
            * intros H. apply Hdom' in H. destruct H as [H | H]; [now left |].
              right. right. exists v. auto.
            * intros H. apply Hdom'.
              destruct H as [H | [[H _] | [v' [[= <-] H]]]];
                [now left | discriminate | now right].
        - rewrite merge_visit_absent by (first [exact Ev | apply (Hplains k bv Hin)]).
          cbn [T isMissingRecordTypeDescriptor fst snd].
          repeat split.
          + now apply entries_are_note_exists.
          + intros H. apply recorded_note_exists in H.
            destruct H as [-> | H]; [right; left; auto | now left].
          + intros H. apply recorded_note_exists.
            destruct H as [H | [[_ ->] | [v [H _]]]];
              [now right | now left | discriminate]. }
      destruct Hvisit as [Hfst [Hent' Hdom']].
      destruct (merge_visit env name k bv _ T c0) as [t c'].
      cbn [fst snd] in *. subst t.
      destruct (IHes c' Hincl' Hent') as [Hfst'' [Hent'' Hdom'']].
      repeat split; auto.
      + intros H. apply Hdom'' in H. destruct H as [H | [k' [bv' [Hin' H]]]].
        * apply Hdom' in H. destruct H as [H | H]; [now left |].
          right. exists k, bv. split; [now left | exact H].
        * right. exists k', bv'. split; [now right |].
          rewrite (extends_paths _ _ Hext) in H.
          now rewrite (path_of_paths env c0 c' k' (extends_paths _ _ Hext)) in H.
      + intros H. apply Hdom''.
        destruct H as [H | [k' [bv' [[[= <- <-] | Hin'] H]]]].
        * left. apply Hdom'. now left.
        * left. apply Hdom'. now right.
        * right. exists k', bv'. split; [exact Hin' |].
          rewrite (extends_paths _ _ Hext).
          now rewrite (path_of_paths env c0 c' k' (extends_paths _ _ Hext)). }
  destruct (P2 (JsObject.entries sv) c (incl_refl _) Hent) as [Hfst2 [Hent2 Hdom2]].
  destruct (merge_loop env name (JsObject.entries sv) T c) as [t c2].
  cbn [fst snd] in *. subst t. repeat split; auto.
  - intros H. apply Hdom2 in H.
    destruct H as [H | [k [bv [Hin [[Hn ->] | [v [Hv Ha]]]]]]]; [now left | |].
    + right. apply Absent_here; [| exact Hn].
      cbn [record_value]. apply JsObject_get_keys. apply (in_map fst) in Hin. exact Hin.
    + right. eapply Absent_below; [exact Hv | | exact Ha].
      cbn [record_value]. now apply JsObject_In_get.
  - intros H. apply Hdom2. destruct H as [H | H]; [now left |].
    inversion H as [at_ small big key Hb Hs | at_ small big key s' b' path Hs Hb Ha]; subst.
    + right. cbn [record_value] in Hb, Hs.
      destruct (JsObject.get key sv) as [bv |] eqn:Eb; [| contradiction].
      exists key, bv. split; [now apply JsObject_get_In | left; auto].
    + right. cbn [record_value] in Hb, Hs. exists key, b'.
      split; [now apply JsObject_get_In |]. right. exists s'. auto.
Qed.
End Superset.

(** ** What the builder guarantees *)

Lemma NoDup_distinct (l : list string) : NoDup l -> distinct l = true.
Proof.
  induction 1 as [| x l Hx _ IH]; simpl; [reflexivity |].
  rewrite IH, andb_true_r. apply negb_true_iff.
  apply JsSet_has_false in Hx. exact Hx.
Qed.

Lemma locale_tree_unfold value flag :
  locale_tree (RecordTypeDescriptor value flag) =
    negb flag && distinct (JsObject.keys value)
    && forallb (fun entry => locale_tree (snd entry)) value.
Proof. reflexivity. Qed.

Lemma locale_tree_record_intro value :
  NoDup (JsObject.keys value) ->
  (forall k v, In (k, v) value -> locale_tree v = true) ->
  locale_tree (RecordTypeDescriptor value false) = true.
Proof.
  intros Hnd Hall. rewrite locale_tree_unfold, (NoDup_distinct _ Hnd). cbn [negb andb].
  apply forallb_forall. intros [k v] Hin. now apply (Hall k v).
Qed.

Lemma sub_shape_unfold value flag big :
  sub_shape (RecordTypeDescriptor value flag) big =
    forallb
      (fun entry =>
         match JsObject.get (fst entry) (record_value big) with
         | Some other => kind_eqb (kind (snd entry)) (kind other) && sub_shape (snd entry) other
         | None => false
         end) value.
Proof. reflexivity. Qed.

Lemma sub_shape_record_intro value flag big :
  (forall k v, In (k, v) value ->
     exists other,
       JsObject.get k (record_value big) = Some other /\
       kind v = kind other /\ sub_shape v other = true) ->
  sub_shape (RecordTypeDescriptor value flag) big = true.
Proof.
  intros H. rewrite sub_shape_unfold. apply forallb_forall. intros [k v] Hin.
  destruct (H k v Hin) as [other [Hg [Hk Hs]]]. cbn [fst snd].
  now rewrite Hg, (proj2 (kind_eqb_eq _ _) Hk), Hs.
Qed.

(** The relations of the statements only read the dictionaries. *)
Lemma sub_shape_same_lookups small big big' :
  (forall k, JsObject.get k (record_value big) = JsObject.get k (record_value big')) ->
  sub_shape small big = true -> sub_shape small big' = true.
Proof.
  intros Hsame H. destruct small as [x | x | value flag]; try reflexivity.
  apply sub_shape_record_intro. intros k v Hin.
  destruct (sub_shape_record _ _ _ H k v Hin) as [other [Hg Hrest]].
  exists other. rewrite <- Hsame. auto.
Qed.

Lemma Absent_same_lookups {number : Type} (env : Collaborators number)
    at_ small big small' big' path :
  (forall k, JsObject.get k (record_value small) = JsObject.get k (record_value small')) ->
  (forall k, JsObject.get k (record_value big) = JsObject.get k (record_value big')) ->
  Absent env at_ small big path -> Absent env at_ small' big' path.
Proof.
  intros Hs Hb H.
  destruct H as [at_ small big key H1 H2 | at_ small big key s b path H1 H2 H3].
  - apply Absent_here; [now rewrite <- Hb | now rewrite <- Hs].
  - eapply Absent_below; [rewrite <- Hs; exact H1 | rewrite <- Hb; exact H2 | exact H3].
Qed.

Lemma record_ok_set key value record :
  record_ok record -> locale_tree value = true ->
  record_ok (JsObject.set key value record).
Proof.
  intros [Hnd Hall] Hv.
  assert (Hnd' := JsObject_set_NoDup key value record Hnd).
  split; [exact Hnd' |].
  intros k v Hin. apply (JsObject_In_get k v _ Hnd') in Hin.
  rewrite JsObject_get_set in Hin.
  destruct (String.eqb k key).
  - now injection Hin as <-.
  - apply (Hall k v). now apply JsObject_get_In.
Qed.

Lemma record_ok_assign key value record :
  record_ok record -> locale_tree value = true ->
  record_ok (JsObject.assign key value record).
Proof.
  intros Hok Hv. unfold JsObject.assign.
  destruct (String.eqb key "__proto__" && negb (JsObject.has key record));
    [exact Hok | now apply record_ok_set].
Qed.

Section Builder.
Context {number : Type} (env : Collaborators number).

(** The loop inside [toTypeNode] over a sequence is [toTypeNode_items]. *)
Lemma toTypeNode_array items c :
  toTypeNode env (YArray items) c =
    match toTypeNode_items env 0 items JsObject.empty c with
    | (Normal record, c') => (Normal (createRecordTypeDescriptor record), c')
    | (Throw e, c') => (Throw e, c')
    end.
Proof.
  simpl. generalize (@JsObject.empty TypeDescriptor) as record. generalize 0 as i. revert c.
  induction items as [| value rest IH]; intros c i record; simpl.
  - reflexivity.
  - destruct (toTypeNode_entry env (decimal i) value (toTypeNode env value) record c)
      as [[r | e] c']; [apply IH | reflexivity].
Qed.

Lemma toTypeNode_entry_ok key value recur record c r c' :
  (forall ctx t ctx', recur ctx = (Normal t, ctx') ->
     kind t = KRecord /\ locale_tree t = true /\ missing ctx' = missing ctx) ->
  record_ok record ->
  toTypeNode_entry env key value recur record c = (Normal r, c') ->
  record_ok r /\ missing c' = missing c /\ paths c' = paths c.
Proof.
  intros Hrecur Hok. unfold toTypeNode_entry.
  destruct (typeof value).
  - destruct (matchCallBody env (scalar_text env value)); intros [= <- <-];
      (split; [now apply record_ok_assign | auto]).
  - destruct (matchCallBody env (scalar_text env value)); intros [= <- <-];
      (split; [now apply record_ok_assign | auto]).
  - unfold inPathContext.
    destruct (recur {| errors := errors c; paths := paths c ++ [key]; missing := missing c |})
      as [[t | e] ctx'] eqn:E; [| discriminate].
    destruct (Hrecur _ _ _ E) as [_ [Ht Hm]]. cbn [missing] in Hm.
    intros [= <- <-]. split; [now apply record_ok_assign | auto].
  - intros [= <- <-]. auto.
Qed.

Lemma string_entries_strings s : forall i (entry : string * YamlValue number),
  In entry (string_entries i s) -> typeof (snd entry) = TyString.
Proof.
  induction s as [| a s IH]; intros i entry; simpl; [contradiction |].
  intros [<- | H]; [reflexivity | eauto].
Qed.

(** Whatever the input, a tree that is built is a record that is not
    provisional, with distinct keys throughout, and building it leaves the
    ledger and the path alone. *)
Lemma toTypeNode_ok (v : YamlValue number) : forall c t c',
  toTypeNode env v c = (Normal t, c') ->
  kind t = KRecord /\ locale_tree t = true /\ missing c' = missing c /\ paths c' = paths c.
Proof.
  assert (Hempty : record_ok (@JsObject.empty TypeDescriptor))
    by (split; [constructor | intros k x []]).
  assert (Hfinish : forall record, record_ok record ->
            kind (createRecordTypeDescriptor record) = KRecord /\
            locale_tree (createRecordTypeDescriptor record) = true).
  { intros record [Hnd Hall]. split; [reflexivity |].
    now apply locale_tree_record_intro. }
  induction v as [n | s | b | | items IH | entries IH] using YamlValue_tree_ind;
    intros c t c'.
  - intros [= <- <-]. destruct (Hfinish _ Hempty). auto.
  - cbn [toTypeNode].
    set (step := fun (st : Completion (JsObject.t TypeDescriptor) * Context)
                     (entry : string * YamlValue number) =>
                   match st with
                   | (Normal record, context) =>
                       toTypeNode_entry env (fst entry) (snd entry)
                         (fun ctx => (Throw TypeError, ctx)) record context
                   | (Throw e, context) => (Throw e, context)
                   end).
    assert (G : forall es st,
               (forall entry, In entry es -> typeof (snd entry) = TyString) ->
               (forall r0 c0, st = (Normal r0, c0) ->
                  record_ok r0 /\ missing c0 = missing c /\ paths c0 = paths c) ->
               forall r1 c1, fold_left step es st = (Normal r1, c1) ->
                  record_ok r1 /\ missing c1 = missing c /\ paths c1 = paths c).
    { induction es as [| entry es IHes]; intros st Hes Hst r1 c1; cbn [fold_left].
      - apply Hst.
      - apply IHes; [intros x Hx; apply Hes; now right |].
        intros r0 c0. unfold step at 1. destruct st as [[r | e] cst]; [| discriminate].
        destruct (Hst r cst eq_refl) as [Hok [Hm Hp]]. intros H.
        apply toTypeNode_entry_ok in H; [| discriminate | exact Hok].
        destruct H as [H1 [H2 H3]]. rewrite <- Hm, <- Hp. auto. }
    destruct (fold_left step (string_entries 0 s) (Normal JsObject.empty, c))
      as [[r | e] cf] eqn:E; [| discriminate].
    intros [= <- <-].
    assert (Hbase : forall r0 c0,
               (Normal (@JsObject.empty TypeDescriptor), c) = (Normal r0, c0) ->
               record_ok r0 /\ missing c0 = missing c /\ paths c0 = paths c)
      by (intros r0 c0 [= <- <-]; auto).
    destruct (G _ _ (string_entries_strings s 0) Hbase r cf E) as [Hok [Hm Hp]].
    destruct (Hfinish _ Hok). auto.
  - intros [= <- <-]. destruct (Hfinish _ Hempty). auto.
  - discriminate.
  - rewrite toTypeNode_array.
    assert (G : forall i record c0, record_ok record ->
               forall r1 c1, toTypeNode_items env i items record c0 = (Normal r1, c1) ->
                 record_ok r1 /\ missing c1 = missing c0 /\ paths c1 = paths c0).
    { induction IH as [| value rest Hv _ IHrest]; intros i record c0 Hok r1 c1;
        cbn [toTypeNode_items].
      - intros [= <- <-]. auto.
      - destruct (toTypeNode_entry env (decimal i) value (toTypeNode env value) record c0)
          as [[r | e] cst] eqn:E; [| discriminate].
        apply toTypeNode_entry_ok in E; [| | exact Hok].
        + destruct E as [Hok' [Hm Hp]]. intros H.
          destruct (IHrest _ _ _ Hok' _ _ H) as [H1 [H2 H3]].
          rewrite <- Hm, <- Hp. auto.
        + intros ctx t0 ctx' H. destruct (Hv _ _ _ H) as [H1 [H2 [H3 _]]]. auto. }
    destruct (toTypeNode_items env 0 items JsObject.empty c) as [[r | e] cf] eqn:E;
      [| discriminate].
    intros [= <- <-]. destruct (G _ _ _ Hempty _ _ E) as [Hok [Hm Hp]].
    destruct (Hfinish _ Hok). auto.
  - rewrite toTypeNode_object.
    assert (G : forall record c0, record_ok record ->
               forall r1 c1, toTypeNode_loop env entries record c0 = (Normal r1, c1) ->
                 record_ok r1 /\ missing c1 = missing c0 /\ paths c1 = paths c0).
    { induction IH as [| [key value] rest Hv _ IHrest]; intros record c0 Hok r1 c1;
        cbn [toTypeNode_loop].
      - intros [= <- <-]. auto.
      - destruct (toTypeNode_entry env key value (toTypeNode env value) record c0)
          as [[r | e] cst] eqn:E; [| discriminate].
        apply toTypeNode_entry_ok in E; [| | exact Hok].
        + destruct E as [Hok' [Hm Hp]]. intros H.
          destruct (IHrest _ _ Hok' _ _ H) as [H1 [H2 H3]].
          rewrite <- Hm, <- Hp. auto.
        + intros ctx t0 ctx' H. destruct (Hv _ _ _ H) as [H1 [H2 [H3 _]]]. auto. }
    destruct (toTypeNode_loop env entries JsObject.empty c) as [[r | e] cf] eqn:E;
      [| discriminate].
    intros [= <- <-]. destruct (G _ _ Hempty _ _ E) as [Hok [Hm Hp]].
    destruct (Hfinish _ Hok). auto.
Qed.

Lemma build_ok files : forall c nodes c',
  build env files c = (Normal nodes, c') ->
  map NamedValue.name nodes = map NamedValue.name files /\
  Forall (fun node => kind (NamedValue.value node) = KRecord /\
                      locale_tree (NamedValue.value node) = true) nodes /\
  missing c' = missing c /\ paths c' = paths c.
Proof.
  induction files as [| file rest IH]; intros c nodes c'; cbn [build].
  - intros [= <- <-]. auto.
  - destruct (toTypeNode env (NamedValue.value file) c) as [[t | e] c1] eqn:E; [| discriminate].
    destruct (build env rest c1) as [[ns | e] c2] eqn:Er; [| discriminate].
    intros [= <- <-].
    destruct (toTypeNode_ok _ _ _ _ E) as [Hk [Hl [Hm Hp]]].
    destruct (IH _ _ _ Er) as [Hn [Hall [Hm' Hp']]].
    cbn [map NamedValue.name]. rewrite Hn. repeat split; auto; try congruence.
Qed.
End Builder.

(** ** The pair of locales, end to end *)

Section Pair.
Context {number : Type} (env : Collaborators number).

Lemma report_missing_ledger names c :
  missing (report_missing env names c) = missing c.
Proof.
  unfold report_missing. generalize (missing c) at 1 as items. intros items. revert c.
  induction items as [| item items IH]; intros c; [reflexivity |].
  cbn [fold_left]. now rewrite IH.
Qed.

(** The first locale of a run seeds the accumulator with its own entries. *)
Lemma merge_seed tree name c :
  kind tree = KRecord -> locale_tree tree = true ->
  plain_keys (record_value tree) = true ->
  exists merged,
    merge env createMissingRecordTypeDescriptor tree name c =
      (RecordTypeDescriptor merged false, c) /\
    locale_tree (RecordTypeDescriptor merged false) = true /\
    forall k, JsObject.get k merged = JsObject.get k (record_value tree).
Proof.
  intros Hk Hl Hplain. destruct tree as [x | x | value flag]; try discriminate.
  destruct (locale_tree_record _ _ Hl) as [_ [Hnd Hall]].
  destruct (merge_first env value flag name c Hnd Hplain) as [merged [Hm [Hnd' Hget]]].
  exists merged. split; [exact Hm | split; [| exact Hget]].
  apply locale_tree_record_intro; [exact Hnd' |].
  intros k v Hin. apply (Hall k v).
  apply JsObject_get_In. rewrite <- Hget. now apply JsObject_In_get.
Qed.

(** What the ledger holds after the two locales are folded, larger first. *)
Lemma fold_big_first small big ns nb c0 :
  kind small = KRecord -> kind big = KRecord ->
  locale_tree small = true -> locale_tree big = true ->
  plain_tree big = true ->
  sub_shape small big = true ->
  missing c0 = [] ->
  let c := snd (fold env [{| NamedValue.name := nb; NamedValue.value := big |};
                          {| NamedValue.name := ns; NamedValue.value := small |}]
                  createMissingRecordTypeDescriptor c0) in
  entries_are {| Miss.exist := []; Miss.missing := [ns] |} c /\
  forall p, recorded c p <-> Absent env (paths c0) small big p.
Proof.
  intros Hks Hkb Hls Hlb Hpb Hsub Hm c. subst c. unfold fold.
  cbn [fold_left fst snd NamedValue.name NamedValue.value].
  assert (Hkeys : plain_keys (record_value big) = true)
    by (destruct big; try discriminate; now apply plain_tree_keys in Hpb).
  destruct (merge_seed big nb c0 Hkb Hlb Hkeys) as [merged [-> [Hlt Hget]]]. cbn [fst snd].
  set (T := RecordTypeDescriptor merged false) in *.
  assert (Hsame : forall k, JsObject.get k (record_value big) = JsObject.get k (record_value T))
    by (intros k; symmetry; apply Hget).
  assert (HpT : plain_tree T = true).
  { destruct big as [x | x | bv bflag]; try discriminate.
    apply (plain_tree_same_lookups bv merged bflag false); [| exact Hget | exact Hpb].
    now destruct (locale_tree_record _ _ Hlt) as [_ [H _]]. }
  destruct (merge_into_superset env small T ns c0 Hks eq_refl Hls Hlt HpT
              (sub_shape_same_lookups small big T Hsame Hsub))
    as [_ [Hent Hdom]].
  { intros p e H. rewrite Hm in H. discriminate. }
  split; [exact Hent |]. intros p. rewrite Hdom. split.
  - intros [H | H]; [unfold recorded in H; rewrite Hm in H; now elim H |].
    eapply Absent_same_lookups; [reflexivity | | exact H]. intros k. symmetry. apply Hsame.
  - intros H. right. eapply Absent_same_lookups; [reflexivity | exact Hsame | exact H].
Qed.

(** What the ledger holds after the two locales are folded, smaller first. *)
Lemma fold_small_first small big ns nb c0 :
  kind small = KRecord -> kind big = KRecord ->
  locale_tree small = true -> locale_tree big = true ->
  plain_tree big = true ->
  sub_shape small big = true ->
  missing c0 = [] ->
  let c := snd (fold env [{| NamedValue.name := ns; NamedValue.value := small |};
                          {| NamedValue.name := nb; NamedValue.value := big |}]
                  createMissingRecordTypeDescriptor c0) in
  entries_are {| Miss.exist := [nb]; Miss.missing := [] |} c /\
  forall p, recorded c p <-> Absent env (paths c0) small big p.
Proof.
  intros Hks Hkb Hls Hlb Hpb Hsub Hm c. subst c. unfold fold.
  cbn [fold_left fst snd NamedValue.name NamedValue.value].
  destruct (merge_seed small ns c0 Hks Hls (sub_shape_plain_keys small big Hks Hkb Hsub Hpb))
    as [merged [-> [Hlt Hget]]]. cbn [fst snd].
  set (T := RecordTypeDescriptor merged false) in *.
  assert (Hsame : forall k, JsObject.get k (record_value small) = JsObject.get k (record_value T))
    by (intros k; symmetry; apply Hget).
  assert (HsubT : sub_shape T big = true).
  { apply sub_shape_record_intro. intros k v Hin.
    destruct small as [x | x | sv sflag]; try discriminate.
    apply (sub_shape_record _ _ _ Hsub k v).
    apply JsObject_get_In. cbn [record_value] in Hget. rewrite <- Hget.
    apply JsObject_In_get; [| exact Hin].
    now destruct (locale_tree_record _ _ Hlt) as [_ [H _]]. }
  destruct (merge_into_subset env big T nb c0 Hkb eq_refl Hlb Hlt Hpb HsubT)
    as [_ [Hent Hdom]].
  { intros p e H. rewrite Hm in H. discriminate. }
  split; [exact Hent |]. intros p. rewrite Hdom. split.
  - intros [H | H]; [unfold recorded in H; rewrite Hm in H; now elim H |].
    eapply Absent_same_lookups; [| reflexivity | exact H]. intros k. symmetry. apply Hsame.
  - intros H. right. eapply Absent_same_lookups; [exact Hsame | reflexivity | exact H].
Qed.

Lemma gen_after_build files target lazy defaultLanguage nodes c0 :
  build env files fresh_context = (Normal nodes, c0) ->
  errors (snd (unify env (JsSet.of_list (map NamedValue.name files)) nodes c0)) <> [] ->
  gen env files target lazy defaultLanguage =
    Throw (Error (composite
                    (errors (snd (unify env (JsSet.of_list (map NamedValue.name files))
                                    nodes c0))))).
Proof.
  intros Hbuild Hne. unfold gen. rewrite Hbuild.
  destruct (unify env (JsSet.of_list (map NamedValue.name files)) nodes c0) as [merged c].
  cbn [snd] in *. destruct (errors c); [contradiction | reflexivity].
Qed.

Lemma unify_context names nodes c0 :
  snd (unify env names nodes c0) =
    report_missing env names (snd (fold env nodes createMissingRecordTypeDescriptor c0)).
Proof.
  unfold unify.
  now destruct (fold env nodes createMissingRecordTypeDescriptor c0).
Qed.
End Pair.

(** C2 (as amended).  For two locales with different names and without an
    entry under [__proto__], one of which has every key of the other with
    the same kind, throughout, and some key more, no key of the larger one
    being the name of a member of [Object.prototype], folded in either
    order: [gen] throws (it does not succeed), the ledger has an entry
    exactly for the keys the smaller locale lacks, each entry is converted
    to a diagnostic that names the smaller locale and only it. *)
Theorem C2_superset_pair {number : Type} (env : Collaborators number)
    files target lazy defaultLanguage (small big : TypeDescriptor) (ns nb : string)
    nodes c0 :
  Forall (fun file => proto_free (NamedValue.value file) = true) files ->
  build env files fresh_context = (Normal nodes, c0) ->
  nodes = [{| NamedValue.name := nb; NamedValue.value := big |};
           {| NamedValue.name := ns; NamedValue.value := small |}] \/
  nodes = [{| NamedValue.name := ns; NamedValue.value := small |};
           {| NamedValue.name := nb; NamedValue.value := big |}] ->
  ns <> nb ->
  plain_tree big = true ->
  sub_shape small big = true ->
  (exists path, Absent env [] small big path) ->
  let names := JsSet.of_list (map NamedValue.name files) in
  let c := snd (unify env names nodes c0) in
  gen env files target lazy defaultLanguage = Throw (Error (composite (errors c))) /\
  errors c <> [] /\
  (forall path, recorded c path <-> Absent env [] small big path) /\
  (forall path entry, JsMap.get path (missing c) = Some entry ->
                      offending names entry = [ns]) /\
  (forall path, Absent env [] small big path ->
                In (key_missing_in_path env path ns) (errors c)).
Proof.
  intros _ Hbuild Horder Hne Hplain Hsub [witness Hwitness] names c.
  destruct (build_ok env files fresh_context nodes c0 Hbuild) as [Hnames [Hall [Hm Hp]]].
  cbn [fresh_context missing paths] in Hm, Hp.
  assert (Hcore :
    (forall path, recorded c path <-> Absent env [] small big path) /\
    (forall path entry, JsMap.get path (missing c) = Some entry ->
                        offending names entry = [ns])).
  { subst c. rewrite unify_context. unfold recorded. rewrite report_missing_ledger.
    subst names. rewrite <- Hnames.
    assert (Hns : String.eqb ns nb = false) by now apply String.eqb_neq.
    assert (Hnb : String.eqb nb ns = false) by (apply String.eqb_neq; congruence).
    destruct Horder as [-> | ->];
      inversion Hall as [| ? ? [Hk1 Hl1] Hall']; subst;
      inversion Hall' as [| ? ? [Hk2 Hl2] _]; subst;
      cbn [NamedValue.value] in Hk1, Hl1, Hk2, Hl2.
    - destruct (fold_big_first env small big ns nb c0 Hk2 Hk1 Hl2 Hl1 Hplain Hsub Hm)
        as [Hent Hdom].
      rewrite Hp in Hdom. split; [exact Hdom |].
      intros path entry H. rewrite (Hent _ _ H). reflexivity.
    - destruct (fold_small_first env small big ns nb c0 Hk1 Hk2 Hl1 Hl2 Hplain Hsub Hm)
        as [Hent Hdom].
      rewrite Hp in Hdom. split; [exact Hdom |].
      intros path entry H. rewrite (Hent _ _ H).
      cbn [map NamedValue.name]. unfold JsSet.of_list. cbn [fold_left].
      unfold offending, JsSet.add, JsSet.has, diffArray, JsSet.empty, JsSet.size.
      cbn. rewrite Hnb. cbn. rewrite Hns, String.eqb_refl. reflexivity. }
  destruct Hcore as [Hdom Hoff].
  assert (Hmsg : forall path, Absent env [] small big path ->
                              In (key_missing_in_path env path ns) (errors c)).
  { intros path Ha. apply Hdom in Ha. unfold recorded in Ha.
    destruct (JsMap.get path (missing c)) as [entry |] eqn:E; [| contradiction].
    pose proof (Hoff _ _ E) as Ho.
    subst c. rewrite unify_context in *. rewrite report_missing_ledger in E.
    unfold report_missing. apply report_errors_In. right.
    exists (path, entry). split; [now apply JsMap_get_In |].
    unfold missing_message. cbn [fst snd]. fold names. now rewrite Ho. }
  assert (Herr : errors c <> []).
  { intros H. specialize (Hmsg _ Hwitness). rewrite H in Hmsg. contradiction. }
  repeat split; auto.
  - now apply gen_after_build.
  - apply Hdom.
  - apply Hdom.
Qed.

Lemma C2_witness :
  exists e,
    Sample.gen [Sample.locale "en" [("title", YString "Hello"); ("bye", YString "Bye")];
                Sample.locale "fr" [("title", YString "Bonjour")]]
      None false None = Throw e.
Proof.
  eexists.
  refine (proj1 (C2_superset_pair Sample.collaborators
                   [Sample.locale "en" [("title", YString "Hello"); ("bye", YString "Bye")];
                    Sample.locale "fr" [("title", YString "Bonjour")]]
                   None false None
                   (RecordTypeDescriptor [("title", StringTypeDescriptor "Bonjour")] false)
                   (RecordTypeDescriptor [("title", StringTypeDescriptor "Hello");
                                          ("bye", StringTypeDescriptor "Bye")] false)
                   "fr" "en" _ fresh_context _ _ _ _ _ _ _)).
  - repeat constructor.
  - vm_compute. reflexivity.
  - left. reflexivity.
  - discriminate.
  - reflexivity.
  - reflexivity.
  - exists ".bye".
    apply (Absent_here Sample.collaborators []
             (RecordTypeDescriptor [("title", StringTypeDescriptor "Bonjour")] false)
             (RecordTypeDescriptor [("title", StringTypeDescriptor "Hello");
                                    ("bye", StringTypeDescriptor "Bye")] false)
             "bye").
    + simpl. discriminate.
    + reflexivity.
Defined.

(** C2 as stated fails: with one key more in the first locale, [gen] throws;
    so it does when the locale with the extra key comes second. *)
Lemma C2_counterexample :
  Sample.gen [Sample.locale "A" [("x", YString "1"); ("y", YString "2")];
              Sample.locale "B" [("x", YString "1")]] None false None
  = Throw (Error (newline ++ "Errors:" ++ newline ++ "  1. .y is missing in B" ++ newline)) /\
  Sample.gen [Sample.locale "B" [("x", YString "1")];
              Sample.locale "A" [("x", YString "1"); ("y", YString "2")]] None false None
  = Throw (Error (newline ++ "Errors:" ++ newline ++ "  1. .y is missing in B" ++ newline)).
Proof. vm_compute. split; reflexivity. Qed.

(** ** Two locales with different keys *)

Lemma append_inj_l (s a b : string) : (s ++ a = s ++ b)%string -> a = b.
Proof. induction s as [| c s IH]; simpl; [auto | intros [= H]; auto]. Qed.

Lemma path_of_differs {number : Type} (env : Collaborators number) c c' k k' :
  paths c = paths c' -> k <> k' -> String.eqb (path_of env c k) (path_of env c' k') = false.
Proof.
  intros Hp Hk. apply String.eqb_neq. unfold path_of. rewrite Hp. intros H.
  apply append_inj_l in H. injection H as H. contradiction.
Qed.

(** Two locales of one key each, with different keys: what the pass leaves. *)
Lemma unify_two_keys {number : Type} (env : Collaborators number) na nb ka kb da db :
  String.eqb ka kb = false -> String.eqb na nb = false ->
  JsObject.inherited ka = false -> JsObject.inherited kb = false ->
  exists ledger,
    unify env (JsSet.of_list [na; nb])
      [named na (RecordTypeDescriptor [(ka, da)] false);
       named nb (RecordTypeDescriptor [(kb, db)] false)] fresh_context
    = (RecordTypeDescriptor [(ka, da)] false,
       {| errors :=
            JsSet.add (key_missing_in_path env (getCurrentPath env [] ++ "." ++ kb) na)
              [key_missing_in_path env (getCurrentPath env [] ++ "." ++ ka) nb];
          paths := [];
          missing := ledger |}).
Proof.
  intros Hk Hn Hia Hib.
  assert (Hk' : String.eqb kb ka = false) by (now rewrite String.eqb_sym).
  assert (Hn' : String.eqb nb na = false) by (now rewrite String.eqb_sym).
  assert (Hset : forall d : TypeDescriptor, JsObject.set ka d JsObject.empty = [(ka, d)])
    by (intros d; unfold JsObject.set; cbn; now destruct (JsObject.array_index ka)).
  unfold unify, fold, named. cbn [fold_left NamedValue.value NamedValue.name fst snd].
  (* the first locale seeds the accumulator *)
  assert (H1 : merge env createMissingRecordTypeDescriptor
                 (RecordTypeDescriptor [(ka, da)] false) na fresh_context
               = (RecordTypeDescriptor [(ka, da)] false, fresh_context)).
  { rewrite merge_unfold. cbv zeta. unfold JsObject.entries.
    unfold createMissingRecordTypeDescriptor. cbn [record_value fold_left].
    rewrite merge_loop_cons, merge_visit_absent by (first [reflexivity | assumption]).
    cbn [isMissingRecordTypeDescriptor record_value]. rewrite Hset, merge_loop_nil.
    reflexivity. }
  rewrite H1. cbn [fst snd].
  (* the second one is checked against it *)
  rewrite merge_unfold. cbv zeta. unfold JsObject.entries.
  cbn [record_value fold_left merge_check]. unfold JsObject.lookup.
  cbn [JsObject.get JsMap.get]. rewrite Hk, Hia.
  rewrite merge_loop_cons, merge_visit_absent
    by (first [assumption | cbn [record_value JsObject.get JsMap.get]; now rewrite Hk']).
  cbn [isMissingRecordTypeDescriptor]. rewrite merge_loop_nil.
  cbn [delete_missing].
  unfold report_missing, note_exists, note_missing, path_of, fresh_context.
  cbn [missing errors paths fst snd].
  set (pa := (getCurrentPath env [] ++ "." ++ ka)%string).
  set (pb := (getCurrentPath env [] ++ "." ++ kb)%string).
  assert (Hp : String.eqb pb pa = false).
  { apply String.eqb_neq. intros H. apply append_inj_l in H. injection H as H.
    apply String.eqb_neq in Hk'. contradiction. }
  clearbody pa pb.
  eexists.
  unfold JsMap.set, JsMap.empty. cbn [JsMap.get app]. rewrite Hp.
  cbn [JsMap.get app fold_left].
  unfold add_error, missing_message, offending, JsSet.of_list.
  cbn [fold_left errors paths missing fst snd Miss.exist Miss.missing].
  assert (E1 : JsSet.add nb JsSet.empty = [nb]) by reflexivity.
  assert (E2 : JsSet.add nb (JsSet.add na JsSet.empty) = [na; nb])
    by (unfold JsSet.add, JsSet.has; cbn; now rewrite Hn').
  assert (E3 : diffArray [na; nb] [nb] = [na])
    by (unfold diffArray, JsSet.has; cbn; now rewrite Hn, String.eqb_refl).
  rewrite E2, E1, E3. reflexivity.
Qed.

(** C1 (as amended).  For A = {x: "1"} and B = {y: "2"}, [gen] on [A, B]
    throws the composite error of two key-missing diagnostics (x missing in
    B, y missing in A) and the accumulator has the key x only; on [B, A] it
    throws as well and the accumulator has the key y only: the first locale
    alone seeds the schema. *)
Theorem C1_disjoint_locales {number : Type} (env : Collaborators number)
    (target : option Target) (lazy : bool) (defaultLanguage : option string) :
  gen env [named "A" (YObject [("x", YString "1")]); named "B" (YObject [("y", YString "2")])]
    target lazy defaultLanguage
  = Throw (Error (composite
                    (JsSet.add
                       (key_missing_in_path env (getCurrentPath env [] ++ "." ++ "y") "A")
                       [key_missing_in_path env (getCurrentPath env [] ++ "." ++ "x") "B"]))) /\
  option_map (fun d => JsObject.keys (record_value d))
    (canonical env [named "A" (YObject [("x", YString "1")]);
                    named "B" (YObject [("y", YString "2")])]) = Some ["x"] /\
  gen env [named "B" (YObject [("y", YString "2")]); named "A" (YObject [("x", YString "1")])]
    target lazy defaultLanguage
  = Throw (Error (composite
                    (JsSet.add
                       (key_missing_in_path env (getCurrentPath env [] ++ "." ++ "x") "B")
                       [key_missing_in_path env (getCurrentPath env [] ++ "." ++ "y") "A"]))) /\
  option_map (fun d => JsObject.keys (record_value d))
    (canonical env [named "B" (YObject [("y", YString "2")]);
                    named "A" (YObject [("x", YString "1")])]) = Some ["y"].
Proof.
  assert (Hleaf : forall key text,
            String.eqb key "__proto__" = false ->
            exists d,
              toTypeNode env (YObject [(key, YString text)]) fresh_context =
                (Normal (RecordTypeDescriptor [(key, d)] false), fresh_context)).
  { intros key text Hkey. rewrite toTypeNode_object.
    cbn [toTypeNode_loop toTypeNode_entry typeof scalar_text].
    assert (Hset : forall d : TypeDescriptor,
               JsObject.assign key d JsObject.empty = [(key, d)]).
    { intros d. unfold JsObject.assign, JsObject.set. rewrite Hkey. cbn.
      now destruct (JsObject.array_index key). }
    destruct (matchCallBody env text); rewrite Hset; eexists; reflexivity. }
  destruct (Hleaf "x" "1" eq_refl) as [dx HA].
  destruct (Hleaf "y" "2" eq_refl) as [dy HB]. clear Hleaf.
  destruct (unify_two_keys env "A" "B" "x" "y" dx dy eq_refl eq_refl eq_refl eq_refl)
    as [ledger1 H1].
  destruct (unify_two_keys env "B" "A" "y" "x" dy dx eq_refl eq_refl eq_refl eq_refl)
    as [ledger2 H2].
  unfold gen, canonical, named in *.
  cbn [build NamedValue.value NamedValue.name map].
  rewrite HA, HB, HA. rewrite H1, H2. cbn [fst snd errors option_map record_value].
  repeat split; try reflexivity;
    match goal with
    | |- context [JsSet.add ?m ?s] =>
        pose proof (JsSet_add_not_empty m s); destruct (JsSet.add m s);
        [contradiction | reflexivity]
    end.
Qed.

(** C1 as stated fails: neither order succeeds, and neither accumulator has
    both keys. *)
Lemma C1_counterexample :
  Sample.gen [Sample.locale "A" [("x", YString "1")]; Sample.locale "B" [("y", YString "2")]]
    None false None
  = Throw (Error (newline ++ "Errors:" ++ newline ++ "  1. .x is missing in B" ++ newline
                  ++ "  2. .y is missing in A" ++ newline)) /\
  option_map (fun d => JsObject.keys (record_value d))
    (canonical Sample.collaborators
       [Sample.locale "A" [("x", YString "1")]; Sample.locale "B" [("y", YString "2")]])
  = Some ["x"] /\
  Sample.gen [Sample.locale "B" [("y", YString "2")]; Sample.locale "A" [("x", YString "1")]]
    None false None
  = Throw (Error (newline ++ "Errors:" ++ newline ++ "  1. .y is missing in A" ++ newline
                  ++ "  2. .x is missing in B" ++ newline)) /\
  option_map (fun d => JsObject.keys (record_value d))
    (canonical Sample.collaborators
       [Sample.locale "B" [("y", YString "2")]; Sample.locale "A" [("x", YString "1")]])
  = Some ["y"].
Proof. vm_compute. repeat split. Qed.

(** ** Determinism and the message catalogue *)

Section Catalogues.
Context {number : Type} (env1 env2 : Collaborators number)
  (E : JsSet.t -> JsSet.t -> Prop).
Hypothesis Hsame : same_engine env1 env2.
Hypothesis E_unexpected : forall key value errs1 errs2, E errs1 errs2 ->
  E (JsSet.add (unexpected_value env1 key value) errs1)
    (JsSet.add (unexpected_value env2 key value) errs2).
Hypothesis E_type : forall path actually should errs1 errs2, E errs1 errs2 ->
  E (JsSet.add (type_of_path_is_unexpected env1 path actually should) errs1)
    (JsSet.add (type_of_path_is_unexpected env2 path actually should) errs2).
Hypothesis E_actually : forall path should errs1 errs2, E errs1 errs2 ->
  E (JsSet.add (type_of_path_actually_undefined env1 path should) errs1)
    (JsSet.add (type_of_path_actually_undefined env2 path should) errs2).
Hypothesis E_should : forall path actually errs1 errs2, E errs1 errs2 ->
  E (JsSet.add (type_of_path_should_undefined env1 path actually) errs1)
    (JsSet.add (type_of_path_should_undefined env2 path actually) errs2).
Hypothesis E_args : forall path one two errs1 errs2, E errs1 errs2 ->
  E (JsSet.add (args_is_different env1 path one two) errs1)
    (JsSet.add (args_is_different env2 path one two) errs2).
Hypothesis E_missing : forall path names errs1 errs2, E errs1 errs2 ->
  E (JsSet.add (key_missing_in_path env1 path names) errs1)
    (JsSet.add (key_missing_in_path env2 path names) errs2).

Lemma scalar_text_same (value : YamlValue number) :
  scalar_text env1 value = scalar_text env2 value.
Proof. destruct value; try reflexivity. apply (same_toString _ _ Hsame). Qed.

Lemma path_of_same c1 c2 key :
  alike E c1 c2 -> path_of env1 c1 key = path_of env2 c2 key.
Proof.
  intros [Hp _]. unfold path_of. now rewrite Hp, (same_getCurrentPath _ _ Hsame).
Qed.

Lemma alike_add_error msg1 msg2 c1 c2 :
  alike E c1 c2 ->
  E (JsSet.add msg1 (errors c1)) (JsSet.add msg2 (errors c2)) ->
  alike E (add_error msg1 c1) (add_error msg2 c2).
Proof. intros [Hp [Hm _]] He. repeat split; assumption. Qed.

Lemma alike_note_missing path name c1 c2 :
  alike E c1 c2 -> alike E (note_missing path name c1) (note_missing path name c2).
Proof.
  intros [Hp [Hm He]]. unfold alike, note_missing. cbn [errors paths missing].
  rewrite Hm. auto.
Qed.

Lemma alike_note_exists path name c1 c2 :
  alike E c1 c2 -> alike E (note_exists path name c1) (note_exists path name c2).
Proof.
  intros [Hp [Hm He]]. unfold alike, note_exists. cbn [errors paths missing].
  rewrite Hm. auto.
Qed.

Lemma tune_inPathContext {T : Type} key c1 c2 (run1 run2 : Context -> T * Context) :
  alike E c1 c2 ->
  (forall a b, alike E a b ->
     fst (run1 a) = fst (run2 b) /\ alike E (snd (run1 a)) (snd (run2 b))) ->
  fst (inPathContext c1 key run1) = fst (inPathContext c2 key run2) /\
  alike E (snd (inPathContext c1 key run1)) (snd (inPathContext c2 key run2)).
Proof.
  intros [Hp [Hm He]] Hrun. unfold inPathContext.
  destruct (Hrun {| errors := errors c1; paths := paths c1 ++ [key]; missing := missing c1 |}
              {| errors := errors c2; paths := paths c2 ++ [key]; missing := missing c2 |})
    as [H1 [_ [H2 H3]]].
  { unfold alike. cbn [errors paths missing]. rewrite Hp. auto. }
  destruct (run1 _) as [x1 d1]. destruct (run2 _) as [x2 d2].
  cbn [fst snd] in *. split; [exact H1 |].
  unfold alike. cbn [errors paths missing]. auto.
Qed.

Lemma tune_entry key value run1 run2 record c1 c2 :
  alike E c1 c2 ->
  (forall a b, alike E a b ->
     fst (run1 a) = fst (run2 b) /\ alike E (snd (run1 a)) (snd (run2 b))) ->
  fst (toTypeNode_entry env1 key value run1 record c1)
  = fst (toTypeNode_entry env2 key value run2 record c2) /\
  alike E (snd (toTypeNode_entry env1 key value run1 record c1))
          (snd (toTypeNode_entry env2 key value run2 record c2)).
Proof.
  intros Hc Hrun. unfold toTypeNode_entry.
  rewrite (scalar_text_same value), (same_matchCallBody _ _ Hsame).
  destruct (typeof value).
  - destruct (matchCallBody env2 (scalar_text env2 value)); split; auto.
  - destruct (matchCallBody env2 (scalar_text env2 value)); split; auto.
  - destruct (tune_inPathContext key c1 c2 run1 run2 Hc Hrun) as [H1 H2].
    destruct (inPathContext c1 key run1) as [[t | e] d1];
      destruct (inPathContext c2 key run2) as [[t' | e'] d2];
      cbn [fst snd] in *; try discriminate; split; auto; congruence.
  - split; [reflexivity |].
    apply alike_add_error; [exact Hc | apply E_unexpected; apply Hc].
Qed.

Lemma tune_loop entries :
  Forall (fun entry => in_tune env1 env2 E (snd entry)) entries ->
  forall record c1 c2, alike E c1 c2 ->
    fst (toTypeNode_loop env1 entries record c1)
    = fst (toTypeNode_loop env2 entries record c2) /\
    alike E (snd (toTypeNode_loop env1 entries record c1))
            (snd (toTypeNode_loop env2 entries record c2)).
Proof.
  induction 1 as [| [key value] rest Hv _ IH]; intros record c1 c2 Hc; [split; auto |].
  cbn [toTypeNode_loop]. cbn [snd] in Hv.
  destruct (tune_entry key value (toTypeNode env1 value) (toTypeNode env2 value)
              record c1 c2 Hc Hv) as [H1 H2].
  destruct (toTypeNode_entry env1 key value (toTypeNode env1 value) record c1)
    as [[r | e] d1];
    destruct (toTypeNode_entry env2 key value (toTypeNode env2 value) record c2)
      as [[r' | e'] d2]; cbn [fst snd] in *; try discriminate.
  - injection H1 as <-. now apply IH.
  - split; assumption.
Qed.

Lemma tune_items items :
  Forall (in_tune env1 env2 E) items ->
  forall i record c1 c2, alike E c1 c2 ->
    fst (toTypeNode_items env1 i items record c1)
    = fst (toTypeNode_items env2 i items record c2) /\
    alike E (snd (toTypeNode_items env1 i items record c1))
            (snd (toTypeNode_items env2 i items record c2)).
Proof.
  induction 1 as [| value rest Hv _ IH]; intros i record c1 c2 Hc; [split; auto |].
  cbn [toTypeNode_items].
  destruct (tune_entry (decimal i) value (toTypeNode env1 value) (toTypeNode env2 value)
              record c1 c2 Hc Hv) as [H1 H2].
  destruct (toTypeNode_entry env1 (decimal i) value (toTypeNode env1 value) record c1)
    as [[r | e] d1];
    destruct (toTypeNode_entry env2 (decimal i) value (toTypeNode env2 value) record c2)
      as [[r' | e'] d2]; cbn [fst snd] in *; try discriminate.
  - injection H1 as <-. now apply IH.
  - split; assumption.
Qed.

(** The tree of a value does not depend on the catalogue. *)
Lemma tune_toTypeNode (v : YamlValue number) : in_tune env1 env2 E v.
Proof.
  induction v as [n | s | b | | items IH | entries IH] using YamlValue_tree_ind;
    intros c1 c2 Hc; try (split; [reflexivity | exact Hc]).
  - cbn [toTypeNode].
    match goal with
    | |- context [fold_left ?f (string_entries 0 s) (Normal JsObject.empty, c1)] =>
        set (step1 := f)
    end.
    match goal with
    | |- context [fold_left ?f (string_entries 0 s) (Normal JsObject.empty, c2)] =>
        set (step2 := f)
    end.
    assert (G : forall es st1 st2,
               fst st1 = fst st2 -> alike E (snd st1) (snd st2) ->
               fst (fold_left step1 es st1) = fst (fold_left step2 es st2) /\
               alike E (snd (fold_left step1 es st1)) (snd (fold_left step2 es st2))).
    { induction es as [| entry es IHes]; intros st1 st2 Hf Hr; cbn [fold_left];
        [split; assumption |].
      destruct st1 as [[r | e] d1], st2 as [[r' | e'] d2]; cbn [fst snd] in Hf, Hr;
        try discriminate; unfold step1 at 2, step2 at 2.
      - injection Hf as <-.
        destruct (tune_entry (fst entry) (snd entry)
                    (fun ctx => (Throw TypeError, ctx)) (fun ctx => (Throw TypeError, ctx))
                    r d1 d2 Hr (fun a b H => conj eq_refl H)) as [H1 H2].
        now apply IHes.
      - now apply IHes. }
    destruct (G (string_entries 0 s) (Normal JsObject.empty, c1)
                (Normal JsObject.empty, c2) eq_refl Hc) as [H1 H2].
    destruct (fold_left step1 (string_entries 0 s) (Normal JsObject.empty, c1))
      as [[r | e] d1];
      destruct (fold_left step2 (string_entries 0 s) (Normal JsObject.empty, c2))
        as [[r' | e'] d2]; cbn [fst snd] in *; try discriminate; split; auto; congruence.
  - rewrite !toTypeNode_array.
    destruct (tune_items items IH 0 JsObject.empty c1 c2 Hc) as [H1 H2].
    destruct (toTypeNode_items env1 0 items JsObject.empty c1) as [[r | e] d1];
      destruct (toTypeNode_items env2 0 items JsObject.empty c2) as [[r' | e'] d2];
      cbn [fst snd] in *; try discriminate; split; auto; congruence.
  - rewrite !toTypeNode_object.
    destruct (tune_loop entries IH JsObject.empty c1 c2 Hc) as [H1 H2].
    destruct (toTypeNode_loop env1 entries JsObject.empty c1) as [[r | e] d1];
      destruct (toTypeNode_loop env2 entries JsObject.empty c2) as [[r' | e'] d2];
      cbn [fst snd] in *; try discriminate; split; auto; congruence.
Qed.

Lemma tune_build files : forall c1 c2, alike E c1 c2 ->
  fst (build env1 files c1) = fst (build env2 files c2) /\
  alike E (snd (build env1 files c1)) (snd (build env2 files c2)).
Proof.
  induction files as [| file rest IH]; intros c1 c2 Hc; [split; auto |].
  cbn [build].
  destruct (tune_toTypeNode (NamedValue.value file) c1 c2 Hc) as [H1 H2].
  destruct (toTypeNode env1 (NamedValue.value file) c1) as [[t | e] d1];
    destruct (toTypeNode env2 (NamedValue.value file) c2) as [[t' | e'] d2];
    cbn [fst snd] in *; try discriminate; [| split; [congruence | assumption]].
  injection H1 as <-. destruct (IH d1 d2 H2) as [I1 I2].
  destruct (build env1 rest d1) as [[ns | e] f1];
    destruct (build env2 rest d2) as [[ns' | e'] f2];
    cbn [fst snd] in *; try discriminate; split; auto; congruence.
Qed.

Lemma tune_merge_check source_value name c1 c2 entry :
  alike E c1 c2 ->
  alike E (merge_check env1 source_value name c1 entry)
          (merge_check env2 source_value name c2 entry).
Proof.
  intros Hc. destruct entry as [key value]. unfold merge_check.
  rewrite (path_of_same c1 c2 key Hc).
  destruct (JsObject.lookup key source_value) as [source_key | |].
  - destruct (negb (kind_eqb (kind source_key) (kind value))); [| exact Hc].
    apply alike_add_error; [exact Hc | apply E_type; apply Hc].
  - apply alike_add_error; [exact Hc | apply E_actually; apply Hc].
  - now apply alike_note_missing.
Qed.

Lemma tune_merge_checks source_value name entries : forall c1 c2,
  alike E c1 c2 ->
  alike E (fold_left (merge_check env1 source_value name) entries c1)
          (fold_left (merge_check env2 source_value name) entries c2).
Proof.
  induction entries as [| entry rest IH]; intros c1 c2 Hc; [exact Hc |].
  cbn [fold_left]. apply IH. now apply tune_merge_check.
Qed.

Lemma tune_merge_visit name key value run1 run2 target c1 c2 :
  alike E c1 c2 ->
  (forall t a b, alike E a b ->
     fst (run1 t a) = fst (run2 t b) /\ alike E (snd (run1 t a)) (snd (run2 t b))) ->
  fst (merge_visit env1 name key value run1 target c1)
  = fst (merge_visit env2 name key value run2 target c2) /\
  alike E (snd (merge_visit env1 name key value run1 target c1))
          (snd (merge_visit env2 name key value run2 target c2)).
Proof.
  intros Hc Hrun. unfold merge_visit. rewrite (path_of_same c1 c2 key Hc).
  destruct (JsObject.lookup key (record_value target)) as [tv | |].
  - destruct (isStringType tv && isStringType value); [split; auto |].
    destruct (isCallType tv && isCallType value).
    + destruct tv as [x | tb | tkv tkf], value as [y | sb | vv vf]; try (split; auto; fail).
      destruct (negb (arrayEq (filter isParamArgType tb) (filter isParamArgType sb) arg_name));
        cbn [fst snd]; split; auto.
      apply alike_add_error; [exact Hc | apply E_args; apply Hc].
    + destruct (isRecordType tv && isRecordType value).
      * destruct (tune_inPathContext key c1 c2 (run1 tv) (run2 tv) Hc (Hrun tv))
          as [H1 H2].
        destruct (inPathContext c1 key (run1 tv)) as [m1 d1].
        destruct (inPathContext c2 key (run2 tv)) as [m2 d2].
        cbn [fst snd] in *. subst m2. split; auto.
      * cbn [fst snd]. split; [reflexivity |].
        apply alike_add_error; [exact Hc | apply E_type; apply Hc].
  - cbn [fst snd]. split; [reflexivity |].
    apply alike_add_error; [exact Hc | apply E_should; apply Hc].
  - destruct (isMissingRecordTypeDescriptor target); cbn [fst snd]; split; auto.
    now apply alike_note_exists.
Qed.

(** The accumulator and the ledger do not depend on the catalogue. *)
Lemma tune_merge source : forall target name c1 c2,
  alike E c1 c2 ->
  fst (merge env1 target source name c1) = fst (merge env2 target source name c2) /\
  alike E (snd (merge env1 target source name c1)) (snd (merge env2 target source name c2)).
Proof.
  induction source as [x | x | sv sflag IH] using TypeDescriptor_tree_ind;
    intros target name c1 c2 Hc; try (split; [reflexivity | exact Hc]).
  rewrite !merge_unfold. cbv zeta.
  pose proof (tune_merge_checks sv name (JsObject.entries (record_value target)) c1 c2 Hc)
    as H1.
  set (d1 := fold_left (merge_check env1 sv name) _ c1) in *.
  set (d2 := fold_left (merge_check env2 sv name) _ c2) in *.
  clearbody d1 d2.
  assert (G : forall es t a b,
             incl es sv -> alike E a b ->
             fst (merge_loop env1 name es t a) = fst (merge_loop env2 name es t b) /\
             alike E (snd (merge_loop env1 name es t a)) (snd (merge_loop env2 name es t b))).
  { induction es as [| [key value] es IHes]; intros t a b Hincl Hr; [split; auto |].
    rewrite !merge_loop_cons.
    rewrite Forall_forall in IH.
    destruct (tune_merge_visit name key value
                (fun targetValue ctx => merge env1 targetValue value name ctx)
                (fun targetValue ctx => merge env2 targetValue value name ctx)
                t a b Hr
                (fun t' a' b' H =>
                   IH (key, value) (Hincl _ (or_introl eq_refl)) t' name a' b' H))
      as [V1 V2].
    destruct (merge_visit env1 name key value _ t a) as [t1 a1].
    destruct (merge_visit env2 name key value _ t b) as [t2 b1].
    cbn [fst snd] in V1, V2. subst t2.
    apply IHes; [intros x Hx; apply Hincl; now right | exact V2]. }
  destruct (G (JsObject.entries sv) target d1 d2 (incl_refl _) H1) as [G1 G2].
  destruct (merge_loop env1 name (JsObject.entries sv) target d1) as [t1 f1].
  destruct (merge_loop env2 name (JsObject.entries sv) target d2) as [t2 f2].
  cbn [fst snd] in *. subst t2. split; auto.
Qed.

Lemma tune_fold nodes : forall init c1 c2,
  alike E c1 c2 ->
  fst (fold env1 nodes init c1) = fst (fold env2 nodes init c2) /\
  alike E (snd (fold env1 nodes init c1)) (snd (fold env2 nodes init c2)).
Proof.
  unfold fold.
  induction nodes as [| node rest IH]; intros init c1 c2 Hc; [split; auto |].
  cbn [fold_left fst snd].
  destruct (tune_merge (NamedValue.value node) init (NamedValue.name node) c1 c2 Hc)
    as [H1 H2].
  destruct (merge env1 init (NamedValue.value node) (NamedValue.name node) c1) as [t1 d1].
  destruct (merge env2 init (NamedValue.value node) (NamedValue.name node) c2) as [t2 d2].
  cbn [fst snd] in *. subst t2. now apply IH.
Qed.

Lemma tune_report_missing names c1 c2 :
  alike E c1 c2 ->
  alike E (report_missing env1 names c1) (report_missing env2 names c2).
Proof.
  intros Hc. unfold report_missing.
  destruct Hc as [Hp [Hm He]]. rewrite Hm.
  assert (G : forall items a b, alike E a b ->
             alike E
               (fold_left (fun ctx item => add_error (missing_message env1 names item) ctx)
                  items a)
               (fold_left (fun ctx item => add_error (missing_message env2 names item) ctx)
                  items b)).
  { induction items as [| item items IH]; intros a b Hab; [exact Hab |].
    cbn [fold_left]. apply IH. unfold missing_message.
    apply alike_add_error; [exact Hab | apply E_missing; apply Hab]. }
  apply G. repeat split; assumption.
Qed.

Lemma tune_unify names nodes c1 c2 :
  alike E c1 c2 ->
  fst (unify env1 names nodes c1) = fst (unify env2 names nodes c2) /\
  alike E (snd (unify env1 names nodes c1)) (snd (unify env2 names nodes c2)).
Proof.
  intros Hc. unfold unify.
  destruct (tune_fold nodes createMissingRecordTypeDescriptor c1 c2 Hc) as [H1 H2].
  destruct (fold env1 nodes createMissingRecordTypeDescriptor c1) as [t1 d1].
  destruct (fold env2 nodes createMissingRecordTypeDescriptor c2) as [t2 d2].
  cbn [fst snd] in *. split; [exact H1 | now apply tune_report_missing].
Qed.

(** The printers are not part of the catalogue. *)
Lemma emit_same files nodes merged target lazy defaultLanguage :
  emit env1 files nodes merged target lazy defaultLanguage =
  emit env2 files nodes merged target lazy defaultLanguage.
Proof.
  unfold emit. cbv zeta. rewrite (same_print_module _ _ Hsame).
  rewrite (map_ext
             (fun x => (NamedValue.name x, print_locale env1 (NamedValue.value x)))
             (fun x => (NamedValue.name x, print_locale env2 (NamedValue.value x))))
    by (intros x; now rewrite (same_print_locale _ _ Hsame)).
  reflexivity.
Qed.

(** Two invocations on the same arguments: both stop in the build on the
    same exception, or both build the same trees and fold them into the same
    schema, with error sets related by [E]. *)
Lemma tune_run files :
  E [] [] ->
  (exists e,
     fst (build env1 files fresh_context) = Throw e /\
     fst (build env2 files fresh_context) = Throw e) \/
  (exists nodes c1 c2 merged d1 d2,
     build env1 files fresh_context = (Normal nodes, c1) /\
     build env2 files fresh_context = (Normal nodes, c2) /\
     unify env1 (JsSet.of_list (map NamedValue.name files)) nodes c1 = (merged, d1) /\
     unify env2 (JsSet.of_list (map NamedValue.name files)) nodes c2 = (merged, d2) /\
     E (errors d1) (errors d2)).
Proof.
  intros Hnil.
  assert (H0 : alike E fresh_context fresh_context) by (repeat split; exact Hnil).
  destruct (tune_build files fresh_context fresh_context H0) as [B1 B2].
  destruct (build env1 files fresh_context) as [[nodes | e] c1];
    destruct (build env2 files fresh_context) as [[nodes' | e'] c2];
    cbn [fst snd] in *; try discriminate.
  - injection B1 as <-. right.
    destruct (tune_unify (JsSet.of_list (map NamedValue.name files)) nodes c1 c2 B2)
      as [U1 [_ [_ U2]]].
    destruct (unify env1 (JsSet.of_list (map NamedValue.name files)) nodes c1)
      as [m1 d1] eqn:V1.
    destruct (unify env2 (JsSet.of_list (map NamedValue.name files)) nodes c2)
      as [m2 d2] eqn:V2.
    cbn [fst snd] in *. subst m2.
    exists nodes, c1, c2, m1, d1, d2. repeat split; auto.
  - left. exists e. split; [reflexivity | congruence].
Qed.
End Catalogues.




(** * Further properties *)

(** ** The builder: when it raises *)

Section BuilderRaises.
Context {number : Type} (env : Collaborators number).

Lemma has_null_array (items : list (YamlValue number)) :
  has_null (YArray items) = existsb has_null items.
Proof. reflexivity. Qed.

Lemma has_null_object (entries : list (string * YamlValue number)) :
  has_null (YObject entries) = existsb (fun entry => has_null (snd entry)) entries.
Proof. reflexivity. Qed.

Lemma inPathContext_fst {T : Type} c key (cb : Context -> T * Context) :
  fst (inPathContext c key cb) =
  fst (cb {| errors := errors c; paths := paths c ++ [key]; missing := missing c |}).
Proof. unfold inPathContext. now destruct (cb _). Qed.

(** What an entry does to the outcome: only a descent can raise. *)
Lemma toTypeNode_entry_outcome key value recur record c :
  (typeof value = TyObject ->
   forall e,
     fst (recur {| errors := errors c; paths := paths c ++ [key]; missing := missing c |})
       = Throw e ->
     fst (toTypeNode_entry env key value recur record c) = Throw e) /\
  ((typeof value = TyObject ->
    exists t,
      fst (recur {| errors := errors c; paths := paths c ++ [key]; missing := missing c |})
        = Normal t) ->
   exists r, fst (toTypeNode_entry env key value recur record c) = Normal r).
Proof.
  unfold toTypeNode_entry. split.
  - intros Hty e He. rewrite Hty.
    pose proof (inPathContext_fst c key recur) as G.
    destruct (inPathContext c key recur) as [[t | e'] c']; simpl in G |- *; congruence.
  - intros H. destruct (typeof value) eqn:Hty.
    + destruct (matchCallBody env (scalar_text env value)); eexists; reflexivity.
    + destruct (matchCallBody env (scalar_text env value)); eexists; reflexivity.
    + destruct (H eq_refl) as [t Ht].
      pose proof (inPathContext_fst c key recur) as G.
      destruct (inPathContext c key recur) as [[t' | e'] c']; simpl in G |- *.
      * eexists; reflexivity.
      * congruence.
    + eexists; reflexivity.
Qed.

Lemma toTypeNode_raises (v : YamlValue number) : forall c,
  (has_null v = true -> fst (toTypeNode env v c) = Throw TypeError) /\
  (has_null v = false -> exists t, fst (toTypeNode env v c) = Normal t).
Proof.
  induction v as [n | s | b | | items IH | entries IH] using YamlValue_tree_ind; intros c.
  - split; [discriminate | intros _; eexists; reflexivity].
  - split; [discriminate | intros _].
    cbn [toTypeNode].
    set (step := fun (st : Completion (JsObject.t TypeDescriptor) * Context)
                     (entry : string * YamlValue number) =>
                   match st with
                   | (Normal record, context) =>
                       toTypeNode_entry env (fst entry) (snd entry)
                         (fun ctx => (Throw TypeError, ctx)) record context
                   | (Throw e, context) => (Throw e, context)
                   end).
    assert (G : forall es st,
               (forall entry, In entry es -> typeof (snd entry) = TyString) ->
               (exists r, fst st = Normal r) ->
               exists r, fst (fold_left step es st) = Normal r).
    { induction es as [| entry es IHes]; intros st Hes Hst; cbn [fold_left]; [exact Hst |].
      apply IHes; [intros x Hx; apply Hes; now right |].
      destruct st as [[r | e] cst]; [| destruct Hst as [r Hr]; discriminate].
      unfold step.
      apply (proj2 (toTypeNode_entry_outcome (fst entry) (snd entry) _ r cst)).
      intros Hty. rewrite (Hes entry (or_introl eq_refl)) in Hty. discriminate. }
    destruct (G (string_entries 0 s) (Normal JsObject.empty, c)
                (string_entries_strings s 0) (ex_intro _ _ eq_refl)) as [r Hr].
    destruct (fold_left step (string_entries 0 s) (Normal JsObject.empty, c))
      as [[r' | e] cf]; simpl in Hr; [eexists; reflexivity | discriminate].
  - split; [discriminate | intros _; eexists; reflexivity].
  - split; [reflexivity | discriminate].
  - rewrite has_null_array, toTypeNode_array.
    assert (G : forall i record c0,
               (existsb has_null items = true ->
                fst (toTypeNode_items env i items record c0) = Throw TypeError) /\
               (existsb has_null items = false ->
                exists r, fst (toTypeNode_items env i items record c0) = Normal r)).
    { induction IH as [| value rest Hv _ IHrest]; intros i record c0;
        cbn [toTypeNode_items existsb].
      - split; [discriminate | intros _; eexists; reflexivity].
      - pose proof (toTypeNode_entry_outcome (decimal i) value (toTypeNode env value)
                      record c0) as [Hthrow Hnormal].
        destruct (has_null value) eqn:En; cbn [orb].
        + split; [intros _ | discriminate].
          assert (Hty : typeof value = TyObject)
            by (destruct value; simpl in En; try discriminate; reflexivity).
          specialize (Hthrow Hty TypeError (proj1 (Hv _) eq_refl)).
          destruct (toTypeNode_entry env (decimal i) value (toTypeNode env value) record c0)
            as [[r | e] c1]; simpl in Hthrow |- *; congruence.
        + destruct Hnormal as [r Hr]; [intros _; apply (proj2 (Hv _) eq_refl) |].
          destruct (toTypeNode_entry env (decimal i) value (toTypeNode env value) record c0)
            as [[r' | e] c1]; simpl in Hr; [| discriminate].
          apply IHrest. }
    destruct (G 0 JsObject.empty c) as [G1 G2]. split; intros H.
    + specialize (G1 H).
      destruct (toTypeNode_items env 0 items JsObject.empty c) as [[r | e] c1];
        simpl in G1 |- *; congruence.
    + destruct (G2 H) as [r Hr].
      destruct (toTypeNode_items env 0 items JsObject.empty c) as [[r' | e] c1];
        simpl in Hr |- *; [eexists; reflexivity | discriminate].
  - rewrite has_null_object, toTypeNode_object.
    assert (G : forall record c0,
               (existsb (fun entry => has_null (snd entry)) entries = true ->
                fst (toTypeNode_loop env entries record c0) = Throw TypeError) /\
               (existsb (fun entry => has_null (snd entry)) entries = false ->
                exists r, fst (toTypeNode_loop env entries record c0) = Normal r)).
    { induction IH as [| [key value] rest Hv _ IHrest]; intros record c0;
        cbn [toTypeNode_loop existsb snd].
      - split; [discriminate | intros _; eexists; reflexivity].
      - pose proof (toTypeNode_entry_outcome key value (toTypeNode env value)
                      record c0) as [Hthrow Hnormal].
        cbn [snd] in Hv.
        destruct (has_null value) eqn:En; cbn [orb].
        + split; [intros _ | discriminate].
          assert (Hty : typeof value = TyObject)
            by (destruct value; simpl in En; try discriminate; reflexivity).
          specialize (Hthrow Hty TypeError (proj1 (Hv _) eq_refl)).
          destruct (toTypeNode_entry env key value (toTypeNode env value) record c0)
            as [[r | e] c1]; simpl in Hthrow |- *; congruence.
        + destruct Hnormal as [r Hr]; [intros _; apply (proj2 (Hv _) eq_refl) |].
          destruct (toTypeNode_entry env key value (toTypeNode env value) record c0)
            as [[r' | e] c1]; simpl in Hr; [| discriminate].
          apply IHrest. }
    destruct (G JsObject.empty c) as [G1 G2]. split; intros H.
    + specialize (G1 H).
      destruct (toTypeNode_loop env entries JsObject.empty c) as [[r | e] c1];
        simpl in G1 |- *; congruence.
    + destruct (G2 H) as [r Hr].
      destruct (toTypeNode_loop env entries JsObject.empty c) as [[r' | e] c1];
        simpl in Hr |- *; [eexists; reflexivity | discriminate].
Qed.
End BuilderRaises.

(** X1.  [gen] raises the [TypeError] exactly when the dictionary of some
    locale holds a [null], at any depth; otherwise the build completes. *)
Theorem gen_raises_TypeError_iff_null {number : Type} (env : Collaborators number)
    files target lazy defaultLanguage :
  gen env files target lazy defaultLanguage = Throw TypeError <->
  existsb (fun file => has_null (NamedValue.value file)) files = true.
Proof.
  assert (G : forall c,
    (existsb (fun file => has_null (NamedValue.value file)) files = true ->
     fst (build env files c) = Throw TypeError) /\
    (existsb (fun file => has_null (NamedValue.value file)) files = false ->
     exists nodes, fst (build env files c) = Normal nodes)).
  { induction files as [| file rest IH]; intros c; cbn [build existsb].
    - split; [discriminate | intros _; eexists; reflexivity].
    - destruct (toTypeNode_raises env (NamedValue.value file) c) as [H1 H2].
      destruct (has_null (NamedValue.value file)); cbn [orb].
      + split; [intros _ | discriminate]. specialize (H1 eq_refl).
        destruct (toTypeNode env (NamedValue.value file) c) as [[t | e] c1];
          simpl in H1 |- *; congruence.
      + destruct (H2 eq_refl) as [t Ht].
        destruct (toTypeNode env (NamedValue.value file) c) as [[t' | e] c1];
          simpl in Ht; [| discriminate].
        destruct (IH c1) as [I1 I2]. split; intros H.
        * specialize (I1 H). destruct (build env rest c1) as [[ns | e] c2];
            simpl in I1 |- *; congruence.
        * destruct (I2 H) as [ns Hns]. destruct (build env rest c1) as [[ns' | e] c2];
            simpl in Hns |- *; [eexists; reflexivity | discriminate]. }
  destruct (G fresh_context) as [G1 G2]. unfold gen.
  destruct (existsb (fun file => has_null (NamedValue.value file)) files).
  - specialize (G1 eq_refl).
    destruct (build env files fresh_context) as [[nodes | e] c1]; simpl in G1;
      [discriminate | split; congruence].
  - destruct (G2 eq_refl) as [nodes Hn].
    destruct (build env files fresh_context) as [[nodes' | e] c1]; simpl in Hn;
      [| discriminate].
    destruct (unify env _ nodes' c1) as [merged c2].
    destruct (negb _); split; discriminate.
Qed.

(** ** The builder: what it builds *)

Section BuilderBuilds.
Context {number : Type} (env : Collaborators number).

Lemma toTypeNode_entry_extends key value recur record c :
  (forall ctx, extends ctx (snd (recur ctx))) ->
  extends c (snd (toTypeNode_entry env key value recur record c)).
Proof.
  intros H. unfold toTypeNode_entry. destruct (typeof value).
  - destruct (matchCallBody env (scalar_text env value)); apply extends_refl.
  - destruct (matchCallBody env (scalar_text env value)); apply extends_refl.
  - pose proof (inPathContext_extends c key recur H) as G.
    destruct (inPathContext c key recur) as [[t | e] c']; exact G.
  - apply add_error_extends.
Qed.

(** Building only adds diagnostics. *)
Lemma toTypeNode_extends (v : YamlValue number) : forall c,
  extends c (snd (toTypeNode env v c)).
Proof.
  induction v as [n | s | b | | items IH | entries IH] using YamlValue_tree_ind; intros c;
    try apply extends_refl.
  - cbn [toTypeNode].
    match goal with |- context [fold_left ?f _ _] => set (step := f) end.
    assert (G : forall es st, extends (snd st) (snd (fold_left step es st))).
    { induction es as [| entry es IHes]; intros st; cbn [fold_left]; [apply extends_refl |].
      eapply extends_trans; [| apply IHes].
      destruct st as [[r | e] cst]; unfold step; cbn [snd]; [| apply extends_refl].
      apply toTypeNode_entry_extends. intros ctx. apply extends_refl. }
    specialize (G (string_entries 0 s) (Normal JsObject.empty, c)).
    destruct (fold_left step (string_entries 0 s) (Normal JsObject.empty, c))
      as [[r | e] cf]; exact G.
  - rewrite toTypeNode_array.
    assert (G : forall i record c0, extends c0 (snd (toTypeNode_items env i items record c0))).
    { induction IH as [| value rest Hv _ IHrest]; intros i record c0;
        cbn [toTypeNode_items]; [apply extends_refl |].
      pose proof (toTypeNode_entry_extends (decimal i) value (toTypeNode env value)
                    record c0 Hv) as E.
      destruct (toTypeNode_entry env (decimal i) value (toTypeNode env value) record c0)
        as [[r | e] c1]; [| exact E].
      eapply extends_trans; [exact E | apply IHrest]. }
    specialize (G 0 JsObject.empty c).
    destruct (toTypeNode_items env 0 items JsObject.empty c) as [[r | e] cf]; exact G.
  - rewrite toTypeNode_object.
    assert (G : forall record c0, extends c0 (snd (toTypeNode_loop env entries record c0))).
    { induction IH as [| [key value] rest Hv _ IHrest]; intros record c0;
        cbn [toTypeNode_loop]; [apply extends_refl |].
      pose proof (toTypeNode_entry_extends key value (toTypeNode env value)
                    record c0 Hv) as E.
      destruct (toTypeNode_entry env key value (toTypeNode env value) record c0)
        as [[r | e] c1]; [| exact E].
      eapply extends_trans; [exact E | apply IHrest]. }
    specialize (G JsObject.empty c).
    destruct (toTypeNode_loop env entries JsObject.empty c) as [[r | e] cf]; exact G.
Qed.

Lemma build_extends files : forall c, extends c (snd (build env files c)).
Proof.
  induction files as [| file rest IH]; intros c; cbn [build]; [apply extends_refl |].
  pose proof (toTypeNode_extends (NamedValue.value file) c) as E.
  destruct (toTypeNode env (NamedValue.value file) c) as [[t | e] c1]; [| exact E].
  specialize (IH c1).
  destruct (build env rest c1) as [[ns | e] c2];
    (eapply extends_trans; [exact E | exact IH]).
Qed.

Lemma toTypeNode_entry_ordered key value recur record c r c' :
  JsObject.ordered record = true ->
  toTypeNode_entry env key value recur record c = (Normal r, c') ->
  JsObject.ordered r = true.
Proof.
  intros Hord. unfold toTypeNode_entry. destruct (typeof value).
  - destruct (matchCallBody env (scalar_text env value)); intros [= <- _];
      now apply JsObject_assign_ordered.
  - destruct (matchCallBody env (scalar_text env value)); intros [= <- _];
      now apply JsObject_assign_ordered.
  - destruct (inPathContext c key recur) as [[t | e] c1]; [| discriminate].
    intros [= <- _]. now apply JsObject_assign_ordered.
  - now intros [= <- _].
Qed.

(** The record a build returns enumerates its keys as an object does. *)
Lemma toTypeNode_ordered (v : YamlValue number) c t c' :
  toTypeNode env v c = (Normal t, c') -> JsObject.ordered (record_value t) = true.
Proof.
  destruct v as [n | s | b | | items | entries].
  - now intros [= <- _].
  - cbn [toTypeNode].
    match goal with |- context [fold_left ?f _ _] => set (step := f) end.
    assert (G : forall es st,
               (forall r0 c0, st = (Normal r0, c0) -> JsObject.ordered r0 = true) ->
               forall r1 c1, fold_left step es st = (Normal r1, c1) ->
                 JsObject.ordered r1 = true).
    { induction es as [| entry es IHes]; intros st Hst r1 c1; cbn [fold_left];
        [apply Hst |].
      apply IHes. intros r0 c0. destruct st as [[r | e] cst]; unfold step;
        [| discriminate].
      apply toTypeNode_entry_ordered. now apply (Hst r cst). }
    destruct (fold_left step (string_entries 0 s) (Normal JsObject.empty, c))
      as [[r | e] cf] eqn:E; [| discriminate].
    intros [= <- _]. cbn [createRecordTypeDescriptor record_value].
    assert (Hbase : forall r0 c0,
               (Normal (@JsObject.empty TypeDescriptor), c) = (Normal r0, c0) ->
               JsObject.ordered r0 = true)
      by (now intros r0 c0 [= <- _]).
    apply (G _ _ Hbase _ _ E).
  - now intros [= <- _].
  - discriminate.
  - rewrite toTypeNode_array.
    assert (G : forall i record c0, JsObject.ordered record = true ->
               forall r1 c1, toTypeNode_items env i items record c0 = (Normal r1, c1) ->
                 JsObject.ordered r1 = true).
    { induction items as [| value rest IHrest]; intros i record c0 Hord r1 c1;
        cbn [toTypeNode_items]; [now intros [= <- _] |].
      destruct (toTypeNode_entry env (decimal i) value (toTypeNode env value) record c0)
        as [[r | e] cst] eqn:E; [| discriminate].
      apply IHrest. now apply (toTypeNode_entry_ordered _ _ _ _ _ _ _ Hord E). }
    destruct (toTypeNode_items env 0 items JsObject.empty c) as [[r | e] cf] eqn:E;
      [| discriminate].
    intros [= <- _]. apply (G 0 JsObject.empty c eq_refl _ _ E).
  - rewrite toTypeNode_object.
    assert (G : forall record c0, JsObject.ordered record = true ->
               forall r1 c1, toTypeNode_loop env entries record c0 = (Normal r1, c1) ->
                 JsObject.ordered r1 = true).
    { induction entries as [| [key value] rest IHrest]; intros record c0 Hord r1 c1;
        cbn [toTypeNode_loop]; [now intros [= <- _] |].
      destruct (toTypeNode_entry env key value (toTypeNode env value) record c0)
        as [[r | e] cst] eqn:E; [| discriminate].
      apply IHrest. now apply (toTypeNode_entry_ordered _ _ _ _ _ _ _ Hord E). }
    destruct (toTypeNode_loop env entries JsObject.empty c) as [[r | e] cf] eqn:E;
      [| discriminate].
    intros [= <- _]. apply (G JsObject.empty c eq_refl _ _ E).
Qed.
End BuilderBuilds.

Lemma built_tree_is_well_formed_core {number : Type} (env : Collaborators number)
    (v : YamlValue number) c t c' :
  toTypeNode env v c = (Normal t, c') ->
  kind t = KRecord /\ locale_tree t = true /\ JsObject.ordered (record_value t) = true.
Proof.
  intros H. destruct (toTypeNode_ok env v c t c' H) as [Hk [Hl _]].
  repeat split; auto. exact (toTypeNode_ordered env v c t c' H).
Qed.

(** X2.  Whatever the input, a tree that is built is a record that is not
    provisional, whose keys are distinct at every level and enumerated as an
    object enumerates them; building leaves the ledger and the path as they
    were and loses no diagnostic. *)
Theorem built_tree_is_well_formed {number : Type} (env : Collaborators number)
    (v : YamlValue number) c t c' :
  toTypeNode env v c = (Normal t, c') ->
  kind t = KRecord /\
  locale_tree t = true /\
  JsObject.ordered (record_value t) = true /\
  missing c' = missing c /\ paths c' = paths c /\
  (forall msg, In msg (errors c) -> In msg (errors c')).
Proof.
  intros H. destruct (toTypeNode_ok env v c t c' H) as [Hk [Hl [Hm Hp]]].
  repeat split; auto.
  - exact (toTypeNode_ordered env v c t c' H).
  - pose proof (toTypeNode_extends env v c) as E. rewrite H in E.
    apply (extends_errors _ _ E).
Qed.

Lemma built_tree_is_well_formed_witness :
  locale_tree
    (RecordTypeDescriptor
       [("2", StringTypeDescriptor "b"); ("10", StringTypeDescriptor "a");
        ("menu", RecordTypeDescriptor [("0", StringTypeDescriptor "x")] false)] false)
  = true.
Proof.
  refine (proj1 (proj2 (built_tree_is_well_formed Sample.collaborators
                          (YObject [("menu", YArray [YString "x"; YBoolean true]);
                                    ("10", YString "a"); ("2", YString "b")])
                          fresh_context _
                          {| errors := ["unexpected value: [1, true]"];
                             paths := []; missing := [] |} _))).
  vm_compute. reflexivity.
Defined.

Section BuilderKeys.
Context {number : Type} (env : Collaborators number).

Lemma toTypeNode_entry_effect key value recur record c r c' :
  toTypeNode_entry env key value recur record c = (Normal r, c') ->
  (typeof value <> TyBoolean /\ exists x, r = JsObject.assign key x record) \/
  (typeof value = TyBoolean /\ r = record /\
   c' = add_error (unexpected_value env key value) c).
Proof.
  unfold toTypeNode_entry. destruct (typeof value).
  - destruct (matchCallBody env (scalar_text env value)); intros [= <- _];
      left; (split; [discriminate | eexists; reflexivity]).
  - destruct (matchCallBody env (scalar_text env value)); intros [= <- _];
      left; (split; [discriminate | eexists; reflexivity]).
  - destruct (inPathContext c key recur) as [[t | e] c1]; [| discriminate].
    intros [= <- _]. left. split; [discriminate | eexists; reflexivity].
  - intros [= <- <-]. right. auto.
Qed.

(** What an assignment of the builder leaves under a key: the record it
    fills has no own property [__proto__], so an assignment under that key
    adds none. *)
Lemma get_assign_builder (record : JsObject.t TypeDescriptor) key x k :
  JsObject.get "__proto__" record = None ->
  JsObject.get k (JsObject.assign key x record) =
    if String.eqb k key && negb (String.eqb key "__proto__") then Some x
    else JsObject.get k record.
Proof.
  intros Hproto. unfold JsObject.assign, JsObject.has.
  destruct (String.eqb_spec key "__proto__") as [-> | Hne].
  - rewrite Hproto. cbn [negb andb]. now rewrite andb_false_r.
  - cbn [andb negb]. rewrite andb_true_r. apply JsObject_get_set.
Qed.

Lemma toTypeNode_loop_keys entries : forall record c r c',
  JsObject.get "__proto__" record = None ->
  toTypeNode_loop env entries record c = (Normal r, c') ->
  (forall key,
      JsObject.get key r <> None <->
      JsObject.get key record <> None \/
      (key <> "__proto__"%string /\
       exists v, In (key, v) entries /\ typeof v <> TyBoolean)) /\
  (forall key v, In (key, v) entries -> typeof v = TyBoolean ->
                 In (unexpected_value env key v) (errors c')) /\
  extends c c'.
Proof.
  induction entries as [| [key value] rest IH]; intros record c r c' Hproto;
    cbn [toTypeNode_loop].
  - intros [= <- <-]. split; [| split; [intros k v [] | apply extends_refl]].
    intros k. split; [now left | intros [H | [_ [v [[] _]]]]; exact H].
  - destruct (toTypeNode_entry env key value (toTypeNode env value) record c)
      as [[r1 | e] c1] eqn:E; [| discriminate].
    intros Hrest.
    pose proof (toTypeNode_entry_effect _ _ _ _ _ _ _ E) as Heffect.
    assert (Hproto1 : JsObject.get "__proto__" r1 = None).
    { destruct Heffect as [[_ [x ->]] | [_ [-> _]]];
        [now apply JsObject_assign_no_proto | exact Hproto]. }
    destruct (IH _ _ _ _ Hproto1 Hrest) as [Hkeys [Hbool Hext]].
    pose proof (toTypeNode_entry_extends env key value (toTypeNode env value) record c
                  (toTypeNode_extends env value)) as E1.
    rewrite E in E1. cbn [snd] in E1.
    split; [| split; [| eapply extends_trans; eassumption]].
    + intros k. rewrite Hkeys.
      destruct Heffect as [[Hty [x ->]] | [Hty [-> _]]].
      * rewrite (get_assign_builder record key x k Hproto).
        destruct (String.eqb_spec k key) as [-> | Hne]; cbn [andb].
        -- destruct (String.eqb_spec key "__proto__") as [-> | Hkey]; cbn [negb].
           ++ split.
              ** intros [H | [H _]]; [now left | now elim H].
              ** intros [H | [H _]]; [now left | now elim H].
           ++ split; [intros _ | intros _; left; discriminate].
              right. split; [exact Hkey |].
              exists value. split; [now left | exact Hty].
        -- split.
           ++ intros [H | [Hk [v [Hin Hv]]]]; [now left |].
              right. split; [exact Hk |]. exists v. split; [now right | exact Hv].
           ++ intros [H | [Hk [v [[[= <- <-] | Hin] Hv]]]];
                [now left | contradiction |].
              right. split; [exact Hk |]. exists v. auto.
      * split.
        -- intros [H | [Hk [v [Hin Hv]]]]; [now left |].
           right. split; [exact Hk |]. exists v. split; [now right | exact Hv].
        -- intros [H | [Hk [v [[[= <- <-] | Hin] Hv]]]]; [now left | contradiction |].
           right. split; [exact Hk |]. exists v. auto.
    + intros k v [[= <- <-] | Hin] Hty; [| now apply Hbool].
      apply (extends_errors _ _ Hext).
      destruct Heffect as [[Hn _] | [_ [_ ->]]];
        [contradiction | apply add_error_In].
Qed.
End BuilderKeys.

(** X3.  When the tree of a mapping is built, its keys are exactly the keys,
    other than [__proto__], of the entries whose value is not a boolean (the
    assignment under [__proto__] of gen.ts lines 43-55 adds no key to the
    record), and every boolean entry has its unexpected-value diagnostic in
    the error set. *)
Theorem built_tree_keys {number : Type} (env : Collaborators number)
    (entries : list (string * YamlValue number)) c t c' :
  toTypeNode env (YObject entries) c = (Normal t, c') ->
  (forall key,
      JsObject.get key (record_value t) <> None <->
      key <> "__proto__"%string /\
      exists v, In (key, v) entries /\ typeof v <> TyBoolean) /\
  (forall key v, In (key, v) entries -> typeof v = TyBoolean ->
                 In (unexpected_value env key v) (errors c')).
Proof.
  rewrite toTypeNode_object.
  destruct (toTypeNode_loop env entries JsObject.empty c) as [[r | e] c1] eqn:E;
    [| discriminate].
  intros [= <- <-].
  destruct (toTypeNode_loop_keys env entries JsObject.empty c r c1 eq_refl E)
    as [Hkeys [Hbool _]].
  split; [| exact Hbool].
  intros key. cbn [createRecordTypeDescriptor record_value]. rewrite Hkeys.
  split; [intros [H | H]; [now elim H | exact H] | now right].
Qed.

Lemma built_tree_keys_witness :
  In "unexpected value: [debug, true]"
    (errors (snd (toTypeNode Sample.collaborators
                    (YObject [("title", YString "Hello"); ("debug", YBoolean true)])
                    fresh_context))).
Proof.
  refine (proj2 (built_tree_keys Sample.collaborators
                   [("title", YString "Hello"); ("debug", YBoolean true)]
                   fresh_context
                   (RecordTypeDescriptor [("title", StringTypeDescriptor "Hello")] false)
                   _ _) "debug" (YBoolean true) _ _).
  - vm_compute. reflexivity.
  - right. left. reflexivity.
  - reflexivity.
Defined.

(** ** The accumulator after the first locale *)

Section Fixed.
Context {number : Type} (env : Collaborators number).

Lemma locale_tree_not_missing t :
  locale_tree t = true -> isMissingRecordTypeDescriptor t = false /\ delete_missing t = t.
Proof.
  destruct t as [x | x | value flag]; try (split; reflexivity).
  intros H. destruct (locale_tree_record _ _ H) as [-> _]. split; reflexivity.
Qed.

Lemma locale_tree_entry t key tk :
  locale_tree t = true -> JsObject.get key (record_value t) = Some tk ->
  locale_tree tk = true.
Proof.
  destruct t as [x | x | value flag]; try discriminate.
  intros H Hget. destruct (locale_tree_record _ _ H) as [_ [_ Hall]].
  apply (Hall key tk). now apply JsObject_get_In.
Qed.

Lemma inPathContext_fst_snd {T : Type} c key (cb : Context -> T * Context) :
  errors (snd (inPathContext c key cb)) =
    errors (snd (cb {| errors := errors c; paths := paths c ++ [key];
                       missing := missing c |})) /\
  missing (snd (inPathContext c key cb)) =
    missing (snd (cb {| errors := errors c; paths := paths c ++ [key];
                        missing := missing c |})) /\
  paths (snd (inPathContext c key cb)) = paths c.
Proof. unfold inPathContext. now destruct (cb _). Qed.

(** Once it is not provisional, the accumulator is never changed: [merge]
    returns the well-formed target it was given, whatever the source. *)
Lemma merge_keeps_target source : forall target name c,
  locale_tree target = true -> fst (merge env target source name c) = target.
Proof.
  induction source as [x | x | sv sflag IH] using TypeDescriptor_tree_ind;
    intros target name c Hl; try reflexivity.
  rewrite merge_unfold. cbv zeta.
  generalize (fold_left (merge_check env sv name) (JsObject.entries (record_value target)) c).
  intros c1.
  assert (G : forall c0, fst (merge_loop env name (JsObject.entries sv) target c0) = target).
  { unfold JsObject.entries.
    induction IH as [| [key value] rest Hv _ IHrest]; intros c0; [reflexivity |].
    rewrite merge_loop_cons.
    assert (Hvisit : fst (merge_visit env name key value
                            (fun t x => merge env t value name x) target c0) = target).
    { destruct (JsObject.get key (record_value target)) as [tk |] eqn:Eg.
      - destruct (kind tk) eqn:Ek;
          try (apply (merge_visit_leaf env name key value _ target c0 tk Eg);
               left; congruence).
        destruct (kind value) eqn:Ev;
          try (apply (merge_visit_leaf env name key value _ target c0 tk Eg);
               right; congruence).
        unfold merge_visit, JsObject.lookup. rewrite Eg.
        destruct tk as [x | x | tkv tkf], value as [y | y | vv vf]; try discriminate.
        cbn [isStringType isCallType isRecordType kind kind_eqb andb].
        pose proof (inPathContext_fst c0 key
                      (fun x => merge env (RecordTypeDescriptor tkv tkf)
                                  (RecordTypeDescriptor vv vf) name x)) as F.
        cbn [snd] in Hv. rewrite Hv in F by (eapply locale_tree_entry; eassumption).
        destruct (inPathContext c0 key _) as [merged c2]. cbn [fst] in F |- *. subst merged.
        destruct target as [x | x | tv tflag]; try discriminate.
        cbn [record_value isMissingRecordTypeDescriptor] in *.
        now rewrite (JsObject_set_same key _ tv Eg).
      - unfold merge_visit. unfold JsObject.lookup. rewrite Eg.
        destruct (JsObject.inherited key); [reflexivity |].
        now rewrite (proj1 (locale_tree_not_missing target Hl)). }
    destruct (merge_visit env name key value _ target c0) as [t c']. cbn [fst] in Hvisit.
    subst t. apply IHrest. }
  specialize (G c1).
  destruct (merge_loop env name (JsObject.entries sv) target c1) as [t c2].
  cbn [fst] in *. subst t. apply (locale_tree_not_missing target Hl).
Qed.

Lemma fold_keeps_target nodes : forall target c,
  locale_tree target = true -> fst (fold env nodes target c) = target.
Proof.
  unfold fold. induction nodes as [| node rest IH]; intros target c Hl; [reflexivity |].
  cbn [fold_left fst snd].
  pose proof (merge_keeps_target (NamedValue.value node) target (NamedValue.name node) c Hl)
    as G.
  destruct (merge env target (NamedValue.value node) (NamedValue.name node) c) as [t c'].
  cbn [fst] in G. subst t. now apply IH.
Qed.
End Fixed.

(** X4.  Where no top-level key of the first locale's tree is the name of a
    member of [Object.prototype] (the accumulator adopts no such key,
    gen.ts line 94), the canonical schema of a run is the tree of the first
    locale, as it was built: no later locale adds a key to it, removes one
    or changes a descriptor. *)
Theorem canonical_is_first_tree {number : Type} (env : Collaborators number)
    files node nodes c :
  build env files fresh_context = (Normal (node :: nodes), c) ->
  plain_keys (record_value (NamedValue.value node)) = true ->
  canonical env files = Some (NamedValue.value node).
Proof.
  intros Hbuild Hplain. unfold canonical. rewrite Hbuild. f_equal.
  unfold unify, fold. cbn [fold_left fst snd].
  assert (Hfirst : exists file rest c1,
             files = file :: rest /\
             toTypeNode env (NamedValue.value file) fresh_context
               = (Normal (NamedValue.value node), c1)).
  { destruct files as [| file rest]; [discriminate |]. cbn [build] in Hbuild.
    destruct (toTypeNode env (NamedValue.value file) fresh_context) as [[t | e] c1] eqn:E;
      [| discriminate].
    destruct (build env rest c1) as [[ns | e] c2]; [| discriminate].
    injection Hbuild as <- _ _. exists file, rest, c1. auto. }
  destruct Hfirst as [file [rest [c1 [_ Htree]]]].
  destruct (built_tree_is_well_formed_core env _ _ _ _ Htree) as [Hk [Hl Hord]].
  destruct (NamedValue.value node) as [x | x | value flag] eqn:Ev; try discriminate.
  destruct (locale_tree_record _ _ Hl) as [-> _].
  rewrite (merge_first_ordered env value false (NamedValue.name node) c Hord Hplain).
  cbn [fst snd]. fold (fold env nodes (RecordTypeDescriptor value false) c).
  pose proof (fold_keeps_target env nodes (RecordTypeDescriptor value false) c Hl) as G.
  destruct (fold env nodes (RecordTypeDescriptor value false) c) as [t c']. exact G.
Qed.

Lemma canonical_is_first_tree_witness :
  canonical Sample.collaborators
    [Sample.locale "en" [("title", YString "Hello")];
     Sample.locale "fr" [("titre", YString "Bonjour"); ("title", YArray [])]]
  = Some (RecordTypeDescriptor [("title", StringTypeDescriptor "Hello")] false).
Proof.
  refine (canonical_is_first_tree Sample.collaborators
            [Sample.locale "en" [("title", YString "Hello")];
             Sample.locale "fr" [("titre", YString "Bonjour"); ("title", YArray [])]]
            (named "en" (RecordTypeDescriptor [("title", StringTypeDescriptor "Hello")] false))
            [named "fr" (RecordTypeDescriptor
                           [("titre", StringTypeDescriptor "Bonjour");
                            ("title", RecordTypeDescriptor [] false)] false)]
            fresh_context _ _).
  - vm_compute. reflexivity.
  - reflexivity.
Defined.

(** ** When a merge records nothing *)

Section Agreement.
Context {number : Type} (env : Collaborators number).

Lemma same_shape_record target value flag :
  same_shape target (RecordTypeDescriptor value flag) =
    isRecordType target
    && forallb (fun entry => JsObject.has (fst entry) value) (record_value target)
    && forallb
         (fun entry =>
            match JsObject.get (fst entry) (record_value target) with
            | Some other => same_shape other (snd entry)
            | None => false
            end) value.
Proof. reflexivity. Qed.

Lemma same_shape_kind target source :
  same_shape target source = true -> kind target = kind source.
Proof.
  destruct source as [x | x | value flag]; destruct target as [y | y | tv tflag];
    simpl; intros H; try discriminate; reflexivity.
Qed.

Lemma clean_extends a b : extends a b -> clean b -> clean a.
Proof.
  intros E [He Hm]. split.
  - destruct (errors a) as [| msg l] eqn:Ea; [reflexivity |].
    assert (H : In msg (errors b)) by (apply (extends_errors _ _ E); rewrite Ea; now left).
    rewrite He in H. contradiction.
  - destruct (missing a) as [| [p e] l] eqn:Ea; [reflexivity |].
    destruct (extends_missing _ _ E p e) as [e' [H _]].
    + rewrite Ea. simpl. now rewrite String.eqb_refl.
    + rewrite Hm in H. discriminate.
Qed.

Lemma add_error_not_clean msg c : ~ clean (add_error msg c).
Proof. intros [H _]. simpl in H. now apply JsSet_add_not_empty in H. Qed.

Lemma note_missing_not_clean path name c : ~ clean (note_missing path name c).
Proof.
  intros [_ H]. unfold note_missing in H. simpl in H.
  destruct (JsMap.get path (missing c)); now apply JsMap_set_not_empty in H.
Qed.

Lemma note_exists_not_clean path name c : ~ clean (note_exists path name c).
Proof.
  intros [_ H]. unfold note_exists in H. simpl in H.
  destruct (JsMap.get path (missing c)); now apply JsMap_set_not_empty in H.
Qed.

Lemma merge_visit_keeps_target name key value target c :
  locale_tree target = true ->
  fst (merge_visit env name key value (fun t x => merge env t value name x) target c)
  = target.
Proof.
  intros Hl.
  destruct (JsObject.get key (record_value target)) as [tk |] eqn:Eg.
  - destruct (kind tk) eqn:Ek;
      try (apply (merge_visit_leaf env name key value _ target c tk Eg); left; congruence).
    destruct (kind value) eqn:Ev;
      try (apply (merge_visit_leaf env name key value _ target c tk Eg); right; congruence).
    unfold merge_visit, JsObject.lookup. rewrite Eg.
    destruct tk as [x | x | tkv tkf], value as [y | y | vv vf]; try discriminate.
    cbn [isStringType isCallType isRecordType kind kind_eqb andb].
    pose proof (inPathContext_fst c key
                  (fun x => merge env (RecordTypeDescriptor tkv tkf)
                              (RecordTypeDescriptor vv vf) name x)) as F.
    rewrite merge_keeps_target in F by (eapply locale_tree_entry; eassumption).
    destruct (inPathContext c key _) as [merged c2]. cbn [fst] in F |- *. subst merged.
    destruct target as [x | x | tv tflag]; try discriminate.
    cbn [record_value isMissingRecordTypeDescriptor] in *.
    now rewrite (JsObject_set_same key _ tv Eg).
  - unfold merge_visit. unfold JsObject.lookup. rewrite Eg.
    destruct (JsObject.inherited key); [reflexivity |].
    now rewrite (proj1 (locale_tree_not_missing target Hl)).
Qed.

(** Completeness: a source that agrees with the accumulator leaves the
    accumulator and the context exactly as they were. *)
Lemma merge_same_shape source : forall target name c,
  locale_tree target = true -> same_shape target source = true ->
  merge env target source name c = (target, c).
Proof.
  induction source as [x | x | sv sflag IH] using TypeDescriptor_tree_ind;
    intros target name c Hl Hs; try reflexivity.
  rewrite same_shape_record in Hs.
  apply andb_true_iff in Hs as [Hs Hsource]. apply andb_true_iff in Hs as [Hrec Htarget].
  destruct target as [x | x | tv tflag]; try discriminate.
  destruct (locale_tree_record _ _ Hl) as [-> [Hnd Htrees]].
  cbn [record_value] in *. rewrite forallb_forall in Htarget, Hsource.
  set (T := RecordTypeDescriptor tv false) in *.
  rewrite merge_unfold. cbv zeta. change (record_value T) with tv.
  assert (P1 : forall es c0, incl es tv -> fold_left (merge_check env sv name) es c0 = c0).
  { induction es as [| [k tval] es IHes]; intros c0 Hincl; [reflexivity |].
    cbn [fold_left].
    assert (Hin : In (k, tval) tv) by (apply Hincl; now left).
    specialize (Htarget _ Hin). cbn [fst] in Htarget. unfold JsObject.has in Htarget.
    destruct (JsObject.get k sv) as [sval |] eqn:Es; [| discriminate].
    specialize (Hsource _ (JsObject_get_In _ _ _ Es)). cbn [fst snd] in Hsource.
    rewrite (JsObject_In_get k tval tv Hnd Hin) in Hsource.
    apply same_shape_kind in Hsource.
    unfold merge_check at 2; unfold JsObject.lookup. rewrite Es.
    rewrite (proj2 (kind_eqb_eq _ _) (eq_sym Hsource)). cbn [negb].
    apply IHes. intros x Hx. apply Hincl. now right. }
  rewrite (P1 (JsObject.entries tv) c (incl_refl _)).
  assert (P2 : forall es c0, incl es sv -> merge_loop env name es T c0 = (T, c0)).
  { induction es as [| [k sval] es IHes]; intros c0 Hincl; [reflexivity |].
    rewrite merge_loop_cons.
    assert (Hin : In (k, sval) sv) by (apply Hincl; now left).
    assert (Hvisit : merge_visit env name k sval (fun t x => merge env t sval name x) T c0
                     = (T, c0)).
    { pose proof (Hsource _ Hin) as Hk. cbn [fst snd] in Hk.
      destruct (JsObject.get k tv) as [o |] eqn:Eo; [| discriminate].
      unfold merge_visit, JsObject.lookup. change (record_value T) with tv. rewrite Eo.
      destruct sval as [y | sb | vv vf]; destruct o as [x | tb | tkv tkf];
        try discriminate; cbn [isStringType isCallType isRecordType kind kind_eqb andb].
      - reflexivity.
      - cbn [same_shape] in Hk. unfold arrayEq. rewrite Hk. reflexivity.
      - unfold inPathContext.
        rewrite Forall_forall in IH. rewrite (IH (k, RecordTypeDescriptor vv vf) Hin).
        + cbn [errors paths missing]. rewrite context_eta.
          cbn [T isMissingRecordTypeDescriptor].
          now rewrite (JsObject_set_same k _ tv Eo).
        + apply (Htrees k). now apply JsObject_get_In.
        + exact Hk. }
    rewrite Hvisit. apply IHes. intros x Hx. apply Hincl. now right. }
  rewrite (P2 (JsObject.entries sv) c (incl_refl _)). reflexivity.
Qed.

Lemma merge_checks_clean sv name es : forall c,
  clean (fold_left (merge_check env sv name) es c) ->
  forall k tval, In (k, tval) es ->
    exists sval, JsObject.get k sv = Some sval /\ kind sval = kind tval.
Proof.
  induction es as [| [k0 t0] es IH]; intros c Hclean k tval Hin; [contradiction |].
  cbn [fold_left] in Hclean.
  destruct Hin as [[= <- <-] | Hin]; [| eapply IH; eassumption].
  pose proof (clean_extends _ _ (merge_checks_extends env sv name es _) Hclean) as H1.
  unfold merge_check, JsObject.lookup in H1.
  destruct (JsObject.get k0 sv) as [sval |];
    [| destruct (JsObject.inherited k0);
       [now apply add_error_not_clean in H1 | now apply note_missing_not_clean in H1]].
  exists sval. split; [reflexivity |].
  destruct (kind_eqb (kind sval) (kind t0)) eqn:E; [now apply kind_eqb_eq |].
  cbn [negb] in H1. now apply add_error_not_clean in H1.
Qed.

(** Soundness: two records merged without a trace agree. *)
Lemma merge_clean_same_shape source : forall target name c,
  locale_tree target = true -> kind target = KRecord -> kind source = KRecord ->
  clean (snd (merge env target source name c)) ->
  same_shape target source = true.
Proof.
  induction source as [x | x | sv sflag IH] using TypeDescriptor_tree_ind;
    intros target name c Hl Hkt Hks Hclean; try discriminate.
  destruct target as [x | x | tv tflag]; try discriminate.
  destruct (locale_tree_record _ _ Hl) as [-> [Hnd Htrees]].
  set (T := RecordTypeDescriptor tv false) in *.
  rewrite merge_unfold in Hclean. cbv zeta in Hclean. change (record_value T) with tv in Hclean.
  set (c1 := fold_left (merge_check env sv name) (JsObject.entries tv) c) in *.
  assert (Hloop : clean (snd (merge_loop env name (JsObject.entries sv) T c1)))
    by (destruct (merge_loop env name (JsObject.entries sv) T c1); exact Hclean).
  clear Hclean.
  assert (Hc1 : clean c1)
    by (eapply clean_extends; [apply (merge_loop_extends env) | exact Hloop]).
  pose proof (merge_checks_clean sv name (JsObject.entries tv) c Hc1) as Hphase1.
  assert (P2 : forall es c0, incl es sv ->
             clean (snd (merge_loop env name es T c0)) ->
             forall k sval, In (k, sval) es ->
               exists o, JsObject.get k tv = Some o /\ same_shape o sval = true).
  { induction es as [| [k0 s0] es IHes]; intros c0 Hincl Hcl k sval Hin; [contradiction |].
    rewrite merge_loop_cons in Hcl.
    pose proof (merge_visit_keeps_target name k0 s0 T c0 Hl) as Hkeep.
    pose proof (merge_visit_extends env name k0 s0 (fun t x => merge env t s0 name x) T c0
                  (fun t x => merge_extends env s0 t name x)) as Hext.
    destruct (merge_visit env name k0 s0 (fun t x => merge env t s0 name x) T c0)
      as [t cv] eqn:Ev.
    cbn [fst snd] in Hkeep, Hext. subst t.
    assert (Hincl' : incl es sv) by (intros x Hx; apply Hincl; now right).
    destruct Hin as [[= <- <-] | Hin]; [| eapply IHes; eassumption].
    assert (Hcv : clean cv)
      by (eapply clean_extends; [apply (merge_loop_extends env) | exact Hcl]).
    assert (Hc0 : clean c0) by (eapply clean_extends; eassumption).
    assert (Hin0 : In (k0, s0) sv) by (apply Hincl; now left).
    unfold merge_visit, JsObject.lookup in Ev. change (record_value T) with tv in Ev.
    destruct (JsObject.get k0 tv) as [o |] eqn:Eo.
    - exists o. split; [reflexivity |].
      destruct s0 as [y | sb | vv vf]; destruct o as [x | tb | tkv tkf];
        cbn [isStringType isCallType isRecordType kind kind_eqb andb] in Ev;
        try (apply (f_equal snd) in Ev; cbn [snd] in Ev; subst cv; now apply add_error_not_clean in Hcv);
        try reflexivity.
      + cbn [same_shape].
        destruct (arrayEq (filter isParamArgType tb) (filter isParamArgType sb) arg_name)
          eqn:Ea; [exact Ea |].
        cbn [negb] in Ev. apply (f_equal snd) in Ev; cbn [snd] in Ev; subst cv. now apply add_error_not_clean in Hcv.
      + pose proof (inPathContext_fst_snd c0 k0
                      (fun x => merge env (RecordTypeDescriptor tkv tkf)
                                  (RecordTypeDescriptor vv vf) name x)) as [Fe [Fm _]].
        destruct (inPathContext c0 k0 _) as [merged c2]. apply (f_equal snd) in Ev; cbn [snd] in Ev; subst cv.
        cbn [snd] in Fe, Fm.
        rewrite Forall_forall in IH.
        apply (IH (k0, RecordTypeDescriptor vv vf) Hin0 (RecordTypeDescriptor tkv tkf) name
                 {| errors := errors c0; paths := paths c0 ++ [k0]; missing := missing c0 |}).
        * apply (Htrees k0). now apply JsObject_get_In.
        * reflexivity.
        * reflexivity.
        * destruct Hcv as [He Hm].
          split; [exact (eq_trans (eq_sym Fe) He) | exact (eq_trans (eq_sym Fm) Hm)].
    - destruct (JsObject.inherited k0);
        cbn [T isMissingRecordTypeDescriptor] in Ev;
        apply (f_equal snd) in Ev; cbn [snd] in Ev; subst cv;
        [now apply add_error_not_clean in Hcv | now apply note_exists_not_clean in Hcv]. }
  rewrite same_shape_record. cbn [isRecordType kind kind_eqb andb record_value].
  apply andb_true_iff.
  split; apply forallb_forall; intros [k v] Hin; cbn [fst snd];
    change (record_value T) with tv in *.
  - destruct (Hphase1 k v Hin) as [sval [Hs _]]. unfold JsObject.has. now rewrite Hs.
  - destruct (P2 (JsObject.entries sv) c1 (incl_refl _) Hloop k v Hin) as [o [-> Ho]].
    exact Ho.
Qed.
End Agreement.

(** X5.  Merging a record into a well-formed record from a context that
    holds nothing records nothing exactly when the two trees agree: the same
    keys, the same kind under every key, the same parameter names for two
    calls, at every depth. *)
Theorem merge_records_nothing_iff_same_shape {number : Type} (env : Collaborators number)
    target source name c :
  locale_tree target = true -> kind target = KRecord -> kind source = KRecord ->
  clean c ->
  (clean (snd (merge env target source name c)) <-> same_shape target source = true).
Proof.
  intros Hl Hkt Hks Hc. split.
  - now apply merge_clean_same_shape.
  - intros Hs. now rewrite (merge_same_shape env source target name c Hl Hs).
Qed.

Lemma merge_records_nothing_iff_same_shape_witness :
  clean (snd (merge Sample.collaborators
                (RecordTypeDescriptor
                   [("title", StringTypeDescriptor "Hello");
                    ("count", CallTypeDescriptor [Param "n"; Literal " items"])] false)
                (RecordTypeDescriptor
                   [("count", CallTypeDescriptor [Param "n"; Literal " choses"]);
                    ("title", StringTypeDescriptor "Bonjour")] false)
                "fr" fresh_context))
  <-> same_shape
        (RecordTypeDescriptor
           [("title", StringTypeDescriptor "Hello");
            ("count", CallTypeDescriptor [Param "n"; Literal " items"])] false)
        (RecordTypeDescriptor
           [("count", CallTypeDescriptor [Param "n"; Literal " choses"]);
            ("title", StringTypeDescriptor "Bonjour")] false) = true.
Proof.
  apply (merge_records_nothing_iff_same_shape Sample.collaborators).
  - reflexivity.
  - reflexivity.
  - reflexivity.
  - split; reflexivity.
Defined.

(** ** When a run succeeds *)

Section Acceptance.
Context {number : Type} (env : Collaborators number).

Lemma build_head files c node nodes c' :
  build env files c = (Normal (node :: nodes), c') ->
  exists value,
    NamedValue.value node = RecordTypeDescriptor value false /\
    JsObject.ordered value = true /\
    locale_tree (RecordTypeDescriptor value false) = true.
Proof.
  intros Hbuild.
  destruct files as [| file rest]; [discriminate |]. cbn [build] in Hbuild.
  destruct (toTypeNode env (NamedValue.value file) c) as [[t | e] c1] eqn:E;
    [| discriminate].
  destruct (build env rest c1) as [[ns | e] c2]; [| discriminate].
  injection Hbuild as <- _ _.
  destruct (built_tree_is_well_formed_core env _ _ _ _ E) as [Hk [Hl Hord]].
  cbn [NamedValue.value] in *.
  destruct t as [x | x | value flag]; try discriminate.
  destruct (locale_tree_record _ _ Hl) as [-> _].
  exists value. auto.
Qed.

Lemma report_missing_clean names c :
  errors (report_missing env names c) = [] <-> clean c.
Proof.
  unfold report_missing. split.
  - intros H. split.
    + destruct (errors c) as [| msg l] eqn:Ec; [reflexivity |].
      assert (G : In msg (errors (fold_left
                   (fun ctx item => add_error (missing_message env names item) ctx)
                   (missing c) c)))
        by (apply report_errors_In; left; rewrite Ec; now left).
      rewrite H in G. contradiction.
    + destruct (missing c) as [| item l] eqn:Em; [reflexivity |].
      assert (G : In (missing_message env names item)
                    (errors (fold_left
                       (fun ctx item => add_error (missing_message env names item) ctx)
                       (item :: l) c)))
        by (apply report_errors_In; right; exists item; split; [now left | reflexivity]).
      rewrite H in G. contradiction.
  - intros [He Hm]. rewrite Hm. exact He.
Qed.

Lemma fold_clean nodes : forall target c,
  locale_tree target = true -> kind target = KRecord ->
  Forall (fun node => kind (NamedValue.value node) = KRecord) nodes ->
  (clean (snd (fold env nodes target c)) <->
   clean c /\ Forall (fun node => same_shape target (NamedValue.value node) = true) nodes).
Proof.
  induction nodes as [| node rest IH]; intros target c Hl Hk Hall.
  - unfold fold. cbn [fold_left snd]. split; [intros H; split; [exact H | constructor] | tauto].
  - apply Forall_cons_iff in Hall as [Hnode Hall].
    assert (Hstep : fold env (node :: rest) target c =
                    fold env rest
                      (fst (merge env target (NamedValue.value node) (NamedValue.name node) c))
                      (snd (merge env target (NamedValue.value node) (NamedValue.name node) c))).
    { unfold fold. cbn [fold_left fst snd].
      now destruct (merge env target (NamedValue.value node) (NamedValue.name node) c). }
    rewrite Hstep, (merge_keeps_target env _ target _ c Hl).
    rewrite (IH target _ Hl Hk Hall). split.
    + intros [Hc1 Hrest].
      assert (Hc : clean c) by (eapply clean_extends; [apply (merge_extends env) | exact Hc1]).
      split; [exact Hc |]. constructor; [| exact Hrest].
      eapply merge_clean_same_shape; eauto.
    + intros [Hc Hsame]. apply Forall_cons_iff in Hsame as [Hs Hrest].
      rewrite (merge_same_shape env _ target _ c Hl Hs). auto.
Qed.

(** The fold of a run: the first locale seeds the accumulator, unless one
    of its top-level keys is the name of a member of [Object.prototype], and
    every later locale has to agree with it. *)
Lemma fold_first_clean node nodes value c0 :
  NamedValue.value node = RecordTypeDescriptor value false ->
  JsObject.ordered value = true ->
  locale_tree (RecordTypeDescriptor value false) = true ->
  Forall (fun other => kind (NamedValue.value other) = KRecord) nodes ->
  (clean (snd (fold env (node :: nodes) createMissingRecordTypeDescriptor c0)) <->
   clean c0 /\ plain_keys value = true /\
   Forall (fun other => same_shape (RecordTypeDescriptor value false)
                          (NamedValue.value other) = true) nodes).
Proof.
  intros Ev Hord Hl Hall.
  assert (Hstep : fold env (node :: nodes) createMissingRecordTypeDescriptor c0 =
                  fold env nodes
                    (fst (merge env createMissingRecordTypeDescriptor
                            (RecordTypeDescriptor value false) (NamedValue.name node) c0))
                    (snd (merge env createMissingRecordTypeDescriptor
                            (RecordTypeDescriptor value false) (NamedValue.name node) c0))).
  { unfold fold. cbn [fold_left fst snd]. rewrite Ev.
    now destruct (merge env createMissingRecordTypeDescriptor
                    (RecordTypeDescriptor value false) (NamedValue.name node) c0). }
  rewrite Hstep. destruct (plain_keys value) eqn:Hplain.
  - rewrite (merge_first_ordered env value false (NamedValue.name node) c0 Hord Hplain).
    cbn [fst snd].
    rewrite (fold_clean nodes (RecordTypeDescriptor value false) c0 Hl eq_refl Hall).
    tauto.
  - destruct (merge_first_inherited env value false (NamedValue.name node) c0 Hplain)
      as [Herr _].
    split; [| intros [_ [H _]]; discriminate].
    intros Hclean. exfalso. apply Herr.
    exact (proj1 (clean_extends _ _ (fold_extends env nodes _ _) Hclean)).
Qed.

Lemma gen_normal_iff files target lazy defaultLanguage nodes c0 :
  build env files fresh_context = (Normal nodes, c0) ->
  (exists out, gen env files target lazy defaultLanguage = Normal out) <->
  clean (snd (fold env nodes createMissingRecordTypeDescriptor c0)).
Proof.
  intros Hbuild. rewrite <- (report_missing_clean (JsSet.of_list (map NamedValue.name files))).
  rewrite <- unify_context.
  unfold gen. rewrite Hbuild.
  destruct (unify env (JsSet.of_list (map NamedValue.name files)) nodes c0) as [merged cu].
  cbn [snd]. destruct (errors cu) as [| msg l]; cbn [JsSet.size List.length Nat.eqb negb].
  - split; [reflexivity | eauto].
  - split; [intros [out H]; discriminate | discriminate].
Qed.
End Acceptance.

(** X6.  When every locale is built, none of them with an entry under
    [__proto__], the run returns code exactly when building recorded no
    diagnostic, no top-level key of the first locale's tree is the name of a
    member of [Object.prototype] ([constructor], [toString], ...: the
    accumulator adopts no such key, gen.ts line 94), and every later locale
    agrees with the first one: the same keys, kinds and parameter names at
    every depth.  Otherwise it throws. *)
Theorem gen_succeeds_iff_locales_agree {number : Type} (env : Collaborators number)
    files target lazy defaultLanguage node nodes c0 :
  Forall (fun file => proto_free (NamedValue.value file) = true) files ->
  build env files fresh_context = (Normal (node :: nodes), c0) ->
  (exists out, gen env files target lazy defaultLanguage = Normal out) <->
  errors c0 = [] /\
  plain_keys (record_value (NamedValue.value node)) = true /\
  Forall (fun other => same_shape (NamedValue.value node) (NamedValue.value other) = true)
    nodes.
Proof.
  intros _ Hbuild.
  rewrite (gen_normal_iff env files target lazy defaultLanguage _ _ Hbuild).
  destruct (build_head env _ _ _ _ _ Hbuild) as [value [Ev [Hord Hl]]].
  destruct (build_ok env _ _ _ _ Hbuild) as [_ [Hall [Hm _]]].
  apply Forall_cons_iff in Hall as [_ Hall].
  rewrite (fold_first_clean env node nodes value c0 Ev Hord Hl).
  - rewrite Ev. cbn [record_value].
    unfold clean. rewrite Hm. cbn [fresh_context missing JsMap.empty]. tauto.
  - eapply Forall_impl; [| exact Hall]. now intros n [H _].
Qed.

Lemma gen_succeeds_iff_locales_agree_witness :
  exists out,
    Sample.gen [Sample.locale "en" [("title", YString "Hello"); ("count", YString "{n} items")];
                Sample.locale "fr" [("count", YString "{n} choses");
                                    ("title", YString "Bonjour")]]
      None true None = Normal out.
Proof.
  refine (proj2 (gen_succeeds_iff_locales_agree Sample.collaborators
                   [Sample.locale "en" [("title", YString "Hello");
                                        ("count", YString "{n} items")];
                    Sample.locale "fr" [("count", YString "{n} choses");
                                        ("title", YString "Bonjour")]]
                   None true None
                   (named "en" (RecordTypeDescriptor
                                  [("title", StringTypeDescriptor "Hello");
                                   ("count", CallTypeDescriptor [Param "n"; Literal " items"])]
                                  false))
                   [named "fr" (RecordTypeDescriptor
                                  [("count", CallTypeDescriptor [Param "n"; Literal " choses"]);
                                   ("title", StringTypeDescriptor "Bonjour")]
                                  false)]
                   fresh_context _ _) _).
  - repeat constructor.
  - vm_compute. reflexivity.
  - split; [reflexivity | split; [reflexivity | repeat constructor]].
Defined.

(** ** Booleans *)

Section Booleans.
Context {number : Type} (env : Collaborators number).

Lemma toTypeNode_items_extends items : forall i record c,
  extends c (snd (toTypeNode_items env i items record c)).
Proof.
  induction items as [| value rest IH]; intros i record c; cbn [toTypeNode_items];
    [apply extends_refl |].
  pose proof (toTypeNode_entry_extends env (decimal i) value (toTypeNode env value)
                record c (toTypeNode_extends env value)) as E.
  destruct (toTypeNode_entry env (decimal i) value (toTypeNode env value) record c)
    as [[r | e] c1]; [| exact E].
  eapply extends_trans; [exact E | apply IH].
Qed.

Lemma toTypeNode_loop_extends entries : forall record c,
  extends c (snd (toTypeNode_loop env entries record c)).
Proof.
  induction entries as [| [key value] rest IH]; intros record c; cbn [toTypeNode_loop];
    [apply extends_refl |].
  pose proof (toTypeNode_entry_extends env key value (toTypeNode env value)
                record c (toTypeNode_extends env value)) as E.
  destruct (toTypeNode_entry env key value (toTypeNode env value) record c)
    as [[r | e] c1]; [| exact E].
  eapply extends_trans; [exact E | apply IH].
Qed.

Lemma toTypeNode_entry_rejects key value record c r c' :
  rejects env value ->
  toTypeNode_entry env key value (toTypeNode env value) record c = (Normal r, c') ->
  (forall b, value = YBoolean b -> In (unexpected_value env key (YBoolean b)) (errors c')) /\
  (forall k b, Rejected k b value -> In (unexpected_value env k (YBoolean b)) (errors c')).
Proof.
  intros IH. unfold toTypeNode_entry.
  destruct value as [n | s | b0 | | items | entries]; cbn [typeof].
  - intros _. split; [discriminate | intros k b H; inversion H].
  - intros _. split; [discriminate | intros k b H; inversion H].
  - intros [= _ <-]. split; [| intros k b H; inversion H].
    intros b [= <-]. apply add_error_In.
  - intros _. split; [discriminate | intros k b H; inversion H].
  - unfold inPathContext.
    destruct (toTypeNode env (YArray items) _) as [[t | e] c1] eqn:E; [| discriminate].
    intros [= _ <-]. split; [discriminate |]. intros k b H. cbn [errors].
    exact (IH _ _ _ E k b H).
  - unfold inPathContext.
    destruct (toTypeNode env (YObject entries) _) as [[t | e] c1] eqn:E; [| discriminate].
    intros [= _ <-]. split; [discriminate |]. intros k b H. cbn [errors].
    exact (IH _ _ _ E k b H).
Qed.

Lemma toTypeNode_loop_rejects entries :
  Forall (fun entry => rejects env (snd entry)) entries ->
  forall record c r c',
    toTypeNode_loop env entries record c = (Normal r, c') ->
    forall k v, In (k, v) entries ->
      (forall b, v = YBoolean b -> In (unexpected_value env k (YBoolean b)) (errors c')) /\
      (forall k' b, Rejected k' b v -> In (unexpected_value env k' (YBoolean b)) (errors c')).
Proof.
  induction 1 as [| [key value] rest Hv _ IH]; intros record c r c' Hloop k v Hin;
    [contradiction |].
  cbn [toTypeNode_loop] in Hloop. cbn [snd] in Hv.
  destruct (toTypeNode_entry env key value (toTypeNode env value) record c)
    as [[r1 | e] c1] eqn:E; [| discriminate].
  destruct Hin as [[= <- <-] | Hin]; [| eapply IH; eassumption].
  pose proof (toTypeNode_loop_extends rest r1 c1) as Hext. rewrite Hloop in Hext.
  cbn [snd] in Hext.
  destruct (toTypeNode_entry_rejects _ _ _ _ _ _ Hv E) as [H1 H2].
  split; intros; apply (extends_errors _ _ Hext); eauto.
Qed.

Lemma toTypeNode_items_rejects items :
  Forall (rejects env) items ->
  forall i record c r c',
    toTypeNode_items env i items record c = (Normal r, c') ->
    forall j v, nth_error items j = Some v ->
      (forall b, v = YBoolean b ->
                 In (unexpected_value env (decimal (i + j)) (YBoolean b)) (errors c')) /\
      (forall k' b, Rejected k' b v -> In (unexpected_value env k' (YBoolean b)) (errors c')).
Proof.
  induction 1 as [| value rest Hv _ IH]; intros i record c r c' Hloop j v Hj;
    [destruct j; discriminate |].
  cbn [toTypeNode_items] in Hloop.
  destruct (toTypeNode_entry env (decimal i) value (toTypeNode env value) record c)
    as [[r1 | e] c1] eqn:E; [| discriminate].
  destruct j as [| j]; cbn [nth_error] in Hj.
  - injection Hj as <-. rewrite Nat.add_0_r.
    pose proof (toTypeNode_items_extends rest (S i) r1 c1) as Hext. rewrite Hloop in Hext.
    cbn [snd] in Hext.
    destruct (toTypeNode_entry_rejects _ _ _ _ _ _ Hv E) as [H1 H2].
    split; intros; apply (extends_errors _ _ Hext); eauto.
  - replace (i + S j) with (S i + j) by lia. eapply IH; eassumption.
Qed.

Lemma toTypeNode_rejects (v : YamlValue number) : rejects env v.
Proof.
  induction v as [n | s | b0 | | items IH | entries IH] using YamlValue_tree_ind;
    intros c t c' Hbuild key b Hrej; try (inversion Hrej; fail).
  - rewrite toTypeNode_array in Hbuild.
    destruct (toTypeNode_items env 0 items JsObject.empty c) as [[r | e] c1] eqn:E;
      [| discriminate].
    injection Hbuild as _ <-.
    pose proof (toTypeNode_items_rejects items IH 0 _ _ _ _ E) as G.
    inversion Hrej as [| items' i b' Hnth | | items' inner key' b' Hin Hinner]; subst.
    + exact (proj1 (G i _ Hnth) b eq_refl).
    + destruct (In_nth_error _ _ Hin) as [j Hj]. exact (proj2 (G j _ Hj) key b Hinner).
  - rewrite toTypeNode_object in Hbuild.
    destruct (toTypeNode_loop env entries JsObject.empty c) as [[r | e] c1] eqn:E;
      [| discriminate].
    injection Hbuild as _ <-.
    pose proof (toTypeNode_loop_rejects entries IH _ _ _ _ E) as G.
    inversion Hrej as [entries' key' b' Hin | | entries' k inner key' b' Hin Hinner |]; subst.
    + exact (proj1 (G key _ Hin) b eq_refl).
    + exact (proj2 (G k _ Hin) key b Hinner).
Qed.

Lemma build_rejects files file key b : forall c nodes c',
  build env files c = (Normal nodes, c') ->
  In file files -> Rejected key b (NamedValue.value file) ->
  In (unexpected_value env key (YBoolean b)) (errors c').
Proof.
  induction files as [| f rest IH]; intros c nodes c' Hbuild Hin Hrej; [contradiction |].
  cbn [build] in Hbuild.
  destruct (toTypeNode env (NamedValue.value f) c) as [[t | e] c1] eqn:E; [| discriminate].
  pose proof (build_extends env rest c1) as Hext.
  destruct (build env rest c1) as [[ns | e] c2] eqn:Er; [| discriminate].
  injection Hbuild as _ <-. cbn [snd] in Hext.
  destruct Hin as [-> | Hin]; [| eapply IH; eassumption].
  apply (extends_errors _ _ Hext). exact (toTypeNode_rejects _ _ _ _ E key b Hrej).
Qed.
End Booleans.

(** X7.  A boolean anywhere in a locale is fatal: when every locale is
    built, a boolean under a key of a mapping or at an index of a sequence,
    at any depth, makes the run throw the composite error, and the error set
    holds the unexpected-value diagnostic of that boolean, which names the
    key or index alone, not the path to it. *)
Theorem boolean_is_fatal {number : Type} (env : Collaborators number)
    files target lazy defaultLanguage nodes c0 file key b :
  build env files fresh_context = (Normal nodes, c0) ->
  In file files -> Rejected key b (NamedValue.value file) ->
  exists errs,
    gen env files target lazy defaultLanguage = Throw (Error (composite errs)) /\
    In (unexpected_value env key (YBoolean b)) errs.
Proof.
  intros Hbuild Hin Hrej.
  exists (errors (snd (unify env (JsSet.of_list (map NamedValue.name files)) nodes c0))).
  assert (Hmsg : In (unexpected_value env key (YBoolean b))
                   (errors (snd (unify env (JsSet.of_list (map NamedValue.name files))
                                   nodes c0)))).
  { rewrite unify_context.
    apply (extends_errors _ _ (report_missing_extends env _ _)).
    apply (extends_errors _ _ (fold_extends env nodes _ c0)).
    eapply build_rejects; eassumption. }
  split; [| exact Hmsg].
  apply gen_after_build; [exact Hbuild |].
  intros Hnil. rewrite Hnil in Hmsg. contradiction.
Qed.

Lemma boolean_is_fatal_witness :
  exists errs,
    Sample.gen [Sample.locale "en" [("title", YString "Hello");
                                    ("menu", YObject [("items", YArray [YString "x";
                                                                         YBoolean true])])]]
      None false None = Throw (Error (composite errs)) /\
    In "unexpected value: [1, true]" errs.
Proof.
  set (files := [Sample.locale "en" [("title", YString "Hello");
                                     ("menu", YObject [("items", YArray [YString "x";
                                                                          YBoolean true])])]]).
  set (built := build Sample.collaborators files fresh_context).
  refine (boolean_is_fatal Sample.collaborators files None false None
            (match fst built with Normal nodes => nodes | Throw _ => [] end)
            (snd built)
            (Sample.locale "en" [("title", YString "Hello");
                                 ("menu", YObject [("items", YArray [YString "x";
                                                                      YBoolean true])])])
            "1" true _ _ _).
  - vm_compute. reflexivity.
  - left. reflexivity.
  - apply Rejected_below_entry with (k := "menu")
      (inner := YObject [("items", YArray [YString "x"; YBoolean true])]).
    + right. left. reflexivity.
    + apply Rejected_below_entry with (k := "items")
        (inner := YArray [YString "x"; YBoolean true]).
      * left. reflexivity.
      * exact (Rejected_item [YString "x"; YBoolean true] 1 true eq_refl).
Defined.

(** ** The output *)

Lemma filter_map_swap {A B : Type} (f : A -> B) (p : B -> bool) (l : list A) :
  filter p (map f l) = map f (filter (fun x => p (f x)) l).
Proof.
  induction l as [| x l IH]; [reflexivity |].
  cbn [map filter]. destruct (p (f x)); cbn [map]; now rewrite IH.
Qed.

(** X8.  What a successful run returns.  Without [lazy] it is the module
    alone.  With [lazy] it is the module and the side modules: none for
    the type target, and otherwise one for every locale whose name is not
    the default language, in the order of the input; the default language
    is the one asked for or, when none or the empty string is given, the
    name of the first locale. *)
Theorem gen_output_shape {number : Type} (env : Collaborators number)
    files target lazy defaultLanguage out :
  gen env files target lazy defaultLanguage = Normal out ->
  if lazy then
    exists code others,
      out = LazyCode code others /\
      map fst others =
        if target_eqb (match target with Some t => t | None => resource end) type then []
        else filter
               (fun name =>
                  negb (name_is (default_lang defaultLanguage (map NamedValue.name files))
                          name))
               (map NamedValue.name files)
  else exists code, out = Code code.
Proof.
  unfold gen.
  destruct (build env files fresh_context) as [[nodes | e] c0] eqn:Hbuild; [| discriminate].
  destruct (build_ok env _ _ _ _ Hbuild) as [Hnames _].
  destruct (unify env (JsSet.of_list (map NamedValue.name files)) nodes c0) as [merged cu].
  destruct (negb (Nat.eqb (JsSet.size (errors cu)) 0)); [discriminate |].
  intros [= <-]. unfold emit. destruct lazy; [| eexists; reflexivity].
  eexists. eexists. split; [reflexivity |]. cbn [andb].
  destruct (target_eqb (match target with Some t => t | None => resource end) type);
    cbn [negb]; [reflexivity |].
  rewrite map_map. cbn [fst]. rewrite <- Hnames. symmetry.
  apply (filter_map_swap (@NamedValue.name TypeDescriptor)
           (fun name =>
              negb (name_is (default_lang defaultLanguage (map NamedValue.name nodes))
                      name))).
Qed.

Lemma gen_output_shape_witness :
  exists code others,
    LazyCode "type Language = en|fr; type RootType = {title:string;}"
      [("en", "export default {title:string;}")]
    = LazyCode code others /\
    map fst others = ["en"].
Proof.
  exact (gen_output_shape Sample.collaborators
           [Sample.locale "en" [("title", YString "Hello")];
            Sample.locale "fr" [("title", YString "Bonjour")]]
           (Some provider) true (Some "fr")
           (LazyCode "type Language = en|fr; type RootType = {title:string;}"
              [("en", "export default {title:string;}")])
           eq_refl).
Defined.

(** ** The ledger of the top-level keys *)

Section Ledger.
Context {number : Type} (env : Collaborators number).

Lemma note_missing_lookup path name c p :
  JsMap.get p (missing (note_missing path name c)) =
    if String.eqb p path then Some (bump_missing name (JsMap.get path (missing c)))
    else JsMap.get p (missing c).
Proof.
  unfold note_missing, bump_missing. cbn [missing].
  destruct (JsMap.get path (missing c)); apply JsMap_get_set.
Qed.

Lemma note_exists_lookup path name c p :
  JsMap.get p (missing (note_exists path name c)) =
    if String.eqb p path then Some (bump_exist name (JsMap.get path (missing c)))
    else JsMap.get p (missing c).
Proof.
  unfold note_exists, bump_exist. cbn [missing].
  destruct (JsMap.get path (missing c)); apply JsMap_get_set.
Qed.

Lemma has_existsb {V : Type} (k : string) (o : JsObject.t V) :
  JsObject.has k o = existsb (fun entry => String.eqb k (fst entry)) o.
Proof.
  unfold JsObject.has, JsObject.get.
  induction o as [| [k' v] o IH]; [reflexivity |].
  cbn [JsMap.get existsb fst]. destruct (String.eqb k k'); [reflexivity | exact IH].
Qed.

Lemma existsb_key_false {V : Type} (k : string) (es : list (string * V)) :
  ~ In k (map fst es) -> existsb (fun entry => String.eqb k (fst entry)) es = false.
Proof.
  intros H. destruct (existsb _ es) eqn:E; [| reflexivity].
  apply existsb_exists in E as [[k' v] [Hin Hk]]. apply String.eqb_eq in Hk.
  cbn [fst] in Hk. subst k'. elim H. apply in_map_iff. now exists (k, v).
Qed.

(** The first loop of [merge] on the ledger entry of one key. *)
Lemma merge_checks_lookup mv name k es : forall c,
  NoDup (map fst es) ->
  JsObject.inherited k = false ->
  JsMap.get (path_of env c k) (missing (fold_left (merge_check env mv name) es c)) =
    if existsb (fun entry => String.eqb k (fst entry)) es && negb (JsObject.has k mv)
    then Some (bump_missing name (JsMap.get (path_of env c k) (missing c)))
    else JsMap.get (path_of env c k) (missing c).
Proof.
  induction es as [| [k' tval] es IH]; intros c Hnd Hk; [reflexivity |].
  cbn [fold_left existsb fst]. cbn [map fst] in Hnd. inversion Hnd as [| ? ? Hnotin Hnd']; subst.
  set (c1 := merge_check env mv name c (k', tval)).
  assert (Hp : paths c1 = paths c)
    by apply (extends_paths _ _ (merge_check_extends env mv name c (k', tval))).
  rewrite <- (path_of_paths env c c1 k Hp). rewrite (IH c1 Hnd' Hk).
  rewrite (path_of_paths env c c1 k Hp).
  destruct (String.eqb_spec k k') as [<- | Hne].
  - rewrite (existsb_key_false k es Hnotin). cbn [andb orb].
    subst c1. unfold merge_check, JsObject.lookup, JsObject.has.
    destruct (JsObject.get k mv) as [sval |]; cbn [negb].
    + destruct (negb (kind_eqb (kind sval) (kind tval))); reflexivity.
    + rewrite Hk, note_missing_lookup. now rewrite String.eqb_refl.
  - cbn [orb].
    assert (Hsame : JsMap.get (path_of env c k) (missing c1)
                    = JsMap.get (path_of env c k) (missing c)).
    { subst c1. unfold merge_check, JsObject.lookup.
      destruct (JsObject.get k' mv) as [sval |].
      - destruct (negb (kind_eqb (kind sval) (kind tval))); reflexivity.
      - destruct (JsObject.inherited k'); [reflexivity |].
        rewrite note_missing_lookup.
        now rewrite (path_of_differs env c c k k' eq_refl Hne). }
    now rewrite Hsame.
Qed.

(** One visit of the second loop on the ledger, when the nested
    dictionaries that both sides have agree. *)
Lemma merge_visit_ledger name key value target c :
  locale_tree target = true ->
  (forall other, JsObject.get key (record_value target) = Some other ->
                 kind other = KRecord -> kind value = KRecord ->
                 same_shape other value = true) ->
  missing (snd (merge_visit env name key value (fun t x => merge env t value name x)
                  target c)) =
    match JsObject.lookup key (record_value target) with
    | JsObject.Absent => missing (note_exists (path_of env c key) name c)
    | _ => missing c
    end.
Proof.
  intros Hl Hagree. unfold merge_visit, JsObject.lookup.
  destruct (JsObject.get key (record_value target)) as [other |] eqn:Eg.
  - specialize (Hagree other eq_refl).
    destruct other as [x | tb | tkv tkf]; destruct value as [y | sb | vv vf];
      cbn [isStringType isCallType isRecordType kind kind_eqb andb snd]; try reflexivity.
    + destruct (negb (arrayEq (filter isParamArgType tb) (filter isParamArgType sb) arg_name));
        reflexivity.
    + unfold inPathContext.
      rewrite (merge_same_shape env (RecordTypeDescriptor vv vf) (RecordTypeDescriptor tkv tkf)
                 name _ (locale_tree_entry _ _ _ Hl Eg) (Hagree eq_refl eq_refl)).
      reflexivity.
  - destruct (JsObject.inherited key); [reflexivity |].
    rewrite (proj1 (locale_tree_not_missing target Hl)). reflexivity.
Qed.

(** The second loop of [merge] on the ledger entry of one key. *)
Lemma merge_loop_lookup name target k es :
  locale_tree target = true ->
  (forall key value other,
      In (key, value) es -> JsObject.get key (record_value target) = Some other ->
      kind other = KRecord -> kind value = KRecord -> same_shape other value = true) ->
  NoDup (map fst es) ->
  JsObject.inherited k = false ->
  forall c,
    JsMap.get (path_of env c k) (missing (snd (merge_loop env name es target c))) =
      if existsb (fun entry => String.eqb k (fst entry)) es
         && negb (JsObject.has k (record_value target))
      then Some (bump_exist name (JsMap.get (path_of env c k) (missing c)))
      else JsMap.get (path_of env c k) (missing c).
Proof.
  intros Hl. induction es as [| [k' sval] es IH]; intros Hagree Hnd Hk c; [reflexivity |].
  cbn [map fst] in Hnd. inversion Hnd as [| ? ? Hnotin Hnd']; subst.
  rewrite merge_loop_cons. cbn [existsb fst].
  pose proof (merge_visit_keeps_target env name k' sval target c Hl) as Hkeep.
  pose proof (merge_visit_extends env name k' sval (fun t x => merge env t sval name x)
                target c (fun t x => merge_extends env sval t name x)) as Hext.
  pose proof (merge_visit_ledger name k' sval target c Hl
                (fun other => Hagree k' sval other (or_introl eq_refl))) as Hledger.
  destruct (merge_visit env name k' sval (fun t x => merge env t sval name x) target c)
    as [t cv].
  cbn [fst snd] in Hkeep, Hext, Hledger. subst t.
  pose proof (extends_paths _ _ Hext) as Hp.
  rewrite <- (path_of_paths env c cv k Hp).
  rewrite (IH (fun key value other Hin => Hagree key value other (or_intror Hin)) Hnd' Hk cv).
  rewrite (path_of_paths env c cv k Hp). rewrite Hledger.
  destruct (String.eqb_spec k k') as [<- | Hne].
  - rewrite (existsb_key_false k es Hnotin). cbn [andb orb].
    unfold JsObject.has, JsObject.lookup.
    destruct (JsObject.get k (record_value target)); cbn [negb]; [reflexivity |].
    rewrite Hk, note_exists_lookup. now rewrite String.eqb_refl.
  - cbn [orb].
    assert (Hsame : JsMap.get (path_of env c k)
                      match JsObject.lookup k' (record_value target) with
                      | JsObject.Absent => missing (note_exists (path_of env c k') name c)
                      | _ => missing c
                      end
                    = JsMap.get (path_of env c k) (missing c)).
    { destruct (JsObject.lookup k' (record_value target)); try reflexivity.
      rewrite note_exists_lookup.
      now rewrite (path_of_differs env c c k k' eq_refl Hne). }
    now rewrite Hsame.
Qed.

Lemma nested_agree_entries target source key value other :
  nested_agree target source = true ->
  In (key, value) (record_value source) ->
  JsObject.get key (record_value target) = Some other ->
  kind other = KRecord -> kind value = KRecord -> same_shape other value = true.
Proof.
  unfold nested_agree. rewrite forallb_forall. intros H Hin Hget Hko Hkv.
  specialize (H _ Hin). cbn [fst snd] in H. rewrite Hget in H.
  unfold isRecordType in H. rewrite Hko, Hkv in H. exact H.
Qed.

(** One merge on the ledger entry of one top-level key. *)
Lemma merge_lookup target source name c k :
  locale_tree target = true -> locale_tree source = true -> kind source = KRecord ->
  nested_agree target source = true ->
  JsObject.inherited k = false ->
  JsMap.get (path_of env c k) (missing (snd (merge env target source name c))) =
    if JsObject.has k (record_value target) then
      if JsObject.has k (record_value source) then JsMap.get (path_of env c k) (missing c)
      else Some (bump_missing name (JsMap.get (path_of env c k) (missing c)))
    else
      if JsObject.has k (record_value source)
      then Some (bump_exist name (JsMap.get (path_of env c k) (missing c)))
      else JsMap.get (path_of env c k) (missing c).
Proof.
  intros Hl Hls Hks Hagree Hk.
  destruct source as [x | x | mv mflag]; try discriminate.
  destruct (locale_tree_record _ _ Hls) as [-> [Hnd _]].
  rewrite merge_unfold. cbv zeta. cbn [record_value].
  set (c1 := fold_left (merge_check env mv name) (JsObject.entries (record_value target)) c).
  assert (Hp : paths c1 = paths c)
    by apply (extends_paths _ _ (merge_checks_extends env mv name _ c)).
  pose proof (merge_loop_lookup name target k (JsObject.entries mv) Hl
                (fun key value other Hin =>
                   nested_agree_entries target _ key value other Hagree Hin)
                Hnd Hk c1) as H2.
  destruct (merge_loop env name (JsObject.entries mv) target c1) as [t c2].
  cbn [snd] in H2 |- *.
  rewrite (path_of_paths env c c1 k Hp) in H2. rewrite H2.
  assert (Hndt : NoDup (map fst (JsObject.entries (record_value target)))).
  { destruct target as [y | y | tv tflag]; try constructor.
    now destruct (locale_tree_record _ _ Hl) as [_ [H _]]. }
  unfold c1. rewrite (merge_checks_lookup mv name k _ c Hndt Hk).
  unfold JsObject.entries. rewrite <- !has_existsb.
  destruct (JsObject.has k (record_value target)), (JsObject.has k mv); reflexivity.
Qed.

(** The fold of [gen] on the ledger entry of one top-level key. *)
Lemma fold_lookup target k nodes : forall c,
  JsObject.inherited k = false ->
  locale_tree target = true ->
  Forall (fun node => locale_tree (NamedValue.value node) = true /\
                      kind (NamedValue.value node) = KRecord /\
                      nested_agree target (NamedValue.value node) = true) nodes ->
  JsMap.get (path_of env c k) (missing (snd (fold env nodes target c))) =
    if JsObject.has k (record_value target)
    then fold_left (fun old name => Some (bump_missing name old)) (lacking k nodes)
           (JsMap.get (path_of env c k) (missing c))
    else fold_left (fun old name => Some (bump_exist name old)) (holding k nodes)
           (JsMap.get (path_of env c k) (missing c)).
Proof.
  induction nodes as [| node rest IH]; intros c Hk Hl Hall.
  - unfold fold. cbn [fold_left snd lacking holding filter map].
    now destruct (JsObject.has k (record_value target)).
  - apply Forall_cons_iff in Hall as [[Hln [Hkn Hagree]] Hall].
    assert (Hstep : fold env (node :: rest) target c =
                    fold env rest
                      (fst (merge env target (NamedValue.value node) (NamedValue.name node) c))
                      (snd (merge env target (NamedValue.value node) (NamedValue.name node) c))).
    { unfold fold. cbn [fold_left fst snd].
      now destruct (merge env target (NamedValue.value node) (NamedValue.name node) c). }
    rewrite Hstep, (merge_keeps_target env _ target _ c Hl).
    set (c1 := snd (merge env target (NamedValue.value node) (NamedValue.name node) c)).
    assert (Hp : paths c1 = paths c) by apply (extends_paths _ _ (merge_extends env _ _ _ c)).
    rewrite <- (path_of_paths env c c1 k Hp). rewrite (IH c1 Hk Hl Hall).
    rewrite (path_of_paths env c c1 k Hp).
    unfold c1. rewrite (merge_lookup target _ _ c k Hl Hln Hkn Hagree Hk).
    unfold lacking, holding. cbn [filter].
    destruct (JsObject.has k (record_value target)),
             (JsObject.has k (record_value (NamedValue.value node)));
      cbn [negb map fold_left]; reflexivity.
Qed.

Lemma JsSet_add_fresh (x : string) (s : JsSet.t) : ~ In x s -> JsSet.add x s = s ++ [x].
Proof. intros H. unfold JsSet.add. now rewrite (proj2 (JsSet_has_false x s) H). Qed.

Lemma bump_missing_all l : forall exist s,
  NoDup (s ++ l) ->
  fold_left (fun old name => Some (bump_missing name old)) l
    (Some {| Miss.exist := exist; Miss.missing := s |})
  = Some {| Miss.exist := exist; Miss.missing := s ++ l |}.
Proof.
  induction l as [| x l IH]; intros exist s Hnd; cbn [fold_left].
  - now rewrite app_nil_r.
  - cbn [bump_missing Miss.exist Miss.missing].
    rewrite JsSet_add_fresh.
    + rewrite IH; [now rewrite <- app_assoc | now rewrite <- app_assoc].
    + apply NoDup_remove_2 in Hnd. intros H. apply Hnd. apply in_or_app. now left.
Qed.

Lemma bump_exist_all l : forall s missing,
  NoDup (s ++ l) ->
  fold_left (fun old name => Some (bump_exist name old)) l
    (Some {| Miss.exist := s; Miss.missing := missing |})
  = Some {| Miss.exist := s ++ l; Miss.missing := missing |}.
Proof.
  induction l as [| x l IH]; intros s missing Hnd; cbn [fold_left].
  - now rewrite app_nil_r.
  - cbn [bump_exist Miss.exist Miss.missing].
    rewrite JsSet_add_fresh.
    + rewrite IH; [now rewrite <- app_assoc | now rewrite <- app_assoc].
    + apply NoDup_remove_2 in Hnd. intros H. apply Hnd. apply in_or_app. now left.
Qed.

Lemma filter_names_NoDup (keep : NamedValue.t TypeDescriptor -> bool) nodes :
  NoDup (map NamedValue.name nodes) -> NoDup (map NamedValue.name (filter keep nodes)).
Proof.
  induction nodes as [| node rest IH]; cbn [map filter]; [auto |].
  intros H. apply NoDup_cons_iff in H as [Hfresh Hrest].
  destruct (keep node); cbn [map]; [| auto].
  apply NoDup_cons; [| auto]. intros Hin. apply Hfresh.
  apply in_map_iff in Hin as [other [Hname Hin]]. apply filter_In in Hin as [Hin _].
  apply in_map_iff. now exists other.
Qed.

Lemma NoDup_map_inj {A B : Type} (f : A -> B) (l : list A) x y :
  NoDup (map f l) -> In x l -> In y l -> f x = f y -> x = y.
Proof.
  induction l as [| z l IH]; [contradiction |].
  cbn [map]. intros H Hx Hy Hf. inversion H as [| ? ? Hnotin Hnd]; subst.
  destruct Hx as [-> | Hx], Hy as [-> | Hy]; auto.
  - elim Hnotin. rewrite Hf. now apply in_map.
  - elim Hnotin. rewrite <- Hf. now apply in_map.
Qed.

Lemma JsSet_of_list_NoDup (l : list string) : NoDup l -> JsSet.of_list l = l.
Proof.
  unfold JsSet.of_list.
  assert (G : forall l s, NoDup (s ++ l) -> fold_left (fun s x => JsSet.add x s) l s = s ++ l).
  { clear l. induction l as [| x l IH]; intros s Hnd; cbn [fold_left].
    - now rewrite app_nil_r.
    - rewrite JsSet_add_fresh.
      + rewrite IH; [now rewrite <- app_assoc | now rewrite <- app_assoc].
      + apply NoDup_remove_2 in Hnd. intros H. apply Hnd. apply in_or_app. now left. }
  intros H. exact (G l [] H).
Qed.

(** With distinct names, the locales outside the set of those that have
    the key are the locales that lack it. *)
Lemma diffArray_holding k (nodes : list (NamedValue.t TypeDescriptor)) :
  NoDup (map NamedValue.name nodes) ->
  diffArray (map NamedValue.name nodes) (holding k nodes) = lacking k nodes.
Proof.
  intros Hnd. unfold diffArray, lacking.
  rewrite (filter_map_swap (@NamedValue.name TypeDescriptor)
             (fun x => negb (JsSet.has x (holding k nodes)))).
  f_equal. apply filter_ext_in. intros node Hin. f_equal.
  destruct (JsObject.has k (record_value (NamedValue.value node))) eqn:E.
  - apply JsSet_has_In. unfold holding. apply in_map. apply filter_In. auto.
  - apply JsSet_has_false. unfold holding. intros H.
    apply in_map_iff in H as [other [Hname Hother]].
    apply filter_In in Hother as [Hother Hhas].
    rewrite (NoDup_map_inj _ _ _ _ Hnd Hother Hin Hname) in Hhas. congruence.
Qed.
End Ledger.

Lemma lacking_cons key node nodes :
  lacking key (node :: nodes) =
    if JsObject.has key (record_value (NamedValue.value node)) then lacking key nodes
    else NamedValue.name node :: lacking key nodes.
Proof.
  unfold lacking. cbn [filter].
  now destruct (JsObject.has key (record_value (NamedValue.value node))).
Qed.

Lemma holding_cons key node nodes :
  holding key (node :: nodes) =
    if JsObject.has key (record_value (NamedValue.value node))
    then NamedValue.name node :: holding key nodes
    else holding key nodes.
Proof.
  unfold holding. cbn [filter].
  now destruct (JsObject.has key (record_value (NamedValue.value node))).
Qed.

(** X9.  The missing-key diagnostic names exactly the locales that lack
    the key.  Take locales with distinct names and without an entry under
    [__proto__] that are all built, whose nested dictionaries agree wherever
    the first locale and a later one both have one, the top-level keys of
    the first one not being names of members of [Object.prototype].  For a
    top-level key that is no such name either, that some locale has and some
    locale lacks, the run throws, and its error set holds the diagnostic of
    the path of that key whose list is the names of the locales lacking the
    key, in the order of the input, and no other name. *)
Theorem missing_key_names_lacking_locales {number : Type} (env : Collaborators number)
    files target lazy defaultLanguage node nodes c0 key :
  Forall (fun file => proto_free (NamedValue.value file) = true) files ->
  build env files fresh_context = (Normal (node :: nodes), c0) ->
  NoDup (map NamedValue.name files) ->
  Forall (fun other => nested_agree (NamedValue.value node) (NamedValue.value other) = true)
    nodes ->
  plain_keys (record_value (NamedValue.value node)) = true ->
  JsObject.inherited key = false ->
  lacking key (node :: nodes) <> [] ->
  holding key (node :: nodes) <> [] ->
  exists errs,
    gen env files target lazy defaultLanguage = Throw (Error (composite errs)) /\
    In (key_missing_in_path env (getCurrentPath env [] ++ "." ++ key)%string
          (join "," (lacking key (node :: nodes))))
       errs.
Proof.
  intros _ Hbuild Hnd Hagree Hplain Hkey Hlack Hhold.
  set (names := JsSet.of_list (map NamedValue.name files)).
  exists (errors (snd (unify env names (node :: nodes) c0))).
  destruct (build_head env _ _ _ _ _ Hbuild) as [tv [Ev [Hord Hl]]].
  destruct (build_ok env _ _ _ _ Hbuild) as [Hnames [Hall [Hm Hp]]].
  cbn [fresh_context missing paths] in Hm, Hp.
  assert (Hnames' : names = map NamedValue.name (node :: nodes)).
  { unfold names. rewrite (JsSet_of_list_NoDup _ Hnd). now rewrite Hnames. }
  assert (Hnd' : NoDup (map NamedValue.name (node :: nodes))) by now rewrite Hnames.
  apply Forall_cons_iff in Hall as [_ Hall].
  assert (Hstep : fold env (node :: nodes) createMissingRecordTypeDescriptor c0 =
                  fold env nodes (RecordTypeDescriptor tv false) c0).
  { unfold fold. cbn [fold_left fst snd]. rewrite Ev. rewrite Ev in Hplain.
    now rewrite (merge_first_ordered env tv false (NamedValue.name node) c0 Hord Hplain). }
  set (cf := snd (fold env nodes (RecordTypeDescriptor tv false) c0)).
  assert (Hpath : path_of env c0 key = (getCurrentPath env [] ++ "." ++ key)%string)
    by (unfold path_of; now rewrite Hp).
  assert (Hlookup :
    JsMap.get (path_of env c0 key) (missing cf) =
      if JsObject.has key tv
      then fold_left (fun old name => Some (bump_missing name old)) (lacking key nodes) None
      else fold_left (fun old name => Some (bump_exist name old)) (holding key nodes) None).
  { unfold cf. rewrite (fold_lookup env (RecordTypeDescriptor tv false) key nodes c0 Hkey Hl).
    - rewrite Hm. reflexivity.
    - rewrite Ev in Hagree.
      apply Forall_forall. intros other Hin.
      rewrite Forall_forall in Hall, Hagree.
      destruct (Hall other Hin) as [Hk Hlo]. auto. }
  assert (Hentry : exists entry,
            JsMap.get (path_of env c0 key) (missing cf) = Some entry /\
            offending names entry = lacking key (node :: nodes)).
  { rewrite Hlookup. rewrite lacking_cons in Hlack |- *. rewrite holding_cons in Hhold.
    rewrite Ev in Hlack, Hhold |- *. cbn [record_value] in Hlack, Hhold |- *.
    cbn [map NamedValue.name] in Hnd'. inversion Hnd' as [| ? ? Hfirst Hrest]; subst.
    destruct (JsObject.has key tv) eqn:Ehas.
    - destruct (lacking key nodes) as [| x l] eqn:El; [now elim Hlack |].
      assert (Hndl : NoDup (x :: l))
        by (rewrite <- El; unfold lacking; now apply filter_names_NoDup).
      cbn [fold_left bump_missing]. rewrite (JsSet_add_fresh x JsSet.empty) by (intros []).
      cbn [JsSet.empty app]. rewrite (bump_missing_all l JsSet.empty [x] Hndl).
      eexists. split; [reflexivity |]. reflexivity.
    - destruct (holding key nodes) as [| x l] eqn:El; [now elim Hhold |].
      assert (Hndl : NoDup (x :: l))
        by (rewrite <- El; unfold holding; now apply filter_names_NoDup).
      cbn [fold_left bump_exist]. rewrite (JsSet_add_fresh x JsSet.empty) by (intros []).
      cbn [JsSet.empty app]. rewrite (bump_exist_all l [x] JsSet.empty Hndl).
      eexists. split; [reflexivity |].
      unfold offending. cbn [Miss.exist Miss.missing JsSet.size List.length Nat.eqb app].
      rewrite Hnames'. rewrite <- El.
      assert (Hh : holding key nodes = holding key (node :: nodes))
        by (rewrite holding_cons, Ev; cbn [record_value]; now rewrite Ehas).
      rewrite Hh. rewrite (diffArray_holding key (node :: nodes)).
      + rewrite lacking_cons, Ev. cbn [record_value]. now rewrite Ehas.
      + cbn [map]. now constructor. }
  destruct Hentry as [entry [Hget Hoff]].
  assert (Hmsg : In (key_missing_in_path env (getCurrentPath env [] ++ "." ++ key)%string
                       (join "," (lacking key (node :: nodes))))
                   (errors (snd (unify env names (node :: nodes) c0)))).
  { rewrite unify_context. rewrite Hstep. fold cf. unfold report_missing.
    apply report_errors_In. right. exists (path_of env c0 key, entry). split.
    - now apply JsMap_get_In.
    - unfold missing_message. cbn [fst snd]. now rewrite Hoff, Hpath. }
  split; [| exact Hmsg].
  apply gen_after_build; [exact Hbuild |].
  fold names. intros Hnil. rewrite Hnil in Hmsg. contradiction.
Qed.

Lemma missing_key_names_lacking_locales_witness :
  exists errs,
    Sample.gen [Sample.locale "en" [("title", YString "Hello")];
                Sample.locale "fr" [("title", YString "Bonjour"); ("bye", YString "Salut")];
                Sample.locale "de" [("title", YString "Hallo")]]
      None false None = Throw (Error (composite errs)) /\
    In ".bye is missing in en,de" errs.
Proof.
  refine (missing_key_names_lacking_locales Sample.collaborators
            [Sample.locale "en" [("title", YString "Hello")];
             Sample.locale "fr" [("title", YString "Bonjour"); ("bye", YString "Salut")];
             Sample.locale "de" [("title", YString "Hallo")]]
            None false None
            (named "en" (RecordTypeDescriptor [("title", StringTypeDescriptor "Hello")] false))
            [named "fr" (RecordTypeDescriptor [("title", StringTypeDescriptor "Bonjour");
                                               ("bye", StringTypeDescriptor "Salut")] false);
             named "de" (RecordTypeDescriptor [("title", StringTypeDescriptor "Hallo")] false)]
            fresh_context "bye" _ _ _ _ _ _ _ _).
  - repeat constructor.
  - vm_compute. reflexivity.
  - repeat constructor; simpl; intuition discriminate.
  - repeat constructor.
  - reflexivity.
  - reflexivity.
  - vm_compute. discriminate.
  - vm_compute. discriminate.
Defined.

(** * The command line *)

(** ** The cache of the watch mode *)

Section CacheFacts.
Context {V : Type}.
Implicit Types (m : JsMap.t V) (k : string) (v : V).

Lemma JsMap_get_delete k k' m :
  JsMap.get k' (JsMap.delete k m) = if String.eqb k' k then None else JsMap.get k' m.
Proof.
  unfold JsMap.delete. induction m as [| [k0 v0] m IH]; cbn [filter JsMap.get fst].
  - now destruct (String.eqb k' k).
  - destruct (String.eqb_spec k k0) as [<- | Hne]; cbn [negb JsMap.get].
    + rewrite IH. now destruct (String.eqb k' k).
    + rewrite IH. destruct (String.eqb_spec k' k) as [-> | Hne'].
      * now rewrite (proj2 (String.eqb_neq k k0) Hne).
      * reflexivity.
Qed.

Lemma JsMap_keys_delete k m :
  map fst (JsMap.delete k m) = filter (fun x => negb (String.eqb k x)) (map fst m).
Proof.
  unfold JsMap.delete.
  symmetry. apply (filter_map_swap fst (fun x => negb (String.eqb k x))).
Qed.

Lemma JsMap_delete_NoDup k m : NoDup (map fst m) -> NoDup (map fst (JsMap.delete k m)).
Proof. intros H. rewrite JsMap_keys_delete. now apply NoDup_filter. Qed.

Lemma JsMap_set_fresh k v m : JsMap.get k m = None -> JsMap.set k v m = m ++ [(k, v)].
Proof. intros H. unfold JsMap.set. now rewrite H. Qed.

Lemma JsMap_keys_set_add k v m : map fst (JsMap.set k v m) = JsSet.add k (map fst m).
Proof.
  unfold JsMap.set, JsSet.add. destruct (JsMap.get k m) as [x |] eqn:E.
  - rewrite JsMap_keys_replace.
    now rewrite (proj2 (JsSet_has_In k (map fst m)) (JsMap_get_Some_key _ _ _ E)).
  - rewrite (proj2 (JsSet_has_false k (map fst m)) (proj1 (JsMap_get_None k m) E)).
    now rewrite map_app.
Qed.
End CacheFacts.

Section Cache.
Context {number : Type}.
Implicit Types (files : list (NamedValue.t (YamlValue number)))
  (cache : JsMap.t (YamlValue number)).

Lemma createCache_fill files : Cli.createCache files = fill JsMap.empty files.
Proof. reflexivity. Qed.

Lemma fill_NoDup files : forall cache,
  NoDup (map fst cache) -> NoDup (map fst (fill cache files)).
Proof.
  induction files as [| file rest IH]; intros cache H; [exact H |].
  apply IH. now apply JsMap_set_NoDup.
Qed.

Lemma fill_keys files : forall cache,
  map fst (fill cache files) =
    fold_left (fun s x => JsSet.add x s) (map NamedValue.name files) (map fst cache).
Proof.
  induction files as [| file rest IH]; intros cache; [reflexivity |].
  cbn [fill fold_left map]. fold (fill (JsMap.set (NamedValue.name file)
                                          (NamedValue.value file) cache) rest).
  rewrite IH. now rewrite JsMap_keys_set_add.
Qed.

Lemma fill_fresh files : forall cache,
  NoDup (map fst cache ++ map NamedValue.name files) ->
  fill cache files =
    cache ++ map (fun file => (NamedValue.name file, NamedValue.value file)) files.
Proof.
  induction files as [| file rest IH]; intros cache Hnd; cbn [map].
  - now rewrite app_nil_r.
  - cbn [fill fold_left]. fold (fill (JsMap.set (NamedValue.name file)
                                        (NamedValue.value file) cache) rest).
    cbn [map] in Hnd.
    assert (Hfresh : JsMap.get (NamedValue.name file) cache = None).
    { apply JsMap_get_None. apply NoDup_remove_2 in Hnd. intros H. apply Hnd.
      apply in_or_app. now left. }
    rewrite (JsMap_set_fresh _ _ _ Hfresh). rewrite IH.
    + now rewrite <- app_assoc.
    + rewrite map_app. cbn [map fst]. now rewrite <- app_assoc.
Qed.

Lemma fill_get_last files : forall cache file after,
  (forall other, In other after -> NamedValue.name other <> NamedValue.name file) ->
  JsMap.get (NamedValue.name file) (fill cache (files ++ file :: after))
  = Some (NamedValue.value file).
Proof.
  intros cache file after Hafter. unfold fill. rewrite fold_left_app. cbn [fold_left].
  generalize (fold_left
                (fun cache0 file0 =>
                   JsMap.set (NamedValue.name file0) (NamedValue.value file0) cache0)
                files cache).
  intros c0.
  assert (G : forall l c,
             (forall other, In other l -> NamedValue.name other <> NamedValue.name file) ->
             JsMap.get (NamedValue.name file)
               (fold_left
                  (fun cache0 file0 =>
                     JsMap.set (NamedValue.name file0) (NamedValue.value file0) cache0) l c)
             = JsMap.get (NamedValue.name file) c).
  { induction l as [| x l IHl]; intros c Hl; [reflexivity |].
    cbn [fold_left]. rewrite IHl by (intros o Ho; apply Hl; now right).
    rewrite JsMap_get_set.
    destruct (String.eqb_spec (NamedValue.name file) (NamedValue.name x)) as [E | _];
      [| reflexivity].
    elim (Hl x (or_introl eq_refl)). now symmetry. }
  rewrite (G after _ Hafter). rewrite JsMap_get_set. now rewrite String.eqb_refl.
Qed.

Lemma exportCache_names cache :
  map NamedValue.name (Cli.exportCache cache) = map fst cache.
Proof. unfold Cli.exportCache. rewrite map_map. reflexivity. Qed.
End Cache.

(** X10.  The cache round trip: for locales with distinct names, exporting
    the cache made of a list of locales gives the list back, names, values
    and order. *)
Theorem cache_round_trip {number : Type} (files : list (NamedValue.t (YamlValue number))) :
  NoDup (map NamedValue.name files) ->
  Cli.exportCache (Cli.createCache files) = files.
Proof.
  intros Hnd. rewrite createCache_fill. rewrite fill_fresh by exact Hnd.
  cbn [JsMap.empty app]. unfold Cli.exportCache. rewrite map_map. cbn [fst snd].
  rewrite <- (map_id files) at 2. apply map_ext. now intros [n v].
Qed.

Lemma cache_round_trip_witness :
  Cli.exportCache
    (Cli.createCache [Sample.locale "en" [("title", YString "Hello")];
                      Sample.locale "fr" [("title", YString "Bonjour")]])
  = [Sample.locale "en" [("title", YString "Hello")];
     Sample.locale "fr" [("title", YString "Bonjour")]].
Proof.
  apply (cache_round_trip [Sample.locale "en" [("title", YString "Hello")];
                           Sample.locale "fr" [("title", YString "Bonjour")]]).
  repeat constructor; simpl; intuition discriminate.
Defined.

(** X11.  A cache made of any list of locales holds every name once, at
    the place of its first occurrence, with the value of its last
    occurrence. *)
Theorem cache_collapses_duplicates {number : Type}
    (before after : list (NamedValue.t (YamlValue number))) file :
  (forall other, In other after -> NamedValue.name other <> NamedValue.name file) ->
  map NamedValue.name (Cli.exportCache (Cli.createCache (before ++ file :: after)))
    = JsSet.of_list (map NamedValue.name (before ++ file :: after)) /\
  NoDup (map NamedValue.name (Cli.exportCache (Cli.createCache (before ++ file :: after)))) /\
  JsMap.get (NamedValue.name file) (Cli.createCache (before ++ file :: after))
    = Some (NamedValue.value file).
Proof.
  intros Hafter. rewrite exportCache_names, createCache_fill. repeat split.
  - apply fill_keys.
  - apply fill_NoDup. constructor.
  - now apply fill_get_last.
Qed.

Lemma cache_collapses_duplicates_witness :
  map NamedValue.name
    (Cli.exportCache
       (Cli.createCache ([Sample.locale "en" [("title", YString "Hello")];
                          Sample.locale "fr" [("title", YString "Bonjour")]]
                         ++ Sample.locale "en" [("title", YString "Hi")] :: [])))
  = ["en"; "fr"] /\
  JsMap.get "en"
    (Cli.createCache ([Sample.locale "en" [("title", YString "Hello")];
                       Sample.locale "fr" [("title", YString "Bonjour")]]
                      ++ Sample.locale "en" [("title", YString "Hi")] :: []))
  = Some (YObject [("title", YString "Hi")]).
Proof.
  destruct (cache_collapses_duplicates
              [Sample.locale "en" [("title", YString "Hello")];
               Sample.locale "fr" [("title", YString "Bonjour")]]
              [] (Sample.locale "en" [("title", YString "Hi")])
              (fun other (H : In other []) => match H with end)) as [H1 [_ H3]].
  split; [exact H1 | exact H3].
Defined.

(** ** The watch mode *)

Section Watch.
Context {number World : Type} (env : Collaborators number) (host : Cli.Host number World)
  (options : Cli.Options).

Lemma run_quiet files w : fst (Cli.run env host options files false w) = Normal tt.
Proof.
  unfold Cli.run.
  destruct (if Cli.lazy options then Cli.generateLazy env host options files w
            else Cli.generate env host options files w) as [[u | e] w']; reflexivity.
Qed.

Lemma on_event_outcome cache event w :
  match Cli.update host cache event with
  | Normal cache' =>
      fst (Cli.on_event env host options cache event w) = (Normal tt, cache')
  | Throw e => fst (Cli.on_event env host options cache event w) = (Throw e, cache)
  end.
Proof.
  unfold Cli.on_event. destruct (Cli.update host cache event) as [cache' | e]; [| reflexivity].
  pose proof (run_quiet (Cli.exportCache cache') (Cli.log host (Cli.announce event) w)) as H.
  destruct (Cli.run env host options (Cli.exportCache cache') false _) as [[u | e] w'];
    [reflexivity | discriminate].
Qed.

Lemma update_NoDup cache event cache' :
  NoDup (map fst cache) -> Cli.update host cache event = Normal cache' ->
  NoDup (map fst cache').
Proof.
  intros Hnd. unfold Cli.update.
  destruct event as [file [content | e] | file]; try discriminate.
  - destruct (negb (Cli.is_blank host content)).
    + destruct (Cli.safeLoad host content) as [v | e]; [| discriminate].
      intros [= <-]. now apply JsMap_set_NoDup.
    + intros [= <-]. now apply JsMap_delete_NoDup.
  - intros [= <-]. now apply JsMap_delete_NoDup.
Qed.

Lemma watching_NoDup events : forall cache w,
  NoDup (map fst cache) ->
  NoDup (map fst (snd (fst (Cli.watching env host options cache events w)))).
Proof.
  induction events as [| event rest IH]; intros cache w Hnd; [exact Hnd |].
  cbn [Cli.watching]. pose proof (on_event_outcome cache event w) as H.
  destruct (Cli.update host cache event) as [cache' | e0] eqn:E;
    destruct (Cli.on_event env host options cache event w) as [[[u | e] c1] w1];
    cbn [fst] in H; try discriminate; inversion H; subst.
  - apply IH. eapply update_NoDup; eassumption.
  - exact Hnd.
Qed.

Lemma watching_throws events : forall cache w exn,
  fst (fst (Cli.watching env host options cache events w)) = Throw exn ->
  exists file,
    In (Cli.Change file (Throw exn)) events \/
    exists content,
      In (Cli.Change file (Normal content)) events /\
      Cli.is_blank host content = false /\ Cli.safeLoad host content = Throw exn.
Proof.
  induction events as [| event rest IH]; intros cache w exn; [discriminate |].
  cbn [Cli.watching]. pose proof (on_event_outcome cache event w) as H.
  destruct (Cli.update host cache event) as [cache' | e'] eqn:E;
    destruct (Cli.on_event env host options cache event w) as [[[u | e''] c1] w1];
    cbn [fst] in H; try discriminate.
  - intros Hrest. destruct (IH _ _ _ Hrest) as [file [Hin | [content [Hin Hc]]]];
      exists file; [left; now right | right; exists content; split; [now right | exact Hc]].
  - inversion H; subst. cbn [fst]. intros [= <-].
    unfold Cli.update in E. destruct event as [file [content | e0] | file]; try discriminate.
    + destruct (Cli.is_blank host content) eqn:Eb; cbn [negb] in E; [discriminate |].
      destruct (Cli.safeLoad host content) as [v | e0] eqn:Es; [discriminate |].
      injection E as <-. exists file. right. exists content. split; [now left | auto].
    + injection E as <-. exists file. left. now left.
Qed.
End Watch.

(** X12.  Whatever the files and whatever the events, the list of locales
    the watch mode regenerates from never holds a name twice. *)
Theorem watch_names_distinct {number World : Type} (env : Collaborators number)
    (host : Cli.Host number World) (options : Cli.Options) files events w :
  NoDup (map NamedValue.name
           (Cli.exportCache
              (snd (fst (Cli.watching env host options (Cli.createCache files) events w))))).
Proof.
  rewrite exportCache_names. apply watching_NoDup.
  rewrite createCache_fill. apply fill_NoDup. constructor.
Qed.

(** X13.  Editing a locale in watch mode keeps the order of the locales:
    when the changed file is read and parsed, a locale that is in the cache
    keeps its place and takes the new value, the other locales are
    untouched, and a locale that is not in the cache comes last. *)
Theorem edit_keeps_position {number World : Type} (env : Collaborators number)
    (host : Cli.Host number World) (options : Cli.Options) cache file content value w :
  Cli.is_blank host content = false ->
  Cli.safeLoad host content = Normal value ->
  let cache' :=
    snd (fst (Cli.watching env host options cache [Cli.Change file (Normal content)] w)) in
  JsMap.get (Cli.stem host file) cache' = Some value /\
  (forall name, name <> Cli.stem host file -> JsMap.get name cache' = JsMap.get name cache) /\
  (In (Cli.stem host file) (map fst cache) -> map fst cache' = map fst cache) /\
  (~ In (Cli.stem host file) (map fst cache) ->
   cache' = cache ++ [(Cli.stem host file, value)]).
Proof.
  intros Hb Hs. cbn [Cli.watching].
  pose proof (on_event_outcome env host options cache (Cli.Change file (Normal content)) w)
    as H.
  cbn [Cli.update] in H. rewrite Hb, Hs in H. cbn [negb] in H.
  destruct (Cli.on_event env host options cache (Cli.Change file (Normal content)) w)
    as [[[u | e] c1] w1]; cbn [fst] in H; [| discriminate].
  inversion H; subst. cbn [fst snd]. repeat split.
  - rewrite JsMap_get_set. now rewrite String.eqb_refl.
  - intros name Hne. rewrite JsMap_get_set.
    now rewrite (proj2 (String.eqb_neq name (Cli.stem host file)) Hne).
  - intros Hin. rewrite JsMap_keys_set_add. now apply JsSet_add_idem.
  - intros Hnot. apply JsMap_set_fresh. now apply JsMap_get_None.
Qed.

Lemma edit_keeps_position_witness :
  map fst
    (snd (fst (Cli.watching Sample.collaborators Terminal.host Terminal.options
                 (Cli.createCache [Sample.locale "en" [("title", YString "Hello")];
                                   Sample.locale "fr" [("title", YString "Bonjour")]])
                 [Cli.Change "en.yaml" (Normal "title: Hi")] [])))
  = ["en"; "fr"].
Proof.
  refine (proj1 (proj2 (proj2
            (edit_keeps_position Sample.collaborators Terminal.host Terminal.options
               (Cli.createCache [Sample.locale "en" [("title", YString "Hello")];
                                 Sample.locale "fr" [("title", YString "Bonjour")]])
               "en.yaml" "title: Hi" (YObject [("title", YString "Hi")]) [] _ _))) _).
  - reflexivity.
  - reflexivity.
  - left. reflexivity.
Defined.

(** X14.  Removing a locale and restoring it moves it to the end: after a
    file is removed, or saved blank, and then saved with a content that
    parses, its locale is the last one of the cache and the others keep
    their order. *)
Theorem restore_moves_last {number World : Type} (env : Collaborators number)
    (host : Cli.Host number World) (options : Cli.Options)
    cache file removal content value w :
  removal = Cli.Unlink file \/
  (exists blank, removal = Cli.Change file (Normal blank) /\ Cli.is_blank host blank = true) ->
  Cli.is_blank host content = false ->
  Cli.safeLoad host content = Normal value ->
  snd (fst (Cli.watching env host options cache
              [removal; Cli.Change file (Normal content)] w))
  = JsMap.delete (Cli.stem host file) cache ++ [(Cli.stem host file, value)].
Proof.
  intros Hremoval Hb Hs. cbn [Cli.watching].
  pose proof (on_event_outcome env host options cache removal w) as H1.
  assert (E1 : Cli.update host cache removal
               = Normal (JsMap.delete (Cli.stem host file) cache)).
  { destruct Hremoval as [-> | [blank [-> Hblank]]]; cbn [Cli.update]; [reflexivity |].
    now rewrite Hblank. }
  rewrite E1 in H1.
  destruct (Cli.on_event env host options cache removal w) as [[[u | e] c1] w1];
    cbn [fst] in H1; [| discriminate].
  inversion H1; subst.
  pose proof (on_event_outcome env host options (JsMap.delete (Cli.stem host file) cache)
                (Cli.Change file (Normal content)) w1) as H2.
  cbn [Cli.update] in H2. rewrite Hb, Hs in H2. cbn [negb] in H2.
  destruct (Cli.on_event env host options (JsMap.delete (Cli.stem host file) cache)
              (Cli.Change file (Normal content)) w1) as [[[u2 | e] c2] w2];
    cbn [fst] in H2; [| discriminate].
  inversion H2; subst. cbn [fst snd].
  apply JsMap_set_fresh. rewrite JsMap_get_delete. now rewrite String.eqb_refl.
Qed.

Lemma restore_moves_last_witness :
  map fst
    (snd (fst (Cli.watching Sample.collaborators Terminal.host Terminal.options
                 (Cli.createCache [Sample.locale "en" [("title", YString "Hello")];
                                   Sample.locale "fr" [("title", YString "Bonjour")]])
                 [Cli.Unlink "en.yaml"; Cli.Change "en.yaml" (Normal "title: Hi")] [])))
  = ["fr"; "en"].
Proof.
  rewrite (restore_moves_last Sample.collaborators Terminal.host Terminal.options
             (Cli.createCache [Sample.locale "en" [("title", YString "Hello")];
                               Sample.locale "fr" [("title", YString "Bonjour")]])
             "en.yaml" (Cli.Unlink "en.yaml") "title: Hi"
             (YObject [("title", YString "Hi")]) []
             (or_introl eq_refl) eq_refl eq_refl).
  reflexivity.
Defined.

(** X15.  In watch mode a generation that fails never ends the watch: the
    handler raises only when reading a changed file raises or when its
    content, not blank, does not parse. *)
Theorem watch_raises_only_on_read_or_parse {number World : Type}
    (env : Collaborators number) (host : Cli.Host number World) (options : Cli.Options)
    files events w exn :
  fst (Cli.handle env host options true files events w) = Throw exn ->
  exists file,
    In (Cli.Change file (Throw exn)) events \/
    exists content,
      In (Cli.Change file (Normal content)) events /\
      Cli.is_blank host content = false /\ Cli.safeLoad host content = Throw exn.
Proof.
  unfold Cli.handle.
  destruct (Cli.run env host options files false w) as [r0 w0].
  pose proof (watching_throws env host options events (Cli.createCache files)
                (Cli.log host ("Waiting for file change" ++ newline)%string w0) exn) as H.
  destruct (Cli.watching env host options (Cli.createCache files) events _)
    as [[r c1] w1].
  cbn [fst] in H |- *. exact H.
Qed.

Lemma watch_raises_only_on_read_or_parse_witness :
  exists file,
    In (Cli.Change file (Throw (Error "bad indentation of a mapping entry")))
       [Cli.Change "fr.yaml" (Normal "title")] \/
    exists content,
      In (Cli.Change file (Normal content)) [Cli.Change "fr.yaml" (Normal "title")] /\
      Cli.is_blank Terminal.host content = false /\
      Cli.safeLoad Terminal.host content
        = Throw (Error "bad indentation of a mapping entry").
Proof.
  apply (watch_raises_only_on_read_or_parse Sample.collaborators Terminal.host
           Terminal.options
           [Sample.locale "en" [("title", YString "Hello")]]
           [Cli.Change "fr.yaml" (Normal "title")] []
           (Error "bad indentation of a mapping entry")).
  vm_compute. reflexivity.
Defined.

(** ** One run *)

Section Run.
Context {number World : Type} (env : Collaborators number) (host : Cli.Host number World)
  (options : Cli.Options).

Lemma gen_throw_flags files t l d t' l' d' e :
  gen env files t l d = Throw e -> gen env files t' l' d' = Throw e.
Proof.
  unfold gen. destruct (build env files fresh_context) as [[nodes | e0] c0]; [| auto].
  destruct (unify env (JsSet.of_list (map NamedValue.name files)) nodes c0) as [merged cu].
  destruct (negb (Nat.eqb (JsSet.size (errors cu)) 0)); [auto | discriminate].
Qed.

Lemma gen_side_names files t d out :
  gen env files t true d = Normal out ->
  map fst (Cli.others_of out) = side_names t d (map NamedValue.name files).
Proof.
  unfold gen, side_names.
  destruct (build env files fresh_context) as [[nodes | e] c0] eqn:Hbuild; [| discriminate].
  destruct (build_ok env _ _ _ _ Hbuild) as [Hnames _].
  destruct (unify env (JsSet.of_list (map NamedValue.name files)) nodes c0) as [merged cu].
  destruct (negb (Nat.eqb (JsSet.size (errors cu)) 0)); [discriminate |].
  intros [= <-]. unfold emit. cbn [Cli.others_of andb].
  destruct (target_eqb (match t with Some t0 => t0 | None => resource end) type);
    cbn [negb]; [reflexivity |].
  rewrite map_map. cbn [fst]. rewrite <- Hnames. symmetry.
  apply (filter_map_swap (@NamedValue.name TypeDescriptor)
           (fun name => negb (name_is (default_lang d (map NamedValue.name nodes)) name))).
Qed.

Lemma printed_only_refl w : printed_only host w w.
Proof. now exists []. Qed.

Lemma printed_only_trans w1 w2 w3 :
  printed_only host w1 w2 -> printed_only host w2 w3 -> printed_only host w1 w3.
Proof.
  intros [l1 ->] [l2 ->]. exists (l1 ++ l2). now rewrite fold_left_app.
Qed.

Lemma printed_only_log line w : printed_only host w (Cli.log host line w).
Proof. now exists [line]. Qed.

Lemma show_prints code w : printed_only host w (snd (Cli.show host options code w)).
Proof.
  unfold Cli.show.
  destruct (if Cli.color options then Cli.highlight host code
            else Normal (code ++ newline)%string);
    [apply printed_only_log | apply printed_only_refl].
Qed.

Lemma show_others_prints others : forall w,
  printed_only host w (snd (Cli.show_others host options others w)).
Proof.
  induction others as [| [file code] rest IH]; intros w; cbn [Cli.show_others];
    [apply printed_only_refl |].
  pose proof (show_prints code (Cli.log host (Cli.banner (file ++ ".ts")) w)) as H.
  destruct (Cli.show host options code _) as [[u | e] w1]; cbn [snd] in H.
  - eapply printed_only_trans; [apply printed_only_log |].
    eapply printed_only_trans; [exact H | apply IH].
  - eapply printed_only_trans; [apply printed_only_log | exact H].
Qed.

Section Recording.
Context (written : World -> list string)
  (written_log : forall line w, written (Cli.log host line w) = written w)
  (written_write : forall path content w w',
      Cli.writeFileSync host path content w = (Normal tt, w') ->
      written w' = written w ++ [path]).

Lemma write_records filepath file code w u w' :
  Cli.write host filepath file code w = (Normal u, w') ->
  written w' = written w ++ [Cli.join_path host filepath file].
Proof.
  unfold Cli.write. destruct (Cli.format host code) as [formatted | e]; [| discriminate].
  destruct u. apply written_write.
Qed.

Lemma write_others_records filepath others : forall w u w',
  Cli.write_others host filepath others w = (Normal u, w') ->
  written w' =
    written w ++ map (fun name => Cli.join_path host filepath (name ++ ".ts")%string)
                   (map fst others).
Proof.
  induction others as [| [file code] rest IH]; intros w u w'; cbn [Cli.write_others map fst].
  - intros [= _ <-]. now rewrite app_nil_r.
  - destruct (Cli.write host filepath (file ++ ".ts") code w) as [[u1 | e] w1] eqn:E;
      [| discriminate].
    intros Hrest. rewrite (IH _ _ _ Hrest), (write_records _ _ _ _ _ _ E).
    now rewrite <- app_assoc.
Qed.
End Recording.
End Run.

(** X16.  A generation that fails writes nothing.  When the generator
    throws on the files, under any flags, the run of the watch mode returns
    normally and has done nothing but print the message of the error, and
    the run of the plain mode has done nothing and throws an error whose
    message is the text of that error. *)
Theorem failed_generation_writes_nothing {number World : Type}
    (env : Collaborators number) (host : Cli.Host number World) (options : Cli.Options)
    files t l d e w :
  gen env files t l d = Throw e ->
  Cli.run env host options files false w
    = (Normal tt, Cli.log host (Cli.message_of host e) w) /\
  Cli.run env host options files true w = (Throw (Error (Cli.describe host e)), w).
Proof.
  intros H. unfold Cli.run, Cli.generate, Cli.generateLazy.
  rewrite (gen_throw_flags env files t l d (Cli.target options) false None e H).
  rewrite (gen_throw_flags env files t l d (Cli.target options) true
             (Cli.defaultLanguage options) e H).
  destruct (Cli.lazy options); split; reflexivity.
Qed.

Lemma failed_generation_writes_nothing_witness :
  Cli.run Sample.collaborators Terminal.host Terminal.options
    [Sample.locale "A" [("x", YString "1"); ("y", YString "2")];
     Sample.locale "B" [("x", YString "1")]] false []
  = (Normal tt,
     [Terminal.Printed (newline ++ "Errors:" ++ newline ++ "  1. .y is missing in B"
                        ++ newline)]).
Proof.
  exact (proj1 (failed_generation_writes_nothing Sample.collaborators Terminal.host
                  Terminal.options
                  [Sample.locale "A" [("x", YString "1"); ("y", YString "2")];
                   Sample.locale "B" [("x", YString "1")]]
                  None false None
                  (Error (newline ++ "Errors:" ++ newline ++ "  1. .y is missing in B"
                          ++ newline))
                  [] eq_refl)).
Defined.

(** X17.  Without an output directory a run writes no file: whatever the
    files and the flags, and whether it ends normally or throws, the world
    after it is the world before it with some lines printed. *)
Theorem no_output_prints_only {number World : Type}
    (env : Collaborators number) (host : Cli.Host number World) (options : Cli.Options)
    files isThrow w :
  Cli.no_output options = true ->
  printed_only host w (snd (Cli.run env host options files isThrow w)).
Proof.
  intros Hout.
  assert (G : printed_only host w
                (snd (if Cli.lazy options then Cli.generateLazy env host options files w
                      else Cli.generate env host options files w))).
  { destruct (Cli.lazy options).
    - unfold Cli.generateLazy.
      destruct (gen env files (Cli.target options) true (Cli.defaultLanguage options))
        as [out | e]; [| apply printed_only_refl].
      rewrite Hout.
      pose proof (show_prints host options (Cli.module_of out)
                    (Cli.log host (Cli.banner "index.ts") w)) as H.
      destruct (Cli.show host options (Cli.module_of out) _) as [[u | e] w1]; cbn [snd] in H.
      + eapply printed_only_trans; [apply printed_only_log |].
        eapply printed_only_trans; [exact H | apply show_others_prints].
      + eapply printed_only_trans; [apply printed_only_log | exact H].
    - unfold Cli.generate.
      destruct (gen env files (Cli.target options) false None) as [out | e];
        [| apply printed_only_refl].
      rewrite Hout. apply show_prints. }
  unfold Cli.run.
  destruct (if Cli.lazy options then Cli.generateLazy env host options files w
            else Cli.generate env host options files w) as [[u | e] w1]; cbn [snd] in G |- *.
  - exact G.
  - destruct isThrow; cbn [snd]; [exact G |].
    eapply printed_only_trans; [exact G | apply printed_only_log].
Qed.

Lemma no_output_prints_only_witness :
  printed_only Terminal.host []
    (snd (Cli.run Sample.collaborators Terminal.host
            {| Cli.output := None; Cli.color := true; Cli.target := None;
               Cli.lazy := true; Cli.defaultLanguage := Some "fr" |}
            [Sample.locale "en" [("title", YString "Hello")];
             Sample.locale "fr" [("title", YString "Bonjour")]] true [])).
Proof.
  apply (no_output_prints_only Sample.collaborators Terminal.host
           {| Cli.output := None; Cli.color := true; Cli.target := None;
              Cli.lazy := true; Cli.defaultLanguage := Some "fr" |}).
  reflexivity.
Defined.

(** X18.  What a successful run writes.  On a host whose writes are
    recorded in order, a run with an output directory that ends normally
    has written the index module and then, when lazy, one module for every
    locale that is not the default language, named after the locale, in the
    order of the input; for the type target, and when not lazy, the index
    module alone. *)
Theorem run_writes_index_then_sides {number World : Type}
    (env : Collaborators number) (host : Cli.Host number World) (options : Cli.Options)
    (written : World -> list string) files w w' :
  (forall line w, written (Cli.log host line w) = written w) ->
  (forall path content w w',
      Cli.writeFileSync host path content w = (Normal tt, w') ->
      written w' = written w ++ [path]) ->
  Cli.no_output options = false ->
  Cli.run env host options files true w = (Normal tt, w') ->
  written w' =
    written w
    ++ Cli.join_path host (Cli.resolve host (Cli.output_path options)) "index.ts"
    :: (if Cli.lazy options then
          map (fun name =>
                 Cli.join_path host (Cli.resolve host (Cli.output_path options))
                   (name ++ ".ts")%string)
            (side_names (Cli.target options) (Cli.defaultLanguage options)
               (map NamedValue.name files))
        else []).
Proof.
  intros Hlog Hwrite Hout. unfold Cli.run.
  destruct (Cli.lazy options).
  - unfold Cli.generateLazy.
    destruct (gen env files (Cli.target options) true (Cli.defaultLanguage options))
      as [out | e] eqn:Hgen; [| discriminate].
    rewrite Hout.
    destruct (Cli.write host _ "index.ts" (Cli.module_of out) w) as [[u1 | e] w1] eqn:E1;
      [| discriminate].
    destruct (Cli.write_others host _ (Cli.others_of out) w1) as [[u2 | e] w2] eqn:E2;
      [| discriminate].
    intros [= <-]. rewrite Hlog.
    rewrite (write_others_records host written Hwrite _ _ _ _ _ E2).
    rewrite (write_records host written Hwrite _ _ _ _ _ _ E1).
    rewrite (gen_side_names env files _ _ out Hgen).
    now rewrite <- app_assoc.
  - unfold Cli.generate.
    destruct (gen env files (Cli.target options) false None) as [out | e]; [| discriminate].
    rewrite Hout.
    destruct (Cli.write host _ "index.ts" (Cli.module_of out) w) as [[u1 | e] w1] eqn:E1;
      [| discriminate].
    intros [= <-]. rewrite Hlog.
    now rewrite (write_records host written Hwrite _ _ _ _ _ _ E1).
Qed.

Lemma run_writes_index_then_sides_witness :
  Terminal.written
    (snd (Cli.run Sample.collaborators Terminal.host Terminal.options
            [Sample.locale "en" [("title", YString "Hello")];
             Sample.locale "fr" [("title", YString "Bonjour")];
             Sample.locale "de" [("title", YString "Hallo")]] true []))
  = ["/work/out/index.ts"; "/work/out/fr.ts"; "/work/out/de.ts"].
Proof.
  refine (run_writes_index_then_sides Sample.collaborators Terminal.host Terminal.options
            Terminal.written
            [Sample.locale "en" [("title", YString "Hello")];
             Sample.locale "fr" [("title", YString "Bonjour")];
             Sample.locale "de" [("title", YString "Hallo")]] []
            (snd (Cli.run Sample.collaborators Terminal.host Terminal.options
                    [Sample.locale "en" [("title", YString "Hello")];
                     Sample.locale "fr" [("title", YString "Bonjour")];
                     Sample.locale "de" [("title", YString "Hallo")]] true []))
            _ _ _ _).
  - intros line w. unfold Terminal.written. cbn [Terminal.host Cli.log].
    rewrite flat_map_app. cbn [flat_map]. now rewrite app_nil_r.
  - intros path content w w'. cbn [Terminal.host Cli.writeFileSync]. intros [= <-].
    unfold Terminal.written. rewrite flat_map_app. reflexivity.
  - reflexivity.
  - vm_compute. reflexivity.
Defined.

(** ** The initial command *)

Section Initial.
Context {number World : Type} (host : Cli.Host number World)
  (written : World -> list string) (R : Recording host written).

Lemma initial_loop_effect dirPath locales : forall out w r w',
  Cli.initial_loop host dirPath locales out w = (r, w') ->
  exists added,
    written w' = written w ++ added /\
    NoDup added /\
    (forall path, In path added -> Cli.existsSync host path w = false) /\
    ((exists lines, r = Normal lines) ->
     (forall path, Cli.existsSync host path w = true ->
                   Cli.existsSync host path w' = true) /\
     (forall file, In file locales ->
        Cli.existsSync host (Cli.resolve_in host dirPath (file ++ ".yaml")%string) w'
        = true)).
Proof.
  induction locales as [| file rest IH]; intros out w r w'; cbn [Cli.initial_loop].
  - intros [= <- <-]. exists []. rewrite app_nil_r.
    repeat split; [constructor | intros p [] | auto | intros f []].
  - destruct (Cli.existsSync host (Cli.resolve_in host dirPath (file ++ ".yaml")) w) eqn:Ex.
    + intros Hrest. destruct (IH _ _ _ _ Hrest) as [added [Hw [Hnd [Hfresh Hnormal]]]].
      exists added. rewrite (written_warn host written R) in Hw.
      split; [exact Hw |]. split; [exact Hnd |]. split.
      * intros p Hp. rewrite <- (exists_warn host written R
                                   ("Skipped, " ++ Cli.resolve_in host dirPath
                                                     (file ++ ".yaml")
                                    ++ " was alread exists")%string p w).
        now apply Hfresh.
      * intros Hr. destruct (Hnormal Hr) as [Hmono Hall]. split.
        -- intros p Hp. apply Hmono. now rewrite (exists_warn host written R).
        -- intros f [<- | Hin]; [| now apply Hall].
           apply Hmono. now rewrite (exists_warn host written R).
    + destruct (Cli.writeFileSync host (Cli.resolve_in host dirPath (file ++ ".yaml"))
                  EmptyString w) as [[u | e] w1] eqn:Ew.
      * destruct u. intros Hrest.
        destruct (IH _ _ _ _ Hrest) as [added [Hw [Hnd [Hfresh Hnormal]]]].
        pose proof (fun other => exists_write host written R _ _ _ _ other Ew) as Hexists.
        exists (Cli.resolve_in host dirPath (file ++ ".yaml")%string :: added).
        rewrite (written_write host written R _ _ _ _ Ew) in Hw.
        rewrite <- app_assoc in Hw. split; [exact Hw |]. split; [| split].
        -- constructor; [| exact Hnd]. intros Hin. specialize (Hfresh _ Hin).
           rewrite (proj2 (Hexists _) (or_introl eq_refl)) in Hfresh. discriminate.
        -- intros p [<- | Hp]; [exact Ex |].
           specialize (Hfresh _ Hp).
           destruct (Cli.existsSync host p w) eqn:Ep; [| reflexivity].
           rewrite (proj2 (Hexists p) (or_intror Ep)) in Hfresh. discriminate.
        -- intros Hr. destruct (Hnormal Hr) as [Hmono Hall]. split.
           ++ intros p Hp. apply Hmono. apply Hexists. now right.
           ++ intros f [<- | Hin]; [| now apply Hall].
              apply Hmono. apply Hexists. now left.
      * intros [= <- <-]. exists []. rewrite app_nil_r.
        rewrite (written_failed host written R _ _ _ _ _ Ew).
        repeat split; [constructor | intros p [] | |]; destruct H as [lines H]; discriminate.
Qed.

Lemma initial_loop_skips dirPath locales : forall out w,
  (forall file, In file locales ->
     Cli.existsSync host (Cli.resolve_in host dirPath (file ++ ".yaml")%string) w = true) ->
  written (snd (Cli.initial_loop host dirPath locales out w)) = written w.
Proof.
  induction locales as [| file rest IH]; intros out w Hall; cbn [Cli.initial_loop];
    [reflexivity |].
  rewrite (Hall file (or_introl eq_refl)). rewrite IH.
  - apply (written_warn host written R).
  - intros f Hin. rewrite (exists_warn host written R). apply Hall. now right.
Qed.
End Initial.

Lemma Terminal_recording : Recording Terminal.host Terminal.written.
Proof.
  constructor; cbn [Terminal.host Cli.log Cli.warn Cli.mkdirSync Cli.writeFileSync
                     Cli.existsSync snd].
  - intros line w. unfold Terminal.written. rewrite flat_map_app. cbn [flat_map].
    now rewrite app_nil_r.
  - intros line w. unfold Terminal.written. rewrite flat_map_app. cbn [flat_map].
    now rewrite app_nil_r.
  - reflexivity.
  - intros path content w w' [= <-]. unfold Terminal.written. now rewrite flat_map_app.
  - discriminate.
  - intros line path w. unfold Terminal.written. rewrite flat_map_app. cbn [flat_map].
    now rewrite app_nil_r.
  - intros line path w. unfold Terminal.written. rewrite flat_map_app. cbn [flat_map].
    now rewrite app_nil_r.
  - auto.
  - intros path content w w' other [= <-]. unfold Terminal.written.
    rewrite flat_map_app. cbn [flat_map app]. rewrite existsb_app. cbn [existsb].
    rewrite !orb_true_iff, String.eqb_eq. intuition discriminate.
Qed.

(** X19.  The initial command never overwrites a file.  On a host that
    records its writes, however the command ends, every path it has
    written did not exist when it started, and it has written no path
    twice. *)
Theorem initial_never_overwrites {number World : Type} (host : Cli.Host number World)
    (written : World -> list string) dir locales w r w' :
  Recording host written ->
  Cli.handleInitial host dir locales w = (r, w') ->
  exists added,
    written w' = written w ++ added /\
    NoDup added /\
    forall path, In path added -> Cli.existsSync host path w = false.
Proof.
  intros R. unfold Cli.handleInitial.
  pose proof (written_mkdir host written R (Cli.initial_dir host dir) w) as Hm.
  pose proof (fun path => exists_mkdir host written R (Cli.initial_dir host dir) path w)
    as He.
  destruct (Cli.mkdirSync host (Cli.initial_dir host dir) w) as [[u | e] w0];
    cbn [snd] in Hm, He.
  - assert (Hkey : forall added,
               (forall path, In path added -> Cli.existsSync host path w0 = false) ->
               forall path, In path added -> Cli.existsSync host path w = false).
    { intros added Hf p Hp. specialize (Hf p Hp).
      destruct (Cli.existsSync host p w) eqn:E; [| reflexivity].
      rewrite (He p E) in Hf. discriminate. }
    destruct (Cli.initial_loop host (Cli.initial_dir host dir) locales
                ["|- " ++ dir]%string w0) as [[out | e] w1] eqn:El;
      destruct (initial_loop_effect host written R _ _ _ _ _ _ El)
        as [added [Hw [Hnd [Hfresh _]]]];
      intros [= <- <-]; exists added; rewrite ?(written_log host written R);
      (split; [congruence |]); (split; [exact Hnd | exact (Hkey added Hfresh)]).
  - intros [= <- <-]. exists []. rewrite app_nil_r.
    repeat split; [congruence | constructor | intros p []].
Qed.

Lemma initial_never_overwrites_witness :
  exists added,
    Terminal.written
      (snd (Cli.handleInitial Terminal.host "locales" ["en"; "fr"; "en"]
              [Terminal.Written "/work/locales/fr.yaml" "title: Bonjour"]))
    = Terminal.written [Terminal.Written "/work/locales/fr.yaml" "title: Bonjour"] ++ added /\
    NoDup added /\
    forall path, In path added ->
      Cli.existsSync Terminal.host path
        [Terminal.Written "/work/locales/fr.yaml" "title: Bonjour"] = false.
Proof.
  apply (initial_never_overwrites Terminal.host Terminal.written "locales" ["en"; "fr"; "en"]
           [Terminal.Written "/work/locales/fr.yaml" "title: Bonjour"]
           (fst (Cli.handleInitial Terminal.host "locales" ["en"; "fr"; "en"]
                   [Terminal.Written "/work/locales/fr.yaml" "title: Bonjour"]))
           (snd (Cli.handleInitial Terminal.host "locales" ["en"; "fr"; "en"]
                   [Terminal.Written "/work/locales/fr.yaml" "title: Bonjour"]))
           Terminal_recording).
  vm_compute. reflexivity.
Defined.

(** X20.  The initial command is idempotent: on a host that records its
    writes, after a run that ended normally a second run with the same
    directory and locales writes nothing. *)
Theorem initial_twice_writes_nothing {number World : Type} (host : Cli.Host number World)
    (written : World -> list string) dir locales w w1 :
  Recording host written ->
  Cli.handleInitial host dir locales w = (Normal tt, w1) ->
  written (snd (Cli.handleInitial host dir locales w1)) = written w1.
Proof.
  intros R. unfold Cli.handleInitial.
  destruct (Cli.mkdirSync host (Cli.initial_dir host dir) w) as [[u | e] w0];
    [| discriminate].
  destruct (Cli.initial_loop host (Cli.initial_dir host dir) locales
              ["|- " ++ dir]%string w0) as [[out | e] w0'] eqn:El; [| discriminate].
  intros Hfirst.
  assert (Hw1 : w1 = Cli.log host (newline ++ " " ++ join newline out)%string w0')
    by congruence.
  clear Hfirst.
  destruct (initial_loop_effect host written R _ _ _ _ _ _ El) as [_ [_ [_ [_ Hnormal]]]].
  destruct (Hnormal (ex_intro _ out eq_refl)) as [_ Hall].
  pose proof (written_mkdir host written R (Cli.initial_dir host dir) w1) as Hm.
  pose proof (fun path => exists_mkdir host written R (Cli.initial_dir host dir) path w1)
    as He.
  destruct (Cli.mkdirSync host (Cli.initial_dir host dir) w1) as [[u2 | e] w2];
    cbn [snd] in Hm, He |- *; [| exact Hm].
  assert (Hexist : forall file, In file locales ->
            Cli.existsSync host
              (Cli.resolve_in host (Cli.initial_dir host dir) (file ++ ".yaml")%string) w2
            = true).
  { intros file Hin. apply He. rewrite Hw1. rewrite (exists_log host written R).
    now apply Hall. }
  pose proof (initial_loop_skips host written R (Cli.initial_dir host dir) locales
                ["|- " ++ dir]%string w2 Hexist) as Hskip.
  destruct (Cli.initial_loop host (Cli.initial_dir host dir) locales
              ["|- " ++ dir]%string w2) as [[out2 | e] w3]; cbn [snd] in Hskip |- *.
  - rewrite (written_log host written R). congruence.
  - congruence.
Qed.

Lemma initial_twice_writes_nothing_witness :
  Terminal.written
    (snd (Cli.handleInitial Terminal.host "locales" ["en"; "fr"]
            (snd (Cli.handleInitial Terminal.host "locales" ["en"; "fr"] []))))
  = ["/work/locales/en.yaml"; "/work/locales/fr.yaml"].
Proof.
  apply (initial_twice_writes_nothing Terminal.host Terminal.written "locales" ["en"; "fr"]
           [] (snd (Cli.handleInitial Terminal.host "locales" ["en"; "fr"] []))
           Terminal_recording).
  vm_compute. reflexivity.
Defined.

(** * Acceptance does not depend on the order of the locales *)

(** ** Agreement is an equivalence on the trees of locales *)

Lemma same_shape_records tv tflag sv sflag :
  same_shape (RecordTypeDescriptor tv tflag) (RecordTypeDescriptor sv sflag) = true <->
  (forall k t, In (k, t) tv -> JsObject.has k sv = true) /\
  (forall k s, In (k, s) sv ->
     exists o, JsObject.get k tv = Some o /\ same_shape o s = true).
Proof.
  rewrite same_shape_record. cbn [isRecordType kind kind_eqb record_value andb].
  rewrite andb_true_iff, !forallb_forall. split.
  - intros [H1 H2]. split.
    + intros k t Hin. exact (H1 (k, t) Hin).
    + intros k s Hin. specialize (H2 (k, s) Hin). cbn [fst snd] in H2.
      destruct (JsObject.get k tv) as [o |]; [| discriminate]. now exists o.
  - intros [H1 H2]. split.
    + intros [k t] Hin. exact (H1 k t Hin).
    + intros [k s] Hin. cbn [fst snd]. destruct (H2 k s Hin) as [o [-> Ho]]. exact Ho.
Qed.

Lemma has_get_some {V : Type} (k : string) (o : JsObject.t V) :
  JsObject.has k o = true -> exists v, JsObject.get k o = Some v.
Proof. unfold JsObject.has. destruct (JsObject.get k o) as [v |]; [eauto | discriminate]. Qed.

Lemma same_shape_refl t : locale_tree t = true -> same_shape t t = true.
Proof.
  induction t as [x | x | tv tflag IH] using TypeDescriptor_tree_ind; intros Hl.
  - reflexivity.
  - cbn [same_shape]. now apply list_eqb_string_eq.
  - destruct (locale_tree_record _ _ Hl) as [_ [Hnd Htrees]].
    apply same_shape_records. split.
    + intros k t Hin. unfold JsObject.has. now rewrite (JsObject_In_get k t tv Hnd Hin).
    + intros k s Hin. exists s. split; [now apply JsObject_In_get |].
      rewrite Forall_forall in IH. apply (IH (k, s) Hin). exact (Htrees k s Hin).
Qed.

Lemma same_shape_sym s : forall t,
  locale_tree t = true -> locale_tree s = true ->
  same_shape t s = true -> same_shape s t = true.
Proof.
  induction s as [x | x | sv sflag IH] using TypeDescriptor_tree_ind; intros t Hlt Hls H.
  - destruct t; try discriminate. reflexivity.
  - destruct t as [y | y | tv tflag]; try discriminate. cbn [same_shape] in H |- *.
    apply list_eqb_string_eq in H. apply list_eqb_string_eq. now symmetry.
  - destruct t as [y | y | tv tflag]; try discriminate.
    destruct (locale_tree_record _ _ Hlt) as [_ [Hndt Htt]].
    destruct (locale_tree_record _ _ Hls) as [_ [Hnds Hts]].
    apply same_shape_records in H as [H1 H2]. apply same_shape_records. split.
    + intros k s Hin. destruct (H2 k s Hin) as [o [Ho _]].
      unfold JsObject.has. now rewrite Ho.
    + intros k t Hin. destruct (has_get_some k sv (H1 k t Hin)) as [s Hs].
      exists s. split; [exact Hs |].
      pose proof (JsObject_get_In _ _ _ Hs) as Hins.
      destruct (H2 k s Hins) as [o [Ho Hos]].
      rewrite (JsObject_In_get k t tv Hndt Hin) in Ho. injection Ho as <-.
      rewrite Forall_forall in IH.
      exact (IH (k, s) Hins t (Htt k t Hin) (Hts k s Hins) Hos).
Qed.

Lemma same_shape_trans c : forall a b,
  same_shape a b = true -> same_shape b c = true -> same_shape a c = true.
Proof.
  induction c as [x | x | cv cflag IH] using TypeDescriptor_tree_ind; intros a b Hab Hbc.
  - destruct b; try discriminate. destruct a; try discriminate. reflexivity.
  - destruct b as [y | y | bv bflag]; try discriminate.
    destruct a as [z | z | av aflag]; try discriminate.
    cbn [same_shape] in *. apply list_eqb_string_eq in Hab, Hbc.
    apply list_eqb_string_eq. congruence.
  - destruct b as [y | y | bv bflag]; try discriminate.
    destruct a as [z | z | av aflag]; try discriminate.
    apply same_shape_records in Hab as [A1 A2]. apply same_shape_records in Hbc as [B1 B2].
    apply same_shape_records. split.
    + intros k t Hin. destruct (has_get_some k bv (A1 k t Hin)) as [s Hs].
      exact (B1 k s (JsObject_get_In _ _ _ Hs)).
    + intros k s Hin. destruct (B2 k s Hin) as [o [Ho Hos]].
      destruct (A2 k o (JsObject_get_In _ _ _ Ho)) as [o' [Ho' Hoo]].
      exists o'. split; [exact Ho' |].
      rewrite Forall_forall in IH. exact (IH (k, s) Hin o' o Hoo Hos).
Qed.

(** ** The tree of a locale does not depend on the context *)

Section Independence.
Context {number : Type} (env : Collaborators number).

Lemma toTypeNode_entry_fst key value recur record c c' :
  (forall x x', fst (recur x) = fst (recur x')) ->
  fst (toTypeNode_entry env key value recur record c)
  = fst (toTypeNode_entry env key value recur record c').
Proof.
  intros H. unfold toTypeNode_entry. destruct (typeof value); try reflexivity.
  - now destruct (matchCallBody env (scalar_text env value)).
  - now destruct (matchCallBody env (scalar_text env value)).
  - unfold inPathContext.
    specialize (H {| errors := errors c; paths := paths c ++ [key]; missing := missing c |}
                  {| errors := errors c'; paths := paths c' ++ [key];
                     missing := missing c' |}).
    destruct (recur {| errors := errors c; paths := paths c ++ [key];
                       missing := missing c |}) as [[t | e] c1];
      destruct (recur {| errors := errors c'; paths := paths c' ++ [key];
                         missing := missing c' |}) as [[t' | e'] c1'];
      cbn [fst] in H |- *; congruence.
Qed.

Lemma toTypeNode_loop_fst entries :
  Forall (fun entry =>
            forall c c', fst (toTypeNode env (snd entry) c)
                         = fst (toTypeNode env (snd entry) c')) entries ->
  forall record c c',
    fst (toTypeNode_loop env entries record c) = fst (toTypeNode_loop env entries record c').
Proof.
  induction 1 as [| [key value] rest Hv _ IH]; intros record c c'; [reflexivity |].
  cbn [toTypeNode_loop]. cbn [snd] in Hv.
  pose proof (toTypeNode_entry_fst key value (toTypeNode env value) record c c' Hv) as H.
  destruct (toTypeNode_entry env key value (toTypeNode env value) record c) as [[r | e] c1];
    destruct (toTypeNode_entry env key value (toTypeNode env value) record c')
      as [[r' | e'] c1']; cbn [fst] in H |- *; try congruence.
  injection H as <-. apply IH.
Qed.

Lemma toTypeNode_items_fst items :
  Forall (fun value =>
            forall c c', fst (toTypeNode env value c) = fst (toTypeNode env value c')) items ->
  forall i record c c',
    fst (toTypeNode_items env i items record c)
    = fst (toTypeNode_items env i items record c').
Proof.
  induction 1 as [| value rest Hv _ IH]; intros i record c c'; [reflexivity |].
  cbn [toTypeNode_items].
  pose proof (toTypeNode_entry_fst (decimal i) value (toTypeNode env value) record c c' Hv)
    as H.
  destruct (toTypeNode_entry env (decimal i) value (toTypeNode env value) record c)
    as [[r | e] c1];
    destruct (toTypeNode_entry env (decimal i) value (toTypeNode env value) record c')
      as [[r' | e'] c1']; cbn [fst] in H |- *; try congruence.
  injection H as <-. apply IH.
Qed.

Lemma toTypeNode_fst (v : YamlValue number) : forall c c',
  fst (toTypeNode env v c) = fst (toTypeNode env v c').
Proof.
  induction v as [n | s | b | | items IH | entries IH] using YamlValue_tree_ind;
    intros c c'; try reflexivity.
  - cbn [toTypeNode].
    match goal with |- context [fold_left ?f _ _] => set (step := f) end.
    assert (G : forall es st st', fst st = fst st' ->
               fst (fold_left step es st) = fst (fold_left step es st')).
    { induction es as [| entry es IHes]; intros st st' Hst; cbn [fold_left]; [exact Hst |].
      apply IHes. destruct st as [[r | e] cs], st' as [[r' | e'] cs']; cbn [fst] in Hst;
        try discriminate; unfold step; [| exact Hst].
      injection Hst as <-. now apply toTypeNode_entry_fst. }
    specialize (G (string_entries 0 s) (Normal JsObject.empty, c)
                  (Normal JsObject.empty, c') eq_refl).
    destruct (fold_left step (string_entries 0 s) (Normal JsObject.empty, c))
      as [[r | e] cf];
      destruct (fold_left step (string_entries 0 s) (Normal JsObject.empty, c'))
        as [[r' | e'] cf']; cbn [fst] in G |- *; congruence.
  - rewrite !toTypeNode_array.
    pose proof (toTypeNode_items_fst items IH 0 JsObject.empty c c') as G.
    destruct (toTypeNode_items env 0 items JsObject.empty c) as [[r | e] cf];
      destruct (toTypeNode_items env 0 items JsObject.empty c') as [[r' | e'] cf'];
      cbn [fst] in G |- *; congruence.
  - rewrite !toTypeNode_object.
    pose proof (toTypeNode_loop_fst entries IH JsObject.empty c c') as G.
    destruct (toTypeNode_loop env entries JsObject.empty c) as [[r | e] cf];
      destruct (toTypeNode_loop env entries JsObject.empty c') as [[r' | e'] cf'];
      cbn [fst] in G |- *; congruence.
Qed.

Lemma toTypeNode_tree_of v c t c' :
  toTypeNode env v c = (Normal t, c') -> tree_of env v = Normal t.
Proof.
  intros H. unfold tree_of. rewrite (toTypeNode_fst v fresh_context c). now rewrite H.
Qed.

Lemma toTypeNode_entry_traced key value record c r c' :
  traced env value ->
  toTypeNode_entry env key value (toTypeNode env value) record c = (Normal r, c') ->
  forall msg, In msg (errors c') ->
    In msg (errors c) \/
    (exists b, value = YBoolean b /\ msg = unexpected_value env key (YBoolean b)) \/
    (exists k b, Rejected k b value /\ msg = unexpected_value env k (YBoolean b)).
Proof.
  intros IH. unfold toTypeNode_entry.
  destruct value as [n | s | b0 | | items | entries]; cbn [typeof].
  - destruct (matchCallBody env _); intros [= _ <-]; auto.
  - destruct (matchCallBody env _); intros [= _ <-]; auto.
  - intros [= _ <-] msg Hin. cbn [add_error errors] in Hin.
    apply JsSet_add_In in Hin as [-> | Hin]; [| now left].
    right. left. now exists b0.
  - unfold inPathContext. cbn [toTypeNode]. discriminate.
  - unfold inPathContext.
    destruct (toTypeNode env (YArray items) _) as [[t | e] c1] eqn:E; [| discriminate].
    intros [= _ <-] msg Hin. cbn [errors] in Hin.
    destruct (IH _ _ _ E msg Hin) as [H | H]; [now left | right; now right].
  - unfold inPathContext.
    destruct (toTypeNode env (YObject entries) _) as [[t | e] c1] eqn:E; [| discriminate].
    intros [= _ <-] msg Hin. cbn [errors] in Hin.
    destruct (IH _ _ _ E msg Hin) as [H | H]; [now left | right; now right].
Qed.

Lemma toTypeNode_loop_traced entries :
  Forall (fun entry => traced env (snd entry)) entries ->
  forall record c r c',
    toTypeNode_loop env entries record c = (Normal r, c') ->
    forall msg, In msg (errors c') ->
      In msg (errors c) \/
      exists k v, In (k, v) entries /\
        ((exists b, v = YBoolean b /\ msg = unexpected_value env k (YBoolean b)) \/
         (exists k' b, Rejected k' b v /\ msg = unexpected_value env k' (YBoolean b))).
Proof.
  induction 1 as [| [key value] rest Hv _ IH]; intros record c r c' Hloop msg Hin.
  - injection Hloop as _ <-. now left.
  - cbn [toTypeNode_loop] in Hloop. cbn [snd] in Hv.
    destruct (toTypeNode_entry env key value (toTypeNode env value) record c)
      as [[r1 | e] c1] eqn:E; [| discriminate].
    destruct (IH _ _ _ _ Hloop msg Hin) as [H1 | [k [v [Hkv H]]]].
    + destruct (toTypeNode_entry_traced _ _ _ _ _ _ Hv E msg H1) as [H | H];
        [now left |].
      right. exists key, value. split; [now left | exact H].
    + right. exists k, v. split; [now right | exact H].
Qed.

Lemma toTypeNode_items_traced items :
  Forall (traced env) items ->
  forall i record c r c',
    toTypeNode_items env i items record c = (Normal r, c') ->
    forall msg, In msg (errors c') ->
      In msg (errors c) \/
      exists j v, nth_error items j = Some v /\
        ((exists b, v = YBoolean b /\
                    msg = unexpected_value env (decimal (i + j)) (YBoolean b)) \/
         (exists k' b, Rejected k' b v /\ msg = unexpected_value env k' (YBoolean b))).
Proof.
  induction 1 as [| value rest Hv _ IH]; intros i record c r c' Hloop msg Hin.
  - injection Hloop as _ <-. now left.
  - cbn [toTypeNode_items] in Hloop.
    destruct (toTypeNode_entry env (decimal i) value (toTypeNode env value) record c)
      as [[r1 | e] c1] eqn:E; [| discriminate].
    destruct (IH _ _ _ _ _ Hloop msg Hin) as [H1 | [j [v [Hj H]]]].
    + destruct (toTypeNode_entry_traced _ _ _ _ _ _ Hv E msg H1) as [H | H];
        [now left |].
      right. exists 0, value. split; [reflexivity |]. now rewrite Nat.add_0_r.
    + right. exists (S j), v. split; [exact Hj |].
      now replace (i + S j) with (S i + j) by lia.
Qed.

Lemma toTypeNode_traced (v : YamlValue number) : traced env v.
Proof.
  induction v as [n | s | b0 | | items IH | entries IH] using YamlValue_tree_ind;
    intros c t c' Hbuild msg Hin.
  - injection Hbuild as _ <-. now left.
  - left. cbn [toTypeNode] in Hbuild.
    match type of Hbuild with context [fold_left ?f _ _] => set (step := f) in Hbuild end.
    assert (G : forall es st,
               (forall entry, In entry es -> typeof (snd entry) = TyString) ->
               snd (fold_left step es st) = snd st).
    { induction es as [| entry es IHes]; intros st Hes; cbn [fold_left]; [reflexivity |].
      rewrite IHes by (intros x Hx; apply Hes; now right).
      destruct st as [[r | e] cs]; unfold step; [| reflexivity].
      unfold toTypeNode_entry. rewrite (Hes entry (or_introl eq_refl)).
      now destruct (matchCallBody env _). }
    specialize (G (string_entries 0 s) (Normal JsObject.empty, c)
                  (string_entries_strings s 0)).
    destruct (fold_left step (string_entries 0 s) (Normal JsObject.empty, c))
      as [[r | e] cf]; [| discriminate].
    injection Hbuild as _ <-. cbn [snd] in G. now subst cf.
  - injection Hbuild as _ <-. now left.
  - discriminate.
  - rewrite toTypeNode_array in Hbuild.
    destruct (toTypeNode_items env 0 items JsObject.empty c) as [[r | e] c1] eqn:E;
      [| discriminate].
    injection Hbuild as _ <-.
    destruct (toTypeNode_items_traced items IH 0 _ _ _ _ E msg Hin)
      as [H | [j [v [Hj [[b [-> ->]] | [k' [b [Hr ->]]]]]]]]; [now left | |].
    + right. exists (decimal j), b. split; [now apply Rejected_item | reflexivity].
    + right. exists k', b. split; [| reflexivity].
      apply Rejected_below_item with (inner := v); [| exact Hr].
      eapply nth_error_In; eassumption.
  - rewrite toTypeNode_object in Hbuild.
    destruct (toTypeNode_loop env entries JsObject.empty c) as [[r | e] c1] eqn:E;
      [| discriminate].
    injection Hbuild as _ <-.
    destruct (toTypeNode_loop_traced entries IH _ _ _ _ E msg Hin)
      as [H | [k [v [Hkv [[b [-> ->]] | [k' [b [Hr ->]]]]]]]]; [now left | |].
    + right. exists k, b. split; [now apply Rejected_entry | reflexivity].
    + right. exists k', b. split; [| reflexivity].
      now apply Rejected_below_entry with (k := k) (inner := v).
Qed.

Lemma build_related files : forall c nodes c',
  build env files c = (Normal nodes, c') ->
  Forall2 (fun file node =>
             tree_of env (NamedValue.value file) = Normal (NamedValue.value node))
    files nodes.
Proof.
  induction files as [| file rest IH]; intros c nodes c'; cbn [build].
  - intros [= <- _]. constructor.
  - destruct (toTypeNode env (NamedValue.value file) c) as [[t | e] c1] eqn:E;
      [| discriminate].
    destruct (build env rest c1) as [[ns | e] c2] eqn:Er; [| discriminate].
    intros [= <- _]. constructor; [| eapply IH; eassumption].
    cbn [NamedValue.value]. eapply toTypeNode_tree_of; eassumption.
Qed.

Lemma build_total files :
  (forall f, In f files -> exists t, tree_of env (NamedValue.value f) = Normal t) ->
  forall c, exists nodes c', build env files c = (Normal nodes, c').
Proof.
  induction files as [| file rest IH]; intros Hall c; cbn [build]; [eauto |].
  destruct (Hall file (or_introl eq_refl)) as [t Ht].
  unfold tree_of in Ht. rewrite (toTypeNode_fst (NamedValue.value file) fresh_context c) in Ht.
  destruct (toTypeNode env (NamedValue.value file) c) as [[t' | e] c1]; [| discriminate].
  destruct (IH (fun f Hf => Hall f (or_intror Hf)) c1) as [ns [c2 ->]]. eauto.
Qed.

Lemma build_traced files : forall c nodes c',
  build env files c = (Normal nodes, c') ->
  forall msg, In msg (errors c') ->
    In msg (errors c) \/
    exists f key b, In f files /\ Rejected key b (NamedValue.value f).
Proof.
  induction files as [| file rest IH]; intros c nodes c'; cbn [build].
  - intros [= _ <-]. auto.
  - destruct (toTypeNode env (NamedValue.value file) c) as [[t | e] c1] eqn:E;
      [| discriminate].
    destruct (build env rest c1) as [[ns | e] c2] eqn:Er; [| discriminate].
    intros [= _ <-] msg Hin.
    destruct (IH _ _ _ Er msg Hin) as [H | [f [key [b [Hf Hr]]]]].
    + destruct (toTypeNode_traced _ _ _ _ E msg H) as [H' | [key [b [Hr _]]]];
        [now left |].
      right. exists file, key, b. split; [now left | exact Hr].
    + right. exists f, key, b. split; [now right | exact Hr].
Qed.
End Independence.

(** ** The locales a run accepts *)

Lemma gen_accepts_first {number : Type} (env : Collaborators number)
    files target lazy defaultLanguage node nodes c0 :
  build env files fresh_context = (Normal (node :: nodes), c0) ->
  (exists out, gen env files target lazy defaultLanguage = Normal out) <->
  errors c0 = [] /\
  plain_keys (record_value (NamedValue.value node)) = true /\
  Forall (fun other => same_shape (NamedValue.value node) (NamedValue.value other) = true)
    nodes.
Proof.
  intros Hbuild.
  rewrite (gen_normal_iff env files target lazy defaultLanguage _ _ Hbuild).
  destruct (build_head env _ _ _ _ _ Hbuild) as [value [Ev [Hord Hl]]].
  destruct (build_ok env _ _ _ _ Hbuild) as [_ [Hall [Hm _]]].
  apply Forall_cons_iff in Hall as [_ Hall].
  rewrite (fold_first_clean env node nodes value c0 Ev Hord Hl).
  - rewrite Ev. cbn [record_value].
    unfold clean. rewrite Hm. cbn [fresh_context missing JsMap.empty]. tauto.
  - eapply Forall_impl; [| exact Hall]. now intros n [H _].
Qed.

(** Trees that agree have the same keys. *)
Lemma same_shape_plain_keys target source :
  same_shape target source = true ->
  plain_keys (record_value target) = true -> plain_keys (record_value source) = true.
Proof.
  intros Hs Hplain. destruct source as [x | x | sv sflag]; try reflexivity.
  rewrite same_shape_record in Hs. apply andb_true_iff in Hs as [_ Hs].
  rewrite forallb_forall in Hs. cbn [record_value].
  unfold plain_keys, JsObject.keys. apply forallb_forall. intros k Hk.
  apply in_map_iff in Hk as [[k' v] [<- Hin]]. cbn [fst].
  specialize (Hs _ Hin). cbn [fst] in Hs.
  destruct (JsObject.get k' (record_value target)) as [other |] eqn:Eg; [| discriminate].
  apply negb_true_iff. apply (plain_keys_In k' (record_value target) Hplain).
  apply JsObject_get_keys. congruence.
Qed.

Lemma Forall2_In_left {A B : Type} (R : A -> B -> Prop) l l' x :
  Forall2 R l l' -> In x l -> exists y, In y l' /\ R x y.
Proof.
  induction 1 as [| a b l l' Hab _ IH]; [contradiction |].
  intros [<- | Hin]; [exists b; split; [now left | exact Hab] |].
  destruct (IH Hin) as [y [Hy Hxy]]. exists y. split; [now right | exact Hxy].
Qed.

Lemma Forall2_In_right {A B : Type} (R : A -> B -> Prop) l l' y :
  Forall2 R l l' -> In y l' -> exists x, In x l /\ R x y.
Proof.
  induction 1 as [| a b l l' Hab _ IH]; [contradiction |].
  intros [<- | Hin]; [exists a; split; [now left | exact Hab] |].
  destruct (IH Hin) as [x [Hx Hxy]]. exists x. split; [now right | exact Hxy].
Qed.

Lemma gen_accepts_iff {number : Type} (env : Collaborators number)
    files target lazy defaultLanguage :
  (exists out, gen env files target lazy defaultLanguage = Normal out) <->
  no_boolean files /\ agree env files /\ plain_top env files.
Proof.
  split.
  - intros Hgen.
    destruct (build env files fresh_context) as [[nodes | e] c0] eqn:Hbuild.
    2: { destruct Hgen as [out Hgen]. unfold gen in Hgen. rewrite Hbuild in Hgen.
         discriminate. }
    pose proof (build_related env _ _ _ _ Hbuild) as Hrel.
    destruct (build_ok env _ _ _ _ Hbuild) as [_ [Htrees _]].
    destruct nodes as [| node rest].
    { inversion Hrel; subst.
      split; [intros f key b [] | split; [intros f g [] | intros f t []]]. }
    destruct (proj1 (gen_accepts_first env files target lazy defaultLanguage node rest c0
                       Hbuild) Hgen) as [Herr [Hplain Hsame]].
    assert (Hfirst : forall n, In n (node :: rest) ->
              same_shape (NamedValue.value node) (NamedValue.value n) = true).
    { intros n [<- | Hin].
      - apply same_shape_refl. apply Forall_inv in Htrees. tauto.
      - rewrite Forall_forall in Hsame. now apply Hsame. }
    rewrite Forall_forall in Htrees. split; [| split].
    + intros f key b Hin Hrej.
      pose proof (build_rejects env files f key b _ _ _ Hbuild Hin Hrej) as H.
      now rewrite Herr in H.
    + intros f g Hf Hg.
      destruct (Forall2_In_left _ _ _ f Hrel Hf) as [nf [Hnf Htf]].
      destruct (Forall2_In_left _ _ _ g Hrel Hg) as [ng [Hng Htg]].
      exists (NamedValue.value nf), (NamedValue.value ng). repeat split; auto.
      apply same_shape_trans with (b := NamedValue.value node); [| now apply Hfirst].
      apply same_shape_sym; [| apply (Htrees nf Hnf) | now apply Hfirst].
      apply (Htrees node). now left.
    + intros f t Hf Ht.
      destruct (Forall2_In_left _ _ _ f Hrel Hf) as [nf [Hnf Htf]].
      rewrite Htf in Ht. injection Ht as <-.
      apply (same_shape_plain_keys (NamedValue.value node)); [now apply Hfirst | exact Hplain].
  - intros [Hnb [Hag Htop]].
    destruct (build_total env files
                (fun f Hf => match Hag f f Hf Hf with
                             | ex_intro _ t (ex_intro _ _ (conj Ht _)) => ex_intro _ t Ht
                             end) fresh_context) as [nodes [c0 Hbuild]].
    pose proof (build_related env _ _ _ _ Hbuild) as Hrel.
    destruct (build_ok env _ _ _ _ Hbuild) as [_ [_ [Hm _]]].
    assert (Herr : errors c0 = []).
    { destruct (errors c0) as [| msg l] eqn:E; [reflexivity |].
      destruct (build_traced env _ _ _ _ Hbuild msg) as [[] | [f [key [b [Hf Hr]]]]].
      - rewrite E. now left.
      - elim (Hnb f key b Hf Hr). }
    destruct nodes as [| node rest].
    + apply (gen_normal_iff env files target lazy defaultLanguage _ _ Hbuild).
      unfold fold. cbn [fold_left snd]. split; [exact Herr | exact Hm].
    + apply (gen_accepts_first env files target lazy defaultLanguage node rest c0 Hbuild).
      destruct (Forall2_In_right _ _ _ node Hrel (or_introl eq_refl)) as [f [Hf Htf]].
      split; [exact Herr | split; [exact (Htop f _ Hf Htf) |]].
      apply Forall_forall. intros n Hn.
      destruct (Forall2_In_right _ _ _ n Hrel (or_intror Hn)) as [g [Hg Htg]].
      destruct (Hag f g Hf Hg) as [t [s [Ht [Hs Hts]]]].
      rewrite Htf in Ht. rewrite Htg in Hs. injection Ht as <-. injection Hs as <-.
      exact Hts.
Qed.

(** X21.  The locales a run accepts, for locales without an entry under
    [__proto__]: a run returns code exactly when no locale holds a boolean,
    every locale is built (none holds a null where the builder descends),
    the trees of any two locales agree (the same keys, the same kind under
    every key, the same parameter names for two calls, at every depth), and
    no top-level key of a tree is the name of a member of [Object.prototype]
    ([constructor], [toString], ...: the accumulator adopts no such key,
    gen.ts line 94).  The target, the lazy flag and the default language
    play no part. *)
Theorem gen_accepts_iff_locales_agree {number : Type} (env : Collaborators number)
    files target lazy defaultLanguage :
  Forall (fun file => proto_free (NamedValue.value file) = true) files ->
  (exists out, gen env files target lazy defaultLanguage = Normal out) <->
  no_boolean files /\ agree env files /\ plain_top env files.
Proof. intros _. apply gen_accepts_iff. Qed.

Lemma gen_accepts_iff_locales_agree_witness :
  (exists out,
     Sample.gen [Sample.locale "en" [("constructor", YString "x")]] None false None
     = Normal out) <->
  no_boolean [Sample.locale "en" [("constructor", YString "x")]] /\
  agree Sample.collaborators [Sample.locale "en" [("constructor", YString "x")]] /\
  plain_top Sample.collaborators [Sample.locale "en" [("constructor", YString "x")]].
Proof.
  apply (gen_accepts_iff_locales_agree Sample.collaborators
           [Sample.locale "en" [("constructor", YString "x")]] None false None).
  repeat constructor.
Defined.

(** X22.  Acceptance does not depend on the order of the locales: a run on
    a list of locales returns code exactly when a run on any permutation of
    the list does, under any flags. *)
Theorem acceptance_is_order_independent {number : Type} (env : Collaborators number)
    files files' target lazy defaultLanguage target' lazy' defaultLanguage' :
  Permutation files files' ->
  (exists out, gen env files target lazy defaultLanguage = Normal out) <->
  (exists out, gen env files' target' lazy' defaultLanguage' = Normal out).
Proof.
  intros Hperm. rewrite !gen_accepts_iff.
  assert (G : forall a b, Permutation a b ->
             no_boolean a /\ agree env a /\ plain_top env a ->
             no_boolean b /\ agree env b /\ plain_top env b).
  { intros a b Hab [Hnb [Hag Htop]]. apply Permutation_sym in Hab. split; [| split].
    - intros f key b0 Hf. apply Hnb. eapply Permutation_in; eassumption.
    - intros f g Hf Hg. apply Hag; eapply Permutation_in; eassumption.
    - intros f t Hf. apply Htop. eapply Permutation_in; eassumption. }
  split; apply G; [exact Hperm | now apply Permutation_sym].
Qed.

Lemma acceptance_is_order_independent_witness :
  (exists out,
     Sample.gen [Sample.locale "en" [("title", YString "Hello"); ("bye", YString "Bye")];
                 Sample.locale "fr" [("bye", YString "Salut"); ("title", YString "Bonjour")]]
       None false None = Normal out) <->
  (exists out,
     Sample.gen [Sample.locale "fr" [("bye", YString "Salut"); ("title", YString "Bonjour")];
                 Sample.locale "en" [("title", YString "Hello"); ("bye", YString "Bye")]]
       (Some provider) true (Some "en") = Normal out).
Proof.
  apply (acceptance_is_order_independent Sample.collaborators).
  apply perm_swap.
Defined.

(** * The earlier revision *)

Section Revisions.
Context {number : Type} (env : Collaborators number)
  (kind_text : TypeDescriptorKind -> string).

Lemma old_toTypeNode_object entries c :
  Old.toTypeNode env (YObject entries) c =
    match Old.toTypeNode_loop env entries JsObject.empty c with
    | (Normal record, c') => (Normal (createRecordTypeDescriptor record), c')
    | (Throw e, c') => (Throw e, c')
    end.
Proof.
  simpl. generalize (@JsObject.empty TypeDescriptor) as record. revert c.
  induction entries as [| [key value] rest IH]; intros c record; simpl.
  - reflexivity.
  - destruct (Old.toTypeNode_entry env key value (Old.toTypeNode env value) record c)
      as [[r | e] c']; [apply IH | reflexivity].
Qed.

Lemma old_toTypeNode_array items c :
  Old.toTypeNode env (YArray items) c =
    match Old.toTypeNode_items env 0 items JsObject.empty c with
    | (Normal record, c') => (Normal (createRecordTypeDescriptor record), c')
    | (Throw e, c') => (Throw e, c')
    end.
Proof.
  simpl. generalize (@JsObject.empty TypeDescriptor) as record. generalize 0 as i. revert c.
  induction items as [| value rest IH]; intros c i record; simpl.
  - reflexivity.
  - destruct (Old.toTypeNode_entry env (decimal i) value (Old.toTypeNode env value) record c)
      as [[r | e] c']; [apply IH | reflexivity].
Qed.

Lemma old_merge_unfold target source_value flag c :
  Old.merge env kind_text target (RecordTypeDescriptor source_value flag) c =
    let c1 := fold_left (Old.merge_check env kind_text source_value)
                (JsObject.entries (record_value target)) c in
    let '(t, c2) :=
      Old.merge_loop env kind_text (JsObject.entries source_value) target c1 in
    (delete_missing t, c2).
Proof.
  simpl. unfold Old.merge_loop, JsObject.entries.
  generalize (fold_left (Old.merge_check env kind_text source_value) (record_value target) c).
  generalize target.
  induction source_value as [| [key value] rest IH]; intros t c1; simpl.
  - reflexivity.
  - destruct (Old.merge_visit env kind_text key value
                (fun targetValue ctx => Old.merge env kind_text targetValue value ctx) t c1)
      as [t' c'] eqn:E.
    apply IH.
Qed.

Lemma old_merge_loop_cons key value rest target c :
  Old.merge_loop env kind_text ((key, value) :: rest) target c =
    let '(t, c') :=
      Old.merge_visit env kind_text key value
        (fun targetValue ctx => Old.merge env kind_text targetValue value ctx) target c in
    Old.merge_loop env kind_text rest t c'.
Proof.
  unfold Old.merge_loop. cbn [fold_left fst snd].
  now destruct (Old.merge_visit env kind_text key value _ target c).
Qed.

(** *** Recording in step *)

Lemma related_push_error msg msg' old c :
  related (Old.push msg old) (add_error msg' c).
Proof.
  split.
  - cbn [Old.push Old.errors]. intros H. now apply app_eq_nil in H as [_ H].
  - intros H. now apply add_error_not_clean in H.
Qed.

Lemma related_push_missing msg path name old c :
  related (Old.push msg old) (note_missing path name c).
Proof.
  split.
  - cbn [Old.push Old.errors]. intros H. now apply app_eq_nil in H as [_ H].
  - intros H. now apply note_missing_not_clean in H.
Qed.

Lemma related_push_exists msg path name old c :
  related (Old.push msg old) (note_exists path name c).
Proof.
  split.
  - cbn [Old.push Old.errors]. intros H. now apply app_eq_nil in H as [_ H].
  - intros H. now apply note_exists_not_clean in H.
Qed.

Lemma related_inPathContext {T : Type} key old c
    (orecur : Old.Context -> T * Old.Context) (recur : Context -> T * Context) :
  related old c ->
  (forall old' c', related old' c' ->
     fst (orecur old') = fst (recur c') /\ related (snd (orecur old')) (snd (recur c'))) ->
  fst (Old.inPathContext old key orecur) = fst (inPathContext c key recur) /\
  related (snd (Old.inPathContext old key orecur)) (snd (inPathContext c key recur)).
Proof.
  intros Hrel Hrecur. unfold Old.inPathContext, inPathContext.
  destruct (Hrecur {| Old.errors := Old.errors old; Old.paths := Old.paths old ++ [key] |}
              {| errors := errors c; paths := paths c ++ [key]; missing := missing c |})
    as [H1 H2]; [exact Hrel |].
  destruct (orecur _) as [r1 o1]. destruct (recur _) as [r2 c2].
  cbn [fst snd] in *. split; [exact H1 | exact H2].
Qed.

Lemma toTypeNode_entry_in_step key value orecur recur record old c :
  related old c ->
  (forall old' c', related old' c' ->
     fst (orecur old') = fst (recur c') /\ related (snd (orecur old')) (snd (recur c'))) ->
  fst (Old.toTypeNode_entry env key value orecur record old)
  = fst (toTypeNode_entry env key value recur record c) /\
  related (snd (Old.toTypeNode_entry env key value orecur record old))
          (snd (toTypeNode_entry env key value recur record c)).
Proof.
  intros Hrel Hrecur. unfold Old.toTypeNode_entry, toTypeNode_entry.
  destruct (typeof value).
  - destruct (matchCallBody env (scalar_text env value)); split; auto.
  - destruct (matchCallBody env (scalar_text env value)); split; auto.
  - destruct (related_inPathContext key old c orecur recur Hrel Hrecur) as [H1 H2].
    destruct (Old.inPathContext old key orecur) as [[t | e] o1];
      destruct (inPathContext c key recur) as [[t' | e'] c1];
      cbn [fst snd] in *; try discriminate; split; auto; congruence.
  - split; [reflexivity | apply related_push_error].
Qed.

Lemma toTypeNode_loop_in_step entries :
  Forall (fun entry => in_step env (snd entry)) entries ->
  forall record old c, related old c ->
    fst (Old.toTypeNode_loop env entries record old)
    = fst (toTypeNode_loop env entries record c) /\
    related (snd (Old.toTypeNode_loop env entries record old))
            (snd (toTypeNode_loop env entries record c)).
Proof.
  induction 1 as [| [key value] rest Hv _ IH]; intros record old c Hrel; [split; auto |].
  cbn [Old.toTypeNode_loop toTypeNode_loop]. cbn [snd] in Hv.
  destruct (toTypeNode_entry_in_step key value (Old.toTypeNode env value)
              (toTypeNode env value) record old c Hrel Hv) as [H1 H2].
  destruct (Old.toTypeNode_entry env key value (Old.toTypeNode env value) record old)
    as [[r | e] o1];
    destruct (toTypeNode_entry env key value (toTypeNode env value) record c)
      as [[r' | e'] c1]; cbn [fst snd] in *; try discriminate.
  - injection H1 as <-. now apply IH.
  - split; assumption.
Qed.

Lemma toTypeNode_items_in_step items :
  Forall (in_step env) items ->
  forall i record old c, related old c ->
    fst (Old.toTypeNode_items env i items record old)
    = fst (toTypeNode_items env i items record c) /\
    related (snd (Old.toTypeNode_items env i items record old))
            (snd (toTypeNode_items env i items record c)).
Proof.
  induction 1 as [| value rest Hv _ IH]; intros i record old c Hrel; [split; auto |].
  cbn [Old.toTypeNode_items toTypeNode_items].
  destruct (toTypeNode_entry_in_step (decimal i) value (Old.toTypeNode env value)
              (toTypeNode env value) record old c Hrel Hv) as [H1 H2].
  destruct (Old.toTypeNode_entry env (decimal i) value (Old.toTypeNode env value) record old)
    as [[r | e] o1];
    destruct (toTypeNode_entry env (decimal i) value (toTypeNode env value) record c)
      as [[r' | e'] c1]; cbn [fst snd] in *; try discriminate.
  - injection H1 as <-. now apply IH.
  - split; assumption.
Qed.

Lemma toTypeNode_in_step (v : YamlValue number) : in_step env v.
Proof.
  induction v as [n | s | b | | items IH | entries IH] using YamlValue_tree_ind;
    intros old c Hrel; try (split; [reflexivity | exact Hrel]).
  - cbn [Old.toTypeNode toTypeNode].
    match goal with
    | |- context [fold_left ?f (string_entries 0 s) (Normal JsObject.empty, old)] =>
        set (ostep := f)
    end.
    match goal with
    | |- context [fold_left ?f (string_entries 0 s) (Normal JsObject.empty, c)] =>
        set (step := f)
    end.
    assert (G : forall es ost st,
               fst ost = fst st -> related (snd ost) (snd st) ->
               fst (fold_left ostep es ost) = fst (fold_left step es st) /\
               related (snd (fold_left ostep es ost)) (snd (fold_left step es st))).
    { induction es as [| entry es IHes]; intros ost st Hf Hr; cbn [fold_left];
        [split; assumption |].
      destruct ost as [[r | e] o1], st as [[r' | e'] c1]; cbn [fst snd] in Hf, Hr;
        try discriminate; unfold ostep at 2, step at 2.
      - injection Hf as <-.
        destruct (toTypeNode_entry_in_step (fst entry) (snd entry)
                    (fun ctx => (Throw TypeError, ctx)) (fun ctx => (Throw TypeError, ctx))
                    r o1 c1 Hr (fun o' c' H => conj eq_refl H)) as [H1 H2].
        now apply IHes.
      - now apply IHes. }
    destruct (G (string_entries 0 s) (Normal JsObject.empty, old)
                (Normal JsObject.empty, c) eq_refl Hrel) as [H1 H2].
    destruct (fold_left ostep (string_entries 0 s) (Normal JsObject.empty, old))
      as [[r | e] o1];
      destruct (fold_left step (string_entries 0 s) (Normal JsObject.empty, c))
        as [[r' | e'] c1]; cbn [fst snd] in *; try discriminate; split; auto; congruence.
  - rewrite old_toTypeNode_array, toTypeNode_array.
    destruct (toTypeNode_items_in_step items IH 0 JsObject.empty old c Hrel) as [H1 H2].
    destruct (Old.toTypeNode_items env 0 items JsObject.empty old) as [[r | e] o1];
      destruct (toTypeNode_items env 0 items JsObject.empty c) as [[r' | e'] c1];
      cbn [fst snd] in *; try discriminate; split; auto; congruence.
  - rewrite old_toTypeNode_object, toTypeNode_object.
    destruct (toTypeNode_loop_in_step entries IH JsObject.empty old c Hrel) as [H1 H2].
    destruct (Old.toTypeNode_loop env entries JsObject.empty old) as [[r | e] o1];
      destruct (toTypeNode_loop env entries JsObject.empty c) as [[r' | e'] c1];
      cbn [fst snd] in *; try discriminate; split; auto; congruence.
Qed.

Lemma build_in_step files : forall old c, related old c ->
  fst (Old.build env files old) = fst (build env files c) /\
  related (snd (Old.build env files old)) (snd (build env files c)).
Proof.
  induction files as [| file rest IH]; intros old c Hrel; [split; auto |].
  cbn [Old.build build].
  destruct (toTypeNode_in_step (NamedValue.value file) old c Hrel) as [H1 H2].
  destruct (Old.toTypeNode env (NamedValue.value file) old) as [[t | e] o1];
    destruct (toTypeNode env (NamedValue.value file) c) as [[t' | e'] c1];
    cbn [fst snd] in *; try discriminate; [| split; [congruence | assumption]].
  injection H1 as <-. destruct (IH o1 c1 H2) as [I1 I2].
  destruct (Old.build env rest o1) as [[ns | e] o2];
    destruct (build env rest c1) as [[ns' | e'] c2];
    cbn [fst snd] in *; try discriminate; split; auto; congruence.
Qed.

Lemma merge_check_in_step source_value name old c entry :
  related old c ->
  related (Old.merge_check env kind_text source_value old entry)
          (merge_check env source_value name c entry).
Proof.
  intros Hrel. destruct entry as [key value]. unfold Old.merge_check, merge_check, JsObject.lookup.
  destruct (JsObject.get key source_value) as [source_key |].
  - destruct (negb (kind_eqb (kind source_key) (kind value)));
      [apply related_push_error | exact Hrel].
  - destruct (JsObject.inherited key);
      [apply related_push_error | apply related_push_missing].
Qed.

Lemma merge_checks_in_step source_value name entries : forall old c,
  related old c ->
  related (fold_left (Old.merge_check env kind_text source_value) entries old)
          (fold_left (merge_check env source_value name) entries c).
Proof.
  induction entries as [| entry rest IH]; intros old c Hrel; [exact Hrel |].
  cbn [fold_left]. apply IH. now apply merge_check_in_step.
Qed.

Lemma merge_visit_in_step name key value orecur recur target old c :
  related old c ->
  (forall t old' c', related old' c' ->
     fst (orecur t old') = fst (recur t c') /\
     related (snd (orecur t old')) (snd (recur t c'))) ->
  fst (Old.merge_visit env kind_text key value orecur target old)
  = fst (merge_visit env name key value recur target c) /\
  related (snd (Old.merge_visit env kind_text key value orecur target old))
          (snd (merge_visit env name key value recur target c)).
Proof.
  intros Hrel Hrecur. unfold Old.merge_visit, merge_visit, JsObject.lookup.
  destruct (JsObject.get key (record_value target)) as [tv |].
  - destruct (isStringType tv && isStringType value); [split; auto |].
    destruct (isCallType tv && isCallType value).
    + destruct tv as [x | tb | tkv tkf], value as [y | sb | vv vf]; try (split; auto; fail).
      destruct (negb (arrayEq (filter isParamArgType tb) (filter isParamArgType sb) arg_name));
        cbn [fst snd]; split; auto. apply related_push_error.
    + destruct (isRecordType tv && isRecordType value).
      * destruct (related_inPathContext key old c (orecur tv) (recur tv) Hrel (Hrecur tv))
          as [H1 H2].
        destruct (Old.inPathContext old key (orecur tv)) as [m1 o1].
        destruct (inPathContext c key (recur tv)) as [m2 c1].
        cbn [fst snd] in *. subst m2. split; auto.
      * cbn [fst snd]. split; [reflexivity | apply related_push_error].
  - destruct (JsObject.inherited key);
      [cbn [fst snd]; split; [reflexivity | apply related_push_error] |].
    destruct (isMissingRecordTypeDescriptor target); cbn [fst snd]; split; auto.
    apply related_push_exists.
Qed.

Lemma merge_in_step source : forall target name old c,
  related old c ->
  fst (Old.merge env kind_text target source old) = fst (merge env target source name c) /\
  related (snd (Old.merge env kind_text target source old))
          (snd (merge env target source name c)).
Proof.
  induction source as [x | x | sv sflag IH] using TypeDescriptor_tree_ind;
    intros target name old c Hrel; try (split; [reflexivity | exact Hrel]).
  rewrite old_merge_unfold, merge_unfold. cbv zeta.
  pose proof (merge_checks_in_step sv name (JsObject.entries (record_value target)) old c
                Hrel) as H1.
  set (o1 := fold_left (Old.merge_check env kind_text sv) _ old) in *.
  set (c1 := fold_left (merge_check env sv name) _ c) in *.
  clearbody o1 c1.
  assert (G : forall es t o0 c0,
             incl es sv -> related o0 c0 ->
             fst (Old.merge_loop env kind_text es t o0) = fst (merge_loop env name es t c0) /\
             related (snd (Old.merge_loop env kind_text es t o0))
                     (snd (merge_loop env name es t c0))).
  { induction es as [| [key value] es IHes]; intros t o0 c0 Hincl Hr; [split; auto |].
    rewrite old_merge_loop_cons, merge_loop_cons.
    rewrite Forall_forall in IH.
    destruct (merge_visit_in_step name key value
                (fun targetValue ctx => Old.merge env kind_text targetValue value ctx)
                (fun targetValue ctx => merge env targetValue value name ctx)
                t o0 c0 Hr
                (fun t' o' c' H =>
                   IH (key, value) (Hincl _ (or_introl eq_refl)) t' name o' c' H))
      as [V1 V2].
    destruct (Old.merge_visit env kind_text key value _ t o0) as [t1 o2].
    destruct (merge_visit env name key value _ t c0) as [t2 c2].
    cbn [fst snd] in V1, V2. subst t2.
    apply IHes; [intros x Hx; apply Hincl; now right | exact V2]. }
  destruct (G (JsObject.entries sv) target o1 c1 (incl_refl _) H1) as [G1 G2].
  destruct (Old.merge_loop env kind_text (JsObject.entries sv) target o1) as [t1 o2].
  destruct (merge_loop env name (JsObject.entries sv) target c1) as [t2 c2].
  cbn [fst snd] in *. subst t2. split; auto.
Qed.

Lemma fold_in_step nodes : forall init old c,
  related old c ->
  fst (Old.fold env kind_text nodes init old) = fst (fold env nodes init c) /\
  related (snd (Old.fold env kind_text nodes init old)) (snd (fold env nodes init c)).
Proof.
  unfold Old.fold, fold.
  induction nodes as [| node rest IH]; intros init old c Hrel; [split; auto |].
  cbn [fold_left fst snd].
  destruct (merge_in_step (NamedValue.value node) init (NamedValue.name node) old c Hrel)
    as [H1 H2].
  destruct (Old.merge env kind_text init (NamedValue.value node) old) as [t1 o1].
  destruct (merge env init (NamedValue.value node) (NamedValue.name node) c) as [t2 c1].
  cbn [fst snd] in *. subst t2. now apply IH.
Qed.

Lemma related_fresh : related Old.fresh_context fresh_context.
Proof. split; [intros _; split; reflexivity | reflexivity]. Qed.
End Revisions.

(** X23.  The two revisions accept the same locales.  On a list of at
    least one parsed file, the earlier generator gets to its printer
    exactly when the later one returns code, and throws a TypeError exactly
    when the later one does; when it gets to its printer, the schema it
    prints is the canonical schema of the later revision, the trees are the
    trees the later revision builds, and the default language is the name
    of the first file. *)
Theorem revisions_accept_the_same {number : Type} (env : Collaborators number)
    (kind_text : TypeDescriptorKind -> string) files target lazy defaultLanguage :
  files <> [] ->
  ((exists r, Old.check env kind_text files = Normal r) <->
   (exists out, gen env files target lazy defaultLanguage = Normal out)) /\
  (Old.check env kind_text files = Throw TypeError <->
   gen env files target lazy defaultLanguage = Throw TypeError) /\
  (forall merged nodes name,
     Old.check env kind_text files = Normal (merged, nodes, name) ->
     canonical env files = Some merged /\
     fst (build env files fresh_context) = Normal nodes /\
     first (map NamedValue.name files) = Some name).
Proof.
  intros Hfiles.
  destruct (build_in_step env files Old.fresh_context fresh_context related_fresh)
    as [B1 B2].
  unfold Old.check, canonical.
  destruct (Old.build env files Old.fresh_context) as [[onodes | oe] o0];
    destruct (build env files fresh_context) as [[nodes | e] c0] eqn:Hbuild;
    cbn [fst snd] in B1, B2; try discriminate.
  - injection B1 as ->.
    destruct (fold_in_step env kind_text nodes createMissingRecordTypeDescriptor o0 c0 B2)
      as [F1 F2].
    pose proof (gen_normal_iff env files target lazy defaultLanguage nodes c0 Hbuild)
      as Hnormal.
    assert (Hcanonical :
              fst (unify env (JsSet.of_list (map NamedValue.name files)) nodes c0)
              = fst (fold env nodes createMissingRecordTypeDescriptor c0)).
    { unfold unify. now destruct (fold env nodes createMissingRecordTypeDescriptor c0). }
    rewrite Hcanonical.
    destruct (Old.fold env kind_text nodes createMissingRecordTypeDescriptor o0)
      as [merged o1].
    cbn [fst snd] in F1, F2.
    destruct files as [| file rest]; [now elim Hfiles |]. cbn [first hd_error map].
    destruct (Old.errors o1) as [| msg l] eqn:Eerr;
      cbn [List.length Nat.eqb negb].
    + repeat split.
      * intros _. apply Hnormal. now apply F2.
      * intros _. eexists. reflexivity.
      * discriminate.
      * intros Hgen. destruct (proj2 Hnormal (proj1 F2 Eerr)) as [out Hout].
        congruence.
      * injection H as <- _ _. congruence.
      * injection H as _ <- _. reflexivity.
      * injection H as _ _ <-. reflexivity.
    + repeat split; try discriminate.
      * intros [r H]. discriminate.
      * intros H. apply Hnormal in H. apply F2 in H. congruence.
      * intros Hgen. exfalso. unfold gen in Hgen. rewrite Hbuild in Hgen.
        destruct (unify env _ nodes c0) as [m cu].
        destruct (negb (Nat.eqb (JsSet.size (errors cu)) 0)); discriminate.
  - injection B1 as ->. repeat split; try discriminate.
    + intros [r H]. discriminate.
    + intros [out H]. unfold gen in H. rewrite Hbuild in H. discriminate.
    + intros H. unfold gen. rewrite Hbuild. congruence.
    + intros H. unfold gen in H. rewrite Hbuild in H. congruence.
Qed.

Lemma revisions_accept_the_same_witness :
  (exists r,
     Old.check Sample.collaborators Sample.kind_name
       [Sample.locale "en" [("title", YString "Hello")];
        Sample.locale "fr" [("title", YString "Bonjour")]] = Normal r) <->
  (exists out,
     Sample.gen [Sample.locale "en" [("title", YString "Hello")];
                 Sample.locale "fr" [("title", YString "Bonjour")]]
       None false None = Normal out).
Proof.
  apply (revisions_accept_the_same Sample.collaborators Sample.kind_name
           [Sample.locale "en" [("title", YString "Hello")];
            Sample.locale "fr" [("title", YString "Bonjour")]] None false None).
  discriminate.
Defined.

(** * The composite error *)

(** X24.  The composite error never lists a diagnostic twice: whenever
    the run throws an error that is not the TypeError of a null, every
    locale was built and the message is the composite of the error set the
    run tests (gen.ts line 224), which is not empty and holds no diagnostic
    twice. *)
Theorem composite_lists_each_diagnostic_once {number : Type} (env : Collaborators number)
    files target lazy defaultLanguage message :
  gen env files target lazy defaultLanguage = Throw (Error message) ->
  exists errs,
    diagnostics env files = Some errs /\
    message = composite errs /\ errs <> [] /\ NoDup errs.
Proof.
  unfold gen, diagnostics.
  pose proof (build_extends env files fresh_context) as Hb.
  destruct (build env files fresh_context) as [[nodes | e] c0] eqn:Hbuild.
  - pose proof (unify_context env (JsSet.of_list (map NamedValue.name files)) nodes c0)
      as Hu.
    destruct (unify env (JsSet.of_list (map NamedValue.name files)) nodes c0) as [merged cu].
    cbn [snd] in Hu, Hb.
    destruct (errors cu) as [| msg l] eqn:E; cbn [JsSet.size List.length Nat.eqb negb];
      [discriminate |].
    intros [= <-]. exists (msg :: l).
    split; [cbn [snd]; now rewrite E |]. split; [reflexivity |]. split; [discriminate |].
    rewrite <- E, Hu.
    apply (extends_errors_NoDup _ _ (report_missing_extends env _ _)).
    apply (extends_errors_NoDup _ _ (fold_extends env nodes _ c0)).
    apply (extends_errors_NoDup _ _ Hb). constructor.
  - intros [= ->]. exfalso.
    assert (G : gen env files target lazy defaultLanguage = Throw (Error message))
      by (unfold gen; now rewrite Hbuild).
    assert (H : gen env files target lazy defaultLanguage <> Throw TypeError)
      by (rewrite G; discriminate).
    apply H. unfold gen. rewrite Hbuild. clear G H.
    assert (Hthrow : forall fs c ns e' c',
               build env fs c = (ns, c') -> ns = Throw e' -> e' = TypeError).
    { induction fs as [| f rest IH]; intros c ns e' c'; cbn [build].
      - intros [= <- _]. discriminate.
      - pose proof (toTypeNode_raises env (NamedValue.value f) c) as [R1 R2].
        destruct (has_null (NamedValue.value f)).
        + specialize (R1 eq_refl).
          destruct (toTypeNode env (NamedValue.value f) c) as [[t | e0] c1];
            cbn [fst] in R1; [discriminate |].
          intros [= <- _] [= <-]. congruence.
        + destruct (R2 eq_refl) as [t Ht].
          destruct (toTypeNode env (NamedValue.value f) c) as [[t' | e0] c1];
            cbn [fst] in Ht; [| discriminate].
          destruct (build env rest c1) as [[ns' | e0] c2] eqn:Er.
          * intros [= <- _]. discriminate.
          * intros [= <- _] [= <-]. exact (IH _ _ _ _ Er eq_refl). }
    now rewrite (Hthrow files fresh_context _ (Error message) c0 Hbuild eq_refl).
Qed.

Lemma composite_lists_each_diagnostic_once_witness :
  exists errs,
    diagnostics Sample.collaborators
      [Sample.locale "A" [("x", YString "1"); ("y", YString "2")];
       Sample.locale "B" [("x", YString "1")]] = Some errs /\
    (newline ++ "Errors:" ++ newline ++ "  1. .y is missing in B" ++ newline)%string
    = composite errs /\ errs <> [] /\ NoDup errs.
Proof.
  exact (composite_lists_each_diagnostic_once Sample.collaborators
           [Sample.locale "A" [("x", YString "1"); ("y", YString "2")];
            Sample.locale "B" [("x", YString "1")]] None false None
           (newline ++ "Errors:" ++ newline ++ "  1. .y is missing in B" ++ newline)%string
           eq_refl).
Defined.
